(** * imodels: additive multi-output trees (AFIGS) and alternating tree
    optimisation (TaoTree)

    A shallow embedding of [src/imodels/tree/anova-figs.py] and
    [src/imodels/tree/tao.py].

    - Python floats are modelled by exact rationals ([Q]); NaN, infinities
      and rounding are outside the model.
    - An exception is an outcome [Exn e]; attribute and array updates made
      before it was raised stay in the state, as they do in Python.
    - scikit-learn and NumPy's random source are collaborators: they enter
      as section variables, and worked examples instantiate them.
    - A [while] loop that the code does not bound runs on a step budget;
      running out of it is the separate outcome [Fuel]. *)

From Stdlib Require Import ZArith QArith Qabs Lia.
From stdpp Require Import base option list strings gmap.

Open Scope Z_scope.

(** ** Outcomes of a Python computation *)

Inductive exn : Type :=
| TypeError
| IndexError
| ValueError
| KeyError
| UnboundLocalError
| AttributeError
| RecursionError
(** raised by the model alone, where it follows a reference to a node
    that was never created; no run of the Python code gets there *)
| SystemError.

Inductive result (A : Type) : Type :=
| Val (a : A)
| Exn (e : exn)
| Fuel.

Arguments Val {A} a.
Arguments Exn {A} e.
Arguments Fuel {A}.

#[global] Instance result_ret : MRet result := fun A a => Val a.

#[global] Instance result_bind : MBind result := fun A B f r =>
  match r with
  | Val a => f a
  | Exn e => Exn e
  | Fuel => Fuel
  end.

(** Computations over a mutable object of type [St]. *)
Definition M (St A : Type) : Type := St -> St * result A.

#[global] Instance M_ret {St} : MRet (M St) := fun A a s => (s, Val a).

#[global] Instance M_bind {St} : MBind (M St) := fun A B f c s =>
  match c s with
  | (s', Val a) => f a s'
  | (s', Exn e) => (s', Exn e)
  | (s', Fuel) => (s', Fuel)
  end.

Definition get {St} : M St St := fun s => (s, Val s).
Definition put {St} (s : St) : M St unit := fun _ => (s, Val tt).
Definition modify {St} (f : St -> St) : M St unit := fun s => (f s, Val tt).
Definition lift {St A} (r : result A) : M St A := fun s => (s, r).
Definition raise {St A} (e : exn) : M St A := fun s => (s, Exn e).

(** [c] never runs out of budget. *)
Definition ends {St A} (c : M St A) : Prop := forall s, (c s).2 <> Fuel.

(** [for x in l: acc = f(acc, x)], stopping at the first exception. *)
Fixpoint foldM {St A B} (f : B -> A -> M St B) (l : list A) (b : B) : M St B :=
  match l with
  | [] => mret b
  | x :: l' => b' ← f b x; foldM f l' b'
  end.

Fixpoint forM {A B} (l : list A) (f : A -> result B) : result (list B) :=
  match l with
  | [] => Val []
  | x :: l' => b ← f x; bs ← forM l' f; Val (b :: bs)
  end.

(** The same loop for a computation that touches no object. *)
Fixpoint foldR {A B} (f : B -> A -> result B) (l : list A) (b : B) : result B :=
  match l with
  | [] => Val b
  | x :: l' => b' ← f b x; foldR f l' b'
  end.

(** [enumerate(l)] *)
Definition enumerate {A} (l : list A) : list (nat * A) := zip (seq 0 (length l)) l.

(** [l.pop()]: the list without its last element, and that element. *)
Definition pop {A} (l : list A) : option (list A * A) :=
  match reverse l with
  | [] => None
  | x :: r => Some (reverse r, x)
  end.

(** ** NumPy arrays *)

(** A two-dimensional float array: [shape1] columns, one list per row. *)
Record matrix : Type := Matrix { shape1 : nat; rows : list (list Q) }.

Definition shape0 (X : matrix) : nat := length (rows X).

(** An index into an axis of length [len]; negative indices count from
    the end, anything else is an [IndexError]. *)
Definition np_index (len : nat) (i : Z) : result nat :=
  if (0 <=? i) && (i <? Z.of_nat len) then Val (Z.to_nat i)
  else if (- Z.of_nat len <=? i) && (i <? 0) then Val (Z.to_nat (i + Z.of_nat len))
  else Exn IndexError.

(** [l[i]] *)
Definition np_get {A} (l : list A) (i : Z) : result A :=
  k ← np_index (length l) i;
  match l !! k with
  | Some a => Val a
  | None => Exn IndexError
  end.

(** [l[i] = a] *)
Definition np_set {A} (l : list A) (i : Z) (a : A) : result (list A) :=
  k ← np_index (length l) i; Val (<[k:=a]> l).

(** [X[:, f]] *)
Definition get_col (X : matrix) (f : Z) : result (list Q) :=
  k ← np_index (shape1 X) f; Val (map (fun r => nth k r 0%Q) (rows X)).

Fixpoint select {A} (l : list A) (idxs : list bool) : list A :=
  match l, idxs with
  | a :: l', b :: idxs' => if b then a :: select l' idxs' else select l' idxs'
  | _, _ => []
  end.

(** [l[idxs]] for a boolean mask: the mask has to be as long as the axis. *)
Definition np_mask {A} (l : list A) (idxs : list bool) : result (list A) :=
  if (length l =? length idxs)%nat then Val (select l idxs) else Exn IndexError.

(** [X[idxs]] *)
Definition mask_rows (X : matrix) (idxs : list bool) : result matrix :=
  r ← np_mask (rows X) idxs; Val (Matrix (shape1 X) r).

(** [np.sum] of a boolean mask. *)
Definition mask_sum (idxs : list bool) : Z := Z.of_nat (length (filter (fun b => b = true) idxs)).

Definition Qsum (l : list Q) : Q := fold_left Qplus l 0%Q.

Definition str_eq (a b : string) : bool := String.eqb a b.

(** * tao.py: [TaoTree] *)

Module TaoTree.

(** ['L'] and ['R'] in a root-to-node path. *)
Inductive direction : Type := L | R.

Definition path : Type := list (Z * direction).

(** [self.model.tree_]: the parallel arrays of the fitted tree.  The
    arrays are views of the tree's own memory, so writing to them
    changes the tree that [self.model.score] reads.  [value[i]] is kept
    as the row of the single output. *)
Record tree : Type := Tree {
  children_left : list Z;
  children_right : list Z;
  feature : list Z;
  threshold : list Q;
  value : list (list Q)
}.

(** The attributes [__init__] stores. *)
Record estimator : Type := Estimator {
  model_type : string;
  reg_param : Q;
  n_iters : Z;
  randomize_tree : bool;
  min_node_samples_tao : Z;
  min_leaf_samples_tao : Z;
  node_model : string;
  weight_errors : bool;
  prediction_task : string
}.

(** The one-feature models the inner loop of [_tao_iter_cart] creates. *)
Inductive model_kind : Type :=
| LogisticRegression
| DecisionTreeClassifier
| LinearRegression
| DecisionTreeRegressor.

Definition set_feature (node_id : Z) (f : Z) : M tree unit :=
  t ← get;
  a ← lift (np_set (feature t) node_id f);
  put (Tree (children_left t) (children_right t) a (threshold t) (value t)).

Definition set_threshold (node_id : Z) (q : Q) : M tree unit :=
  t ← get;
  a ← lift (np_set (threshold t) node_id q);
  put (Tree (children_left t) (children_right t) (feature t) a (value t)).

Definition set_value (node_id : Z) (v : list Q) : M tree unit :=
  t ← get;
  a ← lift (np_set (value t) node_id v);
  put (Tree (children_left t) (children_right t) (feature t) (threshold t) a).

(** Lines 151-159: the depth-first list of (node, path to the node).
    The head of [stack] is the end of the Python list; [acc] is
    [indexes_with_prefix_paths] in reverse. *)
Fixpoint node_paths (fuel : nat) (t : tree) (stack acc : list (Z * path))
  : result (list (Z * path)) :=
  match stack with
  | [] => Val (reverse acc)
  | (node_id, p) :: stack' =>
      match fuel with
      | O => Fuel
      | S fuel' =>
          cl ← np_get (children_left t) node_id;
          cr ← np_get (children_right t) node_id;
          if negb (cl =? cr) then
            node_paths fuel' t
              ((cr, p ++ [(node_id, R)]) :: (cl, p ++ [(node_id, L)]) :: stack')
              ((node_id, p) :: acc)
          else node_paths fuel' t stack' ((node_id, p) :: acc)
      end
  end.

(** Lines 168-179. *)
Fixpoint filter_points_by_path (t : tree) (X : matrix) (y : list Q) (p : path)
  : result (matrix * list Q) :=
  match p with
  | [] => Val (X, y)
  | (node_id, d) :: p' =>
      f ← np_get (feature t) node_id;
      col ← get_col X f;
      thr ← np_get (threshold t) node_id;
      let idxs := map (fun x => Qle_bool x thr) col in
      let idxs := match d with R => map negb idxs | L => idxs end in
      X' ← mask_rows X idxs;
      y' ← np_mask y idxs;
      filter_points_by_path t X' y' p'
  end.

(** Lines 229-232: the two absolute errors of each row, and the side
    with the smaller one (the first on a tie).  [check_X_y] on line 100
    gives [y] one entry per row of [X], so the three vectors have the
    same length. *)
Definition y_node_absolute_errors (y_node y_node_left y_node_right : list Q)
  : list (Q * Q) :=
  zip (map Qabs (zip_with Qminus y_node y_node_left))
      (map Qabs (zip_with Qminus y_node y_node_right)).

Definition y_node_target (errors : list (Q * Q)) : list Z :=
  map (fun e => if Qle_bool (fst e) (snd e) then 0 else 1) errors.

(** [np.abs(x, out)]: the second positional argument of [np.abs] is the
    output buffer.  The absolute values of [x] are written into [out],
    and [out] is what the call returns. *)
Definition np_abs (x out : list Q) : list Q := map Qabs x.

(** Lines 235-238. *)
Definition sample_weight (self : estimator) (y_node : list Q) (errors : list (Q * Q))
  : list Q :=
  if weight_errors self then np_abs (map snd errors) (map fst errors)
  else map (fun _ => 1%Q) y_node.

(** Lines 246-255: the model one pass of the feature loop binds to [m];
    with any other task or node model no branch assigns [m]. *)
Definition new_model (self : estimator) : result model_kind :=
  if str_eq (prediction_task self) "classification" then
    if str_eq (node_model self) "linear" then Val LogisticRegression
    else if str_eq (node_model self) "stump" then Val DecisionTreeClassifier
    else Exn UnboundLocalError
  else if str_eq (prediction_task self) "regression" then
    if str_eq (node_model self) "linear" then Val LinearRegression
    else if str_eq (node_model self) "stump" then Val DecisionTreeRegressor
    else Exn UnboundLocalError
  else Exn UnboundLocalError.

Section Collaborators.

(** A fitted one-feature model, and what the code reads from it. *)
Context {fitted : Type}.
Variable model_fit : model_kind -> list Q -> list Z -> list Q -> result fitted.
Variable model_score : fitted -> list Q -> list Z -> list Q -> result Q.
(** [-m.intercept_ / m.coef_[0]] *)
Variable linear_threshold : fitted -> result Q.
(** [m.tree_.feature[0]] *)
Variable stump_feature0 : fitted -> result Z.
(** [self.model.score(X, y)] on the current arrays. *)
Variable tree_score : tree -> matrix -> list Q -> Q.
Variable np_mean : list Q -> Q.
Variable np_median : list Q -> Q.
(** The permutation [np.random.shuffle] applies. *)
Variable shuffle : list Z -> list Z.
(** [sys.getrecursionlimit()] *)
Variable recursion_limit : nat.

(** [value[node_id]] read as a number ([preds[i] = value[node_id]]). *)
Definition as_scalar (v : list Q) : result Q :=
  match v with
  | [q] => Val q
  | _ => Exn ValueError
  end.

(** Lines 205-215, the prediction of one row from [node_id] down. *)
Fixpoint predict_row (depth : nat) (self : estimator) (t : tree) (x : list Q)
    (node_id : Z) : result Q :=
  match depth with
  | O => Exn RecursionError
  | S depth' =>
      let descend :=
        f ← np_get (feature t) node_id;
        xf ← np_get x f;
        thr ← np_get (threshold t) node_id;
        if Qle_bool xf thr then
          c ← np_get (children_left t) node_id; predict_row depth' self t x c
        else
          c ← np_get (children_right t) node_id; predict_row depth' self t x c in
      cl ← np_get (children_left t) node_id;
      cr ← np_get (children_right t) node_id;
      if cl =? cr then
        if str_eq (prediction_task self) "regression" then
          v ← np_get (value t) node_id; as_scalar v
        else if str_eq (prediction_task self) "classification" then
          v ← np_get (value t) node_id; np_get v 1
        else descend
      else descend
  end.

(** Lines 202-220. *)
Definition predict_from_node (self : estimator) (t : tree) (X : matrix) (node_id : Z)
  : result (list Q) :=
  forM (rows X) (fun x => predict_row recursion_limit self t x node_id).

(** The variables of the feature loop, lines 242-261. *)
Record search : Type := Search {
  best_score : option Q;
  best_feat : option Z;
  best_model : option fitted;
  m : option fitted
}.

Definition search_step (self : estimator) (X_node : matrix) (target : list Z)
    (w : list Q) (s : search) (feat_num : nat) : result search :=
  kind ← new_model self;
  let col := map (fun r => nth feat_num r 0%Q) (rows X_node) in
  mm ← model_fit kind col target w;
  score ← model_score mm col target w;
  let better :=
    match best_score s with
    | None => true
    | Some b => negb (Qle_bool score b)
    end in
  if better then
    Val (Search (Some score) (Some (Z.of_nat feat_num)) (Some mm) (Some mm))
  else Val (Search (best_score s) (best_feat s) (best_model s) (Some mm)).

Fixpoint search_loop (self : estimator) (X_node : matrix) (target : list Z)
    (w : list Q) (feats : list nat) (s : search) : result search :=
  match feats with
  | [] => Val s
  | feat_num :: feats' =>
      s' ← search_step self X_node target w s feat_num;
      search_loop self X_node target w feats' s'
  end.

(** Lines 262-265.  With the stump node model the threshold is read
    from the model of the last feature tried, and it is that stump's
    root feature index. *)
Definition best_threshold (self : estimator) (s : search) : result (option Q) :=
  if str_eq (node_model self) "linear" then
    match best_model s with
    | Some bm => q ← linear_threshold bm; Val (Some q)
    | None => Exn AttributeError
    end
  else if str_eq (node_model self) "stump" then
    match m s with
    | Some mm => f ← stump_feature0 mm; Val (Some (inject_Z f))
    | None => Exn UnboundLocalError
    end
  else Val None.

(** Lines 269-285: write the candidate, score the whole tree, and keep
    the candidate or put the old pair back.  The result says whether
    the update was counted. *)
Definition update_node (X : matrix) (y : list Q) (node_id : Z)
    (bf : option Z) (bt : option Q) : M tree bool :=
  t ← get;
  old_feat ← lift (np_get (feature t) node_id);
  old_threshold ← lift (np_get (threshold t) node_id);
  let old_score := tree_score t X y in
  f ← lift (match bf with Some f => Val f | None => Exn TypeError end);
  set_feature node_id f;;
  q ← lift (match bt with Some q => Val q | None => Exn UnboundLocalError end);
  set_threshold node_id q;;
  t' ← get;
  let new_score := tree_score t' X y in
  if Qle_bool new_score old_score then
    set_feature node_id old_feat;;
    set_threshold node_id old_threshold;;
    mret false
  else mret true.

(** Lines 201-285, the step at a node that is not a leaf and has
    enough rows. *)
Definition internal_node_step (self : estimator) (X : matrix) (y : list Q)
    (X_node : matrix) (y_node : list Q) (node_id : Z) : M tree bool :=
  t ← get;
  cl ← lift (np_get (children_left t) node_id);
  y_node_left ← lift (predict_from_node self t X_node cl);
  cr ← lift (np_get (children_right t) node_id);
  y_node_right ← lift (predict_from_node self t X_node cr);
  let errors := y_node_absolute_errors y_node y_node_left y_node_right in
  let target := y_node_target errors in
  let w := sample_weight self y_node errors in
  s ← lift (search_loop self X_node target w (seq 0 (shape1 X))
              (Search None None None None));
  bt ← lift (best_threshold self s);
  update_node X y node_id (best_feat s) bt.

(** Lines 181-199 and the dispatch on the kind of node. *)
Definition node_step (self : estimator) (X : matrix) (y : list Q)
    (node_id : Z) (p : path) : M tree bool :=
  t ← get;
  Xy ← lift (filter_points_by_path t X y p);
  let X_node := fst Xy in
  let y_node := snd Xy in
  cl ← lift (np_get (children_left t) node_id);
  cr ← lift (np_get (children_right t) node_id);
  if cl =? cr then
    if str_eq (prediction_task self) "regression"
       && (min_leaf_samples_tao self <=? Z.of_nat (shape0 X_node)) then
      v ← lift (np_get (value t) node_id);
      set_value node_id (map (fun _ => np_mean y_node) v);;
      mret false
    else mret false
  else if Z.of_nat (shape0 X_node) <? min_node_samples_tao self then mret false
  else internal_node_step self X y X_node y_node node_id.

(** Lines 128-287. *)
Definition _tao_iter_cart (fuel : nat) (self : estimator) (X : matrix) (y : list Q)
  : M tree Z :=
  t ← get;
  indexes_with_prefix_paths ← lift (node_paths fuel t [(0, [])] []);
  foldM (fun num_updates np =>
           updated ← node_step self X y (fst np) (snd np);
           mret (if updated : bool then num_updates + 1 else num_updates))
        indexes_with_prefix_paths 0.

(** Lines 121-124. *)
Fixpoint sweeps (iters fuel : nat) (self : estimator) (X : matrix) (y : list Q)
  : M tree unit :=
  match iters with
  | O => mret tt
  | S iters' =>
      num_updates ← _tao_iter_cart fuel self X y;
      if num_updates =? 0 then mret tt else sweeps iters' fuel self X y
  end.

(** Lines 114-119. *)
Definition randomize (X : matrix) : M tree unit :=
  modify (fun t => Tree (children_left t) (children_right t) (shuffle (feature t))
                     (threshold t) (value t));;
  t ← get;
  foldM (fun _ i =>
           t ← get;
           f ← lift (np_get (feature t) (Z.of_nat i));
           col ← lift (get_col X f);
           set_threshold (Z.of_nat i) (np_median col))
        (seq 0 (length (children_left t))) tt.

(** Lines 114-126 of [fit], run on the tree the CART fit built from
    the validated [X] and [y]. *)
Definition fit (fuel : nat) (self : estimator) (X : matrix) (y : list Q) : M tree unit :=
  (if randomize_tree self then randomize X else mret tt);;
  sweeps (Z.to_nat (n_iters self)) fuel self X y.

End Collaborators.

(** Every array of the tree has one entry per node. *)
Definition node_count_ok (t : tree) : Prop :=
  length (children_right t) = length (children_left t) /\
  length (feature t) = length (children_left t) /\
  length (threshold t) = length (children_left t) /\
  length (value t) = length (children_left t).

(** [t'] has the nodes and the children of [t], and the [value] entry
    of every split node of [t]. *)
Definition same_topology (t t' : tree) : Prop :=
  children_left t' = children_left t /\
  children_right t' = children_right t /\
  length (feature t') = length (feature t) /\
  length (threshold t') = length (threshold t) /\
  length (value t') = length (value t) /\
  (node_count_ok t ->
   forall k a b,
     children_left t !! k = Some a -> children_right t !! k = Some b -> a <> b ->
     value t' !! k = value t !! k).

(** The weight the comment on line 234 announces: the difference
    between the two errors of a row. *)
Definition error_difference (errors : list (Q * Q)) : list Q :=
  map (fun e => Qabs (snd e - fst e)) errors.

(** ** The properties the optimiser is checked against *)

(** [p] lists the split nodes from [start] down to [node_id], each with
    the side taken, as the children arrays have them. *)
Fixpoint leads_to (t : tree) (start : Z) (p : path) (node_id : Z) : Prop :=
  match p with
  | [] => node_id = start
  | (k, d) :: p' =>
      k = start /\
      exists cl cr,
        np_get (children_left t) k = Val cl /\ np_get (children_right t) k = Val cr /\
        cl <> cr /\ leads_to t (match d with L => cl | R => cr end) p' node_id
  end.

(** Every entry of the list stands after the entry of its parent. *)
Definition parents_first (l : list (Z * path)) : Prop :=
  forall i c p k d,
    l !! i = Some (c, p ++ [(k, d)]) -> exists j, (j < i)%nat /\ l !! j = Some (k, p).

(** The test of one path entry on a row of a matrix with [ncols]
    columns. *)
Definition passes (t : tree) (ncols : nat) (x : list Q) (e : Z * direction) : bool :=
  match np_get (feature t) e.1, np_get (threshold t) e.1, e.2 with
  | Val f, Val thr, d =>
      match np_index ncols f with
      | Val c =>
          let b := Qle_bool (nth c x 0%Q) thr in
          match d with L => b | R => negb b end
      | _ => false
      end
  | _, _, _ => false
  end.

(** The children arrays of a tree as scikit-learn numbers it: both have
    one entry per node, and the two children of a split node are nodes
    with larger ids than the node itself. *)
Definition children_in_order (t : tree) : Prop :=
  length (children_right t) = length (children_left t) /\
  forall k cl cr,
    children_left t !! k = Some cl -> children_right t !! k = Some cr -> cl <> cr ->
    Z.of_nat k < cl < Z.of_nat (length (children_left t)) /\
    Z.of_nat k < cr < Z.of_nat (length (children_left t)).

(** The steps the walk can still spend below the node [k] of a tree of
    [count] nodes. *)
Definition walk_budget (count : nat) (k : Z) : nat :=
  (2 ^ Z.to_nat (Z.of_nat count - k) - 1)%nat.

(** The state of a sweep after some of its steps, against the tree [t]
    it started from: no value written, [num] updates counted, the tree
    still [t] when none was, its score above that of [t] when one
    was. *)
Definition sweep_ok (score : tree -> Q) (t : tree) (num : Z) (t' : tree) : Prop :=
  value t' = value t /\ 0 <= num /\
  (num = 0 -> t' = t) /\
  (0 < num -> (score t < score t')%Q).

End TaoTree.

(** * anova-figs.py: [AFIGS] *)

(** An array of shape [[n] + y_levels]: one row per sample, each row the
    cells of that sample in row-major order. *)
Definition tensor : Type := list (list Q).

(** [.astype(int)] on a float: truncation towards zero. *)
Definition Qtrunc (q : Q) : Z := Z.quot (Qnum q) (Z.pos (Qden q)).

Definition Qlt_bool (a b : Q) : bool := negb (Qle_bool b a).

Definition cells (levels : list Z) : nat :=
  fold_right (fun l acc => (Z.to_nat l * acc)%nat) 1%nat levels.

(** [np.zeros([n] + levels)] and [np.zeros(levels)] *)
Definition np_zeros (levels : list Z) : result (list Q) :=
  if forallb (fun l => 0 <=? l) levels then Val (replicate (cells levels) 0%Q)
  else Exn ValueError.

Definition np_zeros_rows (n : nat) (levels : list Z) : result tensor :=
  row ← np_zeros levels; Val (replicate n row).

(** The row-major position of the cell [idx] in an array of shape
    [levels], each coordinate indexed the NumPy way. *)
Fixpoint ravel (levels idx : list Z) (acc : nat) : result nat :=
  match levels, idx with
  | [], [] => Val acc
  | l :: levels', i :: idx' =>
      k ← np_index (Z.to_nat l) i;
      ravel levels' idx' (acc * Z.to_nat l + k)%nat
  | _, _ => Exn IndexError
  end.

(** The coordinates of the cell at row-major position [pos]. *)
Fixpoint unravel (levels : list Z) (pos : nat) : list Z :=
  match levels with
  | [] => []
  | l :: levels' =>
      let c := cells levels' in
      Z.of_nat (pos / c)%nat :: unravel levels' (pos mod c)%nat
  end.

(** All cells of an array of shape [levels], in row-major order. *)
Definition multi_indices (levels : list nat) : list (list nat) :=
  fold_right (fun l acc => flat_map (fun i => map (cons i) acc) (seq 0 l)) [[]] levels.

(** A float array of any shape: its shape, and its cells in row-major
    order. *)
Record ndarray : Type := NdArray { arr_shape : list Z; arr_cells : list Q }.

(** [l] cut into [k] runs of [c] cells. *)
Fixpoint chunks (k c : nat) (l : list Q) : list (list Q) :=
  match k with
  | O => []
  | S k' => take c l :: chunks k' c (drop c l)
  end.

(** Broadcasting the cells [d] of an array of shape [src] to the shape
    [dst] of the same rank: an axis of length 1 is repeated, any other
    axis has to have the length [dst] has. *)
Fixpoint broadcast (dst src : list Z) (d : list Q) : result (list Q) :=
  match dst, src with
  | [], [] => Val d
  | t :: dst', s :: src' =>
      if s =? t then
        rs ← forM (chunks (Z.to_nat s) (cells src') d) (broadcast dst' src');
        Val (concat rs)
      else if s =? 1 then
        r ← broadcast dst' src' d; Val (concat (replicate (Z.to_nat t) r))
      else Exn ValueError
  | _, _ => Exn ValueError
  end.

(** The leading axes of length 1 among the first [k] axes are dropped. *)
Fixpoint drop_ones (k : nat) (src : list Z) : list Z :=
  match k, src with
  | S k', s :: src' => if s =? 1 then drop_ones k' src' else src
  | _, _ => src
  end.

(** [a[i, ...] = v] where [a[i, ...]] has the shape [dst]: the cells that
    are stored.  NumPy drops the leading axes of length 1 that [v] has
    too many, adds the leading axes it lacks, and broadcasts; a shape
    that does not fit is a [ValueError]. *)
Definition np_assign (dst : list Z) (v : ndarray) : result (list Q) :=
  let src := drop_ones (length (arr_shape v) - length dst) (arr_shape v) in
  if (length dst <? length src)%nat then Exn ValueError
  else broadcast dst (replicate (length dst - length src) 1 ++ src) (arr_cells v).

(** [a -= b] and [a += b] on arrays of shape [[n] + levels], both built
    on the same [levels]; [b] may have a single row, which is then used
    for every row of [a].  Rows of another width are a [ValueError]. *)
Definition np_inplace (op : Q -> Q -> Q) (a b : tensor) : result tensor :=
  if (length b =? length a)%nat then
    if forallb (fun rs => (length rs.1 =? length rs.2)%nat) (zip a b) then
      Val (zip_with (zip_with op) a b)
    else Exn ValueError
  else match b with
       | [row] =>
           if forallb (fun r => (length r =? length row)%nat) a then
             Val (map (fun r => zip_with op r row) a)
           else Exn ValueError
       | _ => Exn ValueError
       end.

Definition isub : tensor -> tensor -> result tensor := np_inplace Qminus.
Definition iadd : tensor -> tensor -> result tensor := np_inplace Qplus.

(** [sklearn.utils.check_array] on a two-dimensional float array: at
    least one row and one column. *)
Definition check_array (X : matrix) : result matrix :=
  if (shape0 X =? 0)%nat || (shape1 X =? 0)%nat then Exn ValueError else Val X.

(** [itertools.combinations(l, r)] *)
Fixpoint combinations {A} (l : list A) (r : nat) : list (list A) :=
  match r, l with
  | O, _ => [[]]
  | S _, [] => []
  | S r', x :: l' => map (cons x) (combinations l' r') ++ combinations l' r
  end.

(** Rows under the lexicographic order [np.unique(..., axis=0)] sorts by. *)
Fixpoint row_compare (a b : list Q) : comparison :=
  match a, b with
  | [], [] => Eq
  | [], _ :: _ => Lt
  | _ :: _, [] => Gt
  | x :: a', y :: b' =>
      match (x ?= y)%Q with
      | Eq => row_compare a' b'
      | c => c
      end
  end.

Fixpoint count_insert (r : list Q) (l : list (list Q * Z)) : list (list Q * Z) :=
  match l with
  | [] => [(r, 1)]
  | (r', c) :: l' =>
      match row_compare r r' with
      | Eq => (r', c + 1) :: l'
      | Lt => (r, 1) :: l
      | Gt => (r', c) :: count_insert r l'
      end
  end.

(** The position of the first cell equal to [q] ([np.where(row == q)],
    first hit). *)
Fixpoint first_eq (q : Q) (row : list Q) : nat :=
  match row with
  | [] => O
  | c :: row' => if Qeq_bool c q then O else S (first_eq q row')
  end.

(** [np.unique(a, axis=0, return_counts=True)] *)
Definition np_unique_counts (a : list (list Q)) : list (list Q * Z) :=
  fold_left (fun acc r => count_insert r acc) a [].

(** The rows [np_unique_counts] has counted. *)
Definition count_sum (l : list (list Q * Z)) : Z := fold_right Z.add 0 (map snd l).

Module AFIGS.

(** A reference to a [Node] object. *)
Definition ref : Type := nat.

(** [class Node].  The grower always passes [idxs], [value] and
    [tree_num] to the constructor; the attributes that can stay [None]
    are options. *)
Record Node : Type := mkNode {
  is_root : bool;
  idxs : list bool;
  tree_num : nat;
  feature : option Z;
  impurity_reduction : option Q;
  value : ndarray;
  threshold : option Q;
  left : option ref;
  right : option ref;
  left_temp : option ref;
  right_temp : option ref
}.

(** The estimator object together with the [Node] objects it has
    created: [heap !! r] is the node behind the reference [r].
    [complexity_] and [trees_] do not exist before the first [fit]. *)
Record estimator : Type := Estimator {
  max_int : option Z;
  max_rules : option Z;
  min_impurity_decrease : Q;
  prediction_task : string;
  y_levels : option (list Z);
  n : option nat;
  complexity_ : option Z;
  trees_ : option (list (option ref));
  heap : list Node
}.

(** [AFIGS.__init__] *)
Definition __init__ (max_int : option Z) (max_rules : option Z)
    (min_impurity_decrease : Q) : estimator :=
  Estimator max_int max_rules min_impurity_decrease "classification"
    None None None None [].

Definition set_heap (h : list Node) (s : estimator) : estimator :=
  Estimator (max_int s) (max_rules s) (min_impurity_decrease s) (prediction_task s)
    (y_levels s) (n s) (complexity_ s) (trees_ s) h.

Definition set_max_int (v : option Z) (s : estimator) : estimator :=
  Estimator v (max_rules s) (min_impurity_decrease s) (prediction_task s)
    (y_levels s) (n s) (complexity_ s) (trees_ s) (heap s).

Definition set_y_levels (v : list Z) (s : estimator) : estimator :=
  Estimator (max_int s) (max_rules s) (min_impurity_decrease s) (prediction_task s)
    (Some v) (n s) (complexity_ s) (trees_ s) (heap s).

Definition set_n (v : nat) (s : estimator) : estimator :=
  Estimator (max_int s) (max_rules s) (min_impurity_decrease s) (prediction_task s)
    (y_levels s) (Some v) (complexity_ s) (trees_ s) (heap s).

Definition set_complexity_ (v : Z) (s : estimator) : estimator :=
  Estimator (max_int s) (max_rules s) (min_impurity_decrease s) (prediction_task s)
    (y_levels s) (n s) (Some v) (trees_ s) (heap s).

Definition set_trees_ (v : list (option ref)) (s : estimator) : estimator :=
  Estimator (max_int s) (max_rules s) (min_impurity_decrease s) (prediction_task s)
    (y_levels s) (n s) (complexity_ s) (Some v) (heap s).

(** [est.prediction_task = v] *)
Definition set_prediction_task (v : string) (s : estimator) : estimator :=
  Estimator (max_int s) (max_rules s) (min_impurity_decrease s) v
    (y_levels s) (n s) (complexity_ s) (trees_ s) (heap s).

(** [Node(...)]: a new object. *)
Definition new_node (nd : Node) : M estimator ref :=
  fun s => (set_heap (heap s ++ [nd]) s, Val (length (heap s))).

Definition node (r : ref) : M estimator Node :=
  fun s => match heap s !! r with
           | Some nd => (s, Val nd)
           | None => (s, Exn SystemError)
           end.

(** [node.setattrs(...)] *)
Definition setattrs (r : ref) (f : Node -> Node) : M estimator unit :=
  nd ← node r; modify (fun s => set_heap (<[r:=f nd]> (heap s)) s).

Definition attr {A} (o : option A) : M estimator A :=
  match o with
  | Some a => mret a
  | None => raise TypeError
  end.

(** Lines 103-114.  The axes that stay are those of [dims]; every other
    axis is summed out and the rest is flattened per sample. *)
Definition flatten_row (levels : list Z) (dims : list nat) (row : list Q) : list Q :=
  let kept := filter (fun i => i ∈ dims) (seq 0 (length levels)) in
  let proj := fun idx : list nat => map (fun d => nth d idx 0%nat) kept in
  let lv := map Z.to_nat levels in
  let cs := zip (multi_indices lv) row in
  map (fun out => Qsum (map snd (filter (fun c => proj (fst c) = out) cs)))
      (multi_indices (proj lv)).

Definition _flatten_y (y_onehot : tensor) (dims : list nat) : M estimator matrix :=
  s ← get;
  levels ← attr (y_levels s);
  let kept := filter (fun i => i ∈ dims) (seq 0 (length levels)) in
  mret (Matrix (cells (map (fun d => nth d levels 0) kept))
               (map (flatten_row levels dims) y_onehot)).

(** [np.max(y, axis=0).astype(int) + 1] *)
Definition column_levels (y : matrix) : result (list Z) :=
  match rows y with
  | [] => Exn ValueError
  | r :: rs =>
      Val (map (fun j => Qtrunc (fold_left
                                   (fun a row => let b := nth j row 0%Q in
                                                 if Qle_bool a b then b else a)
                                   rs (nth j r 0%Q)) + 1)
               (seq 0 (shape1 y)))
  end.

(** Lines 85-88: one cell set to 1 per sample. *)
Definition one_hot_row (levels : list Z) (yrow : list Q) : result (list Q) :=
  zero ← np_zeros levels;
  k ← ravel levels (map Qtrunc yrow) 0;
  Val (<[k:=1%Q]> zero).

(** Lines 80-101.  The dictionary [y_dict] is kept as the list of its
    items in insertion order; its keys are distinct tuples. *)
Definition _init_y (y : matrix) : M estimator (list (list nat * matrix) * tensor) :=
  levels ← lift (column_levels y);
  modify (set_y_levels levels);;
  modify (set_n (shape0 y));;
  _ ← lift (np_zeros_rows (shape0 y) levels);
  y_onehot ← lift (forM (rows y) (one_hot_row levels));
  let y_cols := seq 0 (shape1 y) in
  s ← get;
  let len := Z.of_nat (length y_cols) in
  let mi := match max_int s with
            | None => len
            | Some v => if len <? v then len else v
            end in
  modify (set_max_int (Some mi));;
  let y_dims := flat_map (fun r => combinations y_cols r) (seq 1 (Z.to_nat mi)) in
  y_dict ← foldM (fun acc dims =>
                    y_flat ← _flatten_y y_onehot dims;
                    mret (acc ++ [(dims, y_flat)]))
                 y_dims [];
  mret (y_dict, y_onehot).

(** Lines 116-121. *)
Definition _compute_node_value (y_all : matrix) (idxs : list bool) : M estimator ndarray :=
  sel ← lift (np_mask (rows y_all) idxs);
  let uniq := np_unique_counts sel in
  s ← get;
  levels ← attr (y_levels s);
  zero ← lift (np_zeros levels);
  value ← foldM (fun value vc =>
                   k ← lift (ravel levels (map Qtrunc (fst vc)) 0);
                   mret (<[k:=(inject_Z (snd vc) / inject_Z (mask_sum idxs))%Q]> value))
                uniq zero;
  mret (NdArray levels value).

(** [stump.tree_]: the arrays the grower reads from the fitted stump. *)
Record stump_tree : Type := StumpTree {
  tree_feature : list Z;
  tree_threshold : list Q;
  tree_impurity : list Q;
  tree_n_node_samples : list Z
}.

Definition leaf_node (idxs : list bool) (value : ndarray) (tree_num : nat) : Node :=
  mkNode false idxs tree_num None None value None None None None None.

(** The keyword arguments the grower passes to [setattrs]. *)
Definition with_temps (l r : option ref) (nd : Node) : Node :=
  mkNode (is_root nd) (idxs nd) (tree_num nd) (feature nd) (impurity_reduction nd)
    (value nd) (threshold nd) (left nd) (right nd) l r.

Definition with_children (l r : option ref) (nd : Node) : Node :=
  mkNode (is_root nd) (idxs nd) (tree_num nd) (feature nd) (impurity_reduction nd)
    (value nd) (threshold nd) l r (left_temp nd) (right_temp nd).

Definition with_is_root (b : bool) (nd : Node) : Node :=
  mkNode b (idxs nd) (tree_num nd) (feature nd) (impurity_reduction nd)
    (value nd) (threshold nd) (left nd) (right nd) (left_temp nd) (right_temp nd).

Definition with_split (f : option Z) (t : option Q) (ir : option Q)
    (l r : option ref) (nd : Node) : Node :=
  mkNode (is_root nd) (idxs nd) (tree_num nd) f ir (value nd) t
    (left nd) (right nd) l r.

Section Grower.

(** [tree.DecisionTreeRegressor(max_depth=1).fit(X, y, sample_weight)] *)
Variable stump_fit : matrix -> matrix -> option (list Q) -> result stump_tree.
(** [sys.getrecursionlimit()] *)
Variable recursion_limit : nat.

(** Lines 123-172.  Both masks of line 165 have one entry per row of
    [X]: line 133 has indexed [X] by [idxs]. *)
Definition _construct_node_with_stump (X y y_all : matrix) (idxs : list bool)
    (tree_num : nat) (sample_weight : option (list Q)) : M estimator ref :=
  sample_weight ← lift (match sample_weight with
                        | Some w => w' ← np_mask w idxs; Val (Some w')
                        | None => Val None
                        end);
  Xs ← lift (mask_rows X idxs);
  ys ← lift (mask_rows y idxs);
  stump ← lift (stump_fit Xs ys sample_weight);
  value ← _compute_node_value y_all idxs;
  if (length (tree_feature stump) =? 1)%nat then
    f ← lift (np_get (tree_feature stump) 0);
    t ← lift (np_get (tree_threshold stump) 0);
    new_node (mkNode false idxs tree_num (Some f) None value (Some t)
                None None None None)
  else
    i0 ← lift (np_get (tree_impurity stump) 0);
    i1 ← lift (np_get (tree_impurity stump) 1);
    n1 ← lift (np_get (tree_n_node_samples stump) 1);
    n0 ← lift (np_get (tree_n_node_samples stump) 0);
    i2 ← lift (np_get (tree_impurity stump) 2);
    n2 ← lift (np_get (tree_n_node_samples stump) 2);
    let impurity_reduction :=
      ((i0 - i1 * inject_Z n1 / inject_Z n0 - i2 * inject_Z n2 / inject_Z n0)
       * inject_Z (mask_sum idxs))%Q in
    f ← lift (np_get (tree_feature stump) 0);
    t ← lift (np_get (tree_threshold stump) 0);
    node_split ← new_node (mkNode false idxs tree_num (Some f)
                             (Some impurity_reduction) value (Some t)
                             None None None None);
    col ← lift (get_col X f);
    let idxs_split := map (fun x => Qle_bool x t) col in
    let idxs_left := zip_with andb idxs_split idxs in
    let idxs_right := zip_with andb (map negb idxs_split) idxs in
    value_left ← _compute_node_value y_all idxs_left;
    value_right ← _compute_node_value y_all idxs_right;
    node_left ← new_node (leaf_node idxs_left value_left tree_num);
    node_right ← new_node (leaf_node idxs_right value_right tree_num);
    setattrs node_split (with_temps (Some node_left) (Some node_right));;
    mret node_split.

(** Lines 312-325.  Only split nodes get children, and a split node
    has its feature and threshold set (lines 158-160); a node with a
    child and no feature or threshold, which [fit] never builds, is
    reported as a [TypeError]. *)
Fixpoint _predict_tree_single_point (depth : nat) (h : list Node) (root : ref)
    (x : list Q) : result ndarray :=
  match depth with
  | O => Exn RecursionError
  | S depth' =>
      match h !! root with
      | None => Exn SystemError
      | Some nd =>
          match left nd, right nd with
          | None, None => Val (value nd)
          | _, _ =>
              f ← match feature nd with Some f => Val f | None => Exn TypeError end;
              xf ← np_get x f;
              t ← match threshold nd with Some t => Val t | None => Exn TypeError end;
              if Qle_bool xf t then
                match left nd with
                | None => Val (value nd)
                | Some l => _predict_tree_single_point depth' h l x
                end
              else
                match right nd with
                | None => Val (value nd)
                | Some r => _predict_tree_single_point depth' h r x
                end
          end
      end
  end.

(** Lines 308-331.  Line 330 stores the value of the leaf in the row
    [preds[i, ...]], whose shape is the current [y_levels]. *)
Definition _predict_tree (s : estimator) (root : ref) (X : matrix) : result tensor :=
  levels ← match y_levels s with Some l => Val l | None => Exn TypeError end;
  _ ← np_zeros_rows (shape0 X) levels;
  forM (rows X) (fun x =>
                   v ← _predict_tree_single_point recursion_limit (heap s) root x;
                   np_assign levels v).

(** What [predict] and [predict_proba] hand back. *)
Inductive prediction : Type :=
| NotImplemented
| None_
| Classes (class_preds : list (list Z))
| Proba (preds : tensor).

(** Lines 335-338 and 352-355. *)
Definition sum_of_trees (s : estimator) (X : matrix) : result tensor :=
  preds ← match n s, y_levels s with
          | Some n, Some levels => np_zeros_rows n levels
          | _, _ => Exn TypeError
          end;
  trees ← match trees_ s with Some t => Val t | None => Exn AttributeError end;
  foldR (fun preds tree =>
           match tree with
           | None => Val preds
           | Some root => p ← _predict_tree s root X; iadd preds p
           end)
        trees preds.

(** Lines 344-345: the coordinates of the first largest cell. *)
Definition best_class (levels : list Z) (row : list Q) : result (list Z) :=
  match levels with
  | [] => Exn IndexError
  | _ :: _ =>
      match row with
      | [] => Exn ValueError
      | q :: row' =>
          let mx := fold_left (fun a b => if Qle_bool a b then b else a) row' q in
          let pos := first_eq mx row in
          Val (unravel levels pos)
      end
  end.

(** Lines 333-346. *)
Definition predict (s : estimator) (X : matrix) : result prediction :=
  X ← check_array X;
  preds ← sum_of_trees s X;
  if str_eq (prediction_task s) "regression" then Val NotImplemented
  else if str_eq (prediction_task s) "classification" then
    levels ← match y_levels s with Some l => Val l | None => Exn TypeError end;
    class_preds ← forM preds (best_class levels);
    Val (Classes class_preds)
  else Val None_.

(** Lines 348-357. *)
Definition predict_proba (s : estimator) (X : matrix) : result prediction :=
  X ← check_array X;
  if str_eq (prediction_task s) "regression" then Val NotImplemented
  else preds ← sum_of_trees s X; Val (Proba preds).

(** The local variables of [fit] that live across iterations. *)
Record locals : Type := Locals {
  potential_splits : list (option ref);
  y_predictions_per_tree : gmap nat tensor;
  y_residuals_per_tree : gmap nat tensor
}.

(** [len(set(a).intersection(set(b))) > 0] *)
Definition intersects (a b : list nat) : bool :=
  bool_decide (0 < size ((list_to_set a : gset nat) ∩ list_to_set b))%nat.

(** Lines 261-266, the residual of one tree. *)
Definition residual_of (keys : list (list nat)) (y_onehot : tensor)
    (preds : gmap nat tensor) (tree_num_ : nat) (tree_id : list nat) : result tensor :=
  foldR (fun res other =>
           if negb (fst other =? tree_num_)%nat && intersects tree_id (snd other) then
             p ← match preds !! fst other with
                 | Some p => Val p
                 | None => Exn KeyError
                 end;
             isub res p
           else Val res)
        (enumerate keys) y_onehot.

(** Lines 258-266. *)
Definition update_residuals (keys : list (list nat)) (y_onehot : tensor)
    (preds resid : gmap nat tensor) : result (gmap nat tensor) :=
  foldR (fun acc t =>
           res ← residual_of keys y_onehot preds (fst t) (snd t);
           Val (<[fst t := res]> acc))
        (enumerate keys) resid.

(** Lines 250-255. *)
Definition update_predictions (X : matrix) (preds : gmap nat tensor)
  : M estimator (gmap nat tensor) :=
  s ← get;
  trees ← attr (trees_ s);
  foldM (fun acc tree_num_ =>
           match trees !! tree_num_ with
           | Some (Some root) =>
               s ← get;
               p ← lift (_predict_tree s root X);
               mret (<[tree_num_ := p]> acc)
           | _ =>
               s ← get;
               p ← lift (match n s, y_levels s with
                         | Some n, Some levels => np_zeros_rows n levels
                         | _, _ => Exn TypeError
                         end);
               mret (<[tree_num_ := p]> acc)
           end)
        (seq 0 (length trees)) preds.

(** [sorted(nodes, key=lambda x: x.impurity_reduction)]: stable and
    ascending.  Comparing [None] with anything is a [TypeError], and
    every key of a list of two or more is compared. *)
Fixpoint insert_sorted (x : Q * ref) (l : list (Q * ref)) : list (Q * ref) :=
  match l with
  | [] => [x]
  | y :: l' => if Qlt_bool (fst x) (fst y) then x :: l else y :: insert_sorted x l'
  end.

Definition sorted (nodes : list ref) : M estimator (list ref) :=
  keyed ← foldM (fun acc r => nd ← node r; mret (acc ++ [(impurity_reduction nd, r)]))
                nodes [];
  match keyed with
  | [] | [_] => mret nodes
  | _ =>
      floats ← lift (forM keyed (fun kr =>
                       match fst kr with
                       | Some q => Val (q, snd kr)
                       | None => Exn TypeError
                       end));
      mret (map snd (fold_left (fun acc x => insert_sorted x acc) floats []))
  end.

(** Lines 270-297 for one entry of the pool: fit the stump again on
    the tree's residual, copy the split onto the old node, and keep
    the node if it has a split. *)
Definition refit (X y : matrix) (sample_weight : option (list Q))
    (keys : list (list nat)) (resid : gmap nat tensor)
    (potential_splits_new : list ref) (potential_split : option ref)
  : M estimator (list ref) :=
  ps ← match potential_split with
       | Some r => mret r
       | None => raise AttributeError
       end;
  nd ← node ps;
  tree_id ← lift (np_get keys (Z.of_nat (tree_num nd)));
  res ← match resid !! tree_num nd with
        | Some res => mret res
        | None => raise KeyError
        end;
  y_target ← _flatten_y res tree_id;
  updated ← _construct_node_with_stump X y_target y (idxs nd) (tree_num nd)
              sample_weight;
  u ← node updated;
  setattrs ps (with_split (feature u) (threshold u) (impurity_reduction u)
                 (left_temp u) (right_temp u));;
  nd' ← node ps;
  match impurity_reduction nd' with
  | Some _ => mret (potential_splits_new ++ [ps])
  | None => mret potential_splits_new
  end.

(** Lines 225-300: put the popped node into its tree, then refresh the
    predictions, the residuals and the pool. *)
Definition refresh (X y : matrix) (sample_weight : option (list Q))
    (keys : list (list nat)) (y_onehot : tensor)
    (rest : list (option ref)) (split_node : ref) (loc : locals)
  : M estimator locals :=
  nd ← node split_node;
  (if is_root nd then
     s ← get;
     trees ← attr (trees_ s);
     trees' ← lift (np_set trees (Z.of_nat (tree_num nd)) (Some split_node));
     modify (set_trees_ trees')
   else mret tt);;
  setattrs split_node (fun nd => with_children (left_temp nd) (right_temp nd) nd);;
  nd ← node split_node;
  let pool := rest ++ [left nd] ++ [right nd] in
  preds ← update_predictions X (y_predictions_per_tree loc);
  resid ← lift (update_residuals keys y_onehot preds (y_residuals_per_tree loc));
  potential_splits_new ← foldM (refit X y sample_weight keys resid) pool [];
  pool ← sorted potential_splits_new;
  mret (Locals (map Some pool) preds resid).

(** Lines 220-305: commit the popped node.  The split is counted first
    and the count is compared with [max_rules] last; the boolean is
    [finished]. *)
Definition commit (X y : matrix) (sample_weight : option (list Q))
    (keys : list (list nat)) (y_onehot : tensor)
    (rest : list (option ref)) (split_node : ref) (loc : locals)
  : M estimator (locals * bool) :=
  s ← get;
  c ← attr (complexity_ s);
  modify (set_complexity_ (c + 1));;
  loc' ← refresh X y sample_weight keys y_onehot rest split_node loc;
  s ← get;
  c ← attr (complexity_ s);
  let finished := match max_rules s with
                  | Some m => m <=? c
                  | None => false
                  end in
  mret (loc', finished).

(** Lines 213-305, one pass of the [while] loop over the popped node. *)
Definition grow_step (X y : matrix) (sample_weight : option (list Q))
    (keys : list (list nat)) (y_onehot : tensor)
    (rest : list (option ref)) (split_node : option ref) (loc : locals)
  : M estimator (locals * bool) :=
  split_node ← match split_node with
               | Some r => mret r
               | None => raise AttributeError
               end;
  nd ← node split_node;
  ir ← attr (impurity_reduction nd);
  s ← get;
  if Qlt_bool ir (min_impurity_decrease s) then
    mret (Locals rest (y_predictions_per_tree loc) (y_residuals_per_tree loc), true)
  else commit X y sample_weight keys y_onehot rest split_node loc.

(** Lines 210-305. *)
Fixpoint grow (fuel : nat) (X y : matrix) (sample_weight : option (list Q))
    (keys : list (list nat)) (y_onehot : tensor) (loc : locals)
  : M estimator locals :=
  match pop (potential_splits loc) with
  | None => mret loc
  | Some (rest, split_node) =>
      match fuel with
      | O => lift Fuel
      | S fuel' =>
          r ← grow_step X y sample_weight keys y_onehot rest split_node loc;
          if snd r : bool then (mret (fst r) : M estimator locals)
          else grow fuel' X y sample_weight keys y_onehot (fst r)
      end
  end.

(** Lines 199-207. *)
Definition initial_splits (X y : matrix) (sample_weight : option (list Q))
    (y_dict : list (list nat * matrix)) : M estimator (list ref) :=
  s ← get;
  n ← attr (n s);
  let idxs := replicate n true in
  potential_splits ← foldM (fun acc t =>
                              node_init ← _construct_node_with_stump X (snd (snd t)) y
                                            idxs (fst t) sample_weight;
                              mret (acc ++ [node_init]))
                           (enumerate y_dict) [];
  foldM (fun _ r => setattrs r (with_is_root true)) potential_splits tt;;
  sorted potential_splits.

(** Lines 174-306; [y] holds the floats of [y.astype(float)].  The
    arguments [feature_names] and [verbose] only store a name list and
    print. *)
Definition fit_locals (fuel : nat) (X y : matrix) (sample_weight : option (list Q))
  : M estimator locals :=
  modify (set_complexity_ 0);;
  yd ← _init_y y;
  let y_dict := fst yd in
  let y_onehot := snd yd in
  modify (set_trees_ (replicate (length y_dict) None));;
  potential_splits ← initial_splits X y sample_weight y_dict;
  grow fuel X y sample_weight (map fst y_dict) y_onehot
    (Locals (map Some potential_splits) ∅ ∅).

Definition fit (fuel : nat) (X y : matrix) (sample_weight : option (list Q))
  : M estimator unit :=
  fit_locals fuel X y sample_weight;; mret tt.

End Grower.

(** ** The properties the grower is checked against *)

(** What an array with first dimension [n] has to do with [X]. *)
Definition one_row_per_training_sample (s : estimator) (X : matrix) (len : nat) : Prop :=
  exists m, n s = Some m /\ len = m /\ (len = shape0 X <-> shape0 X = m).

(** The trees other than [t] whose output dimensions meet [tree_id], in
    tree order. *)
Definition interfering (keys : list (list nat)) (t : nat) (tree_id : list nat)
  : list nat :=
  (filter (fun o => o.1 <> t /\ Exists (fun d => d ∈ o.2) tree_id) (enumerate keys)).*1.


(** Lines 251-254: the prediction the loop stores for tree [u], zeros
    for a tree that has not been started. *)
Definition tree_prediction (recursion_limit : nat) (s : estimator) (X : matrix)
    (u : nat) : result tensor :=
  trees ← match trees_ s with Some t => Val t | None => Exn TypeError end;
  match trees !! u with
  | Some (Some root) => _predict_tree recursion_limit s root X
  | Some None =>
      match n s, y_levels s with
      | Some n, Some levels => np_zeros_rows n levels
      | _, _ => Exn TypeError
      end
  | None => Exn IndexError
  end.


(** [h'] holds the trees of [h]: every node is still there with its
    children and its value, and with its feature and threshold if it
    has children. *)
Definition same_trees (h h' : list Node) : Prop :=
  forall (r : ref) nd, h !! r = Some nd ->
    exists nd', h' !! r = Some nd' /\ left nd' = left nd /\ right nd' = right nd /\
                value nd' = value nd /\
                (left nd = None /\ right nd = None \/
                 feature nd' = feature nd /\ threshold nd' = threshold nd).

(** The split counter and its bound are the same in both states. *)
Definition same_count (s s' : estimator) : Prop :=
  max_rules s' = max_rules s /\ complexity_ s' = complexity_ s.

(** The loop may commit one more split: none is committed yet, or fewer
    than [m] are. *)
Definition may_commit (m : Z) (s : estimator) : Prop :=
  max_rules s = Some m /\
  exists c, complexity_ s = Some c /\ 0 <= c /\ (c = 0 \/ c < m).

(** The bound the loop keeps. *)
Definition count_bounded (m : Z) (s : estimator) : Prop :=
  max_rules s = Some m /\
  exists c, complexity_ s = Some c /\ 0 <= c <= Z.max m 1.

(** A code of [y] that the one-hot tensor has no cell for: truncated
    towards zero it lies outside [-L, L) for the level count [L] of its
    column. *)
Definition code_out_of_range (y : matrix) : Prop :=
  exists levels row j q l,
    column_levels y = Val levels /\ row ∈ rows y /\ length row = length levels /\
    row !! j = Some q /\ levels !! j = Some l /\ ~ (- l <= Qtrunc q < l).

(** [l] and [r] split the rows of [p]: no row is in both, and a row is
    in one of them exactly when it is in [p]. *)
Definition masks_partition (p l r : list bool) : Prop :=
  length l = length p /\ length r = length p /\
  zip_with andb l r = replicate (length p) false /\
  zip_with orb l r = p.

(** Two children, where both are there, are nodes whose masks split
    [mask]. *)
Definition children_partition (h : list Node) (mask : list bool)
    (l r : option ref) : Prop :=
  forall rl rr, l = Some rl -> r = Some rr ->
    exists nl nr, h !! rl = Some nl /\ h !! rr = Some nr /\
                  masks_partition mask (idxs nl) (idxs nr).

(** The masks of every node the estimator has created: the candidate
    children split the node's mask, the committed children split it, and
    a root has all [n] rows. *)
Definition masks_ok (s : estimator) : Prop :=
  forall r nd, heap s !! r = Some nd ->
    children_partition (heap s) (idxs nd) (left_temp nd) (right_temp nd) /\
    children_partition (heap s) (idxs nd) (left nd) (right nd) /\
    (is_root nd = true -> exists m, n s = Some m /\ idxs nd = replicate m true).

(** A node as the constructor leaves it: no flag, no child. *)
Definition plain (mask : list bool) (nd : Node) : Prop :=
  is_root nd = false /\ idxs nd = mask /\ left nd = None /\ right nd = None /\
  left_temp nd = None /\ right_temp nd = None.

(** What one call of [_construct_node_with_stump] adds to the nodes. *)
Definition fresh_nodes (base : nat) (mask : list bool) (new : list Node) : Prop :=
  new = [] \/
  (exists nd, new = [nd] /\ plain mask nd) \/
  (exists nd l r,
     new = [with_temps (Some (S base)) (Some (S (S base))) nd; l; r] /\
     plain mask nd /\ plain (idxs l) l /\ plain (idxs r) r /\
     masks_partition mask (idxs l) (idxs r)).

(** From [s] to [s']: [n] is the same, and the masks stay in order. *)
Definition evolves (s s' : estimator) : Prop :=
  n s' = n s /\ (masks_ok s -> masks_ok s').

(** Every reference of the list is a node with all [m] rows. *)
Definition all_rows (s : estimator) (m : nat) (refs : list ref) : Prop :=
  forall r, r ∈ refs -> exists nd, heap s !! r = Some nd /\ idxs nd = replicate m true.

(** ** The properties of the encoding, of the pool and of the trees *)

(** [np.zeros(levels)] with the cell at row-major position [k] set to 1. *)
Definition one_hot (levels : list Z) (k : nat) : list Q :=
  <[k:=1%Q]> (replicate (cells levels) 0%Q).

(** The coordinate a code selects on an axis of [l] levels: a negative
    code counts from the end. *)
Definition wrap (l c : Z) : Z := if c <? 0 then c + l else c.

(** What the growing loop leaves alone: the arguments of the
    constructor, the task, what [_init_y] recorded of [y], and the
    number of tree slots. *)
Definition same_setup (s s' : estimator) : Prop :=
  max_int s' = max_int s /\ max_rules s' = max_rules s /\
  min_impurity_decrease s' = min_impurity_decrease s /\
  prediction_task s' = prediction_task s /\
  y_levels s' = y_levels s /\ n s' = n s /\
  length <$> trees_ s' = length <$> trees_ s.

(** [node.impurity_reduction] of the node behind [r]. *)
Definition reduction (s : estimator) (r : ref) : option Q :=
  nd ← heap s !! r; impurity_reduction nd.

(** The list is in ascending order of its keys. *)
Fixpoint ascending (l : list (Q * ref)) : Prop :=
  match l with
  | [] => True
  | x :: l' => Forall (fun y => (x.1 <= y.1)%Q) l' /\ ascending l'
  end.

(** Every tree that has been started is a node flagged as a root, in
    the slot of its own [tree_num]. *)
Definition roots_ok (s : estimator) : Prop :=
  forall trees i r,
    trees_ s = Some trees -> trees !! i = Some (Some r) ->
    exists nd, heap s !! r = Some nd /\ is_root nd = true /\ tree_num nd = i.

(** From [s] to [s']: every node is still there, with its [tree_num]
    and with its root flag if it had one, and the started trees stay
    in order. *)
Definition settles (s s' : estimator) : Prop :=
  (forall r nd, heap s !! r = Some nd ->
     exists nd', heap s' !! r = Some nd' /\ tree_num nd' = tree_num nd /\
                 (is_root nd = true -> is_root nd' = true)) /\
  (roots_ok s -> roots_ok s').

(** The distinct row [vc.1] lands on the cell [k] of an array of shape
    [levels] (line 120). *)
Definition lands (levels : list Z) (k : nat) (vc : list Q * Z) : bool :=
  match ravel levels (map Qtrunc vc.1) 0 with
  | Val k' => (k' =? k)%nat
  | _ => false
  end.

(** ** The shape of the trees and the split count *)

(** The nodes a node refers to. *)
Definition links_of (nd : Node) : list ref :=
  option_list (left nd) ++ option_list (right nd) ++
  option_list (left_temp nd) ++ option_list (right_temp nd).

(** A node as the grower keeps it: it has both children or none, both
    candidate children or none, and a feature and a threshold whenever
    it has children or candidate children. *)
Definition node_ok (nd : Node) : Prop :=
  (is_Some (left nd) <-> is_Some (right nd)) /\
  (is_Some (left_temp nd) <-> is_Some (right_temp nd)) /\
  (is_Some (left nd) \/ is_Some (left_temp nd) ->
   is_Some (feature nd) /\ is_Some (threshold nd)).

(** The node at [r] among [len] nodes: it is as the grower keeps it,
    and it refers to nodes created after it. *)
Definition node_fits (len : nat) (r : ref) (nd : Node) : Prop :=
  node_ok nd /\ forall x, x ∈ links_of nd -> (r < x < len)%nat.

(** Every node fits where it is: the links form binary trees, and none
    of them leads back. *)
Definition well_formed (h : list Node) : Prop :=
  forall (r : ref) nd, h !! r = Some nd -> node_fits (length h) r nd.

(** From [s] to [s']: the nodes stay well formed. *)
Definition stays_formed (s s' : estimator) : Prop :=
  well_formed (heap s) -> well_formed (heap s').

(** The nodes that have children. *)
Definition splits (h : list Node) : nat :=
  length (filter (fun nd => is_Some (left nd)) h).

(** The candidate children of the nodes of a pool. *)
Definition kids (h : list Node) (pool : list ref) : list ref :=
  flat_map (fun r => match h !! r with
                     | Some nd => option_list (left_temp nd) ++ option_list (right_temp nd)
                     | None => []
                     end) pool.

(** [r] is a node that has no children. *)
Definition childless (h : list Node) (r : ref) : Prop :=
  exists nd, h !! r = Some nd /\ left nd = None /\ right nd = None.

(** A node of the pool has no children yet, and candidate children if
    it has an impurity reduction. *)
Definition pool_node (h : list Node) (r : ref) : Prop :=
  exists nd, h !! r = Some nd /\ left nd = None /\ right nd = None /\
    (is_Some (impurity_reduction nd) ->
     is_Some (left_temp nd) /\ is_Some (right_temp nd)).

(** The pool as the loop keeps it: no node is twice in it or a
    candidate child of a node in it, no node is a candidate child
    twice, and none of them has children. *)
Definition pool_ok (h : list Node) (pool : list ref) : Prop :=
  NoDup (pool ++ kids h pool) /\
  Forall (pool_node h) pool /\ Forall (childless h) (kids h pool).

(** The pool while lines 270-297 go through it: [acc] is refitted and
    kept, [todo] is still to come. *)
Definition refit_ok (h : list Node) (acc todo : list ref) : Prop :=
  NoDup (acc ++ todo ++ kids h acc) /\
  Forall (pool_node h) acc /\ Forall (childless h) (todo ++ kids h acc).

(** What a call of [_construct_node_with_stump] that returns has added
    at [base]: a node without split, or a split node and its two
    candidate children. *)
Definition built (base : nat) (new : list Node) : Prop :=
  exists u rest, new = u :: rest /\ left u = None /\ right u = None /\
    ((rest = [] /\ impurity_reduction u = None /\
      left_temp u = None /\ right_temp u = None) \/
     (exists l r, rest = [l; r] /\ is_Some (impurity_reduction u) /\
        left_temp u = Some (S base) /\ right_temp u = Some (S (S base)) /\
        left l = None /\ right l = None /\ left r = None /\ right r = None)).

(** The nodes of [h'] are those of [h] with the same children, candidate
    children and impurity reduction. *)
Definition same_links (h h' : list Node) : Prop :=
  Forall2 (fun a b => left b = left a /\ right b = right a /\
                      left_temp b = left_temp a /\ right_temp b = right_temp a /\
                      impurity_reduction b = impurity_reduction a) h h'.

(** The children of all nodes. *)
Definition children (h : list Node) : list ref :=
  flat_map (fun nd => option_list (left nd) ++ option_list (right nd)) h.

(** No node is a child twice, and every child is a node. *)
Definition forest (h : list Node) : Prop :=
  NoDup (children h) /\ Forall (fun x => (x < length h)%nat) (children h).

(** The same with the candidate children of a pool: none of them is a
    child yet. *)
Definition forest_ok (h : list Node) (pool : list ref) : Prop :=
  NoDup (children h ++ kids h pool) /\
  Forall (fun x => (x < length h)%nat) (children h).

(** From [s] to [s']: the nodes and the split counter are the same. *)
Definition unmoved (s s' : estimator) : Prop :=
  heap s' = heap s /\ complexity_ s' = complexity_ s.

(** From [s] to [s']: the nodes keep their links, and the split counter
    is the same. *)
Definition relinks (s s' : estimator) : Prop :=
  same_links (heap s) (heap s') /\ complexity_ s' = complexity_ s.

(** The nodes with children are [k] and as many more as the split
    counter says. *)
Definition counted (k : nat) (s : estimator) : Prop :=
  exists c, complexity_ s = Some c /\ Z.of_nat (splits (heap s)) = Z.of_nat k + c.

End AFIGS.

(** * Worked examples: a concrete stump fitter

    A depth-1 least-squares regressor for small unweighted data sets:
    features in column order, thresholds half-way between consecutive
    distinct values, the first best split kept, no split for fewer than
    two rows, a constant target or a constant column.  On the data of
    the examples below these are the arrays
    [DecisionTreeRegressor(max_depth=1).fit(X, y).tree_] holds. *)

Module Stump.

Definition Qn (k : nat) : Q := inject_Z (Z.of_nat k).

(** Mean squared error around the mean, averaged over the outputs. *)
Definition mse (k : nat) (ys : list (list Q)) : Q :=
  let cnt := Qn (length ys) in
  Qred (Qsum (map (fun j =>
                     let c := map (fun r => nth j r 0%Q) ys in
                     Qsum (map (fun v => v * v) c) / cnt
                     - (Qsum c / cnt) * (Qsum c / cnt))
                  (seq 0 k)) / Qn k)%Q.

Fixpoint insert_distinct (v : Q) (l : list Q) : list Q :=
  match l with
  | [] => [v]
  | w :: l' =>
      match (v ?= w)%Q with
      | Lt => v :: l
      | Eq => l
      | Gt => w :: insert_distinct v l'
      end
  end.

Fixpoint midpoints (l : list Q) : list Q :=
  match l with
  | a :: (b :: _) as l' => Qred ((a + b) / 2) :: midpoints l'
  | _ => []
  end.

Record candidate : Type := Candidate {
  c_feature : nat;
  c_threshold : Q;
  c_left : list (list Q);
  c_right : list (list Q);
  c_cost : Q
}.

Definition candidates (k : nat) (X y : matrix) : list candidate :=
  flat_map (fun f =>
    let col := map (fun r => nth f r 0%Q) (rows X) in
    map (fun t =>
           let m := map (fun x => Qle_bool x t) col in
           let l := select (rows y) m in
           let r := select (rows y) (map negb m) in
           Candidate f t l r
             (Qn (length l) * mse k l + Qn (length r) * mse k r)%Q)
        (midpoints (fold_left (fun acc v => insert_distinct v acc) col [])))
    (seq 0 (shape1 X)).

Definition best (cs : list candidate) : option candidate :=
  fold_left (fun b c =>
               match b with
               | None => Some c
               | Some b' => if Qlt_bool (c_cost c) (c_cost b') then Some c else b
               end)
            cs None.

Definition leaf (imp : Q) (cnt : nat) : AFIGS.stump_tree :=
  AFIGS.StumpTree [-2] [(-2)%Q] [imp] [Z.of_nat cnt].

Definition fit (X y : matrix) (sample_weight : option (list Q))
  : result AFIGS.stump_tree :=
  let k := shape1 y in
  let cnt := shape0 X in
  if (cnt =? 0)%nat then Exn ValueError
  else
    let imp := mse k (rows y) in
    if Qle_bool imp 0 then Val (leaf imp cnt)
    else match best (candidates k X y) with
         | None => Val (leaf imp cnt)
         | Some c =>
             Val (AFIGS.StumpTree
                    [Z.of_nat (c_feature c); -2; -2]
                    [c_threshold c; (-2)%Q; (-2)%Q]
                    [imp; mse k (c_left c); mse k (c_right c)]
                    [Z.of_nat cnt; Z.of_nat (length (c_left c));
                     Z.of_nat (length (c_right c))])
         end.

End Stump.

(** * Worked examples: a tree to optimise *)

Module TaoExample.

Import TaoTree.

Definition self : estimator :=
  Estimator "CART" (1 # 1000) 20 false 3 2 "stump" true "classification".

(** Four rows with one feature; the root sends every row to the left. *)
Definition X : matrix := Matrix 1 [[(-1)%Q]; [1%Q]; [(-1)%Q]; [1%Q]].
Definition y : list Q := [0%Q; 1%Q; 0%Q; 1%Q].

Definition t0 : tree :=
  Tree [1; -1; -1] [2; -1; -1] [0; -2; -2] [5%Q; (-2)%Q; (-2)%Q]
    [[1 # 2; 1 # 2]; [1%Q; 0%Q]; [0%Q; 1%Q]].

(** A one-column stump that always splits, so that its root feature is
    the column 0, and that scores 1. *)
Definition model_fit (k : model_kind) (col : list Q) (target : list Z) (w : list Q)
  : result Z := Val 0.

Definition model_score (m : Z) (col : list Q) (target : list Z) (w : list Q)
  : result Q := Val 1%Q.

Definition linear_threshold (m : Z) : result Q := Val 0%Q.

Definition stump_feature0 (m : Z) : result Z := Val m.

(** Accuracy: the share of rows whose leaf gives at least half of its
    weight to the row's class. *)
Definition accuracy (t : tree) (X : matrix) (y : list Q) : Q :=
  let hit := fun xy : list Q * Q =>
    match predict_row 100 self t (fst xy) 0 with
    | Val p => Qeq_bool (if Qle_bool (1 # 2) p then 1 else 0) (snd xy)
    | _ => false
    end in
  Qred (inject_Z (Z.of_nat (length (filter (fun xy => hit xy = true) (zip (rows X) y))))
        / inject_Z (Z.of_nat (length y))).

Definition np_mean (l : list Q) : Q := Qred (Qsum l / inject_Z (Z.of_nat (length l))).

Definition np_median (l : list Q) : Q := nth (length l / 2) l 0%Q.

Definition run_fit (fuel : nat) : M tree unit :=
  fit model_fit model_score linear_threshold stump_feature0 accuracy np_mean np_median
    (@reverse Z) 100 fuel self X y.

(** Two features: the first separates the classes, the second is the
    same in every row. *)
Definition X_cols : matrix :=
  Matrix 2 [[(-3)%Q; 7%Q]; [1%Q; 7%Q]; [(-3)%Q; 7%Q]; [1%Q; 7%Q]].

(** A one-column stump as [tree_.feature[0]] shows it: 0 when the column
    can be split, -2 (no split) when it is constant; the first scores 1
    and the second one half. *)
Definition stump_fit_cols (k : model_kind) (col : list Q) (target : list Z) (w : list Q)
  : result Z :=
  Val (match col with
       | x :: rest => if forallb (Qeq_bool x) rest then -2 else 0
       | [] => -2
       end).

Definition stump_score_cols (m : Z) (col : list Q) (target : list Z) (w : list Q)
  : result Q := Val (if m =? 0 then 1%Q else (1 # 2)%Q).

(** One update of the root of [t0] on these two features. *)
Definition step_cols : tree * result bool :=
  internal_node_step stump_fit_cols stump_score_cols linear_threshold stump_feature0
    accuracy 100 self X_cols y X_cols y 0 t0.

End TaoExample.

(** * Worked examples: data for the grower *)

Module AFIGSExample.

Import AFIGS.

(** Two rows, one feature, one binary output. *)
Definition X2 : matrix := Matrix 1 [[0%Q]; [1%Q]].
Definition y2 : matrix := Matrix 1 [[0%Q]; [1%Q]].

(** A constant target: the stump of the only tree finds no split. *)
Definition y2_constant : matrix := Matrix 1 [[0%Q]; [0%Q]].

(** Three rows; the last code is negative. *)
Definition X3 : matrix := Matrix 1 [[0%Q]; [1%Q]; [2%Q]].
Definition y3_negative : matrix := Matrix 1 [[0%Q]; [1%Q]; [(-1)%Q]].

(** The first code is not an integer. *)
Definition y2_fractional : matrix := Matrix 1 [[1 # 2]; [1%Q]].

(** Two levels, and a code that is below both. *)
Definition y2_far : matrix := Matrix 1 [[1%Q]; [(-5)%Q]].

(** The same with a third row. *)
Definition y3_far : matrix := Matrix 1 [[0%Q]; [1%Q]; [(-5)%Q]].

(** Two rows and no column. *)
Definition y2_empty : matrix := Matrix 0 [[]; []].

(** A single row to predict. *)
Definition X1 : matrix := Matrix 1 [[1%Q]].

Definition run_fit (max_rules : option Z) (X y : matrix) : estimator * result unit :=
  fit Stump.fit 100 5 X y None (__init__ None max_rules 0%Q).

(** The estimator after [fit(X2, y2)] with the default [max_rules]. *)
Definition fitted2 : estimator := (run_fit (Some 12) X2 y2).1.

(** The same estimator with the task attribute set to regression. *)
Definition regressor2 : estimator := set_prediction_task "regression" fitted2.

(** The root of the tree [fit(X2, y2)] grows. *)
Definition root2 : Node :=
  default (leaf_node [] (NdArray [] []) 0) (heap fitted2 !! 0%nat).

(** Two outputs: three trees, for the subsets (0), (1) and (0, 1). *)
Definition y22 : matrix := Matrix 2 [[0%Q; 1%Q]; [1%Q; 0%Q]].

Definition keys22 : list (list nat) := [[0%nat]; [1%nat]; [0%nat; 1%nat]].

Definition onehot22 : tensor := [[0; 1; 0; 0]; [0; 0; 1; 0]]%Q.

(** The estimator when the loop is entered for [fit(X2, y22)]: the pool
    holds the three root candidates, the root of tree 1 last. *)
Definition start22 : estimator :=
  ((modify (set_complexity_ 0);;
    yd ← _init_y y22;
    modify (set_trees_ (replicate (length yd.1) None));;
    initial_splits Stump.fit X2 y22 None yd.1) (__init__ None (Some 12) 0%Q)).1.



(** The first commit of that run: the root of tree 1. *)
Definition commit22 : estimator * result (locals * bool) :=
  commit Stump.fit 100 X2 y22 None keys22 onehot22 [Some 6%nat; Some 0%nat] 3%nat
    (Locals [] ∅ ∅) start22.

Definition commit22_result : locals * bool :=
  match commit22.2 with
  | Val r => r
  | _ => (Locals [] ∅ ∅, true)
  end.

(** [_init_y(y22)] on a new estimator, and what it returns. *)
Definition init22 : estimator * result (list (list nat * matrix) * tensor) :=
  _init_y AFIGSExample.y22 (__init__ None (Some 12) 0%Q).

Definition init22_result : list (list nat * matrix) * tensor :=
  match init22.2 with
  | Val yd => yd
  | _ => ([], [])
  end.

End AFIGSExample.

(** * The claims that the code does not meet, as they are worded *)

Module Claimed.

Import AFIGS.

(** "predict and predict_proba fail fast by raising an error" *)
Definition fails_fast (recursion_limit : nat) (s : estimator) (X : matrix) : Prop :=
  (exists e, predict recursion_limit s X = Exn e) /\
  (exists e, predict_proba recursion_limit s X = Exn e).

(** "at most maxRules split commits are performed" when [fit] returns. *)
Definition at_most_max_rules (out : estimator * result unit) : Prop :=
  forall m c,
    out.2 = Val tt -> max_rules out.1 = Some m -> complexity_ out.1 = Some c -> c <= m.

(** "fit raises an error whenever y contains negative or non-integer
    codes". *)
Definition has_bad_code (y : matrix) : Prop :=
  exists row q, row ∈ rows y /\ q ∈ row /\ ((q < 0)%Q \/ ~ (inject_Z (Qtrunc q) == q)%Q).

Definition rejects (out : estimator * result unit) : Prop := exists e, out.2 = Exn e.

(** "on such a failure the model is left unfit": what [fit] leaves
    behind predicts no more than an estimator that was never fitted. *)
Definition left_unfit (recursion_limit : nat) (out : estimator * result unit)
    (X : matrix) : Prop :=
  fails_fast recursion_limit out.1 X.

End Claimed.

(** * Reasoning about computations *)

Ltac run :=
  unfold mbind, M_bind, result_bind, mret, M_ret, result_ret, lift, get, put,
    modify, raise in *; simpl in *.

Section Frames.
Context {St : Type} (R : St -> St -> Prop).
Hypothesis R_refl : forall s, R s s.
Hypothesis R_trans : forall s1 s2 s3, R s1 s2 -> R s2 s3 -> R s1 s3.

(** [c] relates every state it starts from to the state it leaves,
    whatever its outcome. *)
Definition keeps {A} (c : M St A) : Prop := forall s, R s (c s).1.

Lemma keeps_ret {A} (a : A) : keeps (mret a).
Proof. intros s. apply R_refl. Qed.

Lemma keeps_lift {A} (r : result A) : keeps (lift r).
Proof. intros s. apply R_refl. Qed.

Lemma keeps_get : keeps get.
Proof. intros s. apply R_refl. Qed.

Lemma keeps_bind {A B} (c : M St A) (k : A -> M St B) :
  keeps c -> (forall a, keeps (k a)) -> keeps (c ≫= k).
Proof.
  intros Hc Hk s. unfold mbind, M_bind.
  specialize (Hc s). destruct (c s) as [s' [a|e|]]; simpl in *; auto.
  eapply R_trans; [exact Hc | apply Hk].
Qed.

Lemma keeps_foldM {A B} (f : B -> A -> M St B) (l : list A) :
  (forall b x, keeps (f b x)) -> forall b, keeps (foldM f l b).
Proof.
  intros Hf. induction l as [|x l IH]; intros b; simpl.
  - apply keeps_ret.
  - apply keeps_bind; auto.
Qed.
End Frames.

Lemma np_index_lt len i k : np_index len i = Val k -> (k < len)%nat.
Proof.
  unfold np_index. intros H.
  destruct ((0 <=? i) && (i <? Z.of_nat len)) eqn:E1.
  - inversion H; subst. apply andb_true_iff in E1 as [? ?]. lia.
  - destruct ((- Z.of_nat len <=? i) && (i <? 0)) eqn:E2; [|discriminate].
    inversion H; subst. apply andb_true_iff in E2 as [? ?]. lia.
Qed.

Lemma np_get_Val {A} (l : list A) i a :
  np_get l i = Val a -> exists k, np_index (length l) i = Val k /\ l !! k = Some a.
Proof.
  unfold np_get. run. destruct (np_index (length l) i) as [k| |] eqn:E; try discriminate.
  destruct (l !! k) eqn:E2; try discriminate. intros H; inversion H; subst. eauto.
Qed.

Lemma np_get_Fuel {A} (l : list A) i : np_get l i <> Fuel.
Proof.
  unfold np_get, np_index. run.
  destruct ((0 <=? i) && (i <? Z.of_nat (length l))); simpl.
  - destruct (l !! _); discriminate.
  - destruct ((- Z.of_nat (length l) <=? i) && (i <? 0)); simpl; [|discriminate].
    destruct (l !! _); discriminate.
Qed.

Lemma np_set_get {A} (l : list A) i a b :
  np_get l i = Val a -> exists k, np_index (length l) i = Val k /\ l !! k = Some a /\
    np_set l i b = Val (<[k:=b]> l).
Proof.
  intros H. apply np_get_Val in H as (k & Hk & Hl). exists k. repeat split; auto.
  unfold np_set. run. rewrite Hk. reflexivity.
Qed.

(** * Properties of [TaoTree] *)

Section Tao.
Context {fitted : Type}.
Variable model_fit : TaoTree.model_kind -> list Q -> list Z -> list Q -> result fitted.
Variable model_score : fitted -> list Q -> list Z -> list Q -> result Q.
Variable linear_threshold : fitted -> result Q.
Variable stump_feature0 : fitted -> result Z.
Variable tree_score : TaoTree.tree -> matrix -> list Q -> Q.
Variable np_mean : list Q -> Q.
Variable np_median : list Q -> Q.
Variable shuffle : list Z -> list Z.
Variable recursion_limit : nat.

Import TaoTree.

Lemma same_topology_refl t : same_topology t t.
Proof. unfold same_topology. tauto. Qed.

Lemma same_topology_trans t1 t2 t3 :
  same_topology t1 t2 -> same_topology t2 t3 -> same_topology t1 t3.
Proof.
  intros (L1 & R1 & F1 & T1 & V1 & I1) (L2 & R2 & F2 & T2 & V2 & I2).
  unfold same_topology. repeat split; try congruence.
  intros Hok k a b Ha Hb Hab.
  rewrite (I2 ltac:(unfold node_count_ok in *; rewrite L1, R1; lia) k a b),
    (I1 Hok k a b); auto; congruence.
Qed.

Lemma update_node_cases X y node_id bf bt t :
  let out := update_node tree_score X y node_id bf bt t in
  match out.2 with
  | Val true =>
      exists kf kq f q,
        bf = Some f /\ bt = Some q /\
        np_index (length (feature t)) node_id = Val kf /\
        np_index (length (threshold t)) node_id = Val kq /\
        out.1 = Tree (children_left t) (children_right t) (<[kf:=f]> (feature t))
                  (<[kq:=q]> (threshold t)) (value t) /\
        (tree_score t X y < tree_score out.1 X y)%Q
  | Val false => out.1 = t
  | Exn _ => out.1 = t \/ (bt = None /\ is_Some bf)
  | Fuel => False
  end.
Proof.
  unfold update_node, set_feature, set_threshold. run.
  destruct (np_get (feature t) node_id) as [old_feat| |] eqn:Ef; simpl; auto;
    [|exact (np_get_Fuel _ _ Ef)].
  destruct (np_get (threshold t) node_id) as [old_thr| |] eqn:Et; simpl; auto;
    [|exact (np_get_Fuel _ _ Et)].
  destruct bf as [f|]; simpl; auto.
  destruct (np_set_get _ _ _ f Ef) as (kf & Hkf & Hlf & ->). simpl.
  destruct bt as [q|]; simpl; eauto.
  destruct (np_set_get _ _ _ q Et) as (kq & Hkq & Hlq & ->). simpl.
  match goal with |- context [Qle_bool ?a ?b] => destruct (Qle_bool a b) eqn:Hs end.
  - unfold np_set. run.
    rewrite length_insert, Hkf. simpl. rewrite length_insert, Hkq. simpl.
    rewrite !list_insert_insert_eq.
    rewrite (list_insert_id _ _ _ Hlf), (list_insert_id _ _ _ Hlq).
    destruct t; reflexivity.
  - simpl. exists kf, kq, f, q. repeat split; auto.
    apply Qnot_le_lt. intros Hle. apply Qle_bool_iff in Hle. congruence.
Qed.

Lemma new_model_node_model self kind :
  new_model self = Val kind ->
  str_eq (node_model self) "linear" = true \/ str_eq (node_model self) "stump" = true.
Proof.
  unfold new_model.
  destruct (str_eq (prediction_task self) "classification");
    [|destruct (str_eq (prediction_task self) "regression"); [|discriminate]];
    destruct (str_eq (node_model self) "linear"); auto;
    destruct (str_eq (node_model self) "stump"); auto; discriminate.
Qed.

Lemma search_loop_best_feat self X_node target w feats s s' f :
  search_loop model_fit model_score self X_node target w feats s = Val s' ->
  best_feat s' = Some f ->
  is_Some (best_feat s) \/ exists kind, new_model self = Val kind.
Proof.
  revert s. induction feats as [|feat feats IH]; intros s; simpl.
  - intros [= ->] Hf. left. eauto.
  - unfold search_step. run.
    destruct (new_model self) as [kind| |] eqn:Ek; simpl; try discriminate.
    intros _ _. right. eauto.
Qed.

Lemma best_threshold_None self (s : search) :
  best_threshold linear_threshold stump_feature0 self s = Val None ->
  str_eq (node_model self) "linear" = false /\ str_eq (node_model self) "stump" = false.
Proof.
  unfold best_threshold. run.
  destruct (str_eq (node_model self) "linear").
  - destruct (best_model s); [|discriminate].
    destruct (linear_threshold _); discriminate.
  - destruct (str_eq (node_model self) "stump"); auto.
    destruct (m s); [|discriminate].
    destruct (stump_feature0 _); discriminate.
Qed.

(** C4.  The step at an internal node ends in one of two ways.  Either
    the update is counted, and then the whole-tree score of the tree
    left behind is strictly larger than that of the tree before and only
    [feature[node_id]] and [threshold[node_id]] were written; or it is
    not counted (rejected, or an exception before anything was written),
    and then the tree is the one the step started from. *)
Theorem internal_node_step_keeps_or_restores self X y X_node y_node node_id t :
  let out := internal_node_step model_fit model_score linear_threshold stump_feature0
               tree_score recursion_limit self X y X_node y_node node_id t in
  match out.2 with
  | Val true =>
      (tree_score t X y < tree_score out.1 X y)%Q /\
      exists kf kq f q,
        np_index (length (feature t)) node_id = Val kf /\
        np_index (length (threshold t)) node_id = Val kq /\
        out.1 = Tree (children_left t) (children_right t) (<[kf:=f]> (feature t))
                  (<[kq:=q]> (threshold t)) (value t)
  | _ => out.1 = t
  end.
Proof.
  unfold internal_node_step. run.
  destruct (np_get (children_left t) node_id) as [cl| |]; simpl; auto.
  destruct (predict_from_node _ _ _ _ cl) as [yl| |]; simpl; auto.
  destruct (np_get (children_right t) node_id) as [cr| |]; simpl; auto.
  destruct (predict_from_node _ _ _ _ cr) as [yr| |]; simpl; auto.
  destruct (search_loop _ _ _ _ _ _ _ _) as [s| |] eqn:Es; simpl; auto.
  destruct (best_threshold _ _ _ s) as [bt| |] eqn:Eb; simpl; auto.
  pose proof (update_node_cases X y node_id (best_feat s) bt t) as H.
  simpl in H.
  destruct (update_node tree_score X y node_id (best_feat s) bt t) as [t' [[|]|e|]];
    simpl in *; auto.
  - destruct H as (kf & kq & f & q & _ & _ & Hkf & Hkq & -> & Hlt).
    split; [exact Hlt|]. exists kf, kq, f, q. auto.
  - destruct H as [H|[-> [f Ef]]]; [exact H|].
    apply best_threshold_None in Eb as [E1 E2].
    destruct (search_loop_best_feat _ _ _ _ _ _ _ _ Es Ef) as [[? [=]]|[kind Hk]].
    apply new_model_node_model in Hk as [Hk|Hk]; congruence.
  - contradiction.
Qed.

Abbreviation stable := (keeps same_topology).

Lemma stable_bind {A B} (c : M tree A) (k : A -> M tree B) :
  stable c -> (forall a, stable (k a)) -> stable (c ≫= k).
Proof. apply keeps_bind, same_topology_trans. Qed.

Lemma stable_ret {A} (a : A) : stable (mret a).
Proof. apply (keeps_ret _ same_topology_refl). Qed.

Lemma stable_lift {A} (r : result A) : stable (lift r).
Proof. apply (keeps_lift _ same_topology_refl). Qed.

Lemma stable_get : stable get.
Proof. apply (keeps_get _ same_topology_refl). Qed.

Lemma stable_foldM {A B} (f : B -> A -> M tree B) (l : list A) b :
  (forall b x, stable (f b x)) -> stable (foldM f l b).
Proof.
  intros. apply keeps_foldM;
    first [exact same_topology_refl | exact same_topology_trans | assumption].
Qed.

Lemma stable_set_feature node_id f : stable (set_feature node_id f).
Proof.
  intros t. unfold set_feature, np_set. run.
  destruct (np_index _ _); simpl; try apply same_topology_refl.
  unfold same_topology; simpl. rewrite length_insert. tauto.
Qed.

Lemma stable_set_threshold node_id q : stable (set_threshold node_id q).
Proof.
  intros t. unfold set_threshold, np_set. run.
  destruct (np_index _ _); simpl; try apply same_topology_refl.
  unfold same_topology; simpl. rewrite length_insert. tauto.
Qed.

Create HintDb stable.
Hint Resolve stable_ret stable_lift stable_get stable_set_feature
  stable_set_threshold : stable.

Ltac stable :=
  repeat first
    [ progress eauto with stable
    | apply stable_bind; [|intros]
    | apply stable_foldM; intros
    | match goal with
      | |- keeps _ (if ?b then _ else _) => destruct b
      | |- keeps _ (match ?x with _ => _ end) => destruct x
      end ].

Lemma stable_update_node X y node_id bf bt :
  stable (update_node tree_score X y node_id bf bt).
Proof. unfold update_node. stable. Qed.
Hint Resolve stable_update_node : stable.

Lemma stable_internal_node_step self X y X_node y_node node_id :
  stable (internal_node_step model_fit model_score linear_threshold stump_feature0
            tree_score recursion_limit self X y X_node y_node node_id).
Proof. unfold internal_node_step. stable. Qed.
Hint Resolve stable_internal_node_step : stable.

(** A leaf value is the only entry of [value] a step writes. *)
Lemma stable_node_step self X y node_id p :
  stable (node_step model_fit model_score linear_threshold stump_feature0 tree_score
            np_mean recursion_limit self X y node_id p).
Proof.
  intros t. unfold node_step. run.
  destruct (filter_points_by_path t X y p) as [[X_node y_node]| |]; simpl;
    try apply same_topology_refl.
  destruct (np_get (children_left t) node_id) as [cl| |] eqn:El; simpl;
    try apply same_topology_refl.
  destruct (np_get (children_right t) node_id) as [cr| |] eqn:Er; simpl;
    try apply same_topology_refl.
  destruct (cl =? cr) eqn:Ec.
  - destruct (_ && _); simpl; try apply same_topology_refl.
    destruct (np_get (value t) node_id) as [v| |] eqn:Ev; simpl;
      try apply same_topology_refl.
    unfold set_value. run.
    destruct (np_set_get _ _ _ (map (fun _ => np_mean y_node) v) Ev) as (kv & Hkv & _ & ->).
    simpl. unfold same_topology; simpl. rewrite length_insert.
    repeat split; auto.
    intros (Hr & _ & _ & Hv) k a b Ha Hb Hab.
    destruct (decide (k = kv)) as [->|Hne]; [|apply list_lookup_insert_ne; auto].
    exfalso. apply Hab.
    apply np_get_Val in El as (kl & Hkl & Hl), Er as (kr & Hkr & Hr').
    rewrite Hv in Hkv. rewrite Hr in Hkr.
    apply Z.eqb_eq in Ec. congruence.
  - destruct (_ <? _); simpl; try apply same_topology_refl.
    apply stable_internal_node_step.
Qed.

Lemma stable_tao_iter_cart fuel self X y :
  stable (_tao_iter_cart model_fit model_score linear_threshold stump_feature0
            tree_score np_mean recursion_limit fuel self X y).
Proof. unfold _tao_iter_cart. pose proof stable_node_step. stable. Qed.
Hint Resolve stable_tao_iter_cart : stable.

Lemma stable_sweeps iters fuel self X y :
  stable (sweeps model_fit model_score linear_threshold stump_feature0
            tree_score np_mean recursion_limit iters fuel self X y).
Proof.
  induction iters as [|iters IH]; simpl; stable.
Qed.

Hypothesis shuffle_length : forall l, length (shuffle l) = length l.

Lemma stable_randomize X : stable (randomize np_median shuffle X).
Proof.
  assert (stable (modify (fun t => Tree (children_left t) (children_right t)
            (shuffle (feature t)) (threshold t) (value t)))) as Hput.
  { intros t. unfold modify. simpl. unfold same_topology; simpl.
    rewrite shuffle_length. tauto. }
  unfold randomize. stable.
Qed.

Lemma fit_stable fuel self X y :
  stable (fit model_fit model_score linear_threshold stump_feature0 tree_score np_mean
            np_median shuffle recursion_limit fuel self X y).
Proof.
  unfold fit. pose proof stable_randomize. pose proof stable_sweeps. stable.
Qed.

(** C9.  Whatever happens in [fit] after the CART fit (the optional
    shuffle and every sweep, to the end or to an exception), the tree
    keeps its node count and its two children arrays, and no entry of
    [value] at a split node changes: only [feature], [threshold] and the
    [value] of leaves are written. *)
Theorem fit_keeps_topology fuel self X y t :
  node_count_ok t ->
  let t' := (fit model_fit model_score linear_threshold stump_feature0 tree_score
               np_mean np_median shuffle recursion_limit fuel self X y t).1 in
  children_left t' = children_left t /\
  children_right t' = children_right t /\
  node_count_ok t' /\
  forall k a b,
    children_left t !! k = Some a -> children_right t !! k = Some b -> a <> b ->
    value t' !! k = value t !! k.
Proof.
  intros Hok t'. destruct (fit_stable fuel self X y t) as (L & R & F & T & V & I).
  fold t' in L, R, F, T, V, I.
  repeat split; auto.
  all: try (unfold node_count_ok in *; rewrite ?L, ?R, ?F, ?T, ?V; tauto).
  all: try (destruct Hok as (? & ? & ? & ?); congruence).
Qed.

End Tao.

(** The uniform weights of [weight_errors=False]. *)
Lemma sample_weight_uniform self y_node errors :
  TaoTree.weight_errors self = false ->
  TaoTree.sample_weight self y_node errors = map (fun _ => 1%Q) y_node.
Proof. unfold TaoTree.sample_weight. intros ->. reflexivity. Qed.

(** X9.  With [weight_errors=True] a row weighs its error on the right side:
    the left error is the output buffer of [np.abs], not an operand. *)
Lemma sample_weight_right_error self y_node y_node_left y_node_right :
  TaoTree.weight_errors self = true ->
  length y_node_left = length y_node -> length y_node_right = length y_node ->
  TaoTree.sample_weight self y_node
    (TaoTree.y_node_absolute_errors y_node y_node_left y_node_right)
  = map Qabs (map Qabs (zip_with Qminus y_node y_node_right)).
Proof.
  unfold TaoTree.sample_weight, TaoTree.np_abs, TaoTree.y_node_absolute_errors.
  intros -> Hl Hr. f_equal. apply snd_zip.
  rewrite !length_map, !length_zip_with. lia.
Qed.

(** C5, at three rows with targets 0, 2, 4 whose left subtree predicts 1
    and whose right subtree predicts 3: the errors are (1,3), (1,1) and
    (3,1), the differences are 2, 0, 2, and the weights the code computes
    are 3, 1, 1. *)
Theorem sample_weight_is_not_error_difference :
  let y_node := [0; 2; 4]%Q in
  let errors := TaoTree.y_node_absolute_errors y_node [1; 1; 1]%Q [3; 3; 3]%Q in
  TaoTree.weight_errors TaoExample.self = true /\
  errors = [(1, 3); (1, 1); (3, 1)]%Q /\
  TaoTree.error_difference errors = [2; 0; 2]%Q /\
  TaoTree.sample_weight TaoExample.self y_node errors = [3; 1; 1]%Q.
Proof. vm_compute. repeat split. Qed.

Example tao_paths :
  TaoTree.node_paths 10 TaoExample.t0 [(0, [])] []
  = Val [(0, []); (2, [(0, TaoTree.R)]); (1, [(0, TaoTree.L)])].
Proof. reflexivity. Qed.

(** One sweep moves the root threshold from 5 to 0 and the accuracy
    from 1/2 to 1; the second sweep finds nothing to change. *)
Example tao_fit_accepts :
  TaoExample.run_fit 10 TaoExample.t0
  = (TaoTree.Tree [1; -1; -1] [2; -1; -1] [0; -2; -2] [0; -2; -2]%Q
       [[1 # 2; 1 # 2]; [1; 0]; [0; 1]]%Q, Val tt)
  /\ TaoExample.accuracy TaoExample.t0 TaoExample.X TaoExample.y = (1 # 2)%Q
  /\ TaoExample.accuracy (TaoExample.run_fit 10 TaoExample.t0).1
       TaoExample.X TaoExample.y = 1%Q.
Proof. vm_compute. repeat split. Qed.

(** From the optimised tree the candidate is the pair already there:
    the score does not improve and the tree is put back as it was. *)
Example tao_step_rejects :
  let t1 := (TaoExample.run_fit 10 TaoExample.t0).1 in
  TaoTree.node_step TaoExample.model_fit TaoExample.model_score
    TaoExample.linear_threshold TaoExample.stump_feature0 TaoExample.accuracy
    TaoExample.np_mean 100 TaoExample.self TaoExample.X TaoExample.y 0 [] t1
  = (t1, Val false).
Proof. vm_compute. reflexivity. Qed.

Lemma fit_keeps_topology_witness :
  let t' := (TaoExample.run_fit 10 TaoExample.t0).1 in
  TaoTree.children_left t' = [1; -1; -1] /\
  TaoTree.children_right t' = [2; -1; -1] /\
  TaoTree.node_count_ok t' /\
  forall k a b,
    TaoTree.children_left TaoExample.t0 !! k = Some a ->
    TaoTree.children_right TaoExample.t0 !! k = Some b -> a <> b ->
    TaoTree.value t' !! k = TaoTree.value TaoExample.t0 !! k.
Proof.
  apply (fit_keeps_topology TaoExample.model_fit TaoExample.model_score
           TaoExample.linear_threshold TaoExample.stump_feature0 TaoExample.accuracy
           TaoExample.np_mean TaoExample.np_median (@reverse Z) 100
           (fun l => length_reverse l) 10%nat TaoExample.self TaoExample.X
           TaoExample.y TaoExample.t0).
  unfold TaoTree.node_count_ok. simpl. repeat split; reflexivity.
Defined.

Import AFIGS.

(** * Properties of [AFIGS]: what the prediction methods return *)

Lemma forM_length {A B} (f : A -> result B) l r :
  forM l f = Val r -> length r = length l.
Proof.
  revert r. induction l as [|x l IH]; intros r; simpl.
  - intros [= <-]. reflexivity.
  - run. destruct (f x); try discriminate. simpl.
    destruct (forM l f) as [bs| |]; try discriminate. simpl.
    intros [= <-]. simpl. f_equal. auto.
Qed.

Lemma np_inplace_length op a b r :
  np_inplace op a b = Val r -> length r = length a.
Proof.
  unfold np_inplace. destruct (length b =? length a)%nat eqn:E.
  - destruct (forallb _ _); [|discriminate].
    intros [= <-]. apply Nat.eqb_eq in E. rewrite length_zip_with. lia.
  - destruct b as [|row [|? ?]]; try discriminate.
    destruct (forallb _ _); [|discriminate].
    intros [= <-]. apply length_map.
Qed.

Lemma np_inplace_Fuel op a b : np_inplace op a b <> Fuel.
Proof.
  unfold np_inplace. destruct (_ =? _)%nat.
  - destruct (forallb _ _); discriminate.
  - destruct b as [|? [|? ?]]; try discriminate.
    destruct (forallb _ _); discriminate.
Qed.

Lemma np_zeros_rows_length n levels r :
  np_zeros_rows n levels = Val r -> length r = n.
Proof.
  unfold np_zeros_rows. run. destruct (np_zeros levels); try discriminate.
  intros [= <-]. apply length_replicate.
Qed.

Section Predict.
Variable recursion_limit : nat.

Lemma sum_of_trees_length s X p :
  sum_of_trees recursion_limit s X = Val p -> exists m, n s = Some m /\ length p = m.
Proof.
  unfold sum_of_trees. run.
  destruct (n s) as [m|]; [|discriminate].
  destruct (y_levels s) as [levels|]; [|discriminate].
  destruct (np_zeros_rows m levels) as [z| |] eqn:Ez; try discriminate. simpl.
  destruct (trees_ s) as [trees|]; [|discriminate]. simpl.
  apply np_zeros_rows_length in Ez. intros H. exists m. split; [reflexivity|].
  revert z Ez H. induction trees as [|tr trees IH]; intros z Ez; simpl.
  - intros [= <-]. exact Ez.
  - destruct tr as [root|]; simpl.
    + destruct (_predict_tree _ _ _ _) as [q| |]; try discriminate. simpl.
      destruct (iadd z q) as [z'| |] eqn:Ea; try discriminate. simpl.
      apply IH. apply np_inplace_length in Ea. congruence.
    + apply IH. exact Ez.
Qed.

(** C10.  An array that [predict] or [predict_proba] returns has [self.n]
    rows, the row count of the training set; it has one row per row of
    [X] exactly when [X] has [self.n] rows. *)
Theorem predict_first_dimension s X v :
  predict recursion_limit s X = Val v \/ predict_proba recursion_limit s X = Val v ->
  match v with
  | Classes class_preds => one_row_per_training_sample s X (length class_preds)
  | Proba preds => one_row_per_training_sample s X (length preds)
  | NotImplemented | None_ => True
  end.
Proof.
  assert (forall m len, n s = Some m -> len = m -> one_row_per_training_sample s X len) as Hrow.
  { intros m len Hn ->. exists m. split; [exact Hn|]. split; [reflexivity|]. split; congruence. }
  unfold predict, predict_proba, check_array. run.
  destruct ((shape0 X =? 0)%nat || (shape1 X =? 0)%nat); simpl.
  { intros [H|H]; discriminate. }
  intros [H|H].
  - destruct (sum_of_trees recursion_limit s X) as [p| |] eqn:Ep; try discriminate.
    simpl in H. apply sum_of_trees_length in Ep as (m & Hn & Hp).
    destruct (str_eq (prediction_task s) "regression"); [inversion H; exact I|].
    destruct (str_eq (prediction_task s) "classification"); [|inversion H; exact I].
    destruct (y_levels s) as [levels|]; simpl in H; try discriminate.
    destruct (forM p (best_class levels)) as [cp| |] eqn:Ec; try discriminate.
    inversion H; subst. apply forM_length in Ec. eapply Hrow; eauto; congruence.
  - destruct (str_eq (prediction_task s) "regression"); [inversion H; exact I|].
    destruct (sum_of_trees recursion_limit s X) as [p| |] eqn:Ep; try discriminate.
    simpl in H. apply sum_of_trees_length in Ep as (m & Hn & Hp).
    inversion H; subst. eapply Hrow; eauto.
Qed.

(** C6 as the code has it.  With the regression task neither method
    returns an array, and neither raises on account of the task:
    [predict_proba] returns [NotImplemented] for every [X] that
    [check_array] accepts, and [predict] returns it whenever the
    validation and the sum over the trees go through. *)
Theorem regression_returns_NotImplemented s X :
  prediction_task s = "regression" ->
  (forall v, predict recursion_limit s X = Val v -> v = NotImplemented) /\
  (forall v, predict_proba recursion_limit s X = Val v -> v = NotImplemented) /\
  (forall X', check_array X = Val X' ->
     predict_proba recursion_limit s X = Val NotImplemented) /\
  (forall X' preds, check_array X = Val X' ->
     sum_of_trees recursion_limit s X' = Val preds ->
     predict recursion_limit s X = Val NotImplemented).
Proof.
  intros Ht. unfold predict, predict_proba. rewrite Ht. run.
  repeat split.
  - intros v. destruct (check_array X); try discriminate. simpl.
    destruct (sum_of_trees _ _ _); try discriminate. simpl. congruence.
  - intros v. destruct (check_array X); try discriminate. simpl. congruence.
  - intros X' ->. reflexivity.
  - intros X' preds -> ->. reflexivity.
Qed.
End Predict.

Lemma predict_first_dimension_witness :
  one_row_per_training_sample AFIGSExample.fitted2 AFIGSExample.X1 2.
Proof.
  apply (predict_first_dimension 100 AFIGSExample.fitted2 AFIGSExample.X1
           (AFIGS.Classes [[1]; [1]])).
  left. vm_compute. reflexivity.
Defined.

Lemma regression_returns_NotImplemented_witness :
  AFIGS.predict_proba 100 AFIGSExample.regressor2 AFIGSExample.X2
  = Val AFIGS.NotImplemented.
Proof.
  destruct (regression_returns_NotImplemented 100 AFIGSExample.regressor2
              AFIGSExample.X2 eq_refl) as (_ & _ & H & _).
  apply (H AFIGSExample.X2). reflexivity.
Defined.

(** C6 as it is worded fails: on the fitted estimator with the task set
    to regression, both methods return [NotImplemented] for the training
    matrix and raise nothing. *)
Lemma regression_does_not_raise :
  AFIGS.prediction_task AFIGSExample.regressor2 = "regression" /\
  AFIGS.predict 100 AFIGSExample.regressor2 AFIGSExample.X2 = Val AFIGS.NotImplemented /\
  AFIGS.predict_proba 100 AFIGSExample.regressor2 AFIGSExample.X2
  = Val AFIGS.NotImplemented /\
  ~ Claimed.fails_fast 100 AFIGSExample.regressor2 AFIGSExample.X2.
Proof.
  assert (AFIGS.predict 100 AFIGSExample.regressor2 AFIGSExample.X2
          = Val AFIGS.NotImplemented) as Hp by (vm_compute; reflexivity).
  repeat split; auto.
  intros [[e He] _]. rewrite Hp in He. discriminate.
Qed.

(** * Properties of [AFIGS]: residuals *)









Lemma lift_Val {St A} (r : result A) (s s1 : St) a :
  lift r s = (s1, Val a) -> r = Val a /\ s1 = s.
Proof. unfold lift. intros [= -> ->]. auto. Qed.

(** * Properties of [AFIGS]: the split count *)

Lemma keeps_raise {St A} (R : St -> St -> Prop) (e : exn) :
  (forall s, R s s) -> keeps R (raise e : M St A).
Proof. intros Hr s. apply Hr. Qed.

Lemma keeps_modify {St} (R : St -> St -> Prop) (f : St -> St) :
  (forall s, R s (f s)) -> keeps R (modify f).
Proof. intros H s. apply H. Qed.

Lemma same_count_refl s : same_count s s.
Proof. split; reflexivity. Qed.

Lemma same_count_trans s1 s2 s3 :
  same_count s1 s2 -> same_count s2 s3 -> same_count s1 s3.
Proof. unfold same_count. intros [? ?] [? ?]. split; congruence. Qed.

Create HintDb count.

Ltac count :=
  repeat first
    [ progress eauto with count
    | apply (keeps_ret _ same_count_refl)
    | apply (keeps_lift _ same_count_refl)
    | apply (keeps_get _ same_count_refl)
    | apply (keeps_raise _ _ same_count_refl)
    | apply keeps_modify; intros ?; split; reflexivity
    | apply (keeps_bind _ same_count_trans); [|intros]
    | apply (keeps_foldM _ same_count_refl same_count_trans); intros
    | match goal with
      | |- keeps _ (if ?b then _ else _) => destruct b
      | |- keeps _ (match ?x with _ => _ end) => destruct x
      | |- keeps _ (let _ := _ in _) => cbv zeta
      end ].

Lemma count_attr {A} (o : option A) : keeps same_count (attr o).
Proof. unfold attr. count. Qed.
#[local] Hint Resolve count_attr : count.

Lemma count_node r : keeps same_count (node r).
Proof. intros s. unfold node. destruct (heap s !! r); apply same_count_refl. Qed.
#[local] Hint Resolve count_node : count.

Lemma count_new_node nd : keeps same_count (new_node nd).
Proof. intros s. split; reflexivity. Qed.
#[local] Hint Resolve count_new_node : count.

Lemma count_setattrs r f : keeps same_count (setattrs r f).
Proof. unfold setattrs. count. Qed.
#[local] Hint Resolve count_setattrs : count.

Lemma count_flatten_y t dims : keeps same_count (_flatten_y t dims).
Proof. unfold _flatten_y. count. Qed.
#[local] Hint Resolve count_flatten_y : count.

Lemma count_compute_node_value y idxs : keeps same_count (_compute_node_value y idxs).
Proof. unfold _compute_node_value. count. Qed.
#[local] Hint Resolve count_compute_node_value : count.

Lemma count_init_y y : keeps same_count (_init_y y).
Proof. unfold _init_y. count. Qed.
#[local] Hint Resolve count_init_y : count.

Section Count.
Variable stump_fit : matrix -> matrix -> option (list Q) -> result stump_tree.
Variable recursion_limit : nat.

Lemma count_construct X y y_all idxs tree_num sample_weight :
  keeps same_count
    (_construct_node_with_stump stump_fit X y y_all idxs tree_num sample_weight).
Proof. unfold _construct_node_with_stump. count. Qed.
Hint Resolve count_construct : count.

Lemma count_update_predictions X preds :
  keeps same_count (update_predictions recursion_limit X preds).
Proof. unfold update_predictions. count. Qed.
Hint Resolve count_update_predictions : count.

Lemma count_sorted nodes : keeps same_count (sorted nodes).
Proof. unfold sorted. count. Qed.
Hint Resolve count_sorted : count.

Lemma count_refit X y sw keys resid acc ps :
  keeps same_count (refit stump_fit X y sw keys resid acc ps).
Proof. unfold refit. count. Qed.
Hint Resolve count_refit : count.

Lemma count_refresh X y sw keys y_onehot rest split_node loc :
  keeps same_count
    (refresh stump_fit recursion_limit X y sw keys y_onehot rest split_node loc).
Proof. unfold refresh. count. Qed.

Lemma count_initial_splits X y sw y_dict :
  keeps same_count (initial_splits stump_fit X y sw y_dict).
Proof. unfold initial_splits. count. Qed.

Lemma may_commit_bounded m s : may_commit m s -> count_bounded m s.
Proof. intros [Hm (c & Hc & H0 & H)]. split; [exact Hm|]. exists c. split; [exact Hc|]. lia. Qed.

Lemma same_count_may_commit m s s' : same_count s s' -> may_commit m s -> may_commit m s'.
Proof. intros [E1 E2] [Hm Hc]. split; [congruence|]. rewrite E2. exact Hc. Qed.

Lemma commit_count m X y sw keys y_onehot rest split_node loc s :
  may_commit m s ->
  let out := commit stump_fit recursion_limit X y sw keys y_onehot rest split_node
               loc s in
  count_bounded m out.1 /\
  (forall r, out.2 = Val r -> r.2 = false -> may_commit m out.1).
Proof.
  intros [Hm (c & Hc & H0 & Hlt)]. unfold commit. run. rewrite Hc. simpl.
  destruct (count_refresh X y sw keys y_onehot rest split_node loc
              (set_complexity_ (c + 1) s)) as [E1 E2].
  destruct (refresh _ _ _ _ _ _ _ _ _ _ _) as [s2 [loc'| |]]; simpl in *.
  - rewrite E2, E1, Hm. simpl. split.
    + split; [congruence|]. exists (c + 1). split; [congruence|]. lia.
    + intros r [= <-]. simpl. intros Hfin. apply Z.leb_gt in Hfin.
      split; [congruence|]. exists (c + 1). split; [congruence|]. lia.
  - split; [|discriminate]. split; [congruence|]. exists (c + 1).
    split; [congruence|]. lia.
  - split; [|discriminate]. split; [congruence|]. exists (c + 1).
    split; [congruence|]. lia.
Qed.

Lemma grow_step_count m X y sw keys y_onehot rest split_node loc s :
  may_commit m s ->
  let out := grow_step stump_fit recursion_limit X y sw keys y_onehot rest split_node
               loc s in
  count_bounded m out.1 /\
  (forall r, out.2 = Val r -> r.2 = false -> may_commit m out.1).
Proof.
  intros HJ. pose proof (may_commit_bounded _ _ HJ) as HB.
  unfold grow_step. run.
  destruct split_node as [r0|]; simpl; [|split; [exact HB|discriminate]].
  unfold node. destruct (heap s !! r0) as [nd|]; simpl; [|split; [exact HB|discriminate]].
  destruct (impurity_reduction nd) as [ir|]; simpl; [|split; [exact HB|discriminate]].
  destruct (Qlt_bool ir (min_impurity_decrease s)); simpl.
  - split; [exact HB|]. intros r [= <-]. discriminate.
  - apply commit_count. exact HJ.
Qed.

Lemma grow_count m fuel X y sw keys y_onehot loc s :
  may_commit m s ->
  count_bounded m
    (grow stump_fit recursion_limit fuel X y sw keys y_onehot loc s).1.
Proof.
  revert loc s. induction fuel as [|fuel IH]; intros loc s HJ; simpl.
  - destruct (pop (potential_splits loc)) as [[rest split_node]|]; simpl;
      apply may_commit_bounded; exact HJ.
  - destruct (pop (potential_splits loc)) as [[rest split_node]|]; simpl;
      [|apply may_commit_bounded; exact HJ].
    destruct (grow_step_count m X y sw keys y_onehot rest split_node loc s HJ) as [HB Hn].
    unfold mbind, M_bind.
    destruct (grow_step _ _ _ _ _ _ _ _ _ _ _) as [s1 [[loc' fin]| |]]; simpl in *; auto.
    destruct fin; simpl; [exact HB|].
    apply IH. apply (Hn _ eq_refl eq_refl).
Qed.

(** C3 as the code has it.  With [max_rules] set to [m], the split count
    is at most [max m 1] in whatever state [fit] ends, be it the normal
    end, an exception or an exhausted budget: the count is compared with
    [max_rules] after a split is committed, so the first split is always
    committed and later ones only while fewer than [m] are. *)
Theorem complexity_at_most_max_rules fuel X y sw s m :
  max_rules s = Some m ->
  let s' := (fit stump_fit recursion_limit fuel X y sw s).1 in
  max_rules s' = Some m /\
  exists c, complexity_ s' = Some c /\ 0 <= c <= Z.max m 1.
Proof.
  intros Hm. cbv zeta. change (count_bounded m (fit stump_fit recursion_limit fuel X y sw s).1).
  assert (may_commit m (set_complexity_ 0 s)) as H0.
  { split; [exact Hm|]. exists 0. simpl. split; [reflexivity|]. lia. }
  unfold fit, fit_locals. run.
  pose proof (count_init_y y (set_complexity_ 0 s)) as H1.
  destruct (_init_y y (set_complexity_ 0 s)) as [s1 [yd| |]]; simpl in *;
    try solve [apply may_commit_bounded; eapply same_count_may_commit; eauto].
  pose proof (count_initial_splits X y sw yd.1
                (set_trees_ (replicate (length yd.1) None) s1)) as H2.
  assert (may_commit m (set_trees_ (replicate (length yd.1) None) s1)) as H1'.
  { eapply same_count_may_commit; [|eapply same_count_may_commit; [exact H1|exact H0]].
    split; reflexivity. }
  destruct (initial_splits _ _ _ _ _ _) as [s2 [pool| |]]; simpl in *;
    try solve [apply may_commit_bounded; eapply same_count_may_commit; eauto].
  pose proof (grow_count m fuel X y sw (map fst yd.1) yd.2
                (Locals (map Some pool) ∅ ∅) s2
                (same_count_may_commit _ _ _ H2 H1')) as HB.
  destruct (grow _ _ _ _ _ _ _ _ _ _) as [s3 [loc| |]]; simpl in *; exact HB.
Qed.
End Count.

(** C3 as it is worded fails for [max_rules = 0]: [fit] returns with one
    split committed. *)
Lemma complexity_exceeds_max_rules_0 :
  let out := AFIGSExample.run_fit (Some 0) AFIGSExample.X2 AFIGSExample.y2 in
  out.2 = Val tt /\ max_rules out.1 = Some 0 /\ complexity_ out.1 = Some 1 /\
  ~ Claimed.at_most_max_rules out.
Proof.
  cbv zeta.
  assert ((AFIGSExample.run_fit (Some 0) AFIGSExample.X2 AFIGSExample.y2).2 = Val tt)
    as H1 by (vm_compute; reflexivity).
  assert (max_rules (AFIGSExample.run_fit (Some 0) AFIGSExample.X2 AFIGSExample.y2).1
          = Some 0) as H2 by (vm_compute; reflexivity).
  assert (complexity_ (AFIGSExample.run_fit (Some 0) AFIGSExample.X2 AFIGSExample.y2).1
          = Some 1) as H3 by (vm_compute; reflexivity).
  repeat split; auto.
  intros H. specialize (H 0 1 H1 H2 H3). lia.
Qed.

Lemma complexity_at_most_max_rules_witness :
  let s' := (AFIGSExample.run_fit (Some 12) AFIGSExample.X2 AFIGSExample.y2).1 in
  max_rules s' = Some 12 /\
  exists c, complexity_ s' = Some c /\ 0 <= c <= Z.max 12 1.
Proof.
  apply (complexity_at_most_max_rules Stump.fit 100 5 AFIGSExample.X2 AFIGSExample.y2
           None (__init__ None (Some 12) 0%Q) 12).
  reflexivity.
Defined.

(** * Properties of [AFIGS]: what [fit] rejects *)

Lemma np_index_Fuel len i : np_index len i <> Fuel.
Proof.
  unfold np_index. destruct (_ && _); [discriminate|]. destruct (_ && _); discriminate.
Qed.

Lemma np_index_out len i l :
  len = Z.to_nat l -> ~ (- l <= i < l) -> np_index len i = Exn IndexError.
Proof.
  intros -> H. unfold np_index.
  destruct ((0 <=? i) && (i <? Z.of_nat (Z.to_nat l))) eqn:E1.
  { apply andb_true_iff in E1 as [H1 H2].
    apply Z.leb_le in H1. apply Z.ltb_lt in H2. lia. }
  destruct ((- Z.of_nat (Z.to_nat l) <=? i) && (i <? 0)) eqn:E2; [|reflexivity].
  apply andb_true_iff in E2 as [H1 H2].
  apply Z.leb_le in H1. apply Z.ltb_lt in H2. lia.
Qed.

Lemma ravel_out levels : forall idx acc j q l,
  length idx = length levels -> idx !! j = Some q -> levels !! j = Some l ->
  ~ (- l <= q < l) -> exists e, ravel levels idx acc = Exn e.
Proof.
  induction levels as [|l0 levels IH]; intros idx acc j q l Hlen Hq Hl Hbad.
  - rewrite lookup_nil in Hl. discriminate.
  - destruct idx as [|i idx]; [discriminate|]. simpl. run.
    destruct j as [|j]; simpl in *.
    + injection Hq as ->. injection Hl as ->.
      rewrite (np_index_out _ _ l eq_refl Hbad). simpl. eauto.
    + destruct (np_index (Z.to_nat l0) i) as [k|e|] eqn:Ek; simpl;
        [eapply IH; eauto | eauto | exfalso; exact (np_index_Fuel _ _ Ek)].
Qed.

Lemma ravel_Fuel levels : forall idx acc, ravel levels idx acc <> Fuel.
Proof.
  induction levels as [|l levels IH]; intros [|i idx] acc; simpl; try discriminate.
  run. destruct (np_index (Z.to_nat l) i) eqn:E; simpl; try discriminate.
  - apply IH.
  - intros _. exact (np_index_Fuel _ _ E).
Qed.

Lemma np_zeros_Fuel levels : np_zeros levels <> Fuel.
Proof. unfold np_zeros. destruct (forallb _ _); discriminate. Qed.

Lemma one_hot_row_Fuel levels row : one_hot_row levels row <> Fuel.
Proof.
  unfold one_hot_row. run. destruct (np_zeros levels) eqn:E; simpl; try discriminate.
  - destruct (ravel levels (map Qtrunc row) 0) eqn:E2; simpl; try discriminate.
    intros _. exact (ravel_Fuel _ _ _ E2).
  - intros _. exact (np_zeros_Fuel _ E).
Qed.

Lemma forM_Fuel {A B} (f : A -> result B) l :
  (forall x, f x <> Fuel) -> forM l f <> Fuel.
Proof.
  intros H. induction l as [|x l IH]; simpl; [discriminate|]. run.
  destruct (f x) eqn:E; simpl; try discriminate.
  - destruct (forM l f); simpl; try discriminate. exact IH.
  - intros _. exact (H _ E).
Qed.

Lemma broadcast_Fuel dst : forall src d, broadcast dst src d <> Fuel.
Proof.
  induction dst as [|t dst IH]; intros [|s src] d; simpl; try discriminate.
  destruct (s =? t).
  - run. destruct (forM _ _) eqn:E; simpl; try discriminate.
    intros _. exact (forM_Fuel _ _ (IH src) E).
  - destruct (s =? 1); [|discriminate]. run.
    destruct (broadcast dst src d) eqn:E; simpl; try discriminate.
    intros _. exact (IH _ _ E).
Qed.

Lemma np_assign_Fuel dst v : np_assign dst v <> Fuel.
Proof.
  unfold np_assign. destruct (_ <? _)%nat; [discriminate|]. apply broadcast_Fuel.
Qed.

Lemma forM_Exn {A B} (f : A -> result B) l x e :
  (forall x, f x <> Fuel) -> x ∈ l -> f x = Exn e -> exists e', forM l f = Exn e'.
Proof.
  intros HF Hin Hx. induction l as [|a l IH]; [inversion Hin|]. simpl. run.
  destruct (f a) as [b|e0|] eqn:Ea; simpl; eauto.
  - apply elem_of_cons in Hin as [->|Hin]; [congruence|].
    destruct (IH Hin) as [e' ->]. simpl. eauto.
  - exfalso. exact (HF _ Ea).
Qed.

Lemma one_hot_row_out levels row j q l :
  length row = length levels -> row !! j = Some q -> levels !! j = Some l ->
  ~ (- l <= Qtrunc q < l) -> exists e, one_hot_row levels row = Exn e.
Proof.
  intros Hlen Hq Hl Hbad. unfold one_hot_row. run.
  destruct (np_zeros levels) as [z|e|] eqn:Ez; simpl; eauto.
  - destruct (ravel_out levels (map Qtrunc row) 0%nat j (Qtrunc q) l) as [e ->]; auto.
    + rewrite length_map. exact Hlen.
    + rewrite list_lookup_fmap, Hq. reflexivity.
    + simpl. eauto.
  - exfalso. exact (np_zeros_Fuel _ Ez).
Qed.

Lemma flatten_y_eval (s : estimator) levels y_onehot dims :
  y_levels s = Some levels ->
  exists m, _flatten_y y_onehot dims s = (s, Val m).
Proof. intros Hl. unfold _flatten_y, attr. run. rewrite Hl. simpl. eauto. Qed.

Lemma flatten_fold (s : estimator) levels y_onehot (l : list (list nat)) :
  y_levels s = Some levels ->
  forall acc,
    exists acc', foldM (fun acc dims =>
                          y_flat ← _flatten_y y_onehot dims;
                          mret (acc ++ [(dims, y_flat)])) l acc s = (s, Val acc') /\
                 length acc' = (length acc + length l)%nat.
Proof.
  intros Hl. induction l as [|d l IH]; intros acc; simpl.
  - exists acc. split; [reflexivity|lia].
  - destruct (flatten_y_eval s levels y_onehot d Hl) as [m Hm].
    run. rewrite Hm.
    destruct (IH (acc ++ [(d, m)])) as (acc' & -> & Hlen).
    exists acc'. split; [reflexivity|]. rewrite length_app in Hlen. simpl in *. lia.
Qed.

Lemma combinations_1 {A} (x : A) l : combinations (x :: l) 1 <> [].
Proof. simpl. destruct l; discriminate. Qed.

(** What [_init_y] leaves behind. *)
Lemma init_y_cases y s :
  let out := _init_y y s in
  match out.2 with
  | Val yd =>
      n out.1 = Some (shape0 y) /\
      ((0 < shape1 y)%nat -> (forall v, max_int s = Some v -> 1 <= v) -> yd.1 <> [])
  | Exn _ => True
  | Fuel => False
  end.
Proof.
  unfold _init_y. run.
  destruct (column_levels y) as [levels|e|] eqn:El; simpl; auto.
  2:{ unfold column_levels in El. destruct (rows y); discriminate. }
  destruct (np_zeros_rows (shape0 y) levels) as [z|e|] eqn:Ez; simpl; auto.
  2:{ unfold np_zeros_rows in Ez. run. destruct (np_zeros levels) eqn:E; try discriminate.
      exact (np_zeros_Fuel _ E). }
  destruct (forM (rows y) (one_hot_row levels)) as [y_onehot|e|] eqn:Eo; simpl; auto.
  2:{ exact (forM_Fuel _ _ (one_hot_row_Fuel levels) Eo). }
  match goal with
  | |- context [foldM ?f ?l [] ?st] =>
      destruct (flatten_fold st levels y_onehot l eq_refl []) as (acc' & Hf & Hlen)
  end.
  run. rewrite Hf. simpl. split; [reflexivity|].
  intros Hk Hmi Hnil. subst acc'. simpl in Hlen.
  symmetry in Hlen. apply length_zero_iff_nil in Hlen. revert Hlen.
  destruct (shape1 y) as [|k]; [lia|].
  assert (forall mi : Z, 1 <= mi ->
            flat_map (fun r => combinations (seq 0 (S k)) r) (seq 1 (Z.to_nat mi)) <> [])
    as Hne.
  { intros mi Hge. destruct (Z.to_nat mi) as [|p] eqn:Ep; [lia|].
    simpl. destruct (seq 1 k); discriminate. }
  rewrite length_seq. 
  destruct (max_int s) as [v|] eqn:Ev.
  - specialize (Hmi v eq_refl).
    destruct (Z.of_nat (S k) <? v) eqn:Ec; apply Hne; lia.
  - apply Hne. lia.
Qed.

(** Lines 80-101 create no node and leave the trees alone; the levels of
    [y] and its row count are stored before anything can raise. *)
Lemma init_y_frame y s :
  let out := _init_y y s in
  heap out.1 = heap s /\ trees_ out.1 = trees_ s /\
  (forall levels, column_levels y = Val levels ->
     y_levels out.1 = Some levels /\ n out.1 = Some (shape0 y)).
Proof.
  unfold _init_y. run.
  destruct (column_levels y) as [levels|e|] eqn:El; simpl;
    [|repeat split; intros; discriminate..].
  assert (forall l0, Val levels = Val l0 -> Some levels = Some l0
                     /\ Some (shape0 y) = Some (shape0 y)) as Hlv.
  { intros l0 [= <-]. auto. }
  destruct (np_zeros_rows (shape0 y) levels) as [z|e|] eqn:Ez; simpl; auto.
  destruct (forM (rows y) (one_hot_row levels)) as [y_onehot|e|] eqn:Eo; simpl; auto.
  match goal with
  | |- context [foldM ?f ?l [] ?st] =>
      destruct (flatten_fold st levels y_onehot l eq_refl []) as (acc' & Hf & _)
  end.
  run. rewrite Hf. simpl. auto.
Qed.

Lemma np_zeros_rows_Fuel k levels : np_zeros_rows k levels <> Fuel.
Proof.
  unfold np_zeros_rows. run. destruct (np_zeros levels) eqn:E; simpl; try discriminate.
  intros _. exact (np_zeros_Fuel _ E).
Qed.

Lemma np_mask_Fuel {A} (l : list A) idxs : np_mask l idxs <> Fuel.
Proof. unfold np_mask. destruct (_ =? _)%nat; discriminate. Qed.

Section Raises.
Variable stump_fit : matrix -> matrix -> option (list Q) -> result stump_tree.
Variable recursion_limit : nat.

(** Line 133 indexes [X] by the mask: a mask of another length stops the
    construction before the stump is fitted. *)
Lemma construct_mismatch X y y_all idxs tree_num sw s :
  length (rows X) <> length idxs ->
  exists e, _construct_node_with_stump stump_fit X y y_all idxs tree_num sw s
            = (s, Exn e).
Proof.
  intros Hne. unfold _construct_node_with_stump. run.
  assert (mask_rows X idxs = Exn IndexError) as HX.
  { unfold mask_rows, np_mask. run. apply Nat.eqb_neq in Hne. rewrite Hne. reflexivity. }
  destruct sw as [w|]; simpl.
  - destruct (np_mask w idxs) as [w'|e|] eqn:Ew; simpl; eauto.
    + rewrite HX. simpl. eauto.
    + exfalso. exact (np_mask_Fuel _ _ Ew).
  - rewrite HX. simpl. eauto.
Qed.

Lemma initial_splits_mismatch X y sw y_dict s m :
  n s = Some m -> shape0 X <> m -> y_dict <> [] ->
  exists e, initial_splits stump_fit X y sw y_dict s = (s, Exn e).
Proof.
  intros Hn Hne Hd. unfold initial_splits, attr. run. rewrite Hn. simpl.
  destruct y_dict as [|d y_dict]; [congruence|]. unfold enumerate. simpl. run.
  destruct (construct_mismatch X d.2 y (replicate m true) 0%nat sw s) as [e ->].
  { rewrite length_replicate. exact Hne. }
  simpl. eauto.
Qed.

(** Line 88 indexes the one-hot tensor by the codes: a code out of range
    stops [_init_y]. *)
Lemma init_y_out_of_range y s :
  code_out_of_range y -> exists e, (_init_y y s).2 = Exn e.
Proof.
  intros (levels & row & j & q & l & Hl & Hin & Hlen & Hq & Hlj & Hout).
  destruct (one_hot_row_out levels row j q l Hlen Hq Hlj Hout) as [e He].
  destruct (forM_Exn (one_hot_row levels) (rows y) row e
              (one_hot_row_Fuel levels) Hin He) as [e' He'].
  unfold _init_y. run. rewrite Hl. simpl.
  destruct (np_zeros_rows (shape0 y) levels) as [z|e0|] eqn:Ez; simpl; eauto.
  + rewrite He'. simpl. eauto.
  + exfalso. exact (np_zeros_rows_Fuel _ _ Ez).
Qed.

(** C7 as the code has it.  [fit] raises when [X] and [y] differ in row
    count (as long as [y] has a column and [max_int] allows a tree), and
    when a code of [y] lies outside the range the one-hot tensor can
    index.  What it leaves behind: the split counter at 0, no new node,
    the levels and the row count of the rejected [y], and for trees
    either those of before the call (always so after a code out of
    range) or one empty slot per tree.  Codes are not validated
    otherwise. *)
Theorem fit_raises_on_shape_or_range fuel X y sw s :
  (shape0 X <> shape0 y /\ (0 < shape1 y)%nat /\
   (forall v, max_int s = Some v -> 1 <= v)) \/ code_out_of_range y ->
  let out := fit stump_fit recursion_limit fuel X y sw s in
  (exists e, out.2 = Exn e) /\ complexity_ out.1 = Some 0 /\ heap out.1 = heap s /\
  (forall levels, column_levels y = Val levels ->
     y_levels out.1 = Some levels /\ n out.1 = Some (shape0 y)) /\
  (code_out_of_range y -> trees_ out.1 = trees_ s) /\
  (trees_ out.1 = trees_ s \/
   exists k, (0 < k)%nat /\ trees_ out.1 = Some (replicate k None)).
Proof.
  intros H. cbv zeta. unfold fit, fit_locals. run.
  pose proof (count_init_y y (set_complexity_ 0 s)) as [_ Hc]. simpl in Hc.
  pose proof (init_y_cases y (set_complexity_ 0 s)) as Hi. simpl in Hi.
  pose proof (init_y_frame y (set_complexity_ 0 s)) as (Hh & Ht & Hlv). simpl in Hh, Ht, Hlv.
  pose proof (init_y_out_of_range y (set_complexity_ 0 s)) as Hout.
  destruct (_init_y y (set_complexity_ 0 s)) as [s1 [yd|e|]]; simpl in *;
    [| |contradiction].
  - destruct H as [(Hrows & Hk & Hmi)|Hbad];
      [|destruct (Hout Hbad) as [e He]; discriminate].
    destruct Hi as [Hn Hd]. specialize (Hd Hk Hmi).
    destruct (initial_splits_mismatch X y sw yd.1
                (set_trees_ (replicate (length yd.1) None) s1) (shape0 y))
      as [e ->]; auto.
    simpl. split; [eauto|]. split; [exact Hc|]. split; [exact Hh|].
    split; [exact Hlv|]. split.
    + intros Hbad. destruct (Hout Hbad) as [e' He]. discriminate.
    + right. exists (length yd.1). split; [|reflexivity].
      destruct yd.1; [congruence|simpl; lia].
  - split; [eauto|]. split; [exact Hc|]. split; [exact Hh|].
    split; [exact Hlv|]. split; [intros _; exact Ht|left; exact Ht].
Qed.
End Raises.

Lemma bind_inv {St A B} (c : M St A) (k : A -> M St B) s s' b :
  (c ≫= k) s = (s', Val b) -> exists s1 a, c s = (s1, Val a) /\ k a s1 = (s', Val b).
Proof.
  unfold mbind, M_bind. destruct (c s) as [s1 [a|e|]]; try discriminate. eauto.
Qed.

Lemma node_inv r s s' nd : node r s = (s', Val nd) -> s' = s /\ heap s !! r = Some nd.
Proof. unfold node. destruct (heap s !! r); intros [= -> ->]; auto. Qed.

Lemma attr_inv {A} (o : option A) s s' a : attr o s = (s', Val a) -> s' = s /\ o = Some a.
Proof. unfold attr. destruct o; intros [= <- <-]; auto. Qed.

(** A code that is not an integer is truncated, not rejected. *)
Example fractional_code_is_accepted :
  let out := AFIGSExample.run_fit (Some 12) AFIGSExample.X2 AFIGSExample.y2_fractional in
  out.2 = Val tt /\ y_levels out.1 = Some [2] /\ complexity_ out.1 = Some 1.
Proof. vm_compute. repeat split. Qed.

(** An estimator that was never fitted does not predict. *)
Example new_estimator_is_unfit :
  Claimed.fails_fast 100 (__init__ None (Some 12) 0%Q) AFIGSExample.X2.
Proof. split; eexists; vm_compute; reflexivity. Qed.

(** C7 as it is worded fails on each of its parts.  A negative code and
    a fractional code go through [fit].  Mismatched row counts go
    through when no tree is to be built, [max_int] being 0 or [y]
    having no column.  And a failure does not leave the model unfit:
    after mismatched rows a new estimator predicts (class 0 everywhere),
    and after a code out of range a model fitted earlier still has its
    tree and predicts as it did. *)
Lemma fit_accepts_codes_and_stays_fitted :
  (let out := AFIGSExample.run_fit (Some 12) AFIGSExample.X3 AFIGSExample.y3_negative in
   Claimed.has_bad_code AFIGSExample.y3_negative /\
   out.2 = Val tt /\ complexity_ out.1 = Some 1 /\ ~ Claimed.rejects out) /\
  (let out := AFIGSExample.run_fit (Some 12) AFIGSExample.X2 AFIGSExample.y2_fractional in
   Claimed.has_bad_code AFIGSExample.y2_fractional /\
   out.2 = Val tt /\ complexity_ out.1 = Some 1 /\ ~ Claimed.rejects out) /\
  (let out := fit Stump.fit 100 5 AFIGSExample.X3 AFIGSExample.y2 None
                (__init__ (Some 0) (Some 12) 0%Q) in
   shape0 AFIGSExample.X3 <> shape0 AFIGSExample.y2 /\
   out.2 = Val tt /\ ~ Claimed.rejects out) /\
  (let out := AFIGSExample.run_fit (Some 12) AFIGSExample.X3 AFIGSExample.y2_empty in
   shape0 AFIGSExample.X3 <> shape0 AFIGSExample.y2_empty /\
   out.2 = Val tt /\ ~ Claimed.rejects out) /\
  (let out := AFIGSExample.run_fit (Some 12) AFIGSExample.X3 AFIGSExample.y2 in
   shape0 AFIGSExample.X3 <> shape0 AFIGSExample.y2 /\ Claimed.rejects out /\
   predict 100 out.1 AFIGSExample.X2 = Val (Classes [[0]; [0]]) /\
   ~ Claimed.left_unfit 100 out AFIGSExample.X2) /\
  (let out := fit Stump.fit 100 5 AFIGSExample.X2 AFIGSExample.y2_far None
                AFIGSExample.fitted2 in
   code_out_of_range AFIGSExample.y2_far /\ Claimed.rejects out /\
   trees_ out.1 = Some [Some 0%nat] /\ trees_ out.1 = trees_ AFIGSExample.fitted2 /\
   predict 100 out.1 AFIGSExample.X2 = Val (Classes [[0]; [1]]) /\
   predict 100 out.1 AFIGSExample.X2 = predict 100 AFIGSExample.fitted2 AFIGSExample.X2 /\
   ~ Claimed.left_unfit 100 out AFIGSExample.X2).
Proof.
  cbv zeta.
  assert (forall out : estimator * result unit, out.2 = Val tt -> ~ Claimed.rejects out)
    as Hval.
  { intros out H [e He]. rewrite H in He. discriminate. }
  assert (forall (out : estimator * result unit) X p,
            predict 100 out.1 X = Val p -> ~ Claimed.left_unfit 100 out X) as Hfit.
  { intros out X p H [[e He] _]. rewrite H in He. discriminate. }
  split; [|split; [|split; [|split; [|split]]]].
  - split; [|split; [|split]].
    + exists [(-1)%Q], (-1)%Q. split; [|split].
      * unfold AFIGSExample.y3_negative. simpl. do 2 right. left.
      * left.
      * left. reflexivity.
    + vm_compute. reflexivity.
    + vm_compute. reflexivity.
    + apply Hval. vm_compute. reflexivity.
  - split; [|split; [|split]].
    + exists [1 # 2]%Q, (1 # 2)%Q. split; [|split].
      * unfold AFIGSExample.y2_fractional. simpl. left.
      * left.
      * right. intros E. vm_compute in E. discriminate.
    + vm_compute. reflexivity.
    + vm_compute. reflexivity.
    + apply Hval. vm_compute. reflexivity.
  - split; [vm_compute; lia|]. split; [vm_compute; reflexivity|].
    apply Hval. vm_compute. reflexivity.
  - split; [vm_compute; lia|]. split; [vm_compute; reflexivity|].
    apply Hval. vm_compute. reflexivity.
  - split; [vm_compute; lia|]. split; [eexists; vm_compute; reflexivity|].
    split; [vm_compute; reflexivity|].
    eapply Hfit. vm_compute. reflexivity.
  - split; [|split; [|split; [|split; [|split; [|split]]]]].
    + exists [2], [(-5)%Q], 0%nat, (-5)%Q, 2. vm_compute.
      split; [reflexivity|]. split; [right; left|].
      split; [reflexivity|]. split; [reflexivity|]. split; [reflexivity|].
      intros [H _]. apply H. reflexivity.
    + eexists. vm_compute. reflexivity.
    + vm_compute. reflexivity.
    + vm_compute. reflexivity.
    + vm_compute. reflexivity.
    + vm_compute. reflexivity.
    + eapply Hfit. vm_compute. reflexivity.
Qed.

(** After a failure that changed the row count, the tree fitted earlier
    is still there and [predict] raises on the rows it was fitted on. *)
Example failed_refit_changes_shape :
  let out := fit Stump.fit 100 5 AFIGSExample.X2 AFIGSExample.y3_far None
               AFIGSExample.fitted2 in
  out.2 = Exn IndexError /\ trees_ out.1 = trees_ AFIGSExample.fitted2 /\
  n out.1 = Some 3%nat /\ predict 100 out.1 AFIGSExample.X2 = Exn ValueError.
Proof. vm_compute. repeat split. Qed.

Lemma fit_raises_on_shape_or_range_witness :
  let out := fit Stump.fit 100 5 AFIGSExample.X3 AFIGSExample.y2 None
               (__init__ None (Some 12) 0%Q) in
  (exists e, out.2 = Exn e) /\ complexity_ out.1 = Some 0 /\
  heap out.1 = heap (__init__ None (Some 12) 0%Q) /\
  (forall levels, column_levels AFIGSExample.y2 = Val levels ->
     y_levels out.1 = Some levels /\ n out.1 = Some (shape0 AFIGSExample.y2)) /\
  (code_out_of_range AFIGSExample.y2 ->
   trees_ out.1 = trees_ (__init__ None (Some 12) 0%Q)) /\
  (trees_ out.1 = trees_ (__init__ None (Some 12) 0%Q) \/
   exists k, (0 < k)%nat /\ trees_ out.1 = Some (replicate k None)).
Proof.
  apply (fit_raises_on_shape_or_range Stump.fit 100 5 AFIGSExample.X3 AFIGSExample.y2
           None (__init__ None (Some 12) 0%Q)).
  left. split; [|split].
  - vm_compute. lia.
  - vm_compute. lia.
  - simpl. intros v Hv. discriminate.
Defined.

(** C8, at a target that is the same in both rows: the stump of the only
    tree has no split, the root candidate keeps [impurity_reduction =
    None], and line 216 compares [None] with the float
    [min_impurity_decrease]. *)
Theorem root_without_split_raises :
  let out := AFIGSExample.run_fit (Some 12) AFIGSExample.X2 AFIGSExample.y2_constant in
  out.2 = Exn TypeError /\
  exists nd, heap out.1 !! 0%nat = Some nd /\ is_root nd = true /\
             impurity_reduction nd = None /\ left nd = None /\ right nd = None.
Proof. vm_compute. split; [reflexivity|]. eexists. repeat split. Qed.

(** * Properties of [AFIGS]: sample masks *)

Lemma partition_by_split (split mask : list bool) :
  length split = length mask ->
  masks_partition mask (zip_with andb split mask)
    (zip_with andb (map negb split) mask).
Proof.
  revert mask. induction split as [|b split IH]; intros [|m mask] Hlen;
    try discriminate.
  - repeat split.
  - injection Hlen as Hlen. destruct (IH mask Hlen) as (L1 & L2 & D & U).
    unfold masks_partition. simpl. rewrite L1, L2, D, U.
    repeat split. 
    + destruct b, m; reflexivity.
    + destruct b, m; reflexivity.
Qed.

Lemma children_partition_app h new mask l r :
  children_partition h mask l r -> children_partition (h ++ new) mask l r.
Proof.
  intros H rl rr Hl Hr. destruct (H rl rr Hl Hr) as (nl & nr & H1 & H2 & HP).
  exists nl, nr. split; [|split]; auto using lookup_app_l_Some.
Qed.

Lemma children_partition_insert h mask l r q nd nd' :
  h !! q = Some nd -> idxs nd' = idxs nd ->
  children_partition h mask l r -> children_partition (<[q:=nd']> h) mask l r.
Proof.
  intros Hq Hi H rl rr Hl Hr. destruct (H rl rr Hl Hr) as (nl & nr & H1 & H2 & HP).
  assert (forall k nk, h !! k = Some nk ->
            exists nk', <[q:=nd']> h !! k = Some nk' /\ idxs nk' = idxs nk) as Hup.
  { intros k nk Hk. destruct (decide (k = q)) as [->|Hne].
    - exists nd'. split; [|congruence].
      apply list_lookup_insert_eq. eapply lookup_lt_Some; eauto.
    - exists nk. split; [|reflexivity]. rewrite list_lookup_insert_ne; auto. }
  destruct (Hup _ _ H1) as (nl' & Hl' & El), (Hup _ _ H2) as (nr' & Hr' & Er).
  exists nl', nr'. rewrite El, Er. auto.
Qed.

Lemma masks_ok_insert s q nd nd' :
  masks_ok s -> heap s !! q = Some nd ->
  idxs nd' = idxs nd ->
  children_partition (heap s) (idxs nd) (left_temp nd') (right_temp nd') ->
  children_partition (heap s) (idxs nd) (left nd') (right nd') ->
  (is_root nd' = true -> exists m, n s = Some m /\ idxs nd = replicate m true) ->
  masks_ok (set_heap (<[q:=nd']> (heap s)) s).
Proof.
  intros Hok Hq Hi Ht Hc Hr r nr Hlook. simpl in *.
  destruct (decide (r = q)) as [->|Hne].
  - rewrite list_lookup_insert_eq in Hlook by (eapply lookup_lt_Some; eauto).
    injection Hlook as <-. rewrite Hi.
    split; [|split]; eauto using children_partition_insert.
  - rewrite list_lookup_insert_ne in Hlook by auto.
    destruct (Hok r nr Hlook) as (H1 & H2 & H3).
    split; [|split]; eauto using children_partition_insert.
Qed.

Lemma masks_ok_extend s mask new :
  masks_ok s -> fresh_nodes (length (heap s)) mask new ->
  masks_ok (set_heap (heap s ++ new) s).
Proof.
  intros Hok Hnew r nd Hlook. simpl in *.
  apply lookup_app_Some in Hlook as [Hold|[Hge Hlook]].
  - destruct (Hok r nd Hold) as (H1 & H2 & H3).
    split; [|split]; auto using children_partition_app.
  - assert (forall nd0 : Node, plain (idxs nd0) nd0 ->
              children_partition (heap s ++ new) (idxs nd0) (left_temp nd0) (right_temp nd0) /\
              children_partition (heap s ++ new) (idxs nd0) (left nd0) (right nd0) /\
              (is_root nd0 = true ->
               exists m, n s = Some m /\ idxs nd0 = replicate m true)) as Hplain.
    { intros nd0 (R & _ & L & _ & LT & _). rewrite L, LT, R.
      split; [|split]; try (intros ? ? ?; discriminate). discriminate. }
    destruct Hnew as [->|[(nd0 & -> & Hp)|(nd0 & l & r0 & -> & Hp & Hl & Hr & HP)]].
    + rewrite lookup_nil in Hlook. discriminate.
    + destruct (r - length (heap s))%nat as [|k]; simpl in Hlook; [|discriminate].
      injection Hlook as <-. apply Hplain.
      destruct Hp as (? & ? & ? & ? & ? & ?). unfold plain. tauto.
    + destruct (r - length (heap s))%nat as [|[|[|k]]] eqn:Ek; simpl in Hlook;
        try discriminate; injection Hlook as <-.
      * destruct Hp as (R & I & L & Rr & _ & _). simpl. rewrite R, L, Rr, I.
        split; [|split]; try (intros ? ? ?; discriminate); try discriminate.
        intros rl rr [= <-] [= <-]. exists l, r0. split; [|split].
        -- rewrite lookup_app_r by lia.
           replace (S (length (heap s)) - length (heap s))%nat with 1%nat by lia.
           reflexivity.
        -- rewrite lookup_app_r by lia.
           replace (S (S (length (heap s))) - length (heap s))%nat with 2%nat by lia.
           reflexivity.
        -- exact HP.
      * apply Hplain. exact Hl.
      * apply Hplain. exact Hr.
Qed.

Lemma set_heap_same s : set_heap (heap s) s = s.
Proof. destruct s; reflexivity. Qed.

Lemma compute_node_value_readonly y mask s :
  exists r, _compute_node_value y mask s = (s, r).
Proof.
  unfold _compute_node_value, attr. run.
  destruct (np_mask (rows y) mask) as [sel| |]; simpl; eauto.
  destruct (y_levels s) as [levels|]; simpl; eauto.
  destruct (np_zeros levels) as [zero| |]; simpl; eauto.
  generalize (np_unique_counts sel) as l. intros l. revert zero.
  induction l as [|vc l IH]; intros zero; simpl; eauto.
  run. destruct (ravel levels (map Qtrunc vc.1) 0); simpl; eauto.
Qed.

Section Masks.
Variable stump_fit : matrix -> matrix -> option (list Q) -> result stump_tree.
Variable recursion_limit : nat.

Local Opaque _compute_node_value.

Lemma construct_effect X y y_all mask tn sw s :
  let out := _construct_node_with_stump stump_fit X y y_all mask tn sw s in
  exists new,
    out.1 = set_heap (heap s ++ new) s /\
    fresh_nodes (length (heap s)) mask new /\
    forall r, out.2 = Val r -> r = length (heap s) /\ exists nd rest, new = nd :: rest.
Proof.
  assert (exists new, s = set_heap (heap s ++ new) s /\
            fresh_nodes (length (heap s)) mask new) as Hnil.
  { exists []. rewrite app_nil_r, set_heap_same. split; [reflexivity|left; reflexivity]. }
  assert (forall (e : result ref), (forall r, e <> Val r) ->
            exists new, s = set_heap (heap s ++ new) s /\
              fresh_nodes (length (heap s)) mask new /\
              forall r, e = Val r -> r = length (heap s) /\ exists nd rest, new = nd :: rest)
    as Hstop.
  { intros e He. destruct Hnil as (new & H1 & H2). exists new.
    split; [exact H1|]. split; [exact H2|]. intros r Hr. destruct (He r Hr). }
  unfold _construct_node_with_stump. run.
  destruct (match sw with Some w => _ | None => _ end) as [sw'| |]; simpl;
    try (apply Hstop; discriminate).
  destruct (mask_rows X mask) as [Xs| |] eqn:EX; simpl; try (apply Hstop; discriminate).
  destruct (mask_rows y mask) as [ys| |]; simpl; try (apply Hstop; discriminate).
  destruct (stump_fit Xs ys sw') as [stump| |]; simpl; try (apply Hstop; discriminate).
  destruct (compute_node_value_readonly y_all mask s) as [rv ->].
  destruct rv as [value| |]; simpl; try (apply Hstop; discriminate).
  destruct (length (tree_feature stump) =? 1)%nat.
  - destruct (np_get (tree_feature stump) 0) as [f| |]; simpl;
      try (apply Hstop; discriminate).
    destruct (np_get (tree_threshold stump) 0) as [t| |]; simpl;
      try (apply Hstop; discriminate).
    unfold new_node. simpl. eexists [_]. split; [reflexivity|]. split.
    + right. left. eexists. split; [reflexivity|]. unfold plain. simpl. tauto.
    + intros r [= <-]. eauto.
  - repeat (match goal with
            | |- context [np_get ?l ?i] =>
                destruct (np_get l i); simpl; try (apply Hstop; discriminate)
            end).
    match goal with
    | |- context [set_heap (heap s ++ [?nd]) s] => set (nsplit := nd)
    end.
    set (s1 := set_heap (heap s ++ [nsplit]) s).
    assert (plain mask nsplit) as Hp by (unfold plain; simpl; tauto).
    assert (forall (e : result ref), (forall r, e <> Val r) ->
              exists new, s1 = set_heap (heap s ++ new) s /\
                fresh_nodes (length (heap s)) mask new /\
                forall r, e = Val r ->
                          r = length (heap s) /\ exists nd rest, new = nd :: rest)
      as Hstop1.
    { intros e He. exists [nsplit]. split; [reflexivity|]. split.
      - right. left. exists nsplit. split; [reflexivity|exact Hp].
      - intros r Hr. destruct (He r Hr). }
    destruct (get_col X _) as [col| |] eqn:Ecol; simpl;
      try (apply Hstop1; discriminate).
    match goal with
    | |- context [_compute_node_value y_all ?m s1] =>
        destruct (compute_node_value_readonly y_all m s1) as [rl ->]
    end.
    destruct rl as [vl| |]; simpl; try (apply Hstop1; discriminate).
    match goal with
    | |- context [_compute_node_value y_all ?m s1] =>
        destruct (compute_node_value_readonly y_all m s1) as [rr ->]
    end.
    destruct rr as [vr| |]; simpl; try (apply Hstop1; discriminate).
    unfold setattrs, node. run.
    rewrite <- !app_assoc. simpl.
    rewrite list_lookup_middle by reflexivity. simpl.
    rewrite insert_app_r_alt by lia. rewrite Nat.sub_diag. simpl.
    eexists [_; _; _]. split; [reflexivity|]. split.
    + right. right. eexists nsplit, _, _. split; [|split; [exact Hp|split; [|split]]].
      * rewrite !length_app. simpl.
        replace (length (heap s) + 1)%nat with (S (length (heap s))) by lia.
        replace (length (heap s) + 2)%nat with (S (S (length (heap s)))) by lia.
        reflexivity.
      * unfold plain, leaf_node. simpl. tauto.
      * unfold plain, leaf_node. simpl. tauto.
      * simpl. apply partition_by_split.
        rewrite length_map.
        unfold get_col in Ecol. run.
        destruct (np_index (shape1 X) _); try discriminate.
        injection Ecol as <-. rewrite length_map.
        unfold mask_rows, np_mask in EX. run.
        destruct (length (rows X) =? length mask)%nat eqn:E; [|discriminate].
        apply Nat.eqb_eq in E. exact E.
    + intros r [= <-]. eauto.
Qed.

Lemma fresh_first base mask u rest :
  fresh_nodes base mask (u :: rest) -> idxs u = mask.
Proof.
  intros [H|[(nd & [= -> ->] & Hp)|(nd & l & r & [= -> ->] & Hp & _)]].
  - discriminate.
  - apply Hp.
  - simpl. apply Hp.
Qed.

Lemma evolves_refl s : evolves s s.
Proof. split; auto. Qed.

Lemma evolves_trans s1 s2 s3 : evolves s1 s2 -> evolves s2 s3 -> evolves s1 s3.
Proof. intros [N1 M1] [N2 M2]. split; [congruence|auto]. Qed.

Ltac evolve :=
  repeat first
    [ progress eauto with evolve
    | apply (keeps_ret _ evolves_refl)
    | apply (keeps_lift _ evolves_refl)
    | apply (keeps_get _ evolves_refl)
    | apply (keeps_raise _ _ evolves_refl)
    | apply (keeps_bind _ evolves_trans); [|intros]
    | apply (keeps_foldM _ evolves_refl evolves_trans); intros
    | match goal with
      | |- keeps _ (if ?b then _ else _) => destruct b
      | |- keeps _ (match ?x with _ => _ end) => destruct x
      | |- keeps _ (let _ := _ in _) => cbv zeta
      end ].

Create HintDb evolve.

Lemma evolve_attr {A} (o : option A) : keeps evolves (attr o).
Proof. unfold attr. evolve. Qed.
#[local] Hint Resolve evolve_attr : evolve.

Lemma evolve_node r : keeps evolves (node r).
Proof. intros s. unfold node. destruct (heap s !! r); apply evolves_refl. Qed.
#[local] Hint Resolve evolve_node : evolve.

Lemma evolve_set_trees_ v : keeps evolves (modify (set_trees_ v)).
Proof. intros s. split; [reflexivity|]. intros H. exact H. Qed.
#[local] Hint Resolve evolve_set_trees_ : evolve.

Lemma evolve_set_complexity_ v : keeps evolves (modify (set_complexity_ v)).
Proof. intros s. split; [reflexivity|]. intros H. exact H. Qed.
#[local] Hint Resolve evolve_set_complexity_ : evolve.

Lemma evolve_flatten_y t dims : keeps evolves (_flatten_y t dims).
Proof. unfold _flatten_y. evolve. Qed.
#[local] Hint Resolve evolve_flatten_y : evolve.

Lemma evolve_sorted nodes : keeps evolves (sorted nodes).
Proof. unfold sorted. evolve. Qed.
#[local] Hint Resolve evolve_sorted : evolve.

Lemma evolve_update_predictions X preds :
  keeps evolves (update_predictions recursion_limit X preds).
Proof. unfold update_predictions. evolve. Qed.
Hint Resolve evolve_update_predictions : evolve.

Lemma evolve_construct X y y_all mask tn sw :
  keeps evolves (_construct_node_with_stump stump_fit X y y_all mask tn sw).
Proof.
  intros s. destruct (construct_effect X y y_all mask tn sw s) as (new & -> & Hf & _).
  split; [reflexivity|]. intros Hok. eapply masks_ok_extend; eauto.
Qed.
Hint Resolve evolve_construct : evolve.

(** Line 244: the candidate children become the children. *)
Lemma evolve_promote r :
  keeps evolves
    (setattrs r (fun nd => with_children (left_temp nd) (right_temp nd) nd)).
Proof.
  intros s. unfold setattrs, node. run.
  destruct (heap s !! r) as [nd|] eqn:Hnd; simpl; [|apply evolves_refl].
  split; [reflexivity|]. intros Hok.
  destruct (Hok r nd Hnd) as (H1 & H2 & H3).
  eapply masks_ok_insert; eauto.
Qed.
Hint Resolve evolve_promote : evolve.

(** Lines 270-297: the node keeps its mask and takes the candidate
    children of a stump fitted on that mask. *)
Lemma evolve_refit X y sw keys resid acc ps :
  keeps evolves (refit stump_fit X y sw keys resid acc ps).
Proof.
  intros s. unfold refit. run.
  destruct ps as [ps|]; simpl; [|apply evolves_refl].
  unfold node at 1. destruct (heap s !! ps) as [nd|] eqn:Hnd; simpl;
    [|apply evolves_refl].
  destruct (np_get keys _) as [tree_id| |]; simpl; try apply evolves_refl.
  destruct (resid !! _) as [res|]; simpl; [|apply evolves_refl].
  pose proof (evolve_flatten_y res tree_id s) as Hfl.
  destruct (_flatten_y res tree_id s) as [s0 [y_target| |]] eqn:Efl; simpl in *;
    try exact Hfl.
  assert (s0 = s) as ->.
  { revert Efl. unfold _flatten_y, attr. run. destruct (y_levels s); simpl; congruence. }
  destruct (construct_effect X y_target y (idxs nd) (tree_num nd) sw s)
    as (new & Hs1 & Hfresh & Hval).
  destruct (_construct_node_with_stump _ _ _ _ _ _ _ _) as [s1 [updated| |]];
    simpl in *; subst s1;
    try (split; [reflexivity|intros Hok; eapply masks_ok_extend; eauto]).
  destruct (Hval _ eq_refl) as (-> & u & rest & ->).
  unfold setattrs, node. run.
  rewrite list_lookup_middle by reflexivity. simpl.
  rewrite (lookup_app_l_Some _ _ _ _ Hnd). simpl.
  rewrite list_lookup_insert_eq
    by (rewrite length_app; apply lookup_lt_Some in Hnd; lia).
  simpl.
  assert (evolves s
            (set_heap
               (<[ps:=with_split (feature u) (threshold u) (impurity_reduction u)
                        (left_temp u) (right_temp u) nd]> (heap s ++ u :: rest))
               (set_heap (heap s ++ u :: rest) s))) as Hev.
  { split; [reflexivity|]. intros Hok.
    pose proof (masks_ok_extend s (idxs nd) (u :: rest) Hok Hfresh) as Hok1.
    pose proof (Hok1 (length (heap s)) u) as Hu. simpl in Hu.
    rewrite list_lookup_middle in Hu by reflexivity.
    destruct (Hu eq_refl) as (Hut & _ & _).
    pose proof (Hok1 ps nd) as Hp. simpl in Hp.
    rewrite (lookup_app_l_Some _ _ _ _ Hnd) in Hp.
    destruct (Hp eq_refl) as (_ & Hpc & Hpr).
    rewrite (fresh_first _ _ _ _ Hfresh) in Hut.
    apply (masks_ok_insert (set_heap (heap s ++ u :: rest) s) ps nd); auto.
    simpl. apply lookup_app_l_Some. exact Hnd. }
  destruct (impurity_reduction u); simpl; exact Hev.
Qed.
Hint Resolve evolve_refit : evolve.

Lemma evolve_refresh X y sw keys y_onehot rest split_node loc :
  keeps evolves
    (refresh stump_fit recursion_limit X y sw keys y_onehot rest split_node loc).
Proof. unfold refresh. evolve. Qed.
Hint Resolve evolve_refresh : evolve.

Lemma evolve_commit X y sw keys y_onehot rest split_node loc :
  keeps evolves
    (commit stump_fit recursion_limit X y sw keys y_onehot rest split_node loc).
Proof. unfold commit. evolve. Qed.
Hint Resolve evolve_commit : evolve.

Lemma evolve_grow_step X y sw keys y_onehot rest split_node loc :
  keeps evolves
    (grow_step stump_fit recursion_limit X y sw keys y_onehot rest split_node loc).
Proof. unfold grow_step. evolve. Qed.
Hint Resolve evolve_grow_step : evolve.

Lemma evolve_grow fuel X y sw keys y_onehot loc :
  keeps evolves (grow stump_fit recursion_limit fuel X y sw keys y_onehot loc).
Proof.
  revert loc. induction fuel as [|fuel IH]; intros loc; simpl; evolve.
Qed.

Lemma initial_candidates X y sw m (l : list (nat * (list nat * matrix))) :
  forall acc s,
    n s = Some m -> all_rows s m acc ->
    let out := foldM (fun acc t =>
                        node_init ← _construct_node_with_stump stump_fit X t.2.2 y
                                      (replicate m true) t.1 sw;
                        mret (acc ++ [node_init])) l acc s in
    evolves s out.1 /\ forall pool, out.2 = Val pool -> all_rows out.1 m pool.
Proof.
  induction l as [|t l IH]; intros acc s Hn Hacc; simpl.
  - split; [apply evolves_refl|]. intros pool [= <-]. exact Hacc.
  - run.
    destruct (construct_effect X t.2.2 y (replicate m true) t.1 sw s)
      as (new & Hs1 & Hfresh & Hval).
    pose proof (evolve_construct X t.2.2 y (replicate m true) t.1 sw s) as Hev.
    destruct (_construct_node_with_stump _ _ _ _ _ _ _ _) as [s1 [r| |]];
      simpl in *; try (split; [exact Hev|discriminate]).
    destruct (Hval _ eq_refl) as (-> & u & rest & ->).
    destruct (IH (acc ++ [length (heap s)]) s1) as [Hev2 Hpool].
    + destruct Hev as [-> _]. exact Hn.
    + subst s1. intros r Hr. simpl. apply elem_of_app in Hr as [Hr|Hr].
      * destruct (Hacc r Hr) as (nd & Hnd & Hi). exists nd.
        split; [apply lookup_app_l_Some; exact Hnd|exact Hi].
      * apply list_elem_of_singleton in Hr as ->. exists u.
        split; [apply list_lookup_middle; reflexivity|].
        eapply fresh_first; eauto.
    + split; [eapply evolves_trans; eauto|exact Hpool].
Qed.

Lemma setattrs_run r f s nd :
  heap s !! r = Some nd ->
  setattrs r f s = (set_heap (<[r:=f nd]> (heap s)) s, Val tt).
Proof. intros H. unfold setattrs, node. run. rewrite H. reflexivity. Qed.

Lemma mark_roots m (pool : list ref) :
  forall s, n s = Some m -> all_rows s m pool ->
    evolves s (foldM (fun _ r => setattrs r (with_is_root true)) pool tt s).1.
Proof.
  induction pool as [|r pool IH]; intros s Hn Hall; simpl.
  - apply evolves_refl.
  - run. destruct (Hall r) as (nd & Hnd & Hi); [left|].
    rewrite (setattrs_run r (with_is_root true) s nd Hnd).
    set (s1 := set_heap (<[r:=with_is_root true nd]> (heap s)) s).
    assert (evolves s s1) as Hev.
    { split; [reflexivity|]. intros Hok. destruct (Hok r nd Hnd) as (H1 & H2 & _).
      eapply masks_ok_insert; eauto. }
    eapply evolves_trans; [exact Hev|]. apply IH.
    + exact Hn.
    + intros r' Hr'. destruct (Hall r') as (nd' & Hnd' & Hi'); [right; exact Hr'|].
      simpl. destruct (decide (r' = r)) as [->|Hne].
      * exists (with_is_root true nd). split; [|exact Hi].
        apply list_lookup_insert_eq. eapply lookup_lt_Some; eauto.
      * exists nd'. split; [|exact Hi']. rewrite list_lookup_insert_ne; auto.
Qed.

Lemma evolve_initial_splits X y sw y_dict :
  keeps evolves (initial_splits stump_fit X y sw y_dict).
Proof.
  intros s. unfold initial_splits, attr. run.
  destruct (n s) as [m|] eqn:Hn; simpl; [|apply evolves_refl].
  destruct (initial_candidates X y sw m (enumerate y_dict) [] s Hn) as [Hev Hpool].
  { intros r Hr. inversion Hr. }
  run.
  destruct (foldM _ (enumerate y_dict) [] s) as [s1 [pool| |]]; simpl in *;
    try exact Hev.
  specialize (Hpool pool eq_refl).
  assert (n s1 = Some m) as Hn1 by (destruct Hev as [-> _]; exact Hn).
  pose proof (mark_roots m pool s1 Hn1 Hpool) as Hev2.
  destruct (foldM _ pool tt s1) as [s2 [[]| |]]; simpl in *;
    try solve [eapply evolves_trans; eauto].
  pose proof (evolve_sorted pool s2) as Hev3.
  destruct (sorted pool s2) as [s3 r3]. simpl in *.
  assert (evolves s s3) as H3 by (eapply evolves_trans; [|exact Hev3]; eapply evolves_trans; eauto).
  destruct r3; exact H3.
Qed.

(** [_init_y] creates no node. *)
Lemma init_y_heap y s : heap (_init_y y s).1 = heap s.
Proof.
  assert (keeps (fun s s' => heap s' = heap s) (_init_y y)) as H; [|apply H].
  unfold _init_y, _flatten_y, attr.
  repeat first
    [ apply keeps_ret; reflexivity
    | apply keeps_lift; reflexivity
    | apply keeps_get; reflexivity
    | apply keeps_raise; reflexivity
    | apply keeps_modify; reflexivity
    | apply keeps_bind; [intros ? ? ? ? ?; congruence| |intros]
    | apply keeps_foldM; [reflexivity|intros ? ? ? ? ?; congruence|intros]
    | match goal with
      | |- keeps _ (match ?x with _ => _ end) => destruct x
      end ].
Qed.

Lemma fit_masks fuel X y sw s :
  heap s = [] ->
  let s' := (fit stump_fit recursion_limit fuel X y sw s).1 in
  masks_ok s' /\ (heap s' = [] \/ n s' = Some (shape0 y)).
Proof.
  intros Hh. cbv zeta.
  assert (forall s0, heap s0 = [] -> masks_ok s0) as Hempty.
  { intros s0 H0 r nd Hr. rewrite H0, lookup_nil in Hr. discriminate. }
  unfold fit, fit_locals. run.
  pose proof (init_y_heap y (set_complexity_ 0 s)) as Hi. simpl in Hi.
  pose proof (init_y_cases y (set_complexity_ 0 s)) as Hc. simpl in Hc.
  destruct (_init_y y (set_complexity_ 0 s)) as [s1 [yd| |]]; simpl in *;
    try (split; [apply Hempty|left]; congruence).
  destruct Hc as [Hn _].
  pose proof (evolve_initial_splits X y sw yd.1
                (set_trees_ (replicate (length yd.1) None) s1)) as [N1 H1].
  assert (masks_ok (set_trees_ (replicate (length yd.1) None) s1)) as H0.
  { apply Hempty. simpl. congruence. }
  simpl in N1.
  destruct (initial_splits _ _ _ _ _ _) as [s2 [pool| |]]; simpl in *;
    try (split; [auto|right; congruence]).
  pose proof (evolve_grow fuel X y sw (map fst yd.1) yd.2
                (Locals (map Some pool) ∅ ∅) s2) as [N2 H2].
  destruct (grow _ _ _ _ _ _ _ _ _ _) as [s3 [loc| |]]; simpl in *;
    (split; [auto|right; congruence]).
Qed.

(** C2.  From an estimator that has created no node yet, in whatever
    state [fit] ends: the candidate children of every node split the
    node's mask, so do its committed children, and the mask of every
    root has all rows of the training set. *)
Theorem sibling_masks_partition_parent fuel X y sw s :
  heap s = [] ->
  let s' := (fit stump_fit recursion_limit fuel X y sw s).1 in
  forall r nd, heap s' !! r = Some nd ->
    children_partition (heap s') (idxs nd) (left_temp nd) (right_temp nd) /\
    children_partition (heap s') (idxs nd) (left nd) (right nd) /\
    (is_root nd = true -> idxs nd = replicate (shape0 y) true).
Proof.
  intros Hh s' r nd Hr. destruct (fit_masks fuel X y sw s Hh) as [Hok Hn].
  fold s' in Hok, Hn. destruct (Hok r nd Hr) as (H1 & H2 & H3).
  split; [exact H1|]. split; [exact H2|]. intros Hroot.
  destruct (H3 Hroot) as (m & Hm & ->). destruct Hn as [Hn|Hn].
  - rewrite Hn, lookup_nil in Hr. discriminate.
  - congruence.
Qed.
End Masks.

(** The committed children of the root of [fit(X2, y2)]: the masks
    [true; false] and [false; true] of the nodes 1 and 2. *)
Lemma sibling_masks_partition_parent_witness :
  exists nl nr,
    heap AFIGSExample.fitted2 !! 1%nat = Some nl /\
    heap AFIGSExample.fitted2 !! 2%nat = Some nr /\
    masks_partition (idxs AFIGSExample.root2) (idxs nl) (idxs nr).
Proof.
  destruct (sibling_masks_partition_parent Stump.fit 100 5 AFIGSExample.X2
              AFIGSExample.y2 None (__init__ None (Some 12) 0%Q) eq_refl
              0%nat AFIGSExample.root2) as (_ & H & _).
  - vm_compute. reflexivity.
  - apply (H 1%nat 2%nat); vm_compute; reflexivity.
Defined.

Example root2_mask :
  is_root AFIGSExample.root2 = true /\ idxs AFIGSExample.root2 = [true; true] /\
  (idxs <$> heap AFIGSExample.fitted2 !! 1%nat) = Some [true; false] /\
  (idxs <$> heap AFIGSExample.fitted2 !! 2%nat) = Some [false; true].
Proof. vm_compute. repeat split. Qed.

Example commit22_returns :
  AFIGSExample.commit22.2 = Val AFIGSExample.commit22_result /\
  y_residuals_per_tree AFIGSExample.commit22_result.1 !! 0%nat
  = Some AFIGSExample.onehot22 /\
  y_residuals_per_tree AFIGSExample.commit22_result.1 !! 2%nat
  = Some [[0; 0; 0; 0]; [0; 0; 0; 0]]%Q.
Proof. vm_compute. repeat split. Qed.

(** * Properties of [TaoTree]: the walk over the nodes *)

Section TaoWalk.
Import TaoTree.

Lemma leads_to_snoc t start p k d cl cr :
  leads_to t start p k ->
  np_get (children_left t) k = Val cl -> np_get (children_right t) k = Val cr ->
  cl <> cr ->
  leads_to t start (p ++ [(k, d)]) (match d with L => cl | R => cr end).
Proof.
  revert start. induction p as [|[k' d'] p IH]; intros start; simpl.
  - intros -> Hl Hr Hne. split; [reflexivity|]. exists cl, cr. auto.
  - intros (-> & cl' & cr' & Hl' & Hr' & Hne' & H) Hl Hr Hne.
    split; [reflexivity|]. exists cl', cr'. repeat split; auto.
Qed.

Lemma parents_first_snoc l c p :
  parents_first l ->
  (forall p' k d, p = p' ++ [(k, d)] -> (k, p') ∈ l) ->
  parents_first (l ++ [(c, p)]).
Proof.
  intros Hl Hp i c' p' k d Hi.
  apply lookup_app_Some in Hi as [Hi|[Hle Hi]].
  - destruct (Hl _ _ _ _ _ Hi) as (j & Hj & Hlj).
    exists j. split; [exact Hj|]. apply lookup_app_Some. left. exact Hlj.
  - apply list_lookup_singleton_Some in Hi as [_ [= <- ->]].
    specialize (Hp p' k d eq_refl).
    apply list_elem_of_lookup in Hp as [j Hj].
    exists j. split.
    + apply lookup_lt_Some in Hj. eapply Nat.lt_le_trans; [exact Hj|exact Hle].
    + apply lookup_app_Some. left. exact Hj.
Qed.

Lemma node_paths_inv fuel t : forall stack acc l,
  node_paths fuel t stack acc = Val l ->
  Forall (fun np => leads_to t 0 np.2 np.1) stack ->
  Forall (fun np => leads_to t 0 np.2 np.1) acc ->
  parents_first (reverse acc) ->
  Forall (fun np => forall p k d, np.2 = p ++ [(k, d)] -> (k, p) ∈ acc) stack ->
  Forall (fun np => leads_to t 0 np.2 np.1) l /\ parents_first l /\
  exists rest, l = reverse acc ++ rest /\ head rest = head stack.
Proof.
  induction fuel as [|fuel IH]; intros stack acc l; simpl.
  - destruct stack as [|[node_id p] stack]; [|discriminate].
    intros [= <-] _ Ha Hp _. repeat split.
    + apply Forall_reverse. exact Ha.
    + exact Hp.
    + exists []. rewrite app_nil_r. split; reflexivity.
  - destruct stack as [|[node_id p] stack].
    { intros [= <-] _ Ha Hp _. repeat split.
      + apply Forall_reverse. exact Ha.
      + exact Hp.
      + exists []. rewrite app_nil_r. split; reflexivity. }
    run.
    destruct (np_get (children_left t) node_id) as [cl| |] eqn:El; try discriminate.
    destruct (np_get (children_right t) node_id) as [cr| |] eqn:Er; try discriminate.
    simpl. intros H Hs Ha Hp Hpar.
    apply Forall_cons in Hs as [Hnode Hs].
    apply Forall_cons in Hpar as [Hnp Hpar]. simpl in *.
    assert (parents_first (reverse ((node_id, p) :: acc))) as Hp'.
    { rewrite reverse_cons. apply parents_first_snoc; [exact Hp|].
      intros p' k d ->. rewrite elem_of_reverse. eapply Hnp. reflexivity. }
    assert (Forall (fun np => forall p0 k d, np.2 = p0 ++ [(k, d)] -> (k, p0) ∈ (node_id, p) :: acc) stack) as Hpar'.
    { eapply Forall_impl; [exact Hpar|]. intros np Hq p0 k d E.
      apply elem_of_cons. right. eauto. }
    assert (forall rest, reverse ((node_id, p) :: acc) ++ rest = reverse acc ++ (node_id, p) :: rest) as Happ.
    { intros rest. rewrite reverse_cons, <- app_assoc. reflexivity. }
    destruct (cl =? cr) eqn:Ec; simpl in H.
    + destruct (IH _ _ _ H) as (G1 & G2 & rest & -> & _); auto.
      repeat split; auto. exists ((node_id, p) :: rest). split; [apply Happ|reflexivity].
    + apply Z.eqb_neq in Ec.
      destruct (IH _ _ _ H) as (G1 & G2 & rest & -> & _); auto.
      * apply Forall_cons. split; [exact (leads_to_snoc t 0 p node_id R cl cr Hnode El Er Ec)|].
        apply Forall_cons. split; [exact (leads_to_snoc t 0 p node_id L cl cr Hnode El Er Ec)|].
        exact Hs.
      * apply Forall_cons. simpl. split.
        { intros p0 k d E. apply app_inj_tail in E as [-> [= -> _]]. apply elem_of_cons. left. reflexivity. }
        apply Forall_cons. simpl. split; [|exact Hpar'].
        intros p0 k d E. apply app_inj_tail in E as [-> [= -> _]]. apply elem_of_cons. left. reflexivity.
      * repeat split; auto. exists ((node_id, p) :: rest). split; [apply Happ|reflexivity].
Qed.

(** X1.  The list a sweep walks starts at the root, every node in it is
    reached from the root by the path stored with it, through split
    nodes only, and every node stands after its parent. *)
Theorem node_paths_lead_from_root fuel t l :
  node_paths fuel t [(0, [])] [] = Val l ->
  l !! 0%nat = Some (0, []) /\
  Forall (fun np => leads_to t 0 np.2 np.1) l /\
  parents_first l.
Proof.
  intros H.
  destruct (node_paths_inv fuel t _ _ _ H) as (G1 & G2 & rest & -> & Hhd).
  - repeat constructor.
  - constructor.
  - rewrite reverse_nil. intros i c p k d Hi. rewrite lookup_nil in Hi. discriminate.
  - repeat constructor. simpl. intros p k d E. destruct p; discriminate.
  - simpl in *. destruct rest as [|e rest]; [discriminate|].
    injection Hhd as ->. auto.
Qed.

Lemma np_get_in_range {A} (l : list A) k :
  0 <= k < Z.of_nat (length l) -> exists a, np_get l k = Val a /\ l !! Z.to_nat k = Some a.
Proof.
  intros Hk. unfold np_get, np_index.
  destruct ((0 <=? k) && (k <? Z.of_nat (length l))) eqn:E.
  - simpl. destruct (lookup_lt_is_Some_2 l (Z.to_nat k)) as [a Ha]; [lia|].
    exists a. run. rewrite Ha. auto.
  - apply andb_false_iff in E as [E|E]; [apply Z.leb_gt in E|apply Z.ltb_ge in E]; lia.
Qed.

Lemma walk_budget_children count k c :
  0 <= k -> k < c < Z.of_nat count ->
  (1 <= walk_budget count c /\ 2 * walk_budget count c + 1 <= walk_budget count k)%nat.
Proof.
  intros Hk Hc. unfold walk_budget.
  assert (exists m, Z.to_nat (Z.of_nat count - c) = S m) as [m Hm].
  { exists (Z.to_nat (Z.of_nat count - c) - 1)%nat. lia. }
  assert (S (S m) <= Z.to_nat (Z.of_nat count - k))%nat as Hle by lia.
  rewrite Hm.
  pose proof (Nat.pow_le_mono_r 2 (S (S m)) (Z.to_nat (Z.of_nat count - k))
                ltac:(lia) Hle) as Hp.
  assert (1 <= 2 ^ m)%nat as H1.
  { clear. induction m as [|m IH]; simpl; lia. }
  simpl in *. lia.
Qed.

Lemma walk_budget_pos count k :
  0 <= k < Z.of_nat count -> (1 <= walk_budget count k)%nat.
Proof.
  intros Hk. unfold walk_budget.
  assert (exists m, Z.to_nat (Z.of_nat count - k) = S m) as [m ->].
  { exists (Z.to_nat (Z.of_nat count - k) - 1)%nat. lia. }
  assert (1 <= 2 ^ m)%nat by (clear; induction m; simpl; lia). simpl. lia.
Qed.

Lemma node_paths_spends t :
  children_in_order t ->
  forall fuel stack acc,
    Forall (fun np : Z * path => 0 <= np.1 < Z.of_nat (length (children_left t))) stack ->
    (sum_list (map (fun np : Z * path => walk_budget (length (children_left t)) np.1) stack)
     <= fuel)%nat ->
    exists l, node_paths fuel t stack acc = Val l.
Proof.
  intros [Hlen Hord]. induction fuel as [|fuel IH]; intros stack acc Hin Hsum.
  - destruct stack as [|[k p] stack]; simpl; [eauto|].
    apply Forall_cons in Hin as [Hk _]. simpl in *.
    pose proof (walk_budget_pos _ _ Hk) as H1. lia.
  - destruct stack as [|[k p] stack]; simpl; [eauto|].
    apply Forall_cons in Hin as [Hk Hin]. simpl in *.
    pose proof (walk_budget_pos _ _ Hk) as H1.
    destruct (np_get_in_range (children_left t) k Hk) as (cl & -> & Hcl).
    destruct (np_get_in_range (children_right t) k) as (cr & -> & Hcr);
      [rewrite Hlen; exact Hk|].
    run. destruct (cl =? cr) eqn:Ec; simpl.
    + apply IH; [exact Hin|lia].
    + apply Z.eqb_neq in Ec.
      destruct (Hord _ _ _ Hcl Hcr Ec) as [Hl Hr]. rewrite Z2Nat.id in Hl, Hr by lia.
      destruct (walk_budget_children (length (children_left t)) k cl) as [_ Hbl]; [lia|lia|].
      destruct (walk_budget_children (length (children_left t)) k cr) as [_ Hbr]; [lia|lia|].
      apply IH.
      * repeat constructor; simpl; try lia. exact Hin.
      * simpl.
        assert (walk_budget (length (children_left t)) cl
                + walk_budget (length (children_left t)) cr + 1
                <= walk_budget (length (children_left t)) k)%nat.
        { unfold walk_budget in *.
          destruct (Z.le_ge_cases cl cr) as [Hcmp|Hcmp].
          - assert (2 ^ Z.to_nat (Z.of_nat (length (children_left t)) - cr)
                    <= 2 ^ Z.to_nat (Z.of_nat (length (children_left t)) - cl))%nat
              by (apply Nat.pow_le_mono_r; lia). lia.
          - assert (2 ^ Z.to_nat (Z.of_nat (length (children_left t)) - cl)
                    <= 2 ^ Z.to_nat (Z.of_nat (length (children_left t)) - cr))%nat
              by (apply Nat.pow_le_mono_r; lia). lia. }
        lia.
Qed.

(** X2.  On the children arrays of a scikit-learn tree the walk of lines
    151-159 comes to an end and returns its list, given a step budget
    of [2 ^ node_count]: it raises nothing and does not run out. *)
Theorem node_paths_returns fuel t :
  children_in_order t ->
  (0 < length (children_left t))%nat ->
  (2 ^ length (children_left t) <= fuel)%nat ->
  exists l, node_paths fuel t [(0, [])] [] = Val l.
Proof.
  intros Hord Hn Hfuel. apply node_paths_spends; [exact Hord| |].
  - repeat constructor; simpl; lia.
  - simpl. unfold walk_budget. rewrite Z.sub_0_r, Nat2Z.id. lia.
Qed.

End TaoWalk.

(** * Properties of [TaoTree]: the rows that reach a node *)

Lemma select_zip {A B} (f : A -> bool) (l : list A) (y : list B) :
  length l = length y ->
  zip (select l (map f l)) (select y (map f l))
  = List.filter (fun xy => f xy.1) (zip l y) /\
  length (select l (map f l)) = length (select y (map f l)).
Proof.
  revert y. induction l as [|a l IH]; intros [|b y]; simpl; try discriminate; auto.
  intros [= H]. destruct (IH y H) as [E1 E2].
  destruct (f a); simpl; split; congruence.
Qed.

Lemma filter_filter {A} (f g : A -> bool) (l : list A) :
  List.filter g (List.filter f l) = List.filter (fun x => f x && g x) l.
Proof.
  induction l as [|a l IH]; simpl; [reflexivity|].
  destruct (f a); simpl; [destruct (g a)|]; congruence.
Qed.

Section TaoFilter.
Import TaoTree.

Lemma passes_L_R t ncols x k d f thr c :
  np_get (feature t) k = Val f -> np_get (threshold t) k = Val thr ->
  np_index ncols f = Val c ->
  passes t ncols x (k, d)
  = match d with L => Qle_bool (nth c x 0%Q) thr | R => negb (Qle_bool (nth c x 0%Q) thr) end.
Proof. unfold passes. simpl. intros -> -> ->. reflexivity. Qed.

(** X3.  The rows that reach a node are the rows of [X] that pass every test
    on its path, in their order, each still paired with its target. *)
Theorem filter_points_by_path_keeps_passing t p : forall X y X_node y_node,
  filter_points_by_path t X y p = Val (X_node, y_node) ->
  shape0 X = length y ->
  shape1 X_node = shape1 X /\
  shape0 X_node = length y_node /\
  zip (rows X_node) y_node
  = List.filter (fun xy => forallb (passes t (shape1 X) xy.1) p) (zip (rows X) y).
Proof.
  induction p as [|[k d] p IH]; intros X y X_node y_node; simpl.
  - intros [= <- <-] Hlen. repeat split; auto.
    induction (zip (rows X) y) as [|a l IHl]; simpl; congruence.
  - run.
    destruct (np_get (feature t) k) as [f| |] eqn:Ef; try discriminate. simpl.
    unfold get_col. run.
    destruct (np_index (shape1 X) f) as [c| |] eqn:Ec; try discriminate. simpl.
    destruct (np_get (threshold t) k) as [thr| |] eqn:Et; try discriminate. simpl.
    unfold mask_rows, np_mask. run.
    set (test := fun x : list Q =>
                   match d with
                   | L => Qle_bool (nth c x 0%Q) thr
                   | R => negb (Qle_bool (nth c x 0%Q) thr)
                   end).
    assert (match d with
            | R => map negb (map (fun x => Qle_bool x thr)
                               (map (fun r => nth c r 0%Q) (rows X)))
            | L => map (fun x => Qle_bool x thr) (map (fun r => nth c r 0%Q) (rows X))
            end = map test (rows X)) as ->.
    { unfold test. destruct d; rewrite ?map_map; reflexivity. }
    rewrite length_map, Nat.eqb_refl. simpl.
    intros H Hlen. unfold shape0 in Hlen. rewrite <- Hlen, Nat.eqb_refl in H. simpl in H.
    destruct (select_zip test (rows X) y Hlen) as [Ez El].
    apply IH in H; [|exact El]. simpl in H.
    destruct H as (H1 & H2 & H3). repeat split; auto.
    rewrite H3, Ez, filter_filter.
    apply List.filter_ext. intros [x yy]. simpl.
    rewrite (passes_L_R t (shape1 X) x k d f thr c Ef Et Ec). reflexivity.
Qed.

End TaoFilter.

(** * Properties of [TaoTree]: what a sweep does to the score *)

Section TaoSweep.
Import TaoTree.
Context {fitted : Type}.
Variable model_fit : model_kind -> list Q -> list Z -> list Q -> result fitted.
Variable model_score : fitted -> list Q -> list Z -> list Q -> result Q.
Variable linear_threshold : fitted -> result Q.
Variable stump_feature0 : fitted -> result Z.
Variable tree_score : tree -> matrix -> list Q -> Q.
Variable np_mean : list Q -> Q.
Variable recursion_limit : nat.

(** What the step at an internal node does to the tree, whatever the
    candidate search did. *)
Lemma internal_node_step_effect self X y X_node y_node node_id t :
  let out := internal_node_step model_fit model_score linear_threshold stump_feature0
               tree_score recursion_limit self X y X_node y_node node_id t in
  match out.2 with
  | Val true =>
      (tree_score t X y < tree_score out.1 X y)%Q /\ value out.1 = value t /\
      exists target w s f q,
        search_loop model_fit model_score self X_node target w (seq 0 (shape1 X))
          (Search None None None None) = Val s /\
        best_threshold linear_threshold stump_feature0 self s = Val (Some q) /\
        best_feat s = Some f /\
        np_get (feature out.1) node_id = Val f /\
        np_get (threshold out.1) node_id = Val q
  | _ => out.1 = t
  end.
Proof.
  unfold internal_node_step. run.
  destruct (np_get (children_left t) node_id) as [cl| |]; simpl; auto.
  destruct (predict_from_node _ _ _ _ cl) as [yl| |]; simpl; auto.
  destruct (np_get (children_right t) node_id) as [cr| |]; simpl; auto.
  destruct (predict_from_node _ _ _ _ cr) as [yr| |]; simpl; auto.
  destruct (search_loop _ _ _ _ _ _ _ _) as [s| |] eqn:Es; simpl; auto.
  destruct (best_threshold _ _ _ s) as [bt| |] eqn:Eb; simpl; auto.
  pose proof (update_node_cases tree_score X y node_id (best_feat s) bt t) as H.
  simpl in H.
  destruct (update_node tree_score X y node_id (best_feat s) bt t) as [t' [[|]|e|]];
    simpl in *; auto.
  - destruct H as (kf & kq & f & q & Hf & Hq & Hkf & Hkq & -> & Hlt).
    split; [exact Hlt|]. split; [reflexivity|].
    subst bt. eexists _, _, s, f, q. repeat split; eauto; simpl.
    + unfold np_get. run. rewrite length_insert, Hkf. simpl.
      rewrite list_lookup_insert_eq; [reflexivity|]. eapply np_index_lt; eauto.
    + unfold np_get. run. rewrite length_insert, Hkq. simpl.
      rewrite list_lookup_insert_eq; [reflexivity|]. eapply np_index_lt; eauto.
  - destruct H as [H|[-> [f Ef]]]; [exact H|].
    apply (best_threshold_None linear_threshold stump_feature0) in Eb as [E1 E2].
    destruct (search_loop_best_feat model_fit model_score _ _ _ _ _ _ _ _ Es Ef) as [[? [=]]|[kind Hk]].
    apply new_model_node_model in Hk as [Hk|Hk]; congruence.
  - contradiction.
Qed.

Lemma search_loop_last self X_node target w feats last : forall s s',
  search_loop model_fit model_score self X_node target w (feats ++ [last]) s = Val s' ->
  exists kind mm,
    new_model self = Val kind /\
    model_fit kind (map (fun r => nth last r 0%Q) (rows X_node)) target w = Val mm /\
    m s' = Some mm.
Proof.
  induction feats as [|feat feats IH]; intros s s'; simpl.
  - unfold search_step. run.
    destruct (new_model self) as [kind| |]; try discriminate. simpl.
    destruct (model_fit kind _ target w) as [mm| |] eqn:Em; try discriminate. simpl.
    destruct (model_score mm _ target w) as [sc| |]; try discriminate. simpl.
    intros H. exists kind, mm. repeat split; auto.
    destruct (match best_score s with Some b => negb (Qle_bool sc b) | None => true end);
      simpl in H; injection H as <-; reflexivity.
  - run. destruct (search_step _ _ _ _ _ _ _ _) as [s1| |]; try discriminate. simpl.
    apply IH.
Qed.

(** X4.  With the stump node model, a counted update writes into the
    node the column that scored best, and as its threshold the root
    feature index of the stump fitted on the last column of [X], the
    model the loop variable still holds, whichever column scored best. *)
Theorem stump_threshold_is_last_feature_index self X y X_node y_node node_id t t' :
  node_model self = "stump" ->
  internal_node_step model_fit model_score linear_threshold stump_feature0
    tree_score recursion_limit self X y X_node y_node node_id t = (t', Val true) ->
  (0 < shape1 X)%nat /\
  exists kind target w s bf mm f,
    new_model self = Val kind /\
    search_loop model_fit model_score self X_node target w (seq 0 (shape1 X))
      (Search None None None None) = Val s /\
    best_feat s = Some bf /\
    np_get (feature t') node_id = Val bf /\
    model_fit kind (map (fun r => nth (shape1 X - 1) r 0%Q) (rows X_node)) target w
    = Val mm /\
    m s = Some mm /\
    stump_feature0 mm = Val f /\
    np_get (threshold t') node_id = Val (inject_Z f).
Proof.
  intros Hm Hs.
  pose proof (internal_node_step_effect self X y X_node y_node node_id t) as H.
  simpl in H. rewrite Hs in H. simpl in H.
  destruct H as (_ & _ & target & w & s & f & q & Hl & Hb & Hbf & Hf & Hq).
  unfold best_threshold in Hb. rewrite Hm in Hb. simpl in Hb.
  destruct (m s) as [mm|] eqn:Emm; [|discriminate].
  run. destruct (stump_feature0 mm) as [f0| |] eqn:Ef0; try discriminate.
  simpl in Hb. injection Hb as <-.
  destruct (shape1 X) as [|k] eqn:Ek.
  { simpl in Hl. injection Hl as <-. discriminate. }
  split; [lia|].
  pose proof Hl as Hl'.
  rewrite seq_S in Hl. simpl in Hl.
  apply search_loop_last in Hl as (kind & mm' & Hk & Hfit & Hmm).
  rewrite Emm in Hmm. injection Hmm as <-.
  exists kind, target, w, s, f, mm, f0.
  split; [exact Hk|]. split; [exact Hl'|]. split; [exact Hbf|]. split; [exact Hf|].
  split; [|split; [exact Emm|split; [exact Ef0|exact Hq]]].
  replace (S k - 1)%nat with k by lia. exact Hfit.
Qed.

Lemma node_step_effect self X y node_id p t :
  str_eq (prediction_task self) "regression" = false ->
  let out := node_step model_fit model_score linear_threshold stump_feature0 tree_score
               np_mean recursion_limit self X y node_id p t in
  match out.2 with
  | Val true => (tree_score t X y < tree_score out.1 X y)%Q /\ value out.1 = value t
  | _ => out.1 = t
  end.
Proof.
  intros Hr. unfold node_step. run.
  destruct (filter_points_by_path t X y p) as [[X_node y_node]| |]; simpl; auto.
  destruct (np_get (children_left t) node_id) as [cl| |]; simpl; auto.
  destruct (np_get (children_right t) node_id) as [cr| |]; simpl; auto.
  destruct (cl =? cr).
  - rewrite Hr. simpl. reflexivity.
  - destruct (_ <? _); simpl; auto.
    pose proof (internal_node_step_effect self X y X_node y_node node_id t) as H.
    simpl in H.
    destruct (internal_node_step _ _ _ _ _ _ _ _ _ _ _ _ t) as [t' [[|]|e|]]; simpl in *; auto.
    tauto.
Qed.

Lemma sweep_ok_le X y t num t' :
  sweep_ok (fun t => tree_score t X y) t num t' ->
  (tree_score t X y <= tree_score t' X y)%Q.
Proof.
  intros (_ & Hn & H0 & H1).
  destruct (Z.eq_dec num 0) as [E|E].
  - rewrite (H0 E). apply Qle_refl.
  - apply Qlt_le_weak, H1. lia.
Qed.

Lemma sweep_steps self X y t0 l : forall num t,
  str_eq (prediction_task self) "regression" = false ->
  sweep_ok (fun t => tree_score t X y) t0 num t ->
  let out := foldM (fun num_updates np =>
                      updated ← node_step model_fit model_score linear_threshold
                                  stump_feature0 tree_score np_mean recursion_limit
                                  self X y (fst np) (snd np);
                      mret (if updated : bool then num_updates + 1 else num_updates))
                   l num t in
  match out.2 with
  | Val n => sweep_ok (fun t => tree_score t X y) t0 n out.1
  | _ => exists n, sweep_ok (fun t => tree_score t X y) t0 n out.1
  end.
Proof.
  induction l as [|[node_id p] l IH]; intros num t Hr Hok; simpl.
  - exact Hok.
  - run.
    pose proof (node_step_effect self X y node_id p t Hr) as H. simpl in H.
    destruct (node_step _ _ _ _ _ _ _ _ _ _ _ _ t) as [t1 [[|]|e|]]; simpl in *.
    + apply IH; [exact Hr|].
      destruct H as [Hlt Hv]. destruct Hok as (Hv0 & Hn & H0 & H1).
      repeat split; try lia; try congruence.
      intros _. eapply Qle_lt_trans; [|exact Hlt].
      eapply sweep_ok_le. repeat split; eauto.
    + subst t1. apply IH; auto.
    + subst t1. eauto.
    + subst t1. eauto.
Qed.

Lemma tao_iter_cart_effect fuel self X y t :
  prediction_task self <> "regression" ->
  let out := _tao_iter_cart model_fit model_score linear_threshold stump_feature0
               tree_score np_mean recursion_limit fuel self X y t in
  exists n, sweep_ok (fun t => tree_score t X y) t n out.1 /\
            forall k, out.2 = Val k -> k = n.
Proof.
  intros Hr.
  assert (str_eq (prediction_task self) "regression" = false) as Hr'.
  { unfold str_eq. apply String.eqb_neq. exact Hr. }
  assert (sweep_ok (fun t => tree_score t X y) t 0 t) as Hok.
  { repeat split; auto; lia. }
  unfold _tao_iter_cart. run.
  destruct (node_paths fuel t [(0, [])] []) as [l| |]; simpl;
    try (exists 0; split; [exact Hok|discriminate]).
  pose proof (sweep_steps self X y t l 0 t Hr' Hok) as H. simpl in H. run.
  match goal with
  | |- context [foldM ?f l 0 t] => destruct (foldM f l 0 t) as [t' [n|e|]]
  end; simpl in *.
  - exists n. split; [exact H|]. intros k [= <-]. reflexivity.
  - destruct H as [n H]. exists n. split; [exact H|discriminate].
  - destruct H as [n H]. exists n. split; [exact H|discriminate].
Qed.

(** X5.  A sweep of a tree that is not a regression tree writes no value,
    counts a non-negative number of updates, leaves the tree as it was
    when it counts none, and has raised the whole-tree score when it
    counts one or more; interrupted by an exception it has not lowered
    the score. *)
Theorem sweep_improves_or_keeps fuel self X y t :
  prediction_task self <> "regression" ->
  let out := _tao_iter_cart model_fit model_score linear_threshold stump_feature0
               tree_score np_mean recursion_limit fuel self X y t in
  value out.1 = value t /\
  (tree_score t X y <= tree_score out.1 X y)%Q /\
  match out.2 with
  | Val n =>
      0 <= n /\ (n = 0 -> out.1 = t) /\
      (0 < n -> (tree_score t X y < tree_score out.1 X y)%Q)
  | _ => True
  end.
Proof.
  intros Hr. cbv zeta.
  destruct (tao_iter_cart_effect fuel self X y t Hr) as (n & Hok & Hn).
  split; [apply Hok|]. split; [eapply sweep_ok_le; exact Hok|].
  destruct (_tao_iter_cart _ _ _ _ _ _ _ _ _ _ _ t) as [t' [k|e|]]; simpl in *; auto.
  rewrite (Hn k eq_refl). destruct Hok as (_ & H0 & H1 & H2). auto.
Qed.

Lemma sweeps_effect iters fuel self X y : forall t,
  prediction_task self <> "regression" ->
  let out := sweeps model_fit model_score linear_threshold stump_feature0
               tree_score np_mean recursion_limit iters fuel self X y t in
  value out.1 = value t /\ (tree_score t X y <= tree_score out.1 X y)%Q.
Proof.
  induction iters as [|iters IH]; intros t Hr; simpl.
  - split; [reflexivity|apply Qle_refl].
  - run.
    pose proof (tao_iter_cart_effect fuel self X y t Hr) as (k & Hok & _). simpl in *.
    pose proof (sweep_ok_le _ _ _ _ _ Hok) as Hle. destruct Hok as [Hv _].
    destruct (_tao_iter_cart _ _ _ _ _ _ _ _ _ _ _ t) as [t1 [n|e|]]; simpl in *; auto.
    destruct (n =? 0); simpl; auto.
    destruct (IH t1 Hr) as [Hv' Hle']. simpl in *.
    split; [congruence|]. eapply Qle_trans; eauto.
Qed.

Variable np_median : list Q -> Q.
Variable shuffle : list Z -> list Z.

(** X6.  Without the random restart, [fit] on a tree that is not a
    regression tree never ends with a lower whole-tree score than the
    CART tree it started from, and it leaves every value as CART set
    it. *)
Theorem fit_never_lowers_score fuel self X y t :
  randomize_tree self = false ->
  prediction_task self <> "regression" ->
  let t' := (fit model_fit model_score linear_threshold stump_feature0 tree_score
               np_mean np_median shuffle recursion_limit fuel self X y t).1 in
  value t' = value t /\ (tree_score t X y <= tree_score t' X y)%Q.
Proof.
  intros Hrand Hr. unfold fit. rewrite Hrand. run.
  exact (sweeps_effect (Z.to_nat (n_iters self)) fuel self X y t Hr).
Qed.

End TaoSweep.

(** * Properties of [TaoTree]: the random restart *)

Lemma np_index_nat len a k : np_index len (Z.of_nat a) = Val k -> k = a /\ (a < len)%nat.
Proof.
  unfold np_index.
  destruct ((0 <=? Z.of_nat a) && (Z.of_nat a <? Z.of_nat len)) eqn:E.
  - intros [= <-]. apply andb_true_iff in E as [_ E]. apply Z.ltb_lt in E. lia.
  - destruct ((- Z.of_nat len <=? Z.of_nat a) && (Z.of_nat a <? 0)) eqn:E2; [|discriminate].
    apply andb_true_iff in E2 as [_ E2]. apply Z.ltb_lt in E2. lia.
Qed.

Lemma np_index_Exn len i e : np_index len i = Exn e -> e = IndexError.
Proof.
  unfold np_index. destruct (_ && _); [discriminate|].
  destruct (_ && _); [discriminate|]. congruence.
Qed.

Lemma np_get_Exn {A} (l : list A) i e : np_get l i = Exn e -> e = IndexError.
Proof.
  unfold np_get. run. destruct (np_index (length l) i) as [k| |] eqn:E; simpl.
  - destruct (l !! k); [discriminate|congruence].
  - intros [= <-]. eapply np_index_Exn; eauto.
  - discriminate.
Qed.

Section TaoRandomize.
Import TaoTree.
Variable np_median : list Q -> Q.
Variable shuffle : list Z -> list Z.

Definition randomize_body (X : matrix) : unit -> nat -> M tree unit :=
  fun _ i =>
    t ← get;
    f ← lift (np_get (feature t) (Z.of_nat i));
    col ← lift (get_col X f);
    set_threshold (Z.of_nat i) (np_median col).

Lemma randomize_body_cases X a t1 :
  match randomize_body X tt a t1 with
  | (t2, Val _) =>
      exists f col,
        feature t1 !! a = Some f /\ get_col X f = Val col /\ (a < length (threshold t1))%nat /\
        t2 = Tree (children_left t1) (children_right t1) (feature t1)
               (<[a:=np_median col]> (threshold t1)) (value t1)
  | (t2, Exn e) => e = IndexError /\ t2 = t1
  | (_, Fuel) => False
  end.
Proof.
  unfold randomize_body, set_threshold. run.
  destruct (np_get (feature t1) (Z.of_nat a)) as [f|e|] eqn:Ef; simpl.
  - apply np_get_Val in Ef as (k & Hk & Hf). apply np_index_nat in Hk as [-> _].
    unfold get_col. run.
    destruct (np_index (shape1 X) f) as [c|e|] eqn:Ec; simpl.
    + unfold np_set. run.
      destruct (np_index (length (threshold t1)) (Z.of_nat a)) as [k|e|] eqn:Ek; simpl.
      * apply np_index_nat in Ek as [-> Hlt].
        eexists f, _. rewrite Ec. simpl. repeat split; auto.
      * split; [eapply np_index_Exn; eauto|reflexivity].
      * exact (np_index_Fuel _ _ Ek).
    + split; [eapply np_index_Exn; eauto|reflexivity].
    + exact (np_index_Fuel _ _ Ec).
  - split; [eapply np_get_Exn; eauto|reflexivity].
  - exact (np_get_Fuel _ _ Ef).
Qed.

Lemma randomize_loop X k : forall a t1 t2,
  foldM (randomize_body X) (seq a k) tt t1 = (t2, Val tt) ->
  children_left t2 = children_left t1 /\ children_right t2 = children_right t1 /\
  feature t2 = feature t1 /\ value t2 = value t1 /\
  length (threshold t2) = length (threshold t1) /\
  (forall i, (a <= i < a + k)%nat ->
     exists f col, feature t1 !! i = Some f /\ get_col X f = Val col /\
                   threshold t2 !! i = Some (np_median col)) /\
  (forall i, (i < a)%nat -> threshold t2 !! i = threshold t1 !! i).
Proof.
  induction k as [|k IH]; intros a t1 t2; simpl.
  - intros [= <-]. repeat split; auto. intros i Hi. lia.
  - run. pose proof (randomize_body_cases X a t1) as Hb.
    destruct (randomize_body X tt a t1) as [t1' [[]|e|]]; try discriminate.
    destruct Hb as (f & col & Hf & Hc & Hlt & ->).
    intros H. apply IH in H. simpl in H.
    destruct H as (H1 & H2 & H3 & H4 & H5 & H6 & H7).
    rewrite length_insert in H5. repeat split; auto.
    + intros i Hi. destruct (decide (i = a)) as [->|Hne].
      * exists f, col. repeat split; auto. rewrite H7 by lia.
        apply list_lookup_insert_eq. exact Hlt.
      * apply H6. lia.
    + intros i Hi. rewrite H7 by lia. apply list_lookup_insert_ne. lia.
Qed.

Lemma randomize_loop_raises X k : forall a t1 i f,
  (a <= i < a + k)%nat -> feature t1 !! i = Some f ->
  ~ (- Z.of_nat (shape1 X) <= f < Z.of_nat (shape1 X)) ->
  (foldM (randomize_body X) (seq a k) tt t1).2 = Exn IndexError.
Proof.
  induction k as [|k IH]; intros a t1 i f Hi Hf Hbad; simpl; [lia|].
  run. pose proof (randomize_body_cases X a t1) as Hb.
  destruct (randomize_body X tt a t1) as [t1' [[]|e|]]; simpl.
  - destruct Hb as (f' & col & Hf' & Hc & Hlt & ->).
    destruct (decide (i = a)) as [->|Hne].
    + exfalso. rewrite Hf in Hf'. injection Hf' as <-.
      unfold get_col in Hc. run.
      rewrite (np_index_out (shape1 X) f (Z.of_nat (shape1 X))) in Hc;
        [discriminate|lia|exact Hbad].
    + apply (IH (S a) _ i f); [lia|exact Hf|exact Hbad].
  - destruct Hb as [-> _]. reflexivity.
  - contradiction.
Qed.

(** X7.  The random restart keeps the shuffled features and overwrites the
    threshold of every node, leaves included, by the median of the
    column its shuffled feature names. *)
Theorem randomize_sets_medians X t t' :
  randomize np_median shuffle X t = (t', Val tt) ->
  children_left t' = children_left t /\ children_right t' = children_right t /\
  value t' = value t /\ feature t' = shuffle (feature t) /\
  length (threshold t') = length (threshold t) /\
  forall i, (i < length (children_left t))%nat ->
    exists f col, feature t' !! i = Some f /\ get_col X f = Val col /\
                  threshold t' !! i = Some (np_median col).
Proof.
  unfold randomize. run. intros H.
  apply (randomize_loop X) in H. simpl in H.
  destruct H as (H1 & H2 & H3 & H4 & H5 & H6 & _).
  repeat split; auto.
  intros i Hi. destruct (H6 i) as (f & col & Hf & Hc & Ht); [lia|].
  exists f, col. rewrite H3. auto.
Qed.

Context {fitted : Type}.
Variable model_fit : model_kind -> list Q -> list Z -> list Q -> result fitted.
Variable model_score : fitted -> list Q -> list Z -> list Q -> result Q.
Variable linear_threshold : fitted -> result Q.
Variable stump_feature0 : fitted -> result Z.
Variable tree_score : tree -> matrix -> list Q -> Q.
Variable np_mean : list Q -> Q.
Variable recursion_limit : nat.

(** X8.  With the random restart, [fit] raises [IndexError] as soon as the
    shuffled feature of some node is no column of [X]: the restart
    indexes [X] by the feature of every node, leaves included. *)
Theorem fit_randomized_raises_on_missing_column fuel self X y t i f :
  randomize_tree self = true ->
  (i < length (children_left t))%nat ->
  shuffle (feature t) !! i = Some f ->
  ~ (- Z.of_nat (shape1 X) <= f < Z.of_nat (shape1 X)) ->
  (fit model_fit model_score linear_threshold stump_feature0 tree_score np_mean
     np_median shuffle recursion_limit fuel self X y t).2 = Exn IndexError.
Proof.
  intros Hrand Hi Hf Hbad. unfold fit, randomize. rewrite Hrand. run.
  pose proof (randomize_loop_raises X (length (children_left t)) 0
                (Tree (children_left t) (children_right t) (shuffle (feature t))
                   (threshold t) (value t)) i f) as H.
  simpl in H. specialize (H ltac:(lia) Hf Hbad).
  unfold randomize_body in H. run.
  match goal with
  | H : (foldM ?f ?l tt ?s).2 = _ |- _ => destruct (foldM f l tt s) as [t1 [[]|e|]]
  end; simpl in *; try discriminate. exact H.
Qed.

End TaoRandomize.

(** * Worked examples for [TaoTree] *)

Section TaoExamples.
Import TaoTree.

Lemma node_paths_lead_from_root_witness :
  [(0, []); (2, [(0, R)]); (1, [(0, L)])] !! 0%nat = Some (0, []) /\
  Forall (fun np => leads_to TaoExample.t0 0 np.2 np.1)
    [(0, []); (2, [(0, R)]); (1, [(0, L)])] /\
  parents_first [(0, []); (2, [(0, R)]); (1, [(0, L)])].
Proof.
  apply (node_paths_lead_from_root 10 TaoExample.t0). reflexivity.
Defined.

Lemma node_paths_returns_witness :
  exists l, node_paths 8 TaoExample.t0 [(0, [])] [] = Val l.
Proof.
  apply (node_paths_returns 8 TaoExample.t0).
  - split; [reflexivity|]. intros [|[|[|k]]] cl cr Hl Hr Hne; simpl in *;
      try discriminate; injection Hl as <-; injection Hr as <-; try lia; contradiction.
  - simpl. lia.
  - simpl. lia.
Defined.

Lemma filter_points_by_path_keeps_passing_witness :
  let X_node := Matrix 1 [[1%Q]; [1%Q]] in
  let y_node := [1%Q; 1%Q] in
  shape1 X_node = shape1 TaoExample.X /\
  shape0 X_node = length y_node /\
  zip (rows X_node) y_node
  = List.filter (fun xy => forallb (passes (TaoExample.run_fit 10 TaoExample.t0).1
                                      (shape1 TaoExample.X) xy.1) [(0, R)])
      (zip (rows TaoExample.X) TaoExample.y).
Proof.
  apply (filter_points_by_path_keeps_passing (TaoExample.run_fit 10 TaoExample.t0).1
           [(0, R)] TaoExample.X TaoExample.y); reflexivity.
Defined.

Lemma sample_weight_right_error_witness :
  sample_weight TaoExample.self [0; 2; 4]%Q
    (y_node_absolute_errors [0; 2; 4]%Q [1; 1; 1]%Q [3; 3; 3]%Q)
  = map Qabs (map Qabs (zip_with Qminus [0; 2; 4]%Q [3; 3; 3]%Q)).
Proof.
  apply (sample_weight_right_error TaoExample.self [0; 2; 4]%Q [1; 1; 1]%Q [3; 3; 3]%Q);
    reflexivity.
Defined.

(** The best column is the first, the last column has no split: the
    node gets feature 0 and, as its threshold, the -2 that marks the
    missing split of the last stump. *)
Example step_cols_returns :
  TaoExample.step_cols.2 = Val true /\
  np_get (feature TaoExample.step_cols.1) 0 = Val 0 /\
  np_get (threshold TaoExample.step_cols.1) 0 = Val (inject_Z (-2)) /\
  TaoExample.stump_fit_cols DecisionTreeClassifier
    (map (fun r => nth 0%nat r 0%Q) (rows TaoExample.X_cols)) [] [] = Val 0 /\
  TaoExample.stump_fit_cols DecisionTreeClassifier
    (map (fun r => nth 1%nat r 0%Q) (rows TaoExample.X_cols)) [] [] = Val (-2).
Proof. vm_compute. repeat split. Qed.

Lemma stump_threshold_is_last_feature_index_witness :
  (0 < shape1 TaoExample.X_cols)%nat /\
  exists kind target w s bf mm f,
    new_model TaoExample.self = Val kind /\
    search_loop TaoExample.stump_fit_cols TaoExample.stump_score_cols TaoExample.self
      TaoExample.X_cols target w (seq 0 (shape1 TaoExample.X_cols))
      (Search None None None None) = Val s /\
    best_feat s = Some bf /\
    np_get (feature TaoExample.step_cols.1) 0 = Val bf /\
    TaoExample.stump_fit_cols kind
      (map (fun r => nth (shape1 TaoExample.X_cols - 1) r 0%Q) (rows TaoExample.X_cols))
      target w
    = Val mm /\
    m s = Some mm /\
    TaoExample.stump_feature0 mm = Val f /\
    np_get (threshold TaoExample.step_cols.1) 0 = Val (inject_Z f).
Proof.
  apply (stump_threshold_is_last_feature_index TaoExample.stump_fit_cols
           TaoExample.stump_score_cols TaoExample.linear_threshold
           TaoExample.stump_feature0 TaoExample.accuracy 100 TaoExample.self
           TaoExample.X_cols TaoExample.y TaoExample.X_cols TaoExample.y 0
           TaoExample.t0).
  - reflexivity.
  - vm_compute. reflexivity.
Defined.

Lemma sweep_improves_or_keeps_witness :
  let out := _tao_iter_cart TaoExample.model_fit TaoExample.model_score
               TaoExample.linear_threshold TaoExample.stump_feature0
               TaoExample.accuracy TaoExample.np_mean 100 10 TaoExample.self
               TaoExample.X TaoExample.y TaoExample.t0 in
  value out.1 = value TaoExample.t0 /\
  (TaoExample.accuracy TaoExample.t0 TaoExample.X TaoExample.y
   <= TaoExample.accuracy out.1 TaoExample.X TaoExample.y)%Q /\
  match out.2 with
  | Val n =>
      0 <= n /\ (n = 0 -> out.1 = TaoExample.t0) /\
      (0 < n -> (TaoExample.accuracy TaoExample.t0 TaoExample.X TaoExample.y
                 < TaoExample.accuracy out.1 TaoExample.X TaoExample.y)%Q)
  | _ => True
  end.
Proof.
  apply (sweep_improves_or_keeps TaoExample.model_fit TaoExample.model_score
           TaoExample.linear_threshold TaoExample.stump_feature0
           TaoExample.accuracy TaoExample.np_mean 100 10%nat TaoExample.self
           TaoExample.X TaoExample.y TaoExample.t0).
  discriminate.
Defined.

Lemma fit_never_lowers_score_witness :
  let t' := (TaoExample.run_fit 10 TaoExample.t0).1 in
  value t' = value TaoExample.t0 /\
  (TaoExample.accuracy TaoExample.t0 TaoExample.X TaoExample.y
   <= TaoExample.accuracy t' TaoExample.X TaoExample.y)%Q.
Proof.
  apply (fit_never_lowers_score TaoExample.model_fit TaoExample.model_score
           TaoExample.linear_threshold TaoExample.stump_feature0
           TaoExample.accuracy TaoExample.np_mean 100 TaoExample.np_median (@reverse Z)
           10%nat TaoExample.self TaoExample.X TaoExample.y TaoExample.t0).
  - reflexivity.
  - discriminate.
Defined.

Lemma randomize_sets_medians_witness :
  let t := Tree [1; -1; -1] [2; -1; -1] [0; 1; 1] [5%Q; (-2)%Q; (-2)%Q]
             [[1 # 2; 1 # 2]; [1%Q; 0%Q]; [0%Q; 1%Q]] in
  let X := Matrix 2 [[1%Q; 7%Q]; [2%Q; 8%Q]; [3%Q; 9%Q]] in
  let t' := Tree [1; -1; -1] [2; -1; -1] [1; 1; 0] [8%Q; 8%Q; 2%Q]
              [[1 # 2; 1 # 2]; [1%Q; 0%Q]; [0%Q; 1%Q]] in
  children_left t' = children_left t /\ children_right t' = children_right t /\
  value t' = value t /\ feature t' = reverse (feature t) /\
  length (threshold t') = length (threshold t) /\
  forall i, (i < length (children_left t))%nat ->
    exists f col, feature t' !! i = Some f /\ get_col X f = Val col /\
                  threshold t' !! i = Some (TaoExample.np_median col).
Proof.
  apply (randomize_sets_medians TaoExample.np_median (@reverse Z)). reflexivity.
Defined.

Lemma fit_randomized_raises_on_missing_column_witness :
  (fit TaoExample.model_fit TaoExample.model_score TaoExample.linear_threshold
     TaoExample.stump_feature0 TaoExample.accuracy TaoExample.np_mean
     TaoExample.np_median (@reverse Z) 100 10
     (Estimator "CART" (1 # 1000) 20 true 3 2 "stump" true "classification")
     TaoExample.X TaoExample.y TaoExample.t0).2 = Exn IndexError.
Proof.
  apply (fit_randomized_raises_on_missing_column TaoExample.np_median (@reverse Z)
           TaoExample.model_fit TaoExample.model_score TaoExample.linear_threshold
           TaoExample.stump_feature0 TaoExample.accuracy TaoExample.np_mean 100 10%nat
           _ TaoExample.X TaoExample.y TaoExample.t0 0%nat (-2)).
  - reflexivity.
  - simpl. lia.
  - reflexivity.
  - simpl. lia.
Defined.

End TaoExamples.

(** * Properties of [AFIGS]: the one-hot target and the output subsets *)

Lemma np_index_wrap l i k :
  np_index (Z.to_nat l) i = Val k -> Z.of_nat k = wrap l i /\ (k < Z.to_nat l)%nat.
Proof.
  unfold np_index, wrap.
  destruct ((0 <=? i) && (i <? Z.of_nat (Z.to_nat l))) eqn:E1.
  - intros [= <-]. apply andb_true_iff in E1 as [H1 H2].
    apply Z.leb_le in H1. apply Z.ltb_lt in H2.
    destruct (i <? 0) eqn:E; [apply Z.ltb_lt in E; lia|]. lia.
  - destruct ((- Z.of_nat (Z.to_nat l) <=? i) && (i <? 0)) eqn:E2; [|discriminate].
    intros [= <-]. apply andb_true_iff in E2 as [H1 H2].
    apply Z.leb_le in H1. apply Z.ltb_lt in H2.
    destruct (i <? 0) eqn:E; [lia|apply Z.ltb_ge in E; lia].
Qed.

Lemma ravel_unravel levels : forall idx acc k,
  ravel levels idx acc = Val k ->
  exists r, k = (acc * cells levels + r)%nat /\ (r < cells levels)%nat /\
            unravel levels r = zip_with wrap levels idx.
Proof.
  induction levels as [|l levels IH]; intros [|i idx] acc k; simpl; try discriminate.
  - intros [= <-]. exists 0%nat. repeat split; lia.
  - run. destruct (np_index (Z.to_nat l) i) as [ki| |] eqn:Ei; try discriminate. simpl.
    intros H. apply IH in H as (r & -> & Hr & Hu).
    apply np_index_wrap in Ei as [Hw Hki].
    exists (ki * cells levels + r)%nat. split; [lia|]. split; [nia|].
    f_equal.
    + rewrite <- Hw. f_equal.
      rewrite Nat.div_add_l by lia. rewrite Nat.div_small by lia. lia.
    + rewrite <- Hu. f_equal.
      rewrite Nat.add_comm, Nat.Div0.mod_add. apply Nat.mod_small. lia.
Qed.

Lemma np_zeros_Val levels zero :
  np_zeros levels = Val zero -> zero = replicate (cells levels) 0%Q.
Proof. unfold np_zeros. destruct (forallb _ _); [congruence|discriminate]. Qed.

Lemma one_hot_row_Val levels yrow oh :
  one_hot_row levels yrow = Val oh ->
  exists k, ravel levels (map Qtrunc yrow) 0 = Val k /\ (k < cells levels)%nat /\
            oh = one_hot levels k.
Proof.
  unfold one_hot_row. run.
  destruct (np_zeros levels) as [zero| |] eqn:Ez; try discriminate. simpl.
  destruct (ravel levels (map Qtrunc yrow) 0) as [k| |] eqn:Ek; try discriminate. simpl.
  intros [= <-]. exists k. split; [reflexivity|].
  apply ravel_unravel in Ek as (r & -> & Hr & _). split; [lia|].
  apply np_zeros_Val in Ez as ->. reflexivity.
Qed.

Lemma forM_Forall2 {A B} (f : A -> result B) l r :
  forM l f = Val r -> Forall2 (fun a b => f a = Val b) l r.
Proof.
  revert r. induction l as [|x l IH]; intros r; simpl.
  - intros [= <-]. constructor.
  - run. destruct (f x) as [b| |] eqn:E; try discriminate. simpl.
    destruct (forM l f) as [bs| |]; try discriminate. simpl.
    intros [= <-]. constructor; auto.
Qed.

Lemma init_y_inv y s s' yd :
  _init_y y s = (s', Val yd) ->
  exists levels mi,
    column_levels y = Val levels /\
    forM (rows y) (one_hot_row levels) = Val yd.2 /\
    mi = match max_int s with
         | None => Z.of_nat (shape1 y)
         | Some v => if Z.of_nat (shape1 y) <? v then Z.of_nat (shape1 y) else v
         end /\
    s' = set_max_int (Some mi) (set_n (shape0 y) (set_y_levels levels s)) /\
    yd.1.*1 = flat_map (fun r => combinations (seq 0 (shape1 y)) r) (seq 1 (Z.to_nat mi)).
Proof.
  unfold _init_y. run.
  destruct (column_levels y) as [levels|e|] eqn:El; simpl; try discriminate.
  destruct (np_zeros_rows (shape0 y) levels) as [z|e|] eqn:Ez; simpl; try discriminate.
  destruct (forM (rows y) (one_hot_row levels)) as [y_onehot|e|] eqn:Eo; simpl;
    try discriminate.
  rewrite length_seq.
  match goal with
  | |- context [foldM ?f ?l [] ?st] =>
      assert (forall acc, exists acc', foldM f l acc st = (st, Val acc') /\
                            acc'.*1 = acc.*1 ++ l) as Hf
  end.
  { remember (set_max_int _ _) as st eqn:Est.
    assert (y_levels st = Some levels) as Hlv by (subst st; reflexivity). clear Est.
    generalize (flat_map (fun r => combinations (seq 0 (shape1 y)) r)
                  (seq 1 (Z.to_nat match max_int s with
                                   | Some v => if Z.of_nat (shape1 y) <? v
                                               then Z.of_nat (shape1 y) else v
                                   | None => Z.of_nat (shape1 y)
                                   end))) as l.
    induction l as [|d l IH]; intros acc; simpl.
    - exists acc. rewrite app_nil_r. split; reflexivity.
    - destruct (flatten_y_eval st levels y_onehot d Hlv) as [m Hm].
      run. rewrite Hm.
      destruct (IH (acc ++ [(d, m)])) as (acc' & -> & Hacc).
      exists acc'. split; [reflexivity|].
      rewrite Hacc, fmap_app, <- app_assoc. reflexivity. }
  destruct (Hf []) as (acc' & Hrun & Hkeys). run. rewrite Hrun. simpl.
  intros [= <- <-]. exists levels. eexists. repeat split; eauto.
Qed.

(** X10.  [_init_y] turns every row of [y] into a row of the shape
    [y_levels] that holds a single 1, at the cell the codes of the row
    name, and zeros elsewhere. *)
Theorem init_y_one_hot y s s' yd :
  _init_y y s = (s', Val yd) ->
  exists levels,
    column_levels y = Val levels /\ y_levels s' = Some levels /\
    n s' = Some (shape0 y) /\
    Forall2 (fun yrow oh =>
               exists k, ravel levels (map Qtrunc yrow) 0 = Val k /\
                         (k < cells levels)%nat /\ oh = one_hot levels k)
            (rows y) yd.2.
Proof.
  intros H. apply init_y_inv in H as (levels & mi & Hl & Ho & _ & -> & _).
  exists levels. repeat split; auto.
  apply forM_Forall2 in Ho. eapply Forall2_impl; [exact Ho|].
  intros yrow oh. apply one_hot_row_Val.
Qed.

Lemma fold_max_bits (l : list Q) : forall a,
  (a = 0%Q \/ a = 1%Q) -> Forall (fun q => q = 0%Q \/ q = 1%Q) l ->
  (a = 1%Q \/ 1%Q ∈ l) ->
  fold_left (fun a b => if Qle_bool a b then b else a) l a = 1%Q.
Proof.
  induction l as [|b l IH]; intros a Ha Hl H1; simpl.
  - destruct H1 as [H1|H1]; [exact H1|inversion H1].
  - apply Forall_cons in Hl as [Hb Hl].
    destruct Ha as [->| ->], Hb as [->| ->]; simpl; apply IH; auto.
    destruct H1 as [H1|H1]; [discriminate|].
    apply elem_of_cons in H1 as [H1|H1]; [discriminate|auto].
Qed.

Lemma one_hot_bits levels k :
  Forall (fun q => q = 0%Q \/ q = 1%Q) (one_hot levels k).
Proof.
  unfold one_hot. generalize (cells levels) as c. intros c. revert k.
  induction c as [|c IH]; intros k; simpl; [constructor|].
  destruct k as [|k]; simpl.
  - constructor; [right; reflexivity|]. apply Forall_replicate. left. reflexivity.
  - constructor; [left; reflexivity|]. apply IH.
Qed.

Lemma first_eq_one_hot levels k :
  (k < cells levels)%nat -> first_eq 1%Q (one_hot levels k) = k.
Proof.
  unfold one_hot. generalize (cells levels) as c. intros c. revert k.
  induction c as [|c IH]; intros k Hk; [lia|].
  destruct k as [|k]; simpl; [reflexivity|]. f_equal. apply IH. lia.
Qed.

Lemma one_hot_has_one levels k :
  (k < cells levels)%nat -> 1%Q ∈ one_hot levels k.
Proof.
  intros Hk. unfold one_hot. apply list_elem_of_lookup. exists k.
  apply list_lookup_insert_eq. rewrite length_replicate. exact Hk.
Qed.

(** X11.  Decoding undoes the encoding: from the one-hot row of a sample,
    the class [predict] reads off is the tuple of the sample's codes,
    each as the coordinate it selected (a negative code counted from
    the end of its axis). *)
Theorem best_class_one_hot_row levels yrow oh :
  levels <> [] ->
  one_hot_row levels yrow = Val oh ->
  best_class levels oh = Val (zip_with wrap levels (map Qtrunc yrow)).
Proof.
  intros Hne H. apply one_hot_row_Val in H as (k & Hk & Hlt & ->).
  apply ravel_unravel in Hk as (r & -> & Hr & Hu). simpl in *.
  unfold best_class. destruct levels as [|l levels]; [contradiction|].
  pose proof (one_hot_bits (l :: levels) r) as Hb.
  pose proof (one_hot_has_one (l :: levels) r Hlt) as H1.
  pose proof (first_eq_one_hot (l :: levels) r Hlt) as Hf.
  destruct (one_hot (l :: levels) r) as [|q row] eqn:Eo; [inversion H1|].
  apply Forall_cons in Hb as [Hq Hrow].
  rewrite (fold_max_bits row q Hq Hrow).
  - rewrite Hf, Hu. reflexivity.
  - apply elem_of_cons in H1 as [H1|H1]; auto.
Qed.

Lemma best_class_one_hot_row_witness :
  best_class [2; 3] [0; 0; 0; 0; 0; 1]%Q = Val (zip_with wrap [2; 3] (map Qtrunc [1; -1]%Q)).
Proof.
  apply (best_class_one_hot_row [2; 3] [1; -1]%Q).
  - discriminate.
  - reflexivity.
Defined.

(** ** The output subsets *)

Lemma elem_of_combinations {A} (l : list A) : forall r c,
  c ∈ combinations l r <-> sublist c l /\ length c = r.
Proof.
  induction l as [|x l IH]; intros r c.
  - destruct r as [|r]; simpl.
    + rewrite list_elem_of_singleton. split.
      * intros ->. split; [constructor|reflexivity].
      * intros [_ H]. destruct c; [reflexivity|discriminate].
    + split; [intros H; inversion H|].
      intros [H1 H2]. apply sublist_nil_r in H1. subst c. discriminate.
  - destruct r as [|r]; simpl.
    + rewrite list_elem_of_singleton. split.
      * intros ->. split; [apply sublist_nil_l|reflexivity].
      * intros [_ H]. destruct c; [reflexivity|discriminate].
    + rewrite elem_of_app, list_elem_of_fmap. split.
      * intros [(c' & -> & Hc')|Hc].
        -- apply IH in Hc' as [H1 H2]. split; [apply sublist_skip; exact H1|simpl; lia].
        -- apply IH in Hc as [H1 H2]. split; [apply sublist_cons; exact H1|exact H2].
      * intros [H1 H2]. apply sublist_cons_r in H1 as [H1|(c' & -> & H1)].
        -- right. apply IH. auto.
        -- left. exists c'. split; [reflexivity|]. apply IH. simpl in H2. split; [auto|lia].
Qed.

Lemma NoDup_combinations {A} (l : list A) :
  NoDup l -> forall r, NoDup (combinations l r).
Proof.
  induction 1 as [|x l Hx Hl IH]; intros r.
  - destruct r; simpl; [apply NoDup_singleton|constructor].
  - destruct r as [|r]; simpl; [apply NoDup_singleton|].
    apply NoDup_app. split; [|split].
    + apply NoDup_fmap_2; [|apply IH]. intros a b [= ->]. reflexivity.
    + intros c Hc Hc'. apply list_elem_of_fmap in Hc as (c' & -> & _).
      apply elem_of_combinations in Hc' as [Hs _].
      apply Hx. eapply elem_of_sublist; [|exact Hs]. left.
    + apply IH.
Qed.

Lemma NoDup_flat_map {A B} (f : A -> list B) (l : list A) :
  NoDup l -> (forall x, x ∈ l -> NoDup (f x)) ->
  (forall x1 x2 y, x1 ∈ l -> x2 ∈ l -> y ∈ f x1 -> y ∈ f x2 -> x1 = x2) ->
  NoDup (flat_map f l).
Proof.
  induction 1 as [|x l Hx Hl IH]; intros Hf Hd; simpl; [constructor|].
  apply NoDup_app. split; [|split].
  - apply Hf. left.
  - intros y Hy Hy'. apply list_elem_of_In, in_flat_map in Hy' as (x' & Hx' & Hy').
    apply list_elem_of_In in Hx', Hy'.
    apply Hx. rewrite (Hd x x' y); auto; [left|right; exact Hx'].
  - apply IH.
    + intros x' Hx'. apply Hf. right. exact Hx'.
    + intros x1 x2 y H1 H2. apply Hd; right; assumption.
Qed.

(** X12.  [_init_y] keys one target per non-empty set of at most [max_int]
    output columns, each set once, and leaves in [max_int] the bound it
    used: the argument of the constructor cut down to the number of
    columns of [y]. *)
Theorem init_y_keys y s s' yd :
  _init_y y s = (s', Val yd) ->
  exists mi,
    max_int s' = Some mi /\ mi <= Z.of_nat (shape1 y) /\
    (max_int s = None -> mi = Z.of_nat (shape1 y)) /\
    (forall v, max_int s = Some v -> mi = Z.min v (Z.of_nat (shape1 y))) /\
    NoDup yd.1.*1 /\
    forall key, key ∈ yd.1.*1 <->
      key <> [] /\ sublist key (seq 0 (shape1 y)) /\ Z.of_nat (length key) <= mi.
Proof.
  intros H. apply init_y_inv in H as (levels & mi & _ & _ & Hmi & -> & Hkeys).
  exists mi. split; [reflexivity|].
  split; [|split; [|split; [|split]]].
  - subst mi. destruct (max_int s) as [v|]; [|lia].
    destruct (Z.of_nat (shape1 y) <? v) eqn:E; [lia|apply Z.ltb_ge in E; lia].
  - intros E. rewrite E in Hmi. exact Hmi.
  - intros v E. rewrite E in Hmi. subst mi.
    destruct (Z.of_nat (shape1 y) <? v) eqn:E'; [apply Z.ltb_lt in E'|apply Z.ltb_ge in E']; lia.
  - rewrite Hkeys. apply NoDup_flat_map.
    + apply NoDup_seq.
    + intros r _. apply NoDup_combinations, NoDup_seq.
    + intros r1 r2 c _ _ H1 H2.
      apply elem_of_combinations in H1 as [_ <-], H2 as [_ <-]. reflexivity.
  - intros key. rewrite Hkeys. split.
    + intros H. apply list_elem_of_In, in_flat_map in H as (r & Hr & H).
      apply list_elem_of_In, elem_of_combinations in H as [Hs Hlen].
      apply in_seq in Hr. split; [|split; [exact Hs|lia]].
      intros ->. simpl in Hlen. lia.
    + intros (Hne & Hs & Hlen).
      apply list_elem_of_In, in_flat_map. exists (length key). split.
      * apply in_seq. destruct key; [contradiction|]. simpl in *. lia.
      * apply list_elem_of_In, elem_of_combinations. auto.
Qed.

(** * Properties of [AFIGS]: what [fit] leaves in the estimator *)

Lemma same_setup_refl s : same_setup s s.
Proof. unfold same_setup. tauto. Qed.

Lemma same_setup_trans s1 s2 s3 :
  same_setup s1 s2 -> same_setup s2 s3 -> same_setup s1 s3.
Proof.
  unfold same_setup. intros (?&?&?&?&?&?&?) (?&?&?&?&?&?&?).
  repeat split; congruence.
Qed.

Create HintDb setup.

Ltac setup :=
  repeat first
    [ progress eauto with setup
    | apply (keeps_ret _ same_setup_refl)
    | apply (keeps_lift _ same_setup_refl)
    | apply (keeps_get _ same_setup_refl)
    | apply (keeps_raise _ _ same_setup_refl)
    | apply (keeps_bind _ same_setup_trans); [|intros]
    | apply (keeps_foldM _ same_setup_refl same_setup_trans); intros
    | match goal with
      | |- keeps _ (if ?b then _ else _) => destruct b
      | |- keeps _ (match ?x with _ => _ end) => destruct x
      | |- keeps _ (let _ := _ in _) => cbv zeta
      end ].

Lemma setup_attr {A} (o : option A) : keeps same_setup (attr o).
Proof. unfold attr. setup. Qed.
#[local] Hint Resolve setup_attr : setup.

Lemma setup_node r : keeps same_setup (node r).
Proof. intros s. unfold node. destruct (heap s !! r); apply same_setup_refl. Qed.
#[local] Hint Resolve setup_node : setup.

Lemma setup_new_node nd : keeps same_setup (new_node nd).
Proof. intros s. unfold same_setup. simpl. tauto. Qed.
#[local] Hint Resolve setup_new_node : setup.

Lemma setup_set_heap h : keeps same_setup (modify (set_heap h)).
Proof. intros s. unfold same_setup. simpl. tauto. Qed.
#[local] Hint Resolve setup_set_heap : setup.

Lemma setup_set_complexity_ c : keeps same_setup (modify (set_complexity_ c)).
Proof. intros s. unfold same_setup. simpl. tauto. Qed.
#[local] Hint Resolve setup_set_complexity_ : setup.

Lemma setup_setattrs r f : keeps same_setup (setattrs r f).
Proof. unfold setattrs. setup. Qed.
#[local] Hint Resolve setup_setattrs : setup.

Lemma setup_flatten_y t dims : keeps same_setup (_flatten_y t dims).
Proof. unfold _flatten_y. setup. Qed.
#[local] Hint Resolve setup_flatten_y : setup.

Lemma setup_compute_node_value y idxs : keeps same_setup (_compute_node_value y idxs).
Proof. unfold _compute_node_value. setup. Qed.
#[local] Hint Resolve setup_compute_node_value : setup.

Lemma setup_sorted nodes : keeps same_setup (sorted nodes).
Proof. unfold sorted. setup. Qed.
#[local] Hint Resolve setup_sorted : setup.

(** Lines 226-229: the slot of the tree is assigned, the list keeps its
    length. *)
Lemma setup_start_tree (nd : Node) (split_node : ref) :
  keeps same_setup
    (s ← get;
     trees ← attr (trees_ s);
     trees' ← lift (np_set trees (Z.of_nat (tree_num nd)) (Some split_node));
     modify (set_trees_ trees')).
Proof.
  intros s. unfold attr, np_set. run.
  destruct (trees_ s) as [trees|] eqn:Et; simpl; [|apply same_setup_refl].
  destruct (np_index _ _); simpl; try apply same_setup_refl.
  unfold same_setup. simpl. rewrite Et. simpl. rewrite length_insert. tauto.
Qed.
#[local] Hint Resolve setup_start_tree : setup.

Section Setup.
Variable stump_fit : matrix -> matrix -> option (list Q) -> result stump_tree.
Variable recursion_limit : nat.

Lemma setup_construct X y y_all idxs tree_num sample_weight :
  keeps same_setup
    (_construct_node_with_stump stump_fit X y y_all idxs tree_num sample_weight).
Proof. unfold _construct_node_with_stump. setup. Qed.
Hint Resolve setup_construct : setup.

Lemma setup_update_predictions X preds :
  keeps same_setup (update_predictions recursion_limit X preds).
Proof. unfold update_predictions. setup. Qed.
Hint Resolve setup_update_predictions : setup.

Lemma setup_refit X y sw keys resid acc ps :
  keeps same_setup (refit stump_fit X y sw keys resid acc ps).
Proof. unfold refit. setup. Qed.
Hint Resolve setup_refit : setup.

Lemma setup_refresh X y sw keys y_onehot rest split_node loc :
  keeps same_setup
    (refresh stump_fit recursion_limit X y sw keys y_onehot rest split_node loc).
Proof. unfold refresh. setup. Qed.
Hint Resolve setup_refresh : setup.

Lemma setup_commit X y sw keys y_onehot rest split_node loc :
  keeps same_setup
    (commit stump_fit recursion_limit X y sw keys y_onehot rest split_node loc).
Proof. unfold commit. setup. Qed.
Hint Resolve setup_commit : setup.

Lemma setup_grow_step X y sw keys y_onehot rest split_node loc :
  keeps same_setup
    (grow_step stump_fit recursion_limit X y sw keys y_onehot rest split_node loc).
Proof. unfold grow_step. setup. Qed.
Hint Resolve setup_grow_step : setup.

Lemma setup_grow fuel X y sw keys y_onehot loc :
  keeps same_setup (grow stump_fit recursion_limit fuel X y sw keys y_onehot loc).
Proof. revert loc. induction fuel as [|fuel IH]; intros loc; simpl; setup. Qed.

Lemma setup_initial_splits X y sw y_dict :
  keeps same_setup (initial_splits stump_fit X y sw y_dict).
Proof. unfold initial_splits. setup. Qed.

(** The attributes of the estimator once [_init_y] has gone through,
    in whatever way [fit] ends after that. *)
Lemma fit_setup fuel X y sw s s0 yd :
  _init_y y (set_complexity_ 0 s) = (s0, Val yd) ->
  same_setup (set_trees_ (replicate (length yd.1) None) s0)
    (fit stump_fit recursion_limit fuel X y sw s).1.
Proof.
  intros Hi. unfold fit, fit_locals. run. rewrite Hi. simpl.
  pose proof (setup_initial_splits X y sw yd.1
                (set_trees_ (replicate (length yd.1) None) s0)) as H1.
  destruct (initial_splits _ _ _ _ _ _) as [s2 [pool| |]]; simpl in *; auto.
  pose proof (setup_grow fuel X y sw (map fst yd.1) yd.2
                (Locals (map Some pool) ∅ ∅) s2) as H2.
  destruct (grow _ _ _ _ _ _ _ _ _ _) as [s3 [loc| |]]; simpl in *;
    eapply same_setup_trans; eauto.
Qed.

Lemma fit_Val_init fuel X y sw s s' :
  fit stump_fit recursion_limit fuel X y sw s = (s', Val tt) ->
  exists s0 yd, _init_y y (set_complexity_ 0 s) = (s0, Val yd).
Proof.
  unfold fit, fit_locals. run.
  destruct (_init_y y (set_complexity_ 0 s)) as [s0 [yd| |]]; try discriminate.
  eauto.
Qed.

(** X13.  What a [fit] that returns leaves in the estimator: the row count
    and the level counts of [y]; the interaction order, which is the
    number of columns of [y] when [max_int] was unset or larger than
    that, and [max_int] as it was otherwise; one tree slot per subset of
    at most that many columns; the rule bound, the impurity bound and
    the task are the ones it found. *)
Theorem fit_records_the_target fuel X y sw s s' :
  fit stump_fit recursion_limit fuel X y sw s = (s', Val tt) ->
  n s' = Some (shape0 y) /\
  y_levels s' = (match column_levels y with Val levels => Some levels | _ => None end) /\
  (exists levels, column_levels y = Val levels /\ length levels = shape1 y) /\
  (exists mi trees,
     mi = match max_int s with
          | None => Z.of_nat (shape1 y)
          | Some v => if Z.of_nat (shape1 y) <? v then Z.of_nat (shape1 y) else v
          end /\
     max_int s' = Some mi /\ trees_ s' = Some trees /\
     length trees
     = length (flat_map (fun r => combinations (seq 0 (shape1 y)) r)
                 (seq 1 (Z.to_nat mi)))) /\
  max_rules s' = max_rules s /\
  min_impurity_decrease s' = min_impurity_decrease s /\
  prediction_task s' = prediction_task s.
Proof.
  intros Hfit. destruct (fit_Val_init _ _ _ _ _ _ Hfit) as (s0 & yd & Hi).
  pose proof (fit_setup fuel X y sw s s0 yd Hi) as Hs. rewrite Hfit in Hs. simpl in Hs.
  apply init_y_inv in Hi as (levels & mi & Hl & _ & Hmi & -> & Hkeys).
  destruct Hs as (H1 & H2 & H3 & H4 & H5 & H6 & H7). simpl in *.
  rewrite Hl. repeat split; auto.
  - exists levels. split; [reflexivity|].
    unfold column_levels in Hl. destruct (rows y); [discriminate|].
    injection Hl as <-. rewrite length_map, length_seq. reflexivity.
  - destruct (trees_ s') as [trees|]; [|discriminate].
    exists mi, trees. split; [exact Hmi|]. repeat split; auto.
    simpl in H7. injection H7 as ->. rewrite length_replicate, <- Hkeys.
    rewrite length_fmap. reflexivity.
Qed.

End Setup.

(** * Properties of [AFIGS]: the prediction methods *)

Lemma unravel_length levels : forall pos, length (unravel levels pos) = length levels.
Proof. induction levels as [|l levels IH]; intros pos; simpl; auto. Qed.

Lemma best_class_length levels row c :
  best_class levels row = Val c -> length c = length levels.
Proof.
  unfold best_class. destruct levels as [|l levels]; [discriminate|].
  destruct row as [|q row]; [discriminate|]. intros H. injection H as <-.
  apply (unravel_length (l :: levels)).
Qed.

Lemma iadd_Fuel a b : iadd a b <> Fuel.
Proof. apply np_inplace_Fuel. Qed.

Section PredictMore.
Variable recursion_limit : nat.

Lemma predict_tree_single_point_Fuel depth h : forall root x,
  _predict_tree_single_point depth h root x <> Fuel.
Proof.
  induction depth as [|depth IH]; intros root x; simpl; [discriminate|].
  destruct (h !! root) as [nd|]; [|discriminate].
  assert (forall o : option ref,
            match o with
            | Some l => _predict_tree_single_point depth h l x
            | None => Val (value nd)
            end <> Fuel) as Hc.
  { intros [l|]; [apply IH|discriminate]. }
  assert ((f ← match feature nd with Some f => Val f | None => Exn TypeError end;
           xf ← np_get x f;
           t ← match threshold nd with Some t => Val t | None => Exn TypeError end;
           if Qle_bool xf t
           then match left nd with
                | Some l => _predict_tree_single_point depth h l x
                | None => Val (value nd)
                end
           else match right nd with
                | Some r => _predict_tree_single_point depth h r x
                | None => Val (value nd)
                end) <> Fuel) as Hd.
  { run. destruct (feature nd); [|discriminate]. simpl.
    destruct (np_get x z) eqn:E; simpl; try discriminate.
    - destruct (threshold nd); [|discriminate]. simpl.
      destruct (Qle_bool a q); apply Hc.
    - intros _. exact (np_get_Fuel _ _ E). }
  destruct (left nd), (right nd); try exact Hd. discriminate.
Qed.

Lemma predict_tree_cases s root X :
  match _predict_tree recursion_limit s root X with
  | Val p => length p = shape0 X
  | Exn _ => True
  | Fuel => False
  end.
Proof.
  unfold _predict_tree. run.
  destruct (y_levels s) as [levels|]; simpl; [|exact I].
  destruct (np_zeros_rows (shape0 X) levels) as [z| |] eqn:Ez; simpl; auto.
  2:{ exact (np_zeros_rows_Fuel _ _ Ez). }
  destruct (forM (rows X) _) as [p| |] eqn:Ep; auto.
  - apply forM_length in Ep. exact Ep.
  - refine (forM_Fuel _ _ _ Ep). intros x. run.
    destruct (_predict_tree_single_point _ _ _ _) eqn:E; simpl; try discriminate.
    + apply np_assign_Fuel.
    + intros _. exact (predict_tree_single_point_Fuel _ _ _ _ E).
Qed.

Lemma sum_loop_raises s X m trees root :
  Some root ∈ trees -> shape0 X <> m -> shape0 X <> 1%nat ->
  forall preds, length preds = m ->
  exists e,
    foldR (fun preds tree =>
             match tree with
             | None => Val preds
             | Some root => p ← _predict_tree recursion_limit s root X; iadd preds p
             end) trees preds = Exn e.
Proof.
  intros Hin Hm H1. induction trees as [|tr trees IH]; intros preds Hlen.
  - inversion Hin.
  - simpl. run. destruct tr as [r|].
    + pose proof (predict_tree_cases s r X) as Hp.
      destruct (_predict_tree recursion_limit s r X) as [p| |]; simpl; eauto; [|contradiction].
      unfold iadd, np_inplace.
      destruct (length p =? length preds)%nat eqn:E.
      { apply Nat.eqb_eq in E. congruence. }
      destruct p as [|row [|? ?]]; simpl in *; eauto. congruence.
    + simpl. apply IH; auto.
      apply elem_of_cons in Hin as [Hin|Hin]; [discriminate|exact Hin].
Qed.

Lemma sum_of_trees_raises s X m trees root :
  n s = Some m -> trees_ s = Some trees -> Some root ∈ trees ->
  shape0 X <> m -> shape0 X <> 1%nat ->
  exists e, sum_of_trees recursion_limit s X = Exn e.
Proof.
  intros Hn Ht Hin Hm H1. unfold sum_of_trees. rewrite Hn, Ht. run.
  destruct (y_levels s) as [levels|]; simpl; eauto.
  destruct (np_zeros_rows m levels) as [z| |] eqn:Ez; simpl; eauto.
  - apply np_zeros_rows_length in Ez.
    exact (sum_loop_raises s X m trees root Hin Hm H1 z Ez).
  - destruct (np_zeros_rows_Fuel _ _ Ez).
Qed.

(** X14.  Once a tree has been started, the prediction methods accept only
    an [X] with as many rows as the training set, or with a single
    row: with any other row count [predict] raises, and so does
    [predict_proba] unless the task is regression. *)
Theorem predict_rejects_other_row_counts s X m trees root :
  n s = Some m -> trees_ s = Some trees -> Some root ∈ trees ->
  shape0 X <> m -> shape0 X <> 1%nat ->
  (exists e, predict recursion_limit s X = Exn e) /\
  (prediction_task s <> "regression" ->
   exists e, predict_proba recursion_limit s X = Exn e).
Proof.
  intros Hn Ht Hin Hm H1.
  assert (forall X', check_array X = Val X' -> X' = X) as Hc.
  { unfold check_array. destruct (_ || _); [discriminate|]. congruence. }
  assert (check_array X <> Fuel) as Hf.
  { unfold check_array. destruct (_ || _); discriminate. }
  unfold predict, predict_proba. run.
  destruct (check_array X) as [X'| |] eqn:Ec; simpl; eauto; [|contradiction].
  rewrite (Hc X' eq_refl).
  destruct (sum_of_trees_raises s X m trees root Hn Ht Hin Hm H1) as [e He].
  rewrite He. simpl. split; [eauto|].
  intros Hr. apply String.eqb_neq in Hr. unfold str_eq. rewrite Hr. eauto.
Qed.

(** X15.  An estimator that was never fitted has no row count: both
    prediction methods raise [TypeError] on every [X] that passes the
    input check. *)
Theorem predict_before_fit_raises max_int max_rules min_impurity_decrease X X' :
  check_array X = Val X' ->
  predict recursion_limit (__init__ max_int max_rules min_impurity_decrease) X
  = Exn TypeError /\
  predict_proba recursion_limit (__init__ max_int max_rules min_impurity_decrease) X
  = Exn TypeError.
Proof.
  intros Hc. unfold predict, predict_proba, sum_of_trees. rewrite Hc. split; reflexivity.
Qed.

(** X16.  The classes [predict] returns are read off the array
    [predict_proba] returns: row by row, the coordinates of its first
    largest cell. *)
Theorem predict_reads_predict_proba s X preds :
  prediction_task s = "classification" ->
  predict_proba recursion_limit s X = Val (Proba preds) ->
  exists levels,
    y_levels s = Some levels /\
    predict recursion_limit s X
    = (class_preds ← forM preds (best_class levels); Val (Classes class_preds)).
Proof.
  intros Ht. unfold predict, predict_proba. rewrite Ht. run.
  destruct (check_array X) as [X'| |]; try discriminate. simpl.
  destruct (sum_of_trees recursion_limit s X') as [p| |] eqn:Es; try discriminate. simpl.
  intros [= ->].
  unfold sum_of_trees in Es. run.
  destruct (n s); [|discriminate].
  destruct (y_levels s) as [levels|]; [|discriminate].
  exists levels. split; reflexivity.
Qed.

Variable stump_fit : matrix -> matrix -> option (list Q) -> result stump_tree.

(** X17.  After a [fit] that returned, with the classification task, what
    [predict] returns is an array of classes of the shape of the [y]
    it was fitted on: one row per training row, one class per output
    column. *)
Theorem predict_has_the_shape_of_y fuel X y sw s s' X' v :
  prediction_task s = "classification" ->
  fit stump_fit recursion_limit fuel X y sw s = (s', Val tt) ->
  predict recursion_limit s' X' = Val v ->
  exists class_preds,
    v = Classes class_preds /\ length class_preds = shape0 y /\
    Forall (fun row => length row = shape1 y) class_preds.
Proof.
  intros Ht Hfit Hp.
  destruct (fit_Val_init _ _ _ _ _ _ _ _ Hfit) as (s0 & yd & Hi).
  pose proof (fit_setup stump_fit recursion_limit fuel X y sw s s0 yd Hi) as Hs.
  rewrite Hfit in Hs. simpl in Hs.
  apply init_y_inv in Hi as (levels & mi & Hl & _ & _ & -> & _).
  destruct Hs as (_ & _ & _ & Htask & Hlev & Hn & _). simpl in *.
  unfold predict in Hp. rewrite Htask, Ht, Hlev in Hp. run.
  destruct (check_array X') as [X''| |]; try discriminate. simpl in Hp.
  destruct (sum_of_trees recursion_limit s' X'') as [p| |] eqn:Es; try discriminate.
  simpl in Hp.
  destruct (forM p (best_class levels)) as [cp| |] eqn:Ec; try discriminate.
  simpl in Hp. injection Hp as <-. exists cp. split; [reflexivity|].
  apply sum_of_trees_length in Es as (m & Hm & Hlen).
  split.
  - apply forM_length in Ec. congruence.
  - apply forM_Forall2 in Ec.
    assert (length levels = shape1 y) as Hk.
    { unfold column_levels in Hl. destruct (rows y); [discriminate|].
      injection Hl as <-. rewrite length_map, length_seq. reflexivity. }
    clear -Ec Hk. induction Ec as [|row c p cp Hc _ IH]; constructor; auto.
    apply best_class_length in Hc. congruence.
Qed.

End PredictMore.

(** * Properties of [AFIGS]: the pool of candidates *)

Lemma pop_Some {A} (l rest : list A) x : pop l = Some (rest, x) -> l = rest ++ [x].
Proof.
  unfold pop. destruct (reverse l) as [|y r] eqn:E; [discriminate|].
  intros [= <- <-]. rewrite <- (reverse_involutive l), E, reverse_cons. reflexivity.
Qed.

Lemma insert_sorted_perm x l : insert_sorted x l ≡ₚ x :: l.
Proof.
  induction l as [|y l IH]; simpl; [reflexivity|].
  destruct (Qlt_bool x.1 y.1); [reflexivity|].
  rewrite IH. apply Permutation_swap.
Qed.

Lemma Qlt_bool_true a b : Qlt_bool a b = true -> (a < b)%Q.
Proof.
  unfold Qlt_bool. intros H. apply negb_true_iff in H.
  apply Qnot_le_lt. intros Hle. apply Qle_bool_iff in Hle. congruence.
Qed.

Lemma Qlt_bool_false a b : Qlt_bool a b = false -> (b <= a)%Q.
Proof.
  unfold Qlt_bool. intros H. apply negb_false_iff in H. apply Qle_bool_iff. exact H.
Qed.

Lemma insert_sorted_ascending x l : ascending l -> ascending (insert_sorted x l).
Proof.
  induction l as [|y l IH]; simpl; [intros _; split; [constructor|exact I]|].
  intros [Hy Hl]. destruct (Qlt_bool x.1 y.1) eqn:E; simpl.
  - apply Qlt_bool_true in E. split; [|split; assumption].
    constructor; [apply Qlt_le_weak; exact E|].
    eapply Forall_impl; [exact Hy|]. intros z Hz. simpl in Hz.
    eapply Qle_trans; [apply Qlt_le_weak; exact E|exact Hz].
  - apply Qlt_bool_false in E. split; [|apply IH; exact Hl].
    rewrite insert_sorted_perm. constructor; assumption.
Qed.

Lemma fold_insert_sorted (floats : list (Q * ref)) : forall acc,
  ascending acc ->
  ascending (fold_left (fun acc x => insert_sorted x acc) floats acc) /\
  fold_left (fun acc x => insert_sorted x acc) floats acc ≡ₚ floats ++ acc.
Proof.
  induction floats as [|x floats IH]; intros acc Hacc; simpl.
  - split; [exact Hacc|reflexivity].
  - destruct (IH (insert_sorted x acc) (insert_sorted_ascending x acc Hacc)) as [H1 H2].
    split; [exact H1|]. rewrite H2, insert_sorted_perm.
    rewrite Permutation_middle. reflexivity.
Qed.

Lemma ascending_last l x : ascending (l ++ [x]) -> Forall (fun y => (y.1 <= x.1)%Q) l.
Proof.
  induction l as [|y l IH]; simpl; [constructor|].
  intros [Hy Hl]. constructor; [|apply IH; exact Hl].
  apply Forall_app in Hy as [_ Hy]. apply Forall_inv in Hy. exact Hy.
Qed.

Lemma sorted_keyed (nodes : list ref) s : forall acc,
  match foldM (fun acc r => nd ← node r; mret (acc ++ [(impurity_reduction nd, r)]))
          nodes acc s with
  | (s', Val keyed) =>
      s' = s /\ keyed = acc ++ map (fun r => (reduction s r, r)) nodes /\
      Forall (fun r => is_Some (heap s !! r)) nodes
  | (s', _) => s' = s
  end.
Proof.
  induction nodes as [|r nodes IH]; intros acc; simpl.
  - rewrite app_nil_r. auto.
  - assert (node r s = match heap s !! r with
                       | Some nd => (s, Val nd)
                       | None => (s, Exn SystemError)
                       end) as Hn by reflexivity.
    run. rewrite Hn. destruct (heap s !! r) as [nd|] eqn:Hr; simpl; [|exact eq_refl].
    specialize (IH (acc ++ [(impurity_reduction nd, r)])).
    destruct (foldM _ nodes _ s) as [s' [keyed| |]]; auto.
    destruct IH as (-> & -> & Hall). split; [reflexivity|]. split.
    + assert (reduction s r = impurity_reduction nd) as ->
        by (unfold reduction; rewrite Hr; reflexivity).
      rewrite <- app_assoc. reflexivity.
    + constructor; [eauto|exact Hall].
Qed.

(** X18.  The pool is sorted so that the candidate the loop pops is one of
    largest impurity reduction: [sorted] leaves the estimator as it is
    and returns the nodes it was given, rearranged, and no node left in
    the pool has a larger reduction than the one at its end. *)
Theorem popped_candidate_is_best nodes s s' pool rest r :
  sorted nodes s = (s', Val pool) ->
  pop pool = Some (rest, r) ->
  s' = s /\ pool ≡ₚ nodes /\
  forall r' q q',
    r' ∈ rest -> reduction s r = Some q -> reduction s r' = Some q' -> (q' <= q)%Q.
Proof.
  unfold sorted. intros H Hpop. apply pop_Some in Hpop.
  apply bind_inv in H as (s1 & keyed & Hk & H).
  pose proof (sorted_keyed nodes s []) as Hkeyed. rewrite Hk in Hkeyed.
  destruct Hkeyed as (-> & -> & _). simpl in H.
  destruct (decide (length nodes < 2)%nat) as [Hshort|Hlong].
  { destruct nodes as [|r1 [|r2 nodes]]; simpl in Hshort; try lia.
    - simpl in H. injection H as <- <-. destruct rest; discriminate.
    - simpl in H. injection H as <- <-. destruct rest as [|? [|? ?]]; try discriminate.
      split; [reflexivity|]. split; [reflexivity|]. intros r' q q' Hr'. inversion Hr'. }
  assert ((floats ← lift (forM (map (fun r => (reduction s r, r)) nodes)
                            (fun kr => match kr.1 with
                                       | Some q => Val (q, kr.2)
                                       | None => Exn TypeError
                                       end));
           mret (map snd (fold_left (fun acc x => insert_sorted x acc) floats []))) s
          = (s', Val pool)) as H'.
  { destruct nodes as [|r1 [|r2 nodes]]; simpl in Hlong; try lia. exact H. }
  clear H Hlong.
  apply bind_inv in H' as (s2 & floats & Hf & H).
  assert (s2 = s /\ forM (map (fun r => (reduction s r, r)) nodes)
                            (fun kr => match kr.1 with
                                       | Some q => Val (q, kr.2)
                                       | None => Exn TypeError
                                       end) = Val floats) as [-> Hf'].
  { unfold lift in Hf. split; congruence. }
  clear Hf. injection H as <- <-. split; [reflexivity|].
  apply forM_Forall2 in Hf'.
  assert (Forall2 (fun r f => f.2 = r /\ reduction s r = Some f.1) nodes floats) as Hfl.
  { revert Hf'. clear. revert floats.
    induction nodes as [|a l IH]; intros floats Hf; inversion Hf; subst; constructor.
    - simpl in *. destruct (reduction s a); [|discriminate].
      match goal with H : Val _ = Val _ |- _ => injection H as <- end. auto.
    - apply IH. assumption. }
    destruct (fold_insert_sorted floats [] I) as [Hasc Hperm].
    rewrite app_nil_r in Hperm.
    set (srt := fold_left (fun acc x => insert_sorted x acc) floats []) in *.
    split.
    + rewrite Hperm. clear -Hfl. induction Hfl as [|a f l fl [Ha _] _ IH]; simpl.
      * reflexivity.
      * rewrite Ha, IH. reflexivity.
    + intros r' q q' Hr' Hq Hq'.
      assert (Forall (fun f => reduction s f.2 = Some f.1) srt) as Hred.
      { rewrite Hperm. clear -Hfl. induction Hfl as [|a f l fl [Ha Hb] _ IH]; constructor; auto.
        rewrite Ha. exact Hb. }
      destruct (srt) as [|x srt'] eqn:Es using rev_ind.
      { destruct rest; discriminate. }
      clear IHsrt'. rewrite map_app in Hpop. simpl in Hpop.
      apply app_inj_tail in Hpop as [Hrest Hr].
      apply ascending_last in Hasc.
      apply Forall_app in Hred as [Hred' Hx]. apply Forall_inv in Hx.
      rewrite Hr, Hq in Hx. injection Hx as Hx.
      rewrite <- Hrest in Hr'. apply list_elem_of_fmap in Hr' as (f & -> & Hfin).
      rewrite Forall_forall in Hasc, Hred'.
      specialize (Hasc f Hfin). specialize (Hred' f Hfin).
      rewrite Hq' in Hred'. injection Hred' as Hred'. rewrite Hx, Hred'. exact Hasc.
Qed.

(** * Properties of [AFIGS]: node values *)

Lemma count_sum_cons vc l : count_sum (vc :: l) = vc.2 + count_sum l.
Proof. reflexivity. Qed.

Lemma count_insert_sum r l :
  Forall (fun vc => 1 <= vc.2) l ->
  Forall (fun vc => 1 <= vc.2) (count_insert r l) /\
  count_sum (count_insert r l) = count_sum l + 1.
Proof.
  induction l as [|[r' c] l IH]; simpl; intros Hl.
  - split; [repeat constructor; simpl; lia|reflexivity].
  - apply Forall_cons in Hl as [Hc Hl]. simpl in Hc.
    destruct (row_compare r r'); simpl.
    + split; [constructor; [simpl; lia|exact Hl]|].
      rewrite !count_sum_cons. simpl. lia.
    + split; [repeat constructor; simpl; auto; lia|].
      rewrite !count_sum_cons. simpl. lia.
    + destruct (IH Hl) as [H1 H2]. split; [constructor; auto|].
      rewrite !count_sum_cons, H2. simpl. lia.
Qed.

Lemma np_unique_counts_sum a :
  Forall (fun vc => 1 <= vc.2) (np_unique_counts a) /\
  count_sum (np_unique_counts a) = Z.of_nat (length a).
Proof.
  unfold np_unique_counts.
  assert (forall acc,
            Forall (fun vc : list Q * Z => 1 <= vc.2) acc ->
            Forall (fun vc => 1 <= vc.2) (fold_left (fun acc r => count_insert r acc) a acc) /\
            count_sum (fold_left (fun acc r => count_insert r acc) a acc)
            = count_sum acc + Z.of_nat (length a)) as H.
  { induction a as [|r a IH]; intros acc Hacc; simpl.
    - split; [exact Hacc|lia].
    - destruct (count_insert_sum r acc Hacc) as [H1 H2].
      destruct (IH _ H1) as [H3 H4]. split; [exact H3|]. rewrite H4, H2. lia. }
  destruct (H [] ltac:(constructor)) as [H1 H2]. split; [exact H1|exact H2].
Qed.

Lemma count_le_sum (l : list (list Q * Z)) :
  Forall (fun vc => 1 <= vc.2) l -> Forall (fun vc => vc.2 <= count_sum l) l.
Proof.
  induction 1 as [|vc l Hc Hl IH]; [constructor|].
  assert (0 <= count_sum l) as Hpos.
  { clear -Hl. induction Hl as [|? ? ? ? IH]; [reflexivity|].
    rewrite count_sum_cons. lia. }
  constructor.
  - rewrite count_sum_cons. lia.
  - eapply Forall_impl; [exact IH|]. intros x Hx. rewrite count_sum_cons.
    simpl in *. lia.
Qed.

Lemma select_length {A} (l : list A) : forall idxs,
  length l = length idxs -> Z.of_nat (length (select l idxs)) = mask_sum idxs.
Proof.
  unfold mask_sum. induction l as [|a l IH]; intros [|b idxs] Hlen; simpl in *;
    try discriminate; auto.
  injection Hlen as Hlen. specialize (IH idxs Hlen).
  destruct b; simpl.
  - lia.
  - rewrite filter_cons_False by discriminate. exact IH.
Qed.

Lemma share_in_unit_interval c total :
  1 <= c <= total -> (0 <= inject_Z c / inject_Z total <= 1)%Q.
Proof.
  intros [H1 H2].
  assert (0 < inject_Z total)%Q as Ht.
  { change 0%Q with (inject_Z 0). rewrite <- Zlt_Qlt. lia. }
  split.
  - apply Qle_shift_div_l; [exact Ht|]. rewrite Qmult_0_l.
    change 0%Q with (inject_Z 0). rewrite <- Zle_Qle. lia.
  - apply Qle_shift_div_r; [exact Ht|]. rewrite Qmult_1_l.
    rewrite <- Zle_Qle. exact H2.
Qed.

Lemma share_of_last levels total k (done : list (list Q * Z)) vc k0 (cur : list Q) :
  ravel levels (map Qtrunc vc.1) 0 = Val k0 ->
  cur !! k = Some (match last (filter (fun vc => lands levels k vc = true) done) with
                   | Some vc => (inject_Z vc.2 / inject_Z total)%Q
                   | None => 0%Q
                   end) ->
  <[k0:=(inject_Z vc.2 / inject_Z total)%Q]> cur !! k
  = Some (match last (filter (fun vc => lands levels k vc = true) (done ++ [vc])) with
          | Some vc => (inject_Z vc.2 / inject_Z total)%Q
          | None => 0%Q
          end).
Proof.
  intros Hk0 Hcur.
  assert (lands levels k vc = (k0 =? k)%nat) as Hl
    by (unfold lands; rewrite Hk0; reflexivity).
  rewrite filter_app, filter_cons, filter_nil, Hl.
  destruct (decide ((k0 =? k)%nat = true)) as [E|E].
  - rewrite last_snoc. apply Nat.eqb_eq in E. subst k0.
    apply list_lookup_insert_eq. eapply lookup_lt_Some; eauto.
  - rewrite app_nil_r. rewrite list_lookup_insert_ne; [exact Hcur|].
    intros ->. apply E. apply Nat.eqb_refl.
Qed.

(** X20.  The value of a node is an array of the shape [y_levels] that
    holds, for the rows the mask selects, the share of each distinct
    row: the cell a distinct row lands on is its count divided by
    [idxs.sum()] (the last of the rows landing on a cell decides), and
    every other cell is 0.  The counts add up to [idxs.sum()], so each
    cell lies between 0 and 1; all cells are 0 when the mask selects no
    row.  Computing the value changes nothing in the estimator. *)
Theorem node_value_holds_shares y_all idxs s s' value :
  _compute_node_value y_all idxs s = (s', Val value) ->
  s' = s /\
  exists levels sel,
    y_levels s = Some levels /\ np_mask (rows y_all) idxs = Val sel /\
    Z.of_nat (length sel) = mask_sum idxs /\
    count_sum (np_unique_counts sel) = mask_sum idxs /\
    arr_shape value = levels /\ length (arr_cells value) = cells levels /\
    (forall k, (k < cells levels)%nat ->
       arr_cells value !! k
       = Some (match last (filter (fun vc => lands levels k vc = true)
                             (np_unique_counts sel)) with
               | Some vc => (inject_Z vc.2 / inject_Z (mask_sum idxs))%Q
               | None => 0%Q
               end)) /\
    Forall (fun q => 0 <= q <= 1)%Q (arr_cells value) /\
    (mask_sum idxs = 0 -> arr_cells value = replicate (cells levels) 0%Q).
Proof.
  unfold _compute_node_value, attr, np_mask. run.
  destruct (length (rows y_all) =? length idxs)%nat eqn:El; [|discriminate]. simpl.
  apply Nat.eqb_eq in El.
  destruct (y_levels s) as [levels|]; [|discriminate]. simpl.
  destruct (np_zeros levels) as [zero| |] eqn:Ez; try discriminate. simpl.
  apply np_zeros_Val in Ez. subst zero.
  pose proof (select_length (rows y_all) idxs El) as Hsel.
  destruct (np_unique_counts_sum (select (rows y_all) idxs)) as [H1 Hsum].
  pose proof (count_le_sum _ H1) as Hle. rewrite Hsum, Hsel in Hle.
  rewrite Hsel in Hsum.
  assert (mask_sum idxs = 0 -> np_unique_counts (select (rows y_all) idxs) = []) as Hempty.
  { intros H0. rewrite H0 in Hsel.
    destruct (select (rows y_all) idxs); [reflexivity|simpl in Hsel; lia]. }
  remember (np_unique_counts (select (rows y_all) idxs)) as uniq eqn:Hu0.
  intros H.
  assert (forall rest done cur cells',
            uniq = done ++ rest ->
            length cur = cells levels -> Forall (fun q => 0 <= q <= 1)%Q cur ->
            (forall k, (k < cells levels)%nat ->
               cur !! k
               = Some (match last (filter (fun vc => lands levels k vc = true) done) with
                       | Some vc => (inject_Z vc.2 / inject_Z (mask_sum idxs))%Q
                       | None => 0%Q
                       end)) ->
            foldM (fun value vc =>
                     k ← lift (ravel levels (map Qtrunc (fst vc)) 0);
                     mret (<[k:=(inject_Z (snd vc) / inject_Z (mask_sum idxs))%Q]> value))
                  rest cur s = (s', Val cells') ->
            s' = s /\ length cells' = cells levels /\
            Forall (fun q => 0 <= q <= 1)%Q cells' /\
            forall k, (k < cells levels)%nat ->
              cells' !! k
              = Some (match last (filter (fun vc => lands levels k vc = true) uniq) with
                      | Some vc => (inject_Z vc.2 / inject_Z (mask_sum idxs))%Q
                      | None => 0%Q
                      end)) as Hloop.
  { clear H Hempty Hsum.
    induction rest as [|vc rest IH]; intros done cur cells' Hu Hlen Hz Hcur; simpl.
    - intros [= <- <-]. rewrite app_nil_r in Hu. subst done. auto.
    - run. destruct (ravel levels (map Qtrunc vc.1) 0) as [k0| |] eqn:Ek; try discriminate.
      simpl. apply (IH (done ++ [vc])).
      + rewrite <- app_assoc. exact Hu.
      + rewrite length_insert. exact Hlen.
      + apply Forall_insert; [exact Hz|]. apply share_in_unit_interval.
        rewrite Forall_forall in H1, Hle.
        assert (vc ∈ uniq) as Hin by (rewrite Hu; apply elem_of_app; right; left).
        specialize (H1 vc Hin). specialize (Hle vc Hin). simpl in *. lia.
      + intros k Hk. apply share_of_last; [exact Ek|]. apply Hcur. exact Hk. }
  destruct (foldM _ uniq (replicate (cells levels) 0%Q) s) as [s1 [cells'| |]] eqn:Ef;
    try discriminate.
  simpl in H. injection H as <- <-.
  destruct (Hloop uniq [] (replicate (cells levels) 0%Q) cells' eq_refl)
    as (-> & Hlen & Hall & Hcells); auto.
  { apply length_replicate. }
  { apply Forall_replicate. split; discriminate. }
  { intros k Hk. simpl. apply lookup_replicate_2. exact Hk. }
  split; [reflexivity|]. exists levels, (select (rows y_all) idxs). simpl.
  rewrite <- Hu0.
  split; [reflexivity|]. split; [reflexivity|]. split; [exact Hsel|].
  split; [exact Hsum|]. split; [reflexivity|]. split; [exact Hlen|].
  split; [exact Hcells|]. split; [exact Hall|].
  intros H0. rewrite (Hempty H0) in Ef. simpl in Ef.
  unfold mret, M_ret in Ef. injection Ef as <-. reflexivity.
Qed.

(** * Properties of [AFIGS]: [fit] ends *)

Lemma ends_ret {St A} (a : A) : ends (mret a : M St A).
Proof. intros s. discriminate. Qed.

Lemma ends_get {St} : ends (get : M St St).
Proof. intros s. discriminate. Qed.

Lemma ends_raise {St A} e : ends (raise e : M St A).
Proof. intros s. discriminate. Qed.

Lemma ends_modify {St} (f : St -> St) : ends (modify f).
Proof. intros s. discriminate. Qed.

Lemma ends_lift {St A} (r : result A) : r <> Fuel -> ends (lift r : M St A).
Proof. intros H s. exact H. Qed.

Lemma ends_bind {St A B} (c : M St A) (k : A -> M St B) :
  ends c -> (forall a, ends (k a)) -> ends (c ≫= k).
Proof.
  intros Hc Hk s. unfold mbind, M_bind. specialize (Hc s).
  destruct (c s) as [s' [a|e|]]; simpl in *; [apply Hk|discriminate|destruct Hc; reflexivity].
Qed.

Lemma ends_foldM {St A B} (f : B -> A -> M St B) (l : list A) :
  (forall b x, ends (f b x)) -> forall b, ends (foldM f l b).
Proof.
  intros Hf. induction l as [|x l IH]; intros b; simpl.
  - apply ends_ret.
  - apply ends_bind; auto.
Qed.

Lemma bind_Fuel {A B} (r : result A) (k : A -> result B) :
  r <> Fuel -> (forall a, k a <> Fuel) -> r ≫= k <> Fuel.
Proof. intros Hr Hk. destruct r; simpl; [apply Hk|discriminate|destruct Hr; reflexivity]. Qed.

Lemma foldR_Fuel {A B} (f : B -> A -> result B) (l : list A) :
  (forall b x, f b x <> Fuel) -> forall b, foldR f l b <> Fuel.
Proof.
  intros Hf. induction l as [|x l IH]; intros b; simpl; [discriminate|].
  apply bind_Fuel; auto.
Qed.

Lemma np_set_Fuel {A} (l : list A) i a : np_set l i a <> Fuel.
Proof.
  unfold np_set. apply bind_Fuel; [apply np_index_Fuel|discriminate].
Qed.

Lemma get_col_Fuel X f : get_col X f <> Fuel.
Proof. unfold get_col. apply bind_Fuel; [apply np_index_Fuel|discriminate]. Qed.

Lemma mask_rows_Fuel X idxs : mask_rows X idxs <> Fuel.
Proof. unfold mask_rows. apply bind_Fuel; [apply np_mask_Fuel|discriminate]. Qed.

Lemma isub_Fuel a b : isub a b <> Fuel.
Proof. apply np_inplace_Fuel. Qed.

Create HintDb ends.
#[local] Hint Resolve np_get_Fuel np_index_Fuel np_set_Fuel get_col_Fuel mask_rows_Fuel
  np_mask_Fuel ravel_Fuel np_zeros_Fuel np_zeros_rows_Fuel isub_Fuel iadd_Fuel : ends.

Ltac ends :=
  repeat first
    [ progress eauto with ends
    | apply ends_ret
    | apply ends_get
    | apply ends_raise
    | apply ends_modify
    | apply ends_bind; [|intros]
    | apply ends_foldM; intros
    | apply ends_lift
    | apply bind_Fuel; [|intros]
    | apply foldR_Fuel; intros
    | discriminate
    | match goal with
      | |- ends (if ?b then _ else _) => destruct b
      | |- ends (match ?x with _ => _ end) => destruct x
      | |- ends (let _ := _ in _) => cbv zeta
      | |- (if ?b then _ else _) <> Fuel => destruct b
      | |- (match ?x with _ => _ end) <> Fuel => destruct x
      end ].

Lemma ends_attr {A} (o : option A) : ends (attr o : M estimator A).
Proof. unfold attr. ends. Qed.
#[local] Hint Resolve ends_attr : ends.

Lemma ends_node r : ends (node r).
Proof. intros s. unfold node. destruct (heap s !! r); discriminate. Qed.
#[local] Hint Resolve ends_node : ends.

Lemma ends_new_node nd : ends (new_node nd).
Proof. intros s. discriminate. Qed.
#[local] Hint Resolve ends_new_node : ends.

Lemma ends_setattrs r f : ends (setattrs r f).
Proof. unfold setattrs. ends. Qed.
#[local] Hint Resolve ends_setattrs : ends.

Lemma ends_flatten_y t dims : ends (_flatten_y t dims).
Proof. unfold _flatten_y. ends. Qed.
#[local] Hint Resolve ends_flatten_y : ends.

Lemma ends_compute_node_value y idxs : ends (_compute_node_value y idxs).
Proof. unfold _compute_node_value. ends. Qed.
#[local] Hint Resolve ends_compute_node_value : ends.

Lemma ends_sorted nodes : ends (sorted nodes).
Proof.
  unfold sorted. ends. apply forM_Fuel. intros kr. destruct (kr.1); discriminate.
Qed.
#[local] Hint Resolve ends_sorted : ends.

Lemma ends_init_y y : ends (_init_y y).
Proof.
  intros s. pose proof (init_y_cases y s) as H. simpl in H.
  destruct (_init_y y s) as [s' [yd|e|]]; simpl in *; [discriminate|discriminate|destruct H].
Qed.

Section Ends.
Variable stump_fit : matrix -> matrix -> option (list Q) -> result stump_tree.
Variable recursion_limit : nat.
Hypothesis stump_fit_ends : forall X y w, stump_fit X y w <> Fuel.

Lemma ends_construct X y y_all idxs tree_num sample_weight :
  ends (_construct_node_with_stump stump_fit X y y_all idxs tree_num sample_weight).
Proof. unfold _construct_node_with_stump. ends. Qed.
Hint Resolve ends_construct : ends.

Lemma predict_tree_Fuel s root X : _predict_tree recursion_limit s root X <> Fuel.
Proof.
  pose proof (predict_tree_cases recursion_limit s root X) as H.
  destruct (_predict_tree recursion_limit s root X); [discriminate|discriminate|destruct H].
Qed.
Hint Resolve predict_tree_Fuel : ends.

Lemma ends_update_predictions X preds :
  ends (update_predictions recursion_limit X preds).
Proof. unfold update_predictions. ends. Qed.
Hint Resolve ends_update_predictions : ends.

Lemma update_residuals_Fuel keys y_onehot preds resid :
  update_residuals keys y_onehot preds resid <> Fuel.
Proof. unfold update_residuals, residual_of. ends. Qed.
Hint Resolve update_residuals_Fuel : ends.

Lemma ends_refit X y sw keys resid acc ps :
  ends (refit stump_fit X y sw keys resid acc ps).
Proof. unfold refit. ends. Qed.
Hint Resolve ends_refit : ends.

Lemma ends_refresh X y sw keys y_onehot rest split_node loc :
  ends (refresh stump_fit recursion_limit X y sw keys y_onehot rest split_node loc).
Proof. unfold refresh. ends. Qed.
Hint Resolve ends_refresh : ends.

Lemma ends_commit X y sw keys y_onehot rest split_node loc :
  ends (commit stump_fit recursion_limit X y sw keys y_onehot rest split_node loc).
Proof. unfold commit. ends. Qed.
Hint Resolve ends_commit : ends.

Lemma ends_grow_step X y sw keys y_onehot rest split_node loc :
  ends (grow_step stump_fit recursion_limit X y sw keys y_onehot rest split_node loc).
Proof. unfold grow_step. ends. Qed.

Lemma ends_initial_splits X y sw y_dict :
  ends (initial_splits stump_fit X y sw y_dict).
Proof. unfold initial_splits. ends. Qed.

(** A pass of the loop that does not finish has counted one more
    split, still below the bound. *)
Lemma grow_step_continues m c X y sw keys y_onehot rest split_node loc s s1 loc' :
  max_rules s = Some m -> complexity_ s = Some c ->
  grow_step stump_fit recursion_limit X y sw keys y_onehot rest split_node loc s
  = (s1, Val (loc', false)) ->
  max_rules s1 = Some m /\ complexity_ s1 = Some (c + 1) /\ c + 1 < m.
Proof.
  intros Hm Hc. unfold grow_step. run.
  destruct split_node as [r0|]; simpl; [|discriminate].
  unfold node. destruct (heap s !! r0) as [nd|]; simpl; [|discriminate].
  destruct (impurity_reduction nd) as [ir|]; simpl; [|discriminate].
  destruct (Qlt_bool ir (min_impurity_decrease s)); simpl; [discriminate|].
  unfold commit. run. rewrite Hc. simpl.
  destruct (count_refresh stump_fit recursion_limit X y sw keys y_onehot rest r0 loc
              (set_complexity_ (c + 1) s)) as [E1 E2].
  destruct (refresh _ _ _ _ _ _ _ _ _ _ _) as [s2 [loc2| |]]; simpl in *; try discriminate.
  rewrite E2, E1, Hm. simpl. intros [= <- <- Hfin].
  apply Z.leb_gt in Hfin. repeat split; congruence || lia.
Qed.

Lemma grow_ends m X y sw keys y_onehot : forall fuel loc s c,
  max_rules s = Some m -> complexity_ s = Some c -> 0 <= c ->
  (Z.to_nat (Z.max m 1 - c) < fuel)%nat ->
  (grow stump_fit recursion_limit fuel X y sw keys y_onehot loc s).2 <> Fuel.
Proof.
  induction fuel as [|fuel IH]; intros loc s c Hm Hc H0 Hfuel; [lia|]. simpl.
  destruct (pop (potential_splits loc)) as [[rest split_node]|]; [|discriminate].
  unfold mbind, M_bind.
  pose proof (ends_grow_step X y sw keys y_onehot rest split_node loc s) as He.
  destruct (grow_step _ _ _ _ _ _ _ _ _ _ _) as [s1 [[loc' fin]|e|]] eqn:Es; simpl in *;
    [|discriminate|destruct He; reflexivity].
  destruct fin; [discriminate|].
  destruct (grow_step_continues m c _ _ _ _ _ _ _ _ _ _ _ Hm Hc Es) as (Hm1 & Hc1 & Hlt).
  apply (IH loc' s1 (c + 1)); auto; lia.
Qed.

(** X21.  With [max_rules] set, the loop of [fit] makes at most
    [max(max_rules, 1)] passes: on any step budget above that, [fit]
    ends, by returning or by raising, whatever [X] and [y] are. *)
Theorem fit_ends_within_max_rules fuel X y sw s m :
  max_rules s = Some m ->
  (Z.to_nat (Z.max m 1) < fuel)%nat ->
  (exists e, (fit stump_fit recursion_limit fuel X y sw s).2 = Exn e) \/
  (fit stump_fit recursion_limit fuel X y sw s).2 = Val tt.
Proof.
  intros Hm Hfuel.
  assert ((fit stump_fit recursion_limit fuel X y sw s).2 <> Fuel) as H.
  { unfold fit, fit_locals. run.
    pose proof (count_init_y y (set_complexity_ 0 s)) as [E1 E2].
    pose proof (ends_init_y y (set_complexity_ 0 s)) as Hi.
    destruct (_init_y y (set_complexity_ 0 s)) as [s1 [yd|e|]]; simpl in *;
      [|discriminate|destruct Hi; reflexivity].
    pose proof (count_initial_splits stump_fit X y sw yd.1
                  (set_trees_ (replicate (length yd.1) None) s1)) as [E3 E4].
    pose proof (ends_initial_splits X y sw yd.1
                  (set_trees_ (replicate (length yd.1) None) s1)) as Hs.
    destruct (initial_splits _ _ _ _ _ _) as [s2 [pool|e|]]; simpl in *;
      [|discriminate|destruct Hs; reflexivity].
    pose proof (grow_ends m X y sw (map fst yd.1) yd.2 fuel
                  (Locals (map Some pool) ∅ ∅) s2 0) as Hg.
    destruct (grow _ _ _ _ _ _ _ _ _ _) as [s3 [loc|e|]]; simpl in *;
      [discriminate|discriminate|].
    exfalso. apply Hg; try congruence; try lia. }
  destruct (fit stump_fit recursion_limit fuel X y sw s).2 as [[]|e|];
    [right; reflexivity|left; eauto|contradiction].
Qed.

End Ends.

Lemma fit_ends_within_max_rules_witness :
  (exists e, (fit Stump.fit 100 13 AFIGSExample.X2 AFIGSExample.y2 None
                (__init__ None (Some 12) 0%Q)).2 = Exn e) \/
  (fit Stump.fit 100 13 AFIGSExample.X2 AFIGSExample.y2 None
     (__init__ None (Some 12) 0%Q)).2 = Val tt.
Proof.
  apply (fit_ends_within_max_rules Stump.fit 100) with (m := 12).
  - intros X y w. unfold Stump.fit.
    destruct (_ =? _)%nat; [discriminate|]. destruct (Qle_bool _ _); [discriminate|].
    destruct (Stump.best _); discriminate.
  - reflexivity.
  - simpl. lia.
Defined.

(** * Properties of [AFIGS]: the started trees *)

Lemma settles_refl s : settles s s.
Proof. split; [|auto]. intros r nd H. exists nd. auto. Qed.

Lemma settles_trans s1 s2 s3 : settles s1 s2 -> settles s2 s3 -> settles s1 s3.
Proof.
  intros [N1 R1] [N2 R2]. split; [|auto].
  intros r nd H. destruct (N1 r nd H) as (nd1 & H1 & T1 & I1).
  destruct (N2 r nd1 H1) as (nd2 & H2 & T2 & I2).
  exists nd2. split; [exact H2|]. split; [congruence|auto].
Qed.

(** A change of the nodes alone that keeps every node in place. *)
Lemma settles_heap s h :
  (forall r nd, heap s !! r = Some nd ->
     exists nd', h !! r = Some nd' /\ tree_num nd' = tree_num nd /\
                 (is_root nd = true -> is_root nd' = true)) ->
  settles s (set_heap h s).
Proof.
  intros Hn. split; [exact Hn|].
  intros Hok trees i r Ht Hi. simpl in *.
  destruct (Hok trees i r Ht Hi) as (nd & Hnd & Hroot & Hnum).
  destruct (Hn r nd Hnd) as (nd' & Hnd' & T & I).
  exists nd'. split; [exact Hnd'|]. split; [auto|congruence].
Qed.

Create HintDb settle.

Ltac settle :=
  repeat first
    [ progress eauto with settle
    | apply (keeps_ret _ settles_refl)
    | apply (keeps_lift _ settles_refl)
    | apply (keeps_get _ settles_refl)
    | apply (keeps_raise _ _ settles_refl)
    | apply (keeps_bind _ settles_trans); [|intros]
    | apply (keeps_foldM _ settles_refl settles_trans); intros
    | match goal with
      | |- keeps _ (if ?b then _ else _) => destruct b
      | |- keeps _ (match ?x with _ => _ end) => destruct x
      | |- keeps _ (let _ := _ in _) => cbv zeta
      end ].

Lemma settle_attr {A} (o : option A) : keeps settles (attr o).
Proof. unfold attr. settle. Qed.
#[local] Hint Resolve settle_attr : settle.

Lemma settle_node r : keeps settles (node r).
Proof. intros s. unfold node. destruct (heap s !! r); apply settles_refl. Qed.
#[local] Hint Resolve settle_node : settle.

Lemma settle_set_complexity_ c : keeps settles (modify (set_complexity_ c)).
Proof.
  intros s. split.
  - intros r nd H. exists nd. auto.
  - intros H. exact H.
Qed.
#[local] Hint Resolve settle_set_complexity_ : settle.

Lemma settle_new_node nd : keeps settles (new_node nd).
Proof.
  intros s. apply settles_heap. intros r nd0 H. exists nd0.
  split; [apply lookup_app_l_Some; exact H|auto].
Qed.
#[local] Hint Resolve settle_new_node : settle.

(** [setattrs] with keywords other than [tree_num], and no
    [is_root=False]. *)
Lemma settle_setattrs r f :
  (forall nd, tree_num (f nd) = tree_num nd /\ (is_root nd = true -> is_root (f nd) = true)) ->
  keeps settles (setattrs r f).
Proof.
  intros Hf s. unfold setattrs, node. run.
  destruct (heap s !! r) as [nd|] eqn:Hr; simpl; [|apply settles_refl].
  apply settles_heap. intros r' nd' H'.
  destruct (decide (r' = r)) as [E|Hne].
  - subst r'. pose proof (eq_trans (eq_sym Hr) H') as E. injection E as <-.
    exists (f nd).
    split; [apply list_lookup_insert_eq; eapply lookup_lt_Some; eauto|apply Hf].
  - exists nd'. split; [rewrite list_lookup_insert_ne; auto|auto].
Qed.

Lemma settle_with_temps r l r' : keeps settles (setattrs r (with_temps l r')).
Proof. apply settle_setattrs. intros nd. split; [reflexivity|auto]. Qed.
#[local] Hint Resolve settle_with_temps : settle.

Lemma settle_with_is_root r : keeps settles (setattrs r (with_is_root true)).
Proof. apply settle_setattrs. intros nd. split; [reflexivity|auto]. Qed.
#[local] Hint Resolve settle_with_is_root : settle.

Lemma settle_with_split r f t ir l r' :
  keeps settles (setattrs r (with_split f t ir l r')).
Proof. apply settle_setattrs. intros nd. split; [reflexivity|auto]. Qed.
#[local] Hint Resolve settle_with_split : settle.

Lemma settle_promote r :
  keeps settles (setattrs r (fun nd => with_children (left_temp nd) (right_temp nd) nd)).
Proof. apply settle_setattrs. intros nd. split; [reflexivity|auto]. Qed.
#[local] Hint Resolve settle_promote : settle.

Lemma settle_flatten_y t dims : keeps settles (_flatten_y t dims).
Proof. unfold _flatten_y. settle. Qed.
#[local] Hint Resolve settle_flatten_y : settle.

Lemma settle_compute_node_value y idxs : keeps settles (_compute_node_value y idxs).
Proof. unfold _compute_node_value. settle. Qed.
#[local] Hint Resolve settle_compute_node_value : settle.

Lemma settle_sorted nodes : keeps settles (sorted nodes).
Proof. unfold sorted. settle. Qed.
#[local] Hint Resolve settle_sorted : settle.

(** Lines 226-229: a node flagged as a root goes into the slot of its
    [tree_num]. *)
Lemma settle_start_tree split_node :
  keeps settles
    (nd ← node split_node;
     if is_root nd then
       s ← get;
       trees ← attr (trees_ s);
       trees' ← lift (np_set trees (Z.of_nat (tree_num nd)) (Some split_node));
       modify (set_trees_ trees')
     else mret tt).
Proof.
  intros s. unfold node, attr, np_set. run.
  destruct (heap s !! split_node) as [nd|] eqn:Hnd; simpl; [|apply settles_refl].
  destruct (is_root nd) eqn:Hroot; simpl; [|apply settles_refl].
  destruct (trees_ s) as [trees|] eqn:Ht; simpl; [|apply settles_refl].
  destruct (np_index (length trees) (Z.of_nat (tree_num nd))) as [k| |] eqn:Ek; simpl;
    try apply settles_refl.
  apply np_index_nat in Ek as [-> Hlt].
  split.
  - intros r nd0 H. exists nd0. auto.
  - intros Hok trees' i r Ht' Hi. simpl in *. injection Ht' as <-.
    destruct (decide (i = tree_num nd)) as [->|Hne].
    + rewrite list_lookup_insert_eq in Hi by exact Hlt. injection Hi as <-.
      exists nd. auto.
    + rewrite list_lookup_insert_ne in Hi by auto. eapply Hok; eauto.
Qed.
#[local] Hint Resolve settle_start_tree : settle.

Section Roots.
Variable stump_fit : matrix -> matrix -> option (list Q) -> result stump_tree.
Variable recursion_limit : nat.

Lemma settle_construct X y y_all idxs tree_num sample_weight :
  keeps settles
    (_construct_node_with_stump stump_fit X y y_all idxs tree_num sample_weight).
Proof. unfold _construct_node_with_stump. settle. Qed.
Hint Resolve settle_construct : settle.

Lemma settle_update_predictions X preds :
  keeps settles (update_predictions recursion_limit X preds).
Proof. unfold update_predictions. settle. Qed.
Hint Resolve settle_update_predictions : settle.

Lemma settle_refit X y sw keys resid acc ps :
  keeps settles (refit stump_fit X y sw keys resid acc ps).
Proof. unfold refit. settle. Qed.
Hint Resolve settle_refit : settle.

Lemma settle_refresh X y sw keys y_onehot rest split_node loc :
  keeps settles
    (refresh stump_fit recursion_limit X y sw keys y_onehot rest split_node loc).
Proof.
  assert (keeps settles
            ((nd ← node split_node;
              if is_root nd then
                s ← get;
                trees ← attr (trees_ s);
                trees' ← lift (np_set trees (Z.of_nat (tree_num nd)) (Some split_node));
                modify (set_trees_ trees')
              else mret tt);;
             setattrs split_node (fun nd => with_children (left_temp nd) (right_temp nd) nd);;
             nd ← node split_node;
             let pool := rest ++ [left nd] ++ [right nd] in
             preds ← update_predictions recursion_limit X (y_predictions_per_tree loc);
             resid ← lift (update_residuals keys y_onehot preds (y_residuals_per_tree loc));
             potential_splits_new ← foldM (refit stump_fit X y sw keys resid) pool [];
             pool ← sorted potential_splits_new;
             mret (Locals (map Some pool) preds resid))) as H.
  { settle. }
  intros s. specialize (H s).
  match type of H with
  | settles s (?c s).1 =>
      replace (refresh stump_fit recursion_limit X y sw keys y_onehot rest split_node loc s)
        with (c s); [exact H|]
  end.
  unfold refresh, mbind, M_bind.
  destruct (node split_node s) as [s1 [nd| |]]; reflexivity.
Qed.
Hint Resolve settle_refresh : settle.

Lemma settle_commit X y sw keys y_onehot rest split_node loc :
  keeps settles
    (commit stump_fit recursion_limit X y sw keys y_onehot rest split_node loc).
Proof. unfold commit. settle. Qed.
Hint Resolve settle_commit : settle.

Lemma settle_grow_step X y sw keys y_onehot rest split_node loc :
  keeps settles
    (grow_step stump_fit recursion_limit X y sw keys y_onehot rest split_node loc).
Proof. unfold grow_step. settle. Qed.
Hint Resolve settle_grow_step : settle.

Lemma settle_grow fuel X y sw keys y_onehot loc :
  keeps settles (grow stump_fit recursion_limit fuel X y sw keys y_onehot loc).
Proof. revert loc. induction fuel as [|fuel IH]; intros loc; simpl; settle. Qed.

Lemma settle_initial_splits X y sw y_dict :
  keeps settles (initial_splits stump_fit X y sw y_dict).
Proof. unfold initial_splits. settle. Qed.

(** X22.  When [fit] returns, every entry of [trees_] that is not [None] is
    a node with [is_root] set whose [tree_num] is its position in
    [trees_]. *)
Theorem started_trees_are_roots fuel X y sw s s' :
  fit stump_fit recursion_limit fuel X y sw s = (s', Val tt) ->
  forall trees i r,
    trees_ s' = Some trees -> trees !! i = Some (Some r) ->
    exists nd, heap s' !! r = Some nd /\ is_root nd = true /\ tree_num nd = i.
Proof.
  unfold fit, fit_locals. run.
  destruct (_init_y y (set_complexity_ 0 s)) as [s1 [yd| |]]; try discriminate.
  simpl.
  pose proof (settle_initial_splits X y sw yd.1
                (set_trees_ (replicate (length yd.1) None) s1)) as [_ H1].
  assert (roots_ok (set_trees_ (replicate (length yd.1) None) s1)) as H0.
  { intros trees i r [= <-] Hi. apply lookup_replicate in Hi as [Hi _]. discriminate. }
  destruct (initial_splits _ _ _ _ _ _) as [s2 [pool| |]]; try discriminate.
  simpl in *.
  pose proof (settle_grow fuel X y sw (map fst yd.1) yd.2
                (Locals (map Some pool) ∅ ∅) s2) as [_ H2].
  destruct (grow _ _ _ _ _ _ _ _ _ _) as [s3 [loc| |]]; try discriminate.
  simpl in *. intros [= <-]. exact (H2 (H1 H0)).
Qed.

End Roots.

(** * Properties of [AFIGS]: the flattened targets *)

Lemma fold_Qplus_shift (l : list Q) : forall a, (fold_left Qplus l a == a + Qsum l)%Q.
Proof.
  unfold Qsum. induction l as [|x l IH]; intros a; simpl.
  - ring.
  - rewrite (IH (a + x)%Q), (IH (0 + x)%Q). ring.
Qed.

Lemma Qsum_cons x l : (Qsum (x :: l) == x + Qsum l)%Q.
Proof. unfold Qsum at 1. simpl. rewrite fold_Qplus_shift. ring. Qed.

Lemma elem_of_multi_indices (lv : list nat) : forall idx,
  idx ∈ multi_indices lv <-> Forall2 (fun i l => (i < l)%nat) idx lv.
Proof.
  induction lv as [|l lv IH]; intros idx; simpl.
  - rewrite list_elem_of_singleton. split.
    + intros ->. constructor.
    + intros H. inversion H. reflexivity.
  - rewrite list_elem_of_In, in_flat_map. split.
    + intros (i & Hi & H). apply in_seq in Hi. apply list_elem_of_In in H.
      apply list_elem_of_fmap in H as (idx' & -> & H). apply IH in H.
      constructor; [lia|exact H].
    + intros H. inversion H as [|i l' idx' lv' Hi H']; subst.
      exists i. split; [apply in_seq; lia|].
      apply list_elem_of_In, list_elem_of_fmap. exists idx'. split; [reflexivity|].
      apply IH. exact H'.
Qed.

Lemma NoDup_multi_indices (lv : list nat) : NoDup (multi_indices lv).
Proof.
  induction lv as [|l lv IH]; simpl; [apply NoDup_singleton|].
  apply NoDup_flat_map.
  - apply NoDup_seq.
  - intros i _. apply NoDup_fmap_2; [|exact IH]. intros a b [= ->]. reflexivity.
  - intros i1 i2 idx _ _ H1 H2.
    apply list_elem_of_fmap in H1 as (a & -> & _), H2 as (b & [= -> _] & _). reflexivity.
Qed.

Lemma length_multi_indices (lv : list nat) :
  length (multi_indices lv) = fold_right Nat.mul 1%nat lv.
Proof.
  induction lv as [|l lv IH]; simpl; [reflexivity|].
  rewrite <- IH. generalize (multi_indices lv) as acc. intros acc.
  generalize 0%nat as a. induction l as [|l IHl]; intros a; simpl; [reflexivity|].
  rewrite length_app, length_map, IHl. reflexivity.
Qed.

Lemma cells_fold levels : cells levels = fold_right Nat.mul 1%nat (map Z.to_nat levels).
Proof. induction levels as [|l levels IH]; simpl; [reflexivity|]. rewrite <- IH. reflexivity. Qed.

(** Summing the marginal cells is summing all cells. *)
Lemma partition_sum {K} `{EqDecision K} (g : list nat -> K) (outs : list K) :
  NoDup outs ->
  forall cs : list (list nat * Q),
    Forall (fun c => g c.1 ∈ outs) cs ->
    (Qsum (map (fun out => Qsum (map snd (filter (fun c => g c.1 = out) cs))) outs)
     == Qsum (map snd cs))%Q.
Proof.
  intros Hnd cs. induction cs as [|c cs IH]; intros Hall.
  - simpl. clear. induction outs as [|o outs IH]; [reflexivity|].
    simpl. rewrite Qsum_cons, IH. reflexivity.
  - apply Forall_cons in Hall as [Hc Hall]. specialize (IH Hall).
    simpl. rewrite Qsum_cons, <- IH. clear IH Hall.
    induction Hnd as [|o outs Ho Hnd IHo].
    + inversion Hc.
    + simpl. rewrite !Qsum_cons.
      destruct (decide (g c.1 = o)) as [E|E].
      * rewrite filter_cons_True by exact E. simpl. rewrite Qsum_cons.
        assert (map (fun out => Qsum (map snd (filter (fun c0 => g c0.1 = out) (c :: cs)))) outs
                = map (fun out => Qsum (map snd (filter (fun c0 => g c0.1 = out) cs))) outs)
          as ->.
        { apply map_ext_in. intros o' Ho'. apply list_elem_of_In in Ho'.
          rewrite filter_cons_False; [reflexivity|]. intros E'. apply Ho. congruence. }
        ring.
      * rewrite filter_cons_False by exact E.
        apply elem_of_cons in Hc as [Hc|Hc]; [congruence|].
        rewrite (IHo Hc). ring.
Qed.

Lemma proj_in_range (kept : list nat) (idx lv : list nat) :
  Forall2 (fun i l => (i < l)%nat) idx lv ->
  Forall (fun d => (d < length lv)%nat) kept ->
  Forall2 (fun i l => (i < l)%nat)
    (map (fun d => nth d idx 0%nat) kept) (map (fun d => nth d lv 0%nat) kept).
Proof.
  intros H Hk. induction Hk as [|d kept Hd Hk IH]; simpl; constructor; auto.
  clear -H Hd. revert d Hd. induction H as [|i l idx lv Hi H IH]; intros d Hd; simpl in *.
  - lia.
  - destruct d as [|d]; [exact Hi|]. apply IH. lia.
Qed.

Lemma flatten_row_total levels dims row :
  length row = cells levels ->
  (Qsum (flatten_row levels dims row) == Qsum row)%Q.
Proof.
  intros Hlen. unfold flatten_row.
  set (kept := filter (fun i => i ∈ dims) (seq 0 (length levels))).
  set (lv := map Z.to_nat levels).
  set (proj := fun idx : list nat => map (fun d => nth d idx 0%nat) kept).
  transitivity (Qsum (map snd (zip (multi_indices lv) row))).
  2:{ rewrite snd_zip; [reflexivity|].
      rewrite length_multi_indices. unfold lv. rewrite <- cells_fold. lia. }
  apply (partition_sum proj (multi_indices (proj lv)) (NoDup_multi_indices _)).
  - apply Forall_forall. intros [idx q] Hc. simpl.
    apply elem_of_zip_l in Hc. apply elem_of_multi_indices in Hc.
    apply elem_of_multi_indices. unfold proj. apply proj_in_range; [exact Hc|].
    apply Forall_forall. intros d Hd. unfold kept in Hd.
    apply list_elem_of_filter in Hd as [_ Hd]. apply elem_of_seq in Hd.
    unfold lv. rewrite length_map. lia.
Qed.

Lemma flatten_row_length levels dims row :
  length (flatten_row levels dims row)
  = cells (map (fun d => nth d levels 0)
             (filter (fun i => i ∈ dims) (seq 0 (length levels)))).
Proof.
  unfold flatten_row. rewrite length_map, length_multi_indices, cells_fold.
  f_equal. rewrite !map_map. apply map_ext. intros d.
  change 0%nat with (Z.to_nat 0). apply map_nth.
Qed.

(** X23.  [_flatten_y] changes nothing in the estimator and returns one row
    per sample; the width of the result, and the length of each of its
    rows, is the product of the levels of the columns kept, the columns
    of [dims] in increasing order; summing the other axes out keeps the
    total of every row, so the flattened one-hot target still sums to 1
    in each row. *)
Theorem flatten_y_keeps_row_totals y_onehot dims s s' y_flat :
  _flatten_y y_onehot dims s = (s', Val y_flat) ->
  s' = s /\
  exists levels,
    y_levels s = Some levels /\
    shape0 y_flat = length y_onehot /\
    shape1 y_flat
    = cells (map (fun d => nth d levels 0)
               (filter (fun i => i ∈ dims) (seq 0 (length levels)))) /\
    Forall (fun r => length r = shape1 y_flat) (rows y_flat) /\
    (Forall (fun row => length row = cells levels) y_onehot ->
     Forall2 (fun row flat => (Qsum flat == Qsum row)%Q) y_onehot (rows y_flat)).
Proof.
  unfold _flatten_y, attr. run.
  destruct (y_levels s) as [levels|]; [|discriminate]. simpl.
  intros [= <- <-]. split; [reflexivity|]. exists levels. split; [reflexivity|].
  unfold shape0. simpl. rewrite length_map. split; [reflexivity|].
  split; [reflexivity|]. split.
  - apply Forall_forall. intros r Hr. apply list_elem_of_fmap in Hr as (row & -> & _).
    apply flatten_row_length.
  - intros Hall. induction Hall as [|row rest Hrow Hall IH]; simpl; constructor; auto.
    apply flatten_row_total. exact Hrow.
Qed.

Lemma flatten_y_Val y_onehot dims s s' m :
  _flatten_y y_onehot dims s = (s', Val m) ->
  s' = s /\ exists levels, y_levels s = Some levels /\
                           rows m = map (flatten_row levels dims) y_onehot.
Proof.
  unfold _flatten_y, attr. run.
  destruct (y_levels s) as [levels|]; [|discriminate]. simpl.
  intros [= <- <-]. split; [reflexivity|]. exists levels. split; reflexivity.
Qed.

Lemma flatten_y_shape y_onehot dims s s' m levels :
  _flatten_y y_onehot dims s = (s', Val m) -> y_levels s = Some levels ->
  shape1 m = cells (map (fun d => nth d levels 0)
                      (filter (fun i => i ∈ dims) (seq 0 (length levels)))).
Proof.
  unfold _flatten_y, attr. run. intros H Hl. rewrite Hl in H. simpl in H.
  injection H as _ <-. reflexivity.
Qed.

Lemma flatten_fold_shapes levels y_onehot (l : list (list nat)) :
  forall acc s1 s' acc',
    y_levels s1 = Some levels ->
    Forall (fun kv : list nat * matrix =>
              shape1 kv.2
              = cells (map (fun d => nth d levels 0)
                         (filter (fun i => i ∈ kv.1) (seq 0 (length levels))))) acc ->
    foldM (fun acc dims =>
             y_flat ← _flatten_y y_onehot dims;
             mret (acc ++ [(dims, y_flat)])) l acc s1 = (s', Val acc') ->
    Forall (fun kv : list nat * matrix =>
              shape1 kv.2
              = cells (map (fun d => nth d levels 0)
                         (filter (fun i => i ∈ kv.1) (seq 0 (length levels))))) acc'.
Proof.
  induction l as [|d l IH]; intros acc s1 s' acc' Hlv Hacc; simpl.
  - unfold mret, M_ret. intros H. injection H as _ <-. exact Hacc.
  - intros H. apply bind_inv in H as (s2 & acc2 & H1 & H2).
    apply bind_inv in H1 as (s3 & m & Hm & H1).
    pose proof (flatten_y_shape _ _ _ _ _ _ Hm Hlv) as Hsh.
    apply flatten_y_Val in Hm as (-> & _).
    injection H1 as <- <-.
    apply (IH _ _ _ _ Hlv) in H2; [exact H2|].
    apply Forall_app. split; [exact Hacc|]. constructor; [exact Hsh|constructor].
Qed.

Lemma flatten_fold_rows levels y_onehot (l : list (list nat)) :
  forall acc s1 s' acc',
    y_levels s1 = Some levels ->
    Forall (fun kv : list nat * matrix =>
              rows kv.2 = map (flatten_row levels kv.1) y_onehot) acc ->
    foldM (fun acc dims =>
             y_flat ← _flatten_y y_onehot dims;
             mret (acc ++ [(dims, y_flat)])) l acc s1 = (s', Val acc') ->
    Forall (fun kv => rows kv.2 = map (flatten_row levels kv.1) y_onehot) acc'.
Proof.
  induction l as [|d l IH]; intros acc s1 s' acc' Hlv Hacc; simpl.
  - unfold mret, M_ret. intros H. injection H as _ <-. exact Hacc.
  - intros H. apply bind_inv in H as (s2 & acc2 & H1 & H2).
    apply bind_inv in H1 as (s3 & m & Hm & H1).
    apply flatten_y_Val in Hm as (-> & levels' & Hlv' & Hrows).
    injection H1 as <- <-. rewrite Hlv in Hlv'. injection Hlv' as <-.
    apply (IH _ _ _ _ Hlv) in H2; [exact H2|].
    apply Forall_app. split; [exact Hacc|]. constructor; [exact Hrows|constructor].
Qed.

Lemma init_y_dict y s s' yd :
  _init_y y s = (s', Val yd) ->
  exists levels,
    column_levels y = Val levels /\
    Forall (fun kv => rows kv.2 = map (flatten_row levels kv.1) yd.2) yd.1.
Proof.
  intros H. pose proof H as H0. apply init_y_inv in H0 as (levels & mi & Hl & Ho & _ & _ & _).
  exists levels. split; [exact Hl|].
  revert H. unfold _init_y. run. rewrite Hl. simpl.
  destruct (np_zeros_rows (shape0 y) levels) as [z|e|]; simpl; try discriminate.
  rewrite Ho. simpl.
  match goal with
  | |- context [foldM ?f ?l [] ?st] =>
      destruct (foldM f l [] st) as [s2 [acc'| |]] eqn:Ef; simpl; try discriminate
  end.
  intros [= <- <-]. simpl.
  eapply (flatten_fold_rows levels yd.2); [| |exact Ef]; [reflexivity|constructor].
Qed.

Lemma init_y_shapes y s s' yd :
  _init_y y s = (s', Val yd) ->
  exists levels,
    column_levels y = Val levels /\
    Forall (fun kv : list nat * matrix =>
              shape1 kv.2
              = cells (map (fun d => nth d levels 0)
                         (filter (fun i => i ∈ kv.1) (seq 0 (length levels))))) yd.1.
Proof.
  intros H. pose proof H as H0. apply init_y_inv in H0 as (levels & mi & Hl & Ho & _ & _ & _).
  exists levels. split; [exact Hl|].
  revert H. unfold _init_y. run. rewrite Hl. simpl.
  destruct (np_zeros_rows (shape0 y) levels) as [z|e|]; simpl; try discriminate.
  rewrite Ho. simpl.
  match goal with
  | |- context [foldM ?f ?l [] ?st] =>
      destruct (foldM f l [] st) as [s2 [acc'| |]] eqn:Ef; simpl; try discriminate
  end.
  intros [= <- <-]. simpl.
  eapply (flatten_fold_shapes levels yd.2); [| |exact Ef]; [reflexivity|constructor].
Qed.

Lemma Qsum_one_hot levels k : (k < cells levels)%nat -> (Qsum (one_hot levels k) == 1)%Q.
Proof.
  unfold one_hot. generalize (cells levels) as c. intros c. revert k.
  assert (forall c, Qsum (replicate c 0%Q) == 0)%Q as Hz.
  { intros c'. induction c' as [|c' IH]; [reflexivity|].
    simpl. rewrite Qsum_cons, IH. reflexivity. }
  induction c as [|c IH]; intros k Hk; [lia|].
  destruct k as [|k]; simpl; rewrite Qsum_cons.
  - rewrite Hz. reflexivity.
  - rewrite IH by lia. reflexivity.
Qed.

Lemma flat_map_block {A} (f : nat -> list A) m :
  (forall i, length (f i) = m) ->
  forall l a c p, (c < l)%nat -> (p < m)%nat ->
    flat_map f (seq a l) !! (c * m + p)%nat = f (a + c)%nat !! p.
Proof.
  intros Hf. induction l as [|l IH]; intros a c p Hc Hp; [lia|].
  simpl. destruct c as [|c].
  - simpl. rewrite lookup_app_l by (rewrite Hf; lia). rewrite Nat.add_0_r. reflexivity.
  - rewrite lookup_app_r by (rewrite Hf; simpl; lia). rewrite Hf.
    replace (S c * m + p - m)%nat with (c * m + p)%nat by lia.
    rewrite IH by lia. f_equal. f_equal. lia.
Qed.

Lemma multi_indices_lookup levels : forall k,
  (k < cells levels)%nat ->
  multi_indices (map Z.to_nat levels) !! k = Some (map Z.to_nat (unravel levels k)).
Proof.
  induction levels as [|l levels IH]; intros k Hk.
  - simpl in *. replace k with 0%nat by lia. reflexivity.
  - change (multi_indices (map Z.to_nat (l :: levels)))
      with (flat_map (fun i => map (cons i) (multi_indices (map Z.to_nat levels)))
              (seq 0 (Z.to_nat l))).
    simpl in Hk. simpl unravel.
    assert (0 < cells levels)%nat as Hc by nia.
    pose proof (Nat.div_mod_eq k (cells levels)) as Hdm.
    pose proof (Nat.mod_upper_bound k (cells levels)) as Hm.
    assert (k / cells levels < Z.to_nat l)%nat as Hd.
    { apply Nat.Div0.div_lt_upper_bound. lia. }
    rewrite Hdm at 1.
    replace (cells levels * (k / cells levels) + k mod cells levels)%nat
      with (k / cells levels * cells levels + k mod cells levels)%nat by lia.
    rewrite (flat_map_block _ (cells levels)); [|
      intros i; rewrite length_map, length_multi_indices, <- cells_fold; reflexivity
      |exact Hd|lia].
    rewrite list_lookup_fmap, IH by lia. simpl. rewrite Nat2Z.id. reflexivity.
Qed.

Lemma zip_zeros {A} `{EqDecision A} (l : list A) x :
  x ∉ l ->
  zip l (replicate (length l) 0%Q) = map (fun a => (a, if decide (a = x) then 1%Q else 0%Q)) l.
Proof.
  induction l as [|a l IH]; intros Hx; [reflexivity|].
  apply not_elem_of_cons in Hx as [Hne Hx]. simpl.
  rewrite decide_False by congruence. f_equal. apply IH. exact Hx.
Qed.

Lemma zip_one_hot {A} `{EqDecision A} (l : list A) x : forall k,
  NoDup l -> l !! k = Some x ->
  zip l (<[k:=1%Q]> (replicate (length l) 0%Q))
  = map (fun a => (a, if decide (a = x) then 1%Q else 0%Q)) l.
Proof.
  induction l as [|a l IH]; intros k Hnd Hk; [reflexivity|].
  apply NoDup_cons in Hnd as [Ha Hnd]. destruct k as [|k]; simpl in *.
  - injection Hk as ->. rewrite decide_True by reflexivity. f_equal.
    apply zip_zeros. exact Ha.
  - rewrite decide_False.
    + f_equal. apply IH; assumption.
    + intros ->. apply Ha. eapply list_elem_of_lookup_2. exact Hk.
Qed.

Lemma sum_without {A B} `{EqDecision A} `{EqDecision B} (g : A -> B) (x : A) (out : B) l :
  x ∉ l -> forall a, a = 0%Q \/ a = 1%Q ->
  fold_left Qplus
    (map snd (filter (fun c : A * Q => g c.1 = out)
                (map (fun a => (a, if decide (a = x) then 1%Q else 0%Q)) l))) a = a.
Proof.
  induction l as [|b l IH]; intros Hx a Ha; [reflexivity|].
  apply not_elem_of_cons in Hx as [Hne Hx]. simpl.
  rewrite filter_cons. simpl. destruct (decide (g b = out)); [|apply IH; assumption].
  simpl. rewrite decide_False by congruence.
  assert ((a + 0)%Q = a) as -> by (destruct Ha as [-> | ->]; reflexivity).
  apply IH; assumption.
Qed.

Lemma Qsum_filter_indicator {A B} `{EqDecision A} `{EqDecision B}
    (g : A -> B) (x : A) (out : B) l :
  NoDup l -> x ∈ l ->
  Qsum (map snd (filter (fun c : A * Q => g c.1 = out)
                   (map (fun a => (a, if decide (a = x) then 1%Q else 0%Q)) l)))
  = if decide (out = g x) then 1%Q else 0%Q.
Proof.
  unfold Qsum. induction l as [|b l IH]; intros Hnd Hx; [inversion Hx|].
  apply NoDup_cons in Hnd as [Hb Hnd]. simpl. rewrite filter_cons. simpl.
  destruct (decide (b = x)) as [->|Hne].
  - destruct (decide (g x = out)) as [E|E].
    + simpl. rewrite decide_True by congruence.
      apply sum_without; [exact Hb|right; reflexivity].
    + rewrite decide_False by congruence.
      apply sum_without; [exact Hb|left; reflexivity].
  - apply elem_of_cons in Hx as [->|Hx]; [congruence|].
    destruct (decide (g b = out)); simpl; apply IH; assumption.
Qed.

Lemma map_one_hot {A} `{EqDecision A} (l : list A) x k :
  NoDup l -> l !! k = Some x ->
  map (fun a => if decide (a = x) then 1%Q else 0%Q) l
  = <[k:=1%Q]> (replicate (length l) 0%Q).
Proof.
  intros Hnd Hk.
  transitivity (map snd (map (fun a => (a, if decide (a = x) then 1%Q else 0%Q)) l)).
  { rewrite map_map. reflexivity. }
  rewrite <- (zip_one_hot l x k Hnd Hk). apply snd_zip.
  rewrite length_insert, length_replicate. lia.
Qed.

Lemma ravel_coords levels : forall idx acc k,
  ravel levels idx acc = Val k ->
  Forall2 (fun l i => exists c, np_index (Z.to_nat l) i = Val c) levels idx.
Proof.
  induction levels as [|l levels IH]; intros [|i idx] acc k; simpl; try discriminate.
  - constructor.
  - run. destruct (np_index (Z.to_nat l) i) as [c| |] eqn:E; try discriminate. simpl.
    intros H. constructor; [eauto|]. eapply IH. exact H.
Qed.

Lemma ravel_returns levels : forall idx acc,
  Forall2 (fun l i => exists c, np_index (Z.to_nat l) i = Val c) levels idx ->
  exists k, ravel levels idx acc = Val k.
Proof.
  induction levels as [|l levels IH]; intros idx acc H; inversion H as [|? i ? idx' [c Hc] H']; subst.
  - exists acc. reflexivity.
  - simpl. run. rewrite Hc. simpl. apply IH. exact H'.
Qed.

Lemma Forall2_proj {A B} (R : A -> B -> Prop) (a0 : A) (b0 : B) (kept : list nat) la lb :
  Forall2 R la lb ->
  Forall (fun d => (d < length la)%nat) kept ->
  Forall2 R (map (fun d => nth d la a0) kept) (map (fun d => nth d lb b0) kept).
Proof.
  intros H Hk. induction Hk as [|d kept Hd Hk IH]; simpl; constructor; auto.
  clear -H Hd. revert d Hd. induction H as [|a b la lb Hab H IH]; intros d Hd; simpl in *.
  - lia.
  - destruct d as [|d]; [exact Hab|]. apply IH. lia.
Qed.

Lemma nth_zip_with_wrap levels idx d :
  (d < length levels)%nat -> length idx = length levels ->
  nth d (zip_with wrap levels idx) 0 = wrap (nth d levels 0) (nth d idx 0).
Proof.
  revert idx d. induction levels as [|l levels IH]; intros [|i idx] d Hd Hlen;
    simpl in *; try lia.
  destruct d as [|d]; [reflexivity|]. apply IH; lia.
Qed.

Lemma flatten_row_one_hot levels dims idx k :
  ravel levels idx 0 = Val k ->
  exists k',
    ravel (map (fun d => nth d levels 0%Z)
             (filter (fun i => i ∈ dims) (seq 0 (length levels))))
          (map (fun d => nth d idx 0%Z)
             (filter (fun i => i ∈ dims) (seq 0 (length levels)))) 0 = Val k' /\
    (k' < cells (map (fun d => nth d levels 0%Z)
                   (filter (fun i => i ∈ dims) (seq 0 (length levels)))))%nat /\
    flatten_row levels dims (one_hot levels k)
    = one_hot (map (fun d => nth d levels 0%Z)
                 (filter (fun i => i ∈ dims) (seq 0 (length levels)))) k'.
Proof.
  intros Hk. unfold flatten_row.
  set (kept := filter (fun i => i ∈ dims) (seq 0 (length levels))).
  set (klevels := map (fun d => nth d levels 0) kept).
  set (lv := map Z.to_nat levels).
  assert (Forall (fun d => (d < length levels)%nat) kept) as Hkept.
  { apply Forall_forall. intros d Hd. unfold kept in Hd.
    apply list_elem_of_filter in Hd as [_ Hd]. apply elem_of_seq in Hd. lia. }
  pose proof (ravel_coords _ _ _ _ Hk) as Hco.
  pose proof (Forall2_length _ _ _ Hco) as Hlen.
  destruct (ravel_returns klevels (map (fun d => nth d idx 0) kept) 0) as [k' Hk'].
  { apply Forall2_proj; assumption. }
  exists k'. split; [exact Hk'|].
  apply ravel_unravel in Hk as (r & -> & Hr & Hu). simpl.
  apply ravel_unravel in Hk' as (r' & -> & Hr' & Hu'). simpl.
  split; [exact Hr'|].
  pose proof (multi_indices_lookup levels r Hr) as Hmi. fold lv in Hmi.
  pose proof (multi_indices_lookup klevels r' Hr') as Hmi'.
  assert (map Z.to_nat klevels = map (fun d => nth d lv 0%nat) kept) as Eplv.
  { unfold klevels, lv. rewrite !map_map. apply map_ext. intros d.
    change 0%nat with (Z.to_nat 0). symmetry. apply map_nth. }
  rewrite Eplv in Hmi'.
  set (coords := map Z.to_nat (unravel levels r)) in *.
  assert (map Z.to_nat (unravel klevels r') = map (fun d => nth d coords 0%nat) kept)
    as Eproj.
  { rewrite Hu'. unfold coords. rewrite Hu. unfold klevels.
    clear -Hkept Hlen. induction Hkept as [|d kept Hd Hkept IH]; [reflexivity|].
    simpl. f_equal; [|exact IH].
    change 0%nat with (Z.to_nat 0). rewrite map_nth. f_equal.
    symmetry. apply nth_zip_with_wrap; [exact Hd|symmetry; exact Hlen]. }
  rewrite Eproj in Hmi'.
  unfold one_hot.
  assert (cells levels = length (multi_indices lv)) as ->.
  { rewrite length_multi_indices. apply cells_fold. }
  rewrite (zip_one_hot (multi_indices lv) coords r (NoDup_multi_indices lv) Hmi).
  assert (cells klevels = length (multi_indices (map (fun d => nth d lv 0%nat) kept)))
    as ->.
  { rewrite length_multi_indices, <- Eplv. apply cells_fold. }
  rewrite <- (map_one_hot _ _ r' (NoDup_multi_indices _) Hmi').
  apply map_ext. intros out.
  apply (Qsum_filter_indicator (fun idx0 : list nat => map (fun d => nth d idx0 0%nat) kept)
           coords out (multi_indices lv) (NoDup_multi_indices lv)).
  eapply list_elem_of_lookup_2. exact Hmi.
Qed.

Lemma filter_ext_in {A} (P1 P2 : A -> Prop) `{forall x, Decision (P1 x)}
    `{forall x, Decision (P2 x)} (l : list A) :
  (forall x, x ∈ l -> (P1 x <-> P2 x)) -> filter P1 l = filter P2 l.
Proof.
  induction l as [|a l IH]; intros Hl; [reflexivity|].
  rewrite !filter_cons.
  assert (filter P1 l = filter P2 l) as -> by (apply IH; intros x Hx; apply Hl; right; exact Hx).
  destruct (decide (P1 a)) as [H1|H1], (decide (P2 a)) as [H2|H2]; try reflexivity;
    exfalso; apply (Hl a) in H1 || apply (Hl a) in H2; auto; left.
Qed.

Lemma filter_sublist (c l : list nat) :
  NoDup l -> sublist c l -> filter (fun i => i ∈ c) l = c.
Proof.
  intros Hnd Hs. induction Hs as [|x c l Hs IH|x c l Hs IH].
  - reflexivity.
  - apply NoDup_cons in Hnd as [Hx Hnd].
    rewrite filter_cons_True by left. f_equal.
    transitivity (filter (fun i => i ∈ c) l); [|exact (IH Hnd)].
    apply filter_ext_in.
    intros i Hi. rewrite elem_of_cons. split; [|auto].
    intros [->|H]; [contradiction|exact H].
  - apply NoDup_cons in Hnd as [Hx Hnd].
    rewrite filter_cons_False; [exact (IH Hnd)|].
    intros Hc. apply Hx. eapply elem_of_sublist; eauto.
Qed.

(** X24.  The targets the first stumps are fitted to: for every output
    subset, one row per row of [y], as wide as the product of the levels
    of the columns of the subset, and each row is the indicator of the
    sample's codes on these columns: 1 in the cell the codes select, 0
    in every other cell; so each row sums to 1. *)
Theorem init_y_targets_are_indicators y s s' yd :
  _init_y y s = (s', Val yd) ->
  exists levels,
    column_levels y = Val levels /\
    Forall (fun kv : list nat * matrix =>
              shape0 kv.2 = shape0 y /\
              shape1 kv.2 = cells (map (fun d => nth d levels 0) kv.1) /\
              Forall (fun row => (Qsum row == 1)%Q) (rows kv.2) /\
              Forall2 (fun yrow flat =>
                         exists k,
                           ravel (map (fun d => nth d levels 0) kv.1)
                             (map (fun d => nth d (map Qtrunc yrow) 0) kv.1) 0 = Val k /\
                           (k < cells (map (fun d => nth d levels 0%Z) kv.1))%nat /\
                           flat = one_hot (map (fun d => nth d levels 0) kv.1) k)
                (rows y) (rows kv.2)) yd.1.
Proof.
  intros H. pose proof (init_y_dict y s s' yd H) as (levels & Hl & Hd).
  pose proof (init_y_shapes y s s' yd H) as (levels0 & Hl0 & Hsh).
  rewrite Hl in Hl0. injection Hl0 as <-.
  apply init_y_inv in H as (levels' & mi & Hl' & Ho & _ & _ & Hkeys).
  rewrite Hl in Hl'. injection Hl' as <-.
  exists levels. split; [exact Hl|].
  assert (length levels = shape1 y) as Hlen.
  { unfold column_levels in Hl. destruct (rows y); [discriminate|].
    injection Hl as <-. rewrite length_map, length_seq. reflexivity. }
  apply forM_Forall2 in Ho.
  apply Forall_forall. intros [dims m] Hin.
  rewrite Forall_forall in Hd, Hsh.
  specialize (Hd _ Hin). specialize (Hsh _ Hin). simpl in *.
  assert (filter (fun i => i ∈ dims) (seq 0 (length levels)) = dims) as Ekept.
  { rewrite Hlen. apply filter_sublist; [apply NoDup_seq|].
    assert (dims ∈ yd.1.*1) as Hk.
    { apply list_elem_of_fmap. exists (dims, m). split; [reflexivity|exact Hin]. }
    rewrite Hkeys in Hk. apply list_elem_of_In, in_flat_map in Hk as (r & _ & Hk).
    apply list_elem_of_In, elem_of_combinations in Hk as [Hk _]. exact Hk. }
  rewrite Ekept in Hsh.
  assert (Forall2 (fun yrow flat =>
                     exists k,
                       ravel (map (fun d => nth d levels 0) dims)
                         (map (fun d => nth d (map Qtrunc yrow) 0) dims) 0 = Val k /\
                       (k < cells (map (fun d => nth d levels 0%Z) dims))%nat /\
                       flat = one_hot (map (fun d => nth d levels 0) dims) k)
            (rows y) (rows m)) as Hind.
  { rewrite Hd. clear -Ho Ekept. induction Ho as [|yrow oh ys ohs Hy Ho IH]; simpl;
      constructor; [|exact IH].
    apply one_hot_row_Val in Hy as (k & Hk & _ & ->).
    destruct (flatten_row_one_hot levels dims _ k Hk) as (k' & H1 & H2 & H3).
    rewrite Ekept in H1, H2, H3. exists k'. auto. }
  unfold shape0. split; [|split; [exact Hsh|split; [|exact Hind]]].
  - rewrite <- (Forall2_length _ _ _ Hind). reflexivity.
  - apply Forall_forall. intros row Hrow.
    apply list_elem_of_lookup in Hrow as [i Hi].
    destruct (Forall2_lookup_r _ _ _ _ _ Hind Hi) as (yrow & _ & k & _ & Hk & ->).
    apply Qsum_one_hot. exact Hk.
Qed.

(** * Worked examples for [AFIGS] *)

Lemma init_y_one_hot_witness :
  exists levels,
    column_levels AFIGSExample.y22 = Val levels /\
    y_levels AFIGSExample.init22.1 = Some levels /\
    n AFIGSExample.init22.1 = Some (shape0 AFIGSExample.y22) /\
    Forall2 (fun yrow oh =>
               exists k, ravel levels (map Qtrunc yrow) 0 = Val k /\
                         (k < cells levels)%nat /\ oh = one_hot levels k)
            (rows AFIGSExample.y22) AFIGSExample.init22_result.2.
Proof.
  apply (init_y_one_hot AFIGSExample.y22 (__init__ None (Some 12) 0%Q) AFIGSExample.init22.1
           AFIGSExample.init22_result).
  vm_compute. reflexivity.
Defined.

Lemma init_y_keys_witness :
  exists mi,
    max_int AFIGSExample.init22.1 = Some mi /\ mi <= Z.of_nat (shape1 AFIGSExample.y22) /\
    (max_int (__init__ None (Some 12) 0%Q) = None ->
     mi = Z.of_nat (shape1 AFIGSExample.y22)) /\
    (forall v, max_int (__init__ None (Some 12) 0%Q) = Some v ->
               mi = Z.min v (Z.of_nat (shape1 AFIGSExample.y22))) /\
    NoDup AFIGSExample.init22_result.1.*1 /\
    forall key, key ∈ AFIGSExample.init22_result.1.*1 <->
      key <> [] /\ sublist key (seq 0 (shape1 AFIGSExample.y22)) /\
      Z.of_nat (length key) <= mi.
Proof.
  apply (init_y_keys AFIGSExample.y22 (__init__ None (Some 12) 0%Q) AFIGSExample.init22.1
           AFIGSExample.init22_result).
  vm_compute. reflexivity.
Defined.

Example init22_targets :
  map (fun kv : list nat * matrix => (kv.1, rows kv.2)) AFIGSExample.init22_result.1
  = [([0%nat], [[1; 0]; [0; 1]]%Q);
     ([1%nat], [[0; 1]; [1; 0]]%Q);
     ([0%nat; 1%nat], [[0; 1; 0; 0]; [0; 0; 1; 0]]%Q)].
Proof. vm_compute. reflexivity. Qed.

Lemma init_y_targets_are_indicators_witness :
  exists levels,
    column_levels AFIGSExample.y22 = Val levels /\
    Forall (fun kv : list nat * matrix =>
              shape0 kv.2 = shape0 AFIGSExample.y22 /\
              shape1 kv.2 = cells (map (fun d => nth d levels 0) kv.1) /\
              Forall (fun row => (Qsum row == 1)%Q) (rows kv.2) /\
              Forall2 (fun yrow flat =>
                         exists k,
                           ravel (map (fun d => nth d levels 0) kv.1)
                             (map (fun d => nth d (map Qtrunc yrow) 0) kv.1) 0 = Val k /\
                           (k < cells (map (fun d => nth d levels 0%Z) kv.1))%nat /\
                           flat = one_hot (map (fun d => nth d levels 0) kv.1) k)
                (rows AFIGSExample.y22) (rows kv.2)) AFIGSExample.init22_result.1.
Proof.
  apply (init_y_targets_are_indicators AFIGSExample.y22 (__init__ None (Some 12) 0%Q)
           AFIGSExample.init22.1 AFIGSExample.init22_result).
  vm_compute. reflexivity.
Defined.

Lemma flatten_y_keeps_row_totals_witness :
  let y_flat := Matrix 2 [[1; 0]; [0; 1]]%Q in
  AFIGSExample.init22.1 = AFIGSExample.init22.1 /\
  exists levels,
    y_levels AFIGSExample.init22.1 = Some levels /\
    shape0 y_flat = length AFIGSExample.onehot22 /\
    shape1 y_flat
    = cells (map (fun d => nth d levels 0)
               (filter (fun i => i ∈ [0%nat]) (seq 0 (length levels)))) /\
    Forall (fun r => length r = shape1 y_flat) (rows y_flat) /\
    (Forall (fun row => length row = cells levels) AFIGSExample.onehot22 ->
     Forall2 (fun row flat => (Qsum flat == Qsum row)%Q) AFIGSExample.onehot22
       (rows y_flat)).
Proof.
  apply (flatten_y_keeps_row_totals AFIGSExample.onehot22 [0%nat] AFIGSExample.init22.1
           AFIGSExample.init22.1 (Matrix 2 [[1; 0]; [0; 1]]%Q)).
  vm_compute. reflexivity.
Defined.

Lemma node_value_holds_shares_witness :
  let y_all := Matrix 1 [[0]; [0]; [1]; [1]]%Q in
  let idxs := [true; true; true; false] in
  let value := NdArray [2] [2 # 3; 1 # 3]%Q in
  AFIGSExample.fitted2 = AFIGSExample.fitted2 /\
  exists levels sel,
    y_levels AFIGSExample.fitted2 = Some levels /\
    np_mask (rows y_all) idxs = Val sel /\
    Z.of_nat (length sel) = mask_sum idxs /\
    count_sum (np_unique_counts sel) = mask_sum idxs /\
    arr_shape value = levels /\ length (arr_cells value) = cells levels /\
    (forall k, (k < cells levels)%nat ->
       arr_cells value !! k
       = Some (match last (filter (fun vc => lands levels k vc = true)
                             (np_unique_counts sel)) with
               | Some vc => (inject_Z vc.2 / inject_Z (mask_sum idxs))%Q
               | None => 0%Q
               end)) /\
    Forall (fun q => 0 <= q <= 1)%Q (arr_cells value) /\
    (mask_sum idxs = 0 -> arr_cells value = replicate (cells levels) 0%Q).
Proof.
  apply (node_value_holds_shares (Matrix 1 [[0]; [0]; [1]; [1]]%Q)
           [true; true; true; false] AFIGSExample.fitted2 AFIGSExample.fitted2
           (NdArray [2] [2 # 3; 1 # 3]%Q)).
  vm_compute. reflexivity.
Defined.

Lemma popped_candidate_is_best_witness :
  AFIGSExample.start22 = AFIGSExample.start22 /\
  [6; 0; 3]%nat ≡ₚ [0; 3; 6]%nat /\
  forall r' q q',
    r' ∈ [6; 0]%nat -> reduction AFIGSExample.start22 3%nat = Some q ->
    reduction AFIGSExample.start22 r' = Some q' -> (q' <= q)%Q.
Proof.
  apply (popped_candidate_is_best [0; 3; 6]%nat AFIGSExample.start22
           AFIGSExample.start22 [6; 0; 3]%nat [6; 0]%nat 3%nat).
  - vm_compute. reflexivity.
  - reflexivity.
Defined.

Example fit_clamps_max_int :
  max_int (fit Stump.fit 100 5 AFIGSExample.X2 AFIGSExample.y2 None
             (__init__ (Some 5) (Some 12) 0%Q)).1 = Some 1 /\
  max_int (fit Stump.fit 100 5 AFIGSExample.X2 AFIGSExample.y22 None
             (__init__ (Some 1) (Some 12) 0%Q)).1 = Some 1 /\
  max_int (fit Stump.fit 100 5 AFIGSExample.X2 AFIGSExample.y22 None
             (__init__ None (Some 12) 0%Q)).1 = Some 2.
Proof. vm_compute. repeat split. Qed.

Lemma fit_records_the_target_witness :
  let s := __init__ (Some 5) (Some 12) 0%Q in
  let s' := (fit Stump.fit 100 5 AFIGSExample.X2 AFIGSExample.y2 None
               (__init__ (Some 5) (Some 12) 0%Q)).1 in
  let y := AFIGSExample.y2 in
  n s' = Some (shape0 y) /\
  y_levels s' = (match column_levels y with Val levels => Some levels | _ => None end) /\
  (exists levels, column_levels y = Val levels /\ length levels = shape1 y) /\
  (exists mi trees,
     mi = match max_int s with
          | None => Z.of_nat (shape1 y)
          | Some v => if Z.of_nat (shape1 y) <? v then Z.of_nat (shape1 y) else v
          end /\
     max_int s' = Some mi /\ trees_ s' = Some trees /\
     length trees
     = length (flat_map (fun r => combinations (seq 0 (shape1 y)) r)
                 (seq 1 (Z.to_nat mi)))) /\
  max_rules s' = max_rules s /\
  min_impurity_decrease s' = min_impurity_decrease s /\
  prediction_task s' = prediction_task s.
Proof.
  apply (fit_records_the_target Stump.fit 100 5 AFIGSExample.X2 AFIGSExample.y2 None
           (__init__ (Some 5) (Some 12) 0%Q)
           (fit Stump.fit 100 5 AFIGSExample.X2 AFIGSExample.y2 None
              (__init__ (Some 5) (Some 12) 0%Q)).1).
  vm_compute. reflexivity.
Defined.

Lemma started_trees_are_roots_witness :
  exists nd, heap AFIGSExample.fitted2 !! 0%nat = Some nd /\ is_root nd = true /\
             tree_num nd = 0%nat.
Proof.
  apply (started_trees_are_roots Stump.fit 100 5 AFIGSExample.X2 AFIGSExample.y2 None
           (__init__ None (Some 12) 0%Q) AFIGSExample.fitted2)
    with (trees := [Some 0%nat]); vm_compute; reflexivity.
Defined.

Lemma predict_has_the_shape_of_y_witness :
  exists class_preds,
    Classes [[0]; [1]] = Classes class_preds /\
    length class_preds = shape0 AFIGSExample.y2 /\
    Forall (fun row => length row = shape1 AFIGSExample.y2) class_preds.
Proof.
  apply (predict_has_the_shape_of_y 100 Stump.fit 5 AFIGSExample.X2 AFIGSExample.y2 None
           (__init__ None (Some 12) 0%Q) AFIGSExample.fitted2 AFIGSExample.X2).
  - reflexivity.
  - vm_compute. reflexivity.
  - vm_compute. reflexivity.
Defined.

Lemma predict_rejects_other_row_counts_witness :
  (exists e, predict 100 AFIGSExample.fitted2 AFIGSExample.X3 = Exn e) /\
  (prediction_task AFIGSExample.fitted2 <> "regression" ->
   exists e, predict_proba 100 AFIGSExample.fitted2 AFIGSExample.X3 = Exn e).
Proof.
  apply (predict_rejects_other_row_counts 100 AFIGSExample.fitted2 AFIGSExample.X3
           2%nat [Some 0%nat] 0%nat).
  - vm_compute. reflexivity.
  - vm_compute. reflexivity.
  - left.
  - vm_compute. lia.
  - vm_compute. lia.
Defined.

Lemma predict_before_fit_raises_witness :
  predict 100 (__init__ None (Some 12) 0%Q) AFIGSExample.X1 = Exn TypeError /\
  predict_proba 100 (__init__ None (Some 12) 0%Q) AFIGSExample.X1 = Exn TypeError.
Proof.
  apply (predict_before_fit_raises 100 None (Some 12) 0%Q AFIGSExample.X1 AFIGSExample.X1).
  reflexivity.
Defined.

Lemma predict_reads_predict_proba_witness :
  exists levels,
    y_levels AFIGSExample.fitted2 = Some levels /\
    predict 100 AFIGSExample.fitted2 AFIGSExample.X2
    = (class_preds ← forM [[1; 0]; [0; 1]]%Q (best_class levels);
       Val (Classes class_preds)).
Proof.
  apply (predict_reads_predict_proba 100 AFIGSExample.fitted2 AFIGSExample.X2
           [[1; 0]; [0; 1]]%Q).
  - vm_compute. reflexivity.
  - vm_compute. reflexivity.
Defined.

(** * Properties of [AFIGS]: the shape of the trees *)

Lemma tidy_refl s : stays_formed s s.
Proof. intros H. exact H. Qed.

Lemma tidy_trans s1 s2 s3 :
  stays_formed s1 s2 -> stays_formed s2 s3 -> stays_formed s1 s3.
Proof. unfold stays_formed. auto. Qed.

Lemma tidy_same_heap s s' : heap s' = heap s -> stays_formed s s'.
Proof. unfold stays_formed. intros ->. auto. Qed.

Lemma node_fits_mono len len' r nd :
  (len <= len')%nat -> node_fits len r nd -> node_fits len' r nd.
Proof.
  intros Hle [Hok Hl]. split; [exact Hok|]. intros x Hx. specialize (Hl x Hx). lia.
Qed.

Lemma well_formed_insert h (r : ref) nd' :
  well_formed h -> node_fits (length h) r nd' -> well_formed (<[r:=nd']> h).
Proof.
  intros Hwf Hfit x nd Hx. rewrite length_insert.
  destruct (decide (x = r)) as [->|Hne].
  - assert (r < length h)%nat as Hlt
      by (apply lookup_lt_Some in Hx; rewrite length_insert in Hx; exact Hx).
    rewrite list_lookup_insert_eq in Hx by exact Hlt.
    injection Hx as <-. exact Hfit.
  - rewrite list_lookup_insert_ne in Hx by auto. apply Hwf. exact Hx.
Qed.

Lemma well_formed_app h new :
  well_formed h ->
  (forall (i : nat) nd, new !! i = Some nd ->
     node_fits (length h + length new)%nat (length h + i)%nat nd) ->
  well_formed (h ++ new).
Proof.
  intros Hwf Hnew r nd Hr. rewrite length_app.
  apply lookup_app_Some in Hr as [Hr|[Hge Hr]].
  - eapply node_fits_mono; [|apply Hwf; exact Hr]. lia.
  - specialize (Hnew _ _ Hr).
    replace (length h + (r - length h))%nat with r in Hnew by lia. exact Hnew.
Qed.

Create HintDb tidy.

Ltac tidy :=
  repeat first
    [ progress eauto with tidy
    | apply (keeps_ret _ tidy_refl)
    | apply (keeps_lift _ tidy_refl)
    | apply (keeps_get _ tidy_refl)
    | apply (keeps_raise _ _ tidy_refl)
    | apply keeps_modify; intros ?; apply tidy_same_heap; reflexivity
    | apply (keeps_bind _ tidy_trans); [|intros]
    | apply (keeps_foldM _ tidy_refl tidy_trans); intros
    | match goal with
      | |- keeps _ (if ?b then _ else _) => destruct b
      | |- keeps _ (match ?x with _ => _ end) => destruct x
      | |- keeps _ (let _ := _ in _) => cbv zeta
      end ].

Lemma tidy_attr {A} (o : option A) : keeps stays_formed (attr o).
Proof. unfold attr. tidy. Qed.
#[local] Hint Resolve tidy_attr : tidy.

Lemma tidy_node r : keeps stays_formed (node r).
Proof. intros s. unfold node. destruct (heap s !! r); apply tidy_refl. Qed.
#[local] Hint Resolve tidy_node : tidy.

Lemma tidy_setattrs r f :
  (forall len nd, node_fits len r nd -> node_fits len r (f nd)) ->
  keeps stays_formed (setattrs r f).
Proof.
  intros Hf s. unfold setattrs, node. run.
  destruct (heap s !! r) as [nd|] eqn:Hr; simpl; [|apply tidy_refl].
  intros Hok. simpl. apply well_formed_insert; [exact Hok|].
  apply Hf. apply Hok. exact Hr.
Qed.

Lemma tidy_with_is_root r b : keeps stays_formed (setattrs r (with_is_root b)).
Proof. apply tidy_setattrs. intros len nd H. exact H. Qed.
#[local] Hint Resolve tidy_with_is_root : tidy.

(** Line 244: the candidate children become the children. *)
Lemma tidy_promote r :
  keeps stays_formed (setattrs r (fun nd => with_children (left_temp nd) (right_temp nd) nd)).
Proof.
  apply tidy_setattrs. intros len nd [(H1 & H2 & H3) Hl]. split.
  - unfold node_ok. simpl. tauto.
  - intros x Hx. apply Hl. unfold links_of in *. simpl in Hx.
    rewrite !elem_of_app in *. tauto.
Qed.
#[local] Hint Resolve tidy_promote : tidy.

Lemma tidy_flatten_y t dims : keeps stays_formed (_flatten_y t dims).
Proof. unfold _flatten_y. tidy. Qed.
#[local] Hint Resolve tidy_flatten_y : tidy.

Lemma tidy_sorted nodes : keeps stays_formed (sorted nodes).
Proof. unfold sorted. tidy. Qed.
#[local] Hint Resolve tidy_sorted : tidy.

Lemma tidy_init_y y : keeps stays_formed (_init_y y).
Proof. intros s. apply tidy_same_heap. apply init_y_heap. Qed.
#[local] Hint Resolve tidy_init_y : tidy.

Lemma node_fits_leaf len r (x : Node) :
  left x = None -> right x = None -> left_temp x = None ->
  right_temp x = None -> node_fits len r x.
Proof.
  intros E1 E2 E3 E4. unfold node_fits, node_ok, links_of. rewrite E1, E2, E3, E4.
  assert (~ @is_Some ref None) as Hn by (intros [? [=]]).
  split; [tauto|]. simpl. intros x0 Hx. inversion Hx.
Qed.

Section Tidy.
Variable stump_fit : matrix -> matrix -> option (list Q) -> result stump_tree.
Variable recursion_limit : nat.

Local Opaque _compute_node_value.

(** Lines 123-172: every node the call creates fits where it is; the
    node it returns is the first of them and has a feature and a
    threshold. *)
Lemma construct_fits X y y_all mask tn sw s :
  let out := _construct_node_with_stump stump_fit X y y_all mask tn sw s in
  exists new,
    out.1 = set_heap (heap s ++ new) s /\
    (forall (i : nat) nd, new !! i = Some nd ->
       node_fits (length (heap s) + length new)%nat (length (heap s) + i)%nat nd) /\
    forall r, out.2 = Val r ->
      r = length (heap s) /\
      exists nd rest, new = nd :: rest /\
                      is_Some (feature nd) /\ is_Some (threshold nd).
Proof.
  assert (forall (e : result ref), (forall r, e <> Val r) ->
            exists new, s = set_heap (heap s ++ new) s /\
              (forall (i : nat) nd, new !! i = Some nd ->
                 node_fits (length (heap s) + length new)%nat
                   (length (heap s) + i)%nat nd) /\
              forall r, e = Val r ->
                r = length (heap s) /\
                exists nd rest, new = nd :: rest /\
                                is_Some (feature nd) /\ is_Some (threshold nd))
    as Hstop.
  { intros e He. exists []. rewrite app_nil_r, set_heap_same.
    split; [reflexivity|]. split; [intros i nd [=]|]. intros r Hr. destruct (He r Hr). }
  unfold _construct_node_with_stump. run.
  destruct (match sw with Some w => _ | None => _ end) as [sw'| |]; simpl;
    try (apply Hstop; discriminate).
  destruct (mask_rows X mask) as [Xs| |] eqn:EX; simpl; try (apply Hstop; discriminate).
  destruct (mask_rows y mask) as [ys| |]; simpl; try (apply Hstop; discriminate).
  destruct (stump_fit Xs ys sw') as [stump| |]; simpl; try (apply Hstop; discriminate).
  destruct (compute_node_value_readonly y_all mask s) as [rv ->].
  destruct rv as [value| |]; simpl; try (apply Hstop; discriminate).
  destruct (length (tree_feature stump) =? 1)%nat.
  - destruct (np_get (tree_feature stump) 0) as [f| |]; simpl;
      try (apply Hstop; discriminate).
    destruct (np_get (tree_threshold stump) 0) as [t| |]; simpl;
      try (apply Hstop; discriminate).
    unfold new_node. simpl. eexists [_]. split; [reflexivity|]. split.
    + intros [|i] nd [=]. subst nd. apply node_fits_leaf; reflexivity.
    + intros r [= <-]. split; [reflexivity|]. eexists _, _.
      split; [reflexivity|]. simpl. eauto.
  - repeat (match goal with
            | |- context [np_get ?l ?i] =>
                destruct (np_get l i); simpl; try (apply Hstop; discriminate)
            end).
    match goal with
    | |- context [set_heap (heap s ++ [?nd]) s] => set (nsplit := nd)
    end.
    set (s1 := set_heap (heap s ++ [nsplit]) s).
    assert (forall (e : result ref), (forall r, e <> Val r) ->
              exists new, s1 = set_heap (heap s ++ new) s /\
                (forall (i : nat) nd, new !! i = Some nd ->
                   node_fits (length (heap s) + length new)%nat
                     (length (heap s) + i)%nat nd) /\
                forall r, e = Val r ->
                  r = length (heap s) /\
                  exists nd rest, new = nd :: rest /\
                                  is_Some (feature nd) /\ is_Some (threshold nd))
      as Hstop1.
    { intros e He. exists [nsplit]. split; [reflexivity|]. split.
      - intros [|i] nd [=]. subst nd. apply node_fits_leaf; reflexivity.
      - intros r Hr. destruct (He r Hr). }
    destruct (get_col X _) as [col| |] eqn:Ecol; simpl;
      try (apply Hstop1; discriminate).
    match goal with
    | |- context [_compute_node_value y_all ?m s1] =>
        destruct (compute_node_value_readonly y_all m s1) as [rl ->]
    end.
    destruct rl as [vl| |]; simpl; try (apply Hstop1; discriminate).
    match goal with
    | |- context [_compute_node_value y_all ?m s1] =>
        destruct (compute_node_value_readonly y_all m s1) as [rr ->]
    end.
    destruct rr as [vr| |]; simpl; try (apply Hstop1; discriminate).
    unfold setattrs, node. run.
    rewrite <- !app_assoc. simpl.
    rewrite list_lookup_middle by reflexivity. simpl.
    rewrite insert_app_r_alt by lia. rewrite Nat.sub_diag. simpl.
    eexists [_; _; _]. split; [reflexivity|]. split.
    + intros [|[|[|i]]] nd [=]; subst nd; try (apply node_fits_leaf; reflexivity).
      split.
      * unfold node_ok, with_temps, nsplit. simpl.
        assert (~ @is_Some ref None) as Hn by (intros [? [=]]).
        split; [tauto|]. split; [split; eauto|]. eauto.
      * unfold links_of, with_temps, nsplit. simpl. rewrite !length_app. simpl.
        intros x Hx. apply elem_of_cons in Hx as [->|Hx]; [lia|].
        apply list_elem_of_singleton in Hx as ->. lia.
    + intros r [= <-]. split; [reflexivity|]. eexists _, _.
      split; [reflexivity|]. simpl. eauto.
Qed.

Lemma tidy_construct X y y_all mask tn sw :
  keeps stays_formed (_construct_node_with_stump stump_fit X y y_all mask tn sw).
Proof.
  intros s. destruct (construct_fits X y y_all mask tn sw s) as (new & -> & Hf & _).
  intros Hok. simpl. apply well_formed_app; assumption.
Qed.
#[local] Hint Resolve tidy_construct : tidy.

Lemma tidy_update_predictions X preds :
  keeps stays_formed (update_predictions recursion_limit X preds).
Proof. unfold update_predictions. tidy. Qed.
#[local] Hint Resolve tidy_update_predictions : tidy.

(** Lines 270-297: the old node takes the split of a node that
    [_construct_node_with_stump] has just built after it. *)
Lemma tidy_refit X y sw keys resid acc ps :
  keeps stays_formed (refit stump_fit X y sw keys resid acc ps).
Proof.
  intros s. unfold refit. run.
  destruct ps as [ps|]; simpl; [|apply tidy_refl].
  assert (node ps s = match heap s !! ps with
                      | Some nd => (s, Val nd)
                      | None => (s, Exn SystemError)
                      end) as -> by reflexivity.
  destruct (heap s !! ps) as [nd|] eqn:Hnd; simpl; [|apply tidy_refl].
  destruct (np_get keys _) as [tree_id| |]; simpl; try apply tidy_refl.
  destruct (resid !! _) as [res|]; simpl; [|apply tidy_refl].
  pose proof (tidy_flatten_y res tree_id s) as Hfl.
  destruct (_flatten_y res tree_id s) as [s0 [y_target| |]] eqn:Efl; simpl in *;
    try exact Hfl.
  assert (s0 = s) as ->.
  { revert Efl. unfold _flatten_y, attr. run. destruct (y_levels s); simpl; congruence. }
  destruct (construct_fits X y_target y (idxs nd) (tree_num nd) sw s)
    as (new & Hs1 & Hnew & Hval).
  destruct (_construct_node_with_stump _ _ _ _ _ _ _ _) as [s1 [updated| |]];
    simpl in *; subst s1;
    try (intros Hok; simpl; apply well_formed_app; assumption).
  destruct (Hval _ eq_refl) as (-> & u & rest & -> & Hfu & Htu).
  unfold setattrs, node. run.
  rewrite list_lookup_middle by reflexivity. simpl.
  rewrite (lookup_app_l_Some _ _ _ _ Hnd). simpl.
  rewrite list_lookup_insert_eq
    by (rewrite length_app; apply lookup_lt_Some in Hnd; lia).
  simpl.
  assert (stays_formed s
            (set_heap
               (<[ps:=with_split (feature u) (threshold u) (impurity_reduction u)
                        (left_temp u) (right_temp u) nd]> (heap s ++ u :: rest))
               (set_heap (heap s ++ u :: rest) s))) as Hev.
  { intros Hok. simpl.
    pose proof (well_formed_app _ _ Hok Hnew) as Hok1.
    apply well_formed_insert; [exact Hok1|].
    destruct (Hok1 ps nd (lookup_app_l_Some _ _ _ _ Hnd)) as [(N1 & _ & _) NL].
    destruct (Hnew 0%nat u eq_refl) as [(_ & U2 & _) UL].
    apply lookup_lt_Some in Hnd. split.
    - unfold node_ok. simpl. tauto.
    - intros x Hx. unfold links_of in *. simpl in Hx.
      rewrite !elem_of_app in Hx. destruct Hx as [Hx|[Hx|Hx]].
      + apply NL. rewrite !elem_of_app. tauto.
      + apply NL. rewrite !elem_of_app. tauto.
      + assert (length (heap s) + 0 < x
                < length (heap s) + length (u :: rest))%nat as Hlt
          by (apply UL; rewrite !elem_of_app; tauto).
        rewrite length_app. lia. }
  destruct (impurity_reduction u); simpl; exact Hev.
Qed.
#[local] Hint Resolve tidy_refit : tidy.

Lemma tidy_refresh X y sw keys y_onehot rest split_node loc :
  keeps stays_formed
    (refresh stump_fit recursion_limit X y sw keys y_onehot rest split_node loc).
Proof. unfold refresh. tidy. Qed.
#[local] Hint Resolve tidy_refresh : tidy.

Lemma tidy_commit X y sw keys y_onehot rest split_node loc :
  keeps stays_formed
    (commit stump_fit recursion_limit X y sw keys y_onehot rest split_node loc).
Proof. unfold commit. tidy. Qed.
#[local] Hint Resolve tidy_commit : tidy.

Lemma tidy_grow_step X y sw keys y_onehot rest split_node loc :
  keeps stays_formed
    (grow_step stump_fit recursion_limit X y sw keys y_onehot rest split_node loc).
Proof. unfold grow_step. tidy. Qed.
#[local] Hint Resolve tidy_grow_step : tidy.

Lemma tidy_grow fuel X y sw keys y_onehot loc :
  keeps stays_formed (grow stump_fit recursion_limit fuel X y sw keys y_onehot loc).
Proof.
  revert loc. induction fuel as [|fuel IH]; intros loc; simpl; tidy.
Qed.
#[local] Hint Resolve tidy_grow : tidy.

Lemma tidy_initial_splits X y sw y_dict :
  keeps stays_formed (initial_splits stump_fit X y sw y_dict).
Proof. unfold initial_splits. tidy. Qed.
#[local] Hint Resolve tidy_initial_splits : tidy.

Lemma tidy_fit fuel X y sw :
  keeps stays_formed (fit stump_fit recursion_limit fuel X y sw).
Proof. unfold fit, fit_locals. tidy. Qed.

(** X25.  Lines 174-306, whatever the outcome: every node has both
    children or none, a feature and a threshold once it has children,
    and its children and candidate children are nodes created after
    it. *)
Theorem fit_builds_binary_trees fuel X y sw s :
  well_formed (heap s) ->
  well_formed (heap (fit stump_fit recursion_limit fuel X y sw s).1).
Proof. apply tidy_fit. Qed.

End Tidy.

(** X26.  Lines 312-325 over such nodes: a point gets the value of a
    node without children, so the branches for a node with one child
    are never taken. *)
Theorem predicted_value_is_a_leaf_value depth h root x v :
  well_formed h ->
  _predict_tree_single_point depth h root x = Val v ->
  exists r nd, h !! r = Some nd /\ left nd = None /\ right nd = None /\ value nd = v.
Proof.
  intros Hok. revert root. induction depth as [|depth IH]; intros root; simpl;
    [discriminate|].
  destruct (h !! root) as [nd|] eqn:Hnd; [|discriminate].
  destruct (Hok _ _ Hnd) as [(N1 & _ & N3) _].
  destruct (left nd) as [l|] eqn:El, (right nd) as [r|] eqn:Er.
  - destruct (feature nd); simpl; [|discriminate].
    destruct (np_get x _); simpl; try discriminate.
    destruct (threshold nd); simpl; [|discriminate].
    destruct (Qle_bool _ _); apply IH.
  - destruct N1 as [N1 _]. destruct (N1 (ex_intro _ l eq_refl)) as [? [=]].
  - destruct N1 as [_ N1]. destruct (N1 (ex_intro _ r eq_refl)) as [? [=]].
  - intros [= <-]. exists root, nd. rewrite El, Er. auto.
Qed.

(** X27.  Lines 312-325: from a node of a well-formed heap the descent
    ends within the number of nodes after it; it fails only where the
    point has no entry for a feature. *)
Theorem prediction_descends depth h (root : ref) x :
  well_formed h -> (root < length h)%nat -> (length h - root <= depth)%nat ->
  (exists v, _predict_tree_single_point depth h root x = Val v) \/
  _predict_tree_single_point depth h root x = Exn IndexError.
Proof.
  intros Hok. revert root. induction depth as [|depth IH]; intros root Hlt Hd;
    [lia|]. simpl.
  destruct (h !! root) as [nd|] eqn:Hnd; [|apply lookup_ge_None in Hnd; lia].
  destruct (Hok _ _ Hnd) as [(N1 & _ & N3) NL].
  assert (forall c, left nd = Some c \/ right nd = Some c ->
            (exists v, _predict_tree_single_point depth h c x = Val v) \/
            _predict_tree_single_point depth h c x = Exn IndexError) as Hchild.
  { intros c Hc.
    assert (root < c < length h)%nat as Hcl.
    { apply NL. unfold links_of. rewrite !elem_of_app.
      destruct Hc as [-> | ->]; simpl; [left|right; left]; left. }
    apply IH; lia. }
  destruct (left nd) as [l|] eqn:El, (right nd) as [r|] eqn:Er.
  - destruct N3 as [[f Hf] [t Ht]]; [left; eauto|]. rewrite Hf, Ht. simpl.
    destruct (np_get x f) as [xf|e|] eqn:Ex; simpl.
    + destruct (Qle_bool xf t); apply Hchild; auto.
    + right. apply np_get_Exn in Ex as ->. reflexivity.
    + destruct (np_get_Fuel _ _ Ex).
  - destruct N1 as [N1 _]. destruct (N1 (ex_intro _ l eq_refl)) as [? [=]].
  - destruct N1 as [_ N1]. destruct (N1 (ex_intro _ r eq_refl)) as [? [=]].
  - left. eauto.
Qed.

(** * Properties of [AFIGS]: the nodes with children *)

Lemma splits_app h new : splits (h ++ new) = (splits h + splits new)%nat.
Proof. unfold splits. rewrite filter_app, length_app. reflexivity. Qed.

Lemma splits_insert_same h : forall (r : ref) nd nd',
  h !! r = Some nd -> left nd' = left nd -> splits (<[r:=nd']> h) = splits h.
Proof.
  unfold splits. induction h as [|a h IH]; intros [|r] nd nd' Hr Hl; simpl in *;
    try discriminate.
  - injection Hr as ->. rewrite !filter_cons, Hl.
    destruct (decide (is_Some (left nd))); reflexivity.
  - rewrite !filter_cons. destruct (decide (is_Some (left a))); simpl;
      erewrite IH; eauto.
Qed.

Lemma splits_insert_new h : forall (r : ref) nd nd',
  h !! r = Some nd -> left nd = None -> is_Some (left nd') ->
  splits (<[r:=nd']> h) = S (splits h).
Proof.
  unfold splits. induction h as [|a h IH]; intros [|r] nd nd' Hr Hl Hl'; simpl in *;
    try discriminate.
  - injection Hr as ->. rewrite !filter_cons, Hl.
    destruct (decide (is_Some (left nd'))); [|contradiction].
    destruct (decide (is_Some None)) as [[? [=]]|]. reflexivity.
  - rewrite !filter_cons. destruct (decide (is_Some (left a))); simpl;
      erewrite IH; eauto.
Qed.

Lemma splits_same_links h h' : same_links h h' -> splits h' = splits h.
Proof.
  unfold splits. induction 1 as [|a b h h' (Hl & _) _ IH]; [reflexivity|].
  rewrite !filter_cons, Hl. destruct (decide (is_Some (left a))); simpl; congruence.
Qed.

Lemma same_links_refl h : same_links h h.
Proof. apply Forall2_same_length_lookup_2; [reflexivity|]. intros i a b Ha Hb.
  rewrite Ha in Hb. injection Hb as <-. auto. Qed.

Lemma same_links_trans h1 h2 h3 : same_links h1 h2 -> same_links h2 h3 -> same_links h1 h3.
Proof.
  intros H1. revert h3. induction H1 as [|a b h1 h2 Hab _ IH]; intros h3 H2;
    inversion H2 as [|b' c h2' h3' Hbc Hr]; subst; constructor.
  - destruct Hab as (?&?&?&?&?), Hbc as (?&?&?&?&?). repeat split; congruence.
  - apply IH. assumption.
Qed.

Lemma same_links_lookup h h' (r : ref) nd :
  same_links h h' -> h !! r = Some nd ->
  exists nd', h' !! r = Some nd' /\ left nd' = left nd /\ right nd' = right nd /\
              left_temp nd' = left_temp nd /\ right_temp nd' = right_temp nd /\
              impurity_reduction nd' = impurity_reduction nd.
Proof.
  intros H Hr. destruct (Forall2_lookup_l _ _ _ _ _ H Hr) as (nd' & Hr' & Hp). eauto.
Qed.

Lemma same_links_insert h (r : ref) nd nd' :
  h !! r = Some nd -> left nd' = left nd -> right nd' = right nd ->
  left_temp nd' = left_temp nd -> right_temp nd' = right_temp nd ->
  impurity_reduction nd' = impurity_reduction nd ->
  same_links h (<[r:=nd']> h).
Proof.
  intros Hr H1 H2 H3 H4 H5. unfold ref in *. apply Forall2_same_length_lookup_2.
  - rewrite length_insert. reflexivity.
  - intros i a b Ha Hb. destruct (decide (i = r)) as [->|Hne].
    + rewrite list_lookup_insert_eq in Hb by (eapply lookup_lt_Some; eauto).
      injection Hb as <-. rewrite Hr in Ha. injection Ha as <-. auto.
    + rewrite list_lookup_insert_ne in Hb by auto. rewrite Ha in Hb.
      injection Hb as <-. auto.
Qed.

Lemma kids_same_links h h' pool :
  same_links h h' -> Forall (fun r => is_Some (h !! r)) pool -> kids h' pool = kids h pool.
Proof.
  intros H. unfold kids. induction 1 as [|r pool [nd Hr] _ IH]; simpl; [reflexivity|].
  destruct (same_links_lookup _ _ _ _ H Hr) as (nd' & Hr' & _ & _ & Ha & Hb & _).
  rewrite Hr, Hr', Ha, Hb, IH. reflexivity.
Qed.

Lemma childless_same_links h h' r : same_links h h' -> childless h r -> childless h' r.
Proof.
  intros H (nd & Hr & Hl & Hrt).
  destruct (same_links_lookup _ _ _ _ H Hr) as (nd' & Hr' & Hl' & Hrt' & _).
  exists nd'. split; [exact Hr'|]. split; congruence.
Qed.

Lemma pool_node_same_links h h' r : same_links h h' -> pool_node h r -> pool_node h' r.
Proof.
  intros H (nd & Hr & Hl & Hrt & Hk).
  destruct (same_links_lookup _ _ _ _ H Hr) as (nd' & Hr' & Hl' & Hrt' & Ht & Ht' & Hi).
  exists nd'. split; [exact Hr'|]. split; [congruence|]. split; [congruence|].
  rewrite Ht, Ht', Hi. exact Hk.
Qed.

Lemma pool_node_lookup h r : pool_node h r -> is_Some (h !! r).
Proof. intros (nd & Hr & _). eauto. Qed.

Lemma pool_ok_same_links h h' pool : same_links h h' -> pool_ok h pool -> pool_ok h' pool.
Proof.
  intros H (Hnd & Hc & Hk).
  assert (kids h' pool = kids h pool) as Ek.
  { apply kids_same_links; [exact H|]. eapply Forall_impl; [exact Hc|].
    apply pool_node_lookup. }
  unfold pool_ok. rewrite Ek. split; [exact Hnd|]. split.
  - eapply Forall_impl; [exact Hc|]. intros r. apply pool_node_same_links. exact H.
  - eapply Forall_impl; [exact Hk|]. intros r. apply childless_same_links. exact H.
Qed.

Lemma kids_perm h pool pool' : pool ≡ₚ pool' -> kids h pool ≡ₚ kids h pool'.
Proof.
  unfold kids. induction 1 as [|x l l' _ IH|x y l|l1 l2 l3 _ IH1 _ IH2]; simpl.
  - reflexivity.
  - rewrite IH. reflexivity.
  - rewrite !app_assoc. apply Permutation_app_tail. apply Permutation_app_comm.
  - etransitivity; eauto.
Qed.

Lemma pool_ok_perm h pool pool' : pool ≡ₚ pool' -> pool_ok h pool -> pool_ok h pool'.
Proof.
  intros H (Hnd & Hc & Hk). pose proof (kids_perm h _ _ H) as Ek.
  unfold pool_ok. rewrite <- Ek, <- H. auto.
Qed.

Lemma childless_lt h (r : ref) : childless h r -> (r < length h)%nat.
Proof. intros (nd & Hr & _). eapply lookup_lt_Some; eauto. Qed.

Lemma pool_node_childless h (r : ref) : pool_node h r -> childless h r.
Proof. intros (nd & Hr & Hl & Hrt & _). exists nd. auto. Qed.

Lemma built_inv base u rest :
  built base (u :: rest) ->
  left u = None /\ right u = None /\
  ((rest = [] /\ impurity_reduction u = None /\
    left_temp u = None /\ right_temp u = None) \/
   (exists l r, rest = [l; r] /\ is_Some (impurity_reduction u) /\
      left_temp u = Some (S base) /\ right_temp u = Some (S (S base)) /\
      left l = None /\ right l = None /\ left r = None /\ right r = None)).
Proof. intros (u0 & rest0 & [= <- <-] & H). exact H. Qed.

Lemma children_app h new : children (h ++ new) = children h ++ children new.
Proof. apply flat_map_app. Qed.

Lemma children_built base new : built base new -> children new = [].
Proof.
  intros (u & rest & -> & Hu & Hu' &
          [(-> & _)|(l & r & -> & _ & _ & _ & Hl & Hl' & Hr & Hr')]);
    unfold children; simpl; rewrite ?Hu, ?Hu', ?Hl, ?Hl', ?Hr, ?Hr'; reflexivity.
Qed.

Lemma children_insert_same h : forall (r : ref) nd nd',
  h !! r = Some nd -> left nd' = left nd -> right nd' = right nd ->
  children (<[r:=nd']> h) = children h.
Proof.
  unfold children. induction h as [|a h IH]; intros [|r] nd nd' Hr Hl Hl'; simpl in *;
    try discriminate.
  - injection Hr as ->. rewrite Hl, Hl'. reflexivity.
  - erewrite IH; eauto.
Qed.

Lemma children_insert_new h : forall (r : ref) nd nd' l r',
  h !! r = Some nd -> left nd = None -> right nd = None ->
  left nd' = Some l -> right nd' = Some r' ->
  children (<[r:=nd']> h) ≡ₚ l :: r' :: children h.
Proof.
  unfold children. induction h as [|a h IH]; intros [|r] nd nd' l r' Hr H1 H2 H3 H4;
    simpl in *; try discriminate.
  - injection Hr as ->. rewrite H1, H2, H3, H4. reflexivity.
  - rewrite (IH r nd nd' l r') by assumption.
    rewrite <- !Permutation_middle. reflexivity.
Qed.

Lemma children_same_links h h' : same_links h h' -> children h' = children h.
Proof.
  unfold children. induction 1 as [|a b h h' (Hl & Hr & _) _ IH]; [reflexivity|].
  simpl. rewrite Hl, Hr, IH. reflexivity.
Qed.

Lemma same_links_length h h' : same_links h h' -> length h' = length h.
Proof. intros H. symmetry. eapply Forall2_length; eauto. Qed.

Lemma forest_ok_same_links h h' pool :
  same_links h h' -> Forall (pool_node h) pool -> forest_ok h pool -> forest_ok h' pool.
Proof.
  intros H Hc [F1 F2]. unfold forest_ok.
  assert (kids h' pool = kids h pool) as Ek.
  { apply kids_same_links; [exact H|]. eapply Forall_impl; [exact Hc|].
    apply pool_node_lookup. }
  rewrite (children_same_links _ _ H), (same_links_length _ _ H), Ek. auto.
Qed.

Lemma forest_ok_perm h pool pool' : pool ≡ₚ pool' -> forest_ok h pool -> forest_ok h pool'.
Proof.
  intros H [F1 F2]. pose proof (kids_perm h _ _ H) as Ek.
  unfold forest_ok. rewrite <- Ek. auto.
Qed.

Lemma forest_ok_forest h pool : forest_ok h pool -> forest h.
Proof.
  intros [F1 F2]. split; [|exact F2]. apply NoDup_app in F1 as (F1 & _). exact F1.
Qed.

Lemma refit_lookup_other (h : list Node) (ps : ref) nd' new (x : ref) m :
  x <> ps -> h !! x = Some m -> <[ps:=nd']> (h ++ new) !! x = Some m.
Proof.
  intros Hne Hx. rewrite list_lookup_insert_ne by auto.
  apply lookup_app_l_Some. exact Hx.
Qed.

Lemma refit_lookup_ps (h : list Node) (ps : ref) nd nd' new :
  h !! ps = Some nd -> <[ps:=nd']> (h ++ new) !! ps = Some nd'.
Proof.
  intros Hps. apply list_lookup_insert_eq. rewrite length_app.
  apply lookup_lt_Some in Hps. lia.
Qed.

Lemma refit_childless h (ps : ref) nd nd' new (x : ref) :
  h !! ps = Some nd -> left nd' = None -> right nd' = None ->
  childless h x -> childless (<[ps:=nd']> (h ++ new)) x.
Proof.
  intros Hps Hnd Hnd' (m & Hx & Hl). destruct (decide (x = ps)) as [->|Hne].
  - exists nd'. split; [eapply refit_lookup_ps; eauto|]. split; assumption.
  - exists m. split; [apply refit_lookup_other; assumption|exact Hl].
Qed.

Lemma refit_pool_node h (ps : ref) nd' new (x : ref) :
  x <> ps -> pool_node h x -> pool_node (<[ps:=nd']> (h ++ new)) x.
Proof.
  intros Hne (m & Hx & Hl). exists m. split; [apply refit_lookup_other; assumption|exact Hl].
Qed.

Lemma refit_kids h (ps : ref) nd' new acc :
  ps ∉ acc -> Forall (pool_node h) acc -> kids (<[ps:=nd']> (h ++ new)) acc = kids h acc.
Proof.
  unfold kids. intros Hnot Hall. induction Hall as [|x acc (m & Hx & _) _ IH]; simpl;
    [reflexivity|].
  apply not_elem_of_cons in Hnot as [Hne Hnot].
  rewrite (refit_lookup_other h ps nd' new x m) by auto.
  rewrite Hx, IH by exact Hnot. reflexivity.
Qed.

Lemma refit_splits h (ps : ref) nd nd' u rest :
  h !! ps = Some nd -> left nd' = left nd -> built (length h) (u :: rest) ->
  splits (<[ps:=nd']> (h ++ u :: rest)) = splits h.
Proof.
  intros Hps Hnd Hb. erewrite splits_insert_same.
  - rewrite splits_app.
    assert (splits (u :: rest) = 0%nat) as ->; [|lia].
    apply built_inv in Hb as
        (Hu & _ & [(-> & _)|(l & r & -> & _ & _ & _ & Hl & _ & Hr & _)]);
      unfold splits; rewrite !filter_cons, ?Hu, ?Hl, ?Hr, ?filter_nil;
      repeat (destruct (decide (is_Some None)) as [[? [=]]|]); reflexivity.
  - apply lookup_app_l_Some. exact Hps.
  - exact Hnd.
Qed.

Lemma refit_children h (ps : ref) nd nd' new :
  h !! ps = Some nd -> left nd' = left nd -> right nd' = right nd ->
  built (length h) new ->
  children (<[ps:=nd']> (h ++ new)) = children h.
Proof.
  intros Hps Hl Hr Hb.
  rewrite (children_insert_same _ ps nd nd') by (auto using lookup_app_l_Some).
  rewrite children_app, (children_built _ _ Hb), app_nil_r. reflexivity.
Qed.

Lemma refit_step h (ps : ref) nd u rest acc todo :
  h !! ps = Some nd -> built (length h) (u :: rest) ->
  refit_ok h acc (ps :: todo) ->
  refit_ok (<[ps:=with_split (feature u) (threshold u) (impurity_reduction u)
                    (left_temp u) (right_temp u) nd]> (h ++ u :: rest))
    (match impurity_reduction u with Some _ => acc ++ [ps] | None => acc end) todo.
Proof.
  intros Hps Hbuilt (Hnd' & Hc & Hk). simpl in Hnd', Hk.
  set (nd' := with_split (feature u) (threshold u) (impurity_reduction u)
                (left_temp u) (right_temp u) nd).
  set (h1 := <[ps:=nd']> (h ++ u :: rest)).
  assert (left nd = None /\ right nd = None) as [Hnd Hndr].
  { apply Forall_inv in Hk as (m & Hm & Hl & Hr). split; congruence. }
  assert (ps ∉ acc) as Hnot.
  { intros Hin. apply NoDup_app in Hnd' as (_ & Hdis & _).
    apply (Hdis ps Hin). left. }
  assert (Forall (pool_node h1) acc) as Hc1.
  { rewrite Forall_forall in Hc. apply Forall_forall. intros x Hx.
    apply refit_pool_node; [|apply Hc; exact Hx]. intros ->. contradiction. }
  assert (Forall (childless h1) (todo ++ kids h acc)) as Hk1.
  { apply Forall_inv_tail in Hk. eapply Forall_impl; [exact Hk|].
    intros x. apply (refit_childless h ps nd); assumption. }
  assert (NoDup (acc ++ todo ++ kids h acc)) as Hnd1.
  { rewrite <- Permutation_middle in Hnd'. apply NoDup_cons in Hnd' as [_ H]. exact H. }
  pose proof (refit_kids h ps nd' (u :: rest) acc Hnot Hc) as Ek. fold h1 in Ek.
  apply built_inv in Hbuilt as
      (Hu & Hur & [(-> & Hi & Hl & Hr)
                  |(l & r & -> & Hi & Hl & Hr & Hll & Hll' & Hlr & Hlr')]).
  - rewrite Hi. unfold refit_ok. rewrite Ek. auto.
  - destruct Hi as [q Hi]. rewrite Hi.
    assert (h1 !! ps = Some nd') as Hps1 by (eapply refit_lookup_ps; eauto).
    assert (kids h1 (acc ++ [ps]) = kids h acc ++ [S (length h); S (S (length h))]) as Ek'.
    { transitivity (kids h1 acc ++ kids h1 [ps]); [apply flat_map_app|].
      rewrite Ek. f_equal. unfold kids. simpl.
      rewrite Hps1. unfold nd'. simpl. rewrite Hl, Hr. reflexivity. }
    unfold refit_ok. rewrite Ek'. split; [|split].
    + assert ((acc ++ [ps]) ++ todo ++ kids h acc ++ [S (length h); S (S (length h))]
              ≡ₚ (acc ++ ps :: todo ++ kids h acc)
                 ++ [S (length h); S (S (length h))]) as ->.
      { rewrite <- !app_assoc. simpl. apply Permutation_app_head.
        rewrite !app_assoc. reflexivity. }
      apply NoDup_app. split; [exact Hnd'|]. split.
      * intros x Hx Hx'.
        assert (x < length h)%nat as Hlt.
        { apply elem_of_app in Hx as [Hx|Hx].
          - rewrite Forall_forall in Hc. apply childless_lt, pool_node_childless, Hc, Hx.
          - rewrite Forall_forall in Hk. apply childless_lt, Hk, Hx. }
        apply elem_of_cons in Hx' as [->|Hx']; [lia|].
        apply list_elem_of_singleton in Hx' as ->. lia.
      * apply NoDup_cons. split; [|apply NoDup_singleton].
        intros Hx. apply list_elem_of_singleton in Hx. lia.
    + apply Forall_app. split; [exact Hc1|]. apply Forall_singleton.
      exists nd'. split; [exact Hps1|]. split; [exact Hnd|]. split; [exact Hndr|].
      intros _. unfold nd'. simpl. rewrite Hl, Hr. eauto.
    + rewrite app_assoc. apply Forall_app. split; [exact Hk1|].
      assert (ps < length h)%nat as Hlt by (eapply lookup_lt_Some; eauto).
      apply Forall_cons. split; [|apply Forall_singleton].
      * exists l. split; [|split; assumption]. unfold h1.
        rewrite list_lookup_insert_ne by lia.
        rewrite lookup_app_r by lia.
        replace (S (length h) - length h)%nat with 1%nat by lia. reflexivity.
      * exists r. split; [|split; assumption]. unfold h1.
        rewrite list_lookup_insert_ne by lia.
        rewrite lookup_app_r by lia.
        replace (S (S (length h)) - length h)%nat with 2%nat by lia. reflexivity.
Qed.

(** The same step for the children: the new candidate children are new
    nodes, so none of them is a child. *)
Lemma refit_step_forest h (ps : ref) nd u rest acc todo :
  h !! ps = Some nd -> built (length h) (u :: rest) ->
  refit_ok h acc (ps :: todo) -> forest_ok h acc ->
  forest_ok (<[ps:=with_split (feature u) (threshold u) (impurity_reduction u)
                     (left_temp u) (right_temp u) nd]> (h ++ u :: rest))
    (match impurity_reduction u with Some _ => acc ++ [ps] | None => acc end).
Proof.
  intros Hps Hbuilt (Hnd' & Hc & Hk) (F1 & F2). simpl in Hnd', Hk.
  set (nd' := with_split (feature u) (threshold u) (impurity_reduction u)
                (left_temp u) (right_temp u) nd).
  set (h1 := <[ps:=nd']> (h ++ u :: rest)).
  assert (ps ∉ acc) as Hnot.
  { intros Hin. apply NoDup_app in Hnd' as (_ & Hdis & _).
    apply (Hdis ps Hin). left. }
  assert (children h1 = children h) as Ec
    by (apply (refit_children h ps nd); auto).
  assert (Forall (fun x => (x < length h1)%nat) (children h)) as F2'.
  { eapply Forall_impl; [exact F2|]. intros x Hx. simpl in Hx.
    unfold h1. rewrite length_insert, length_app. lia. }
  pose proof (refit_kids h ps nd' (u :: rest) acc Hnot Hc) as Ek. fold h1 in Ek.
  apply built_inv in Hbuilt as
      (Hu & Hur & [(-> & Hi & Hl & Hr)|(l & r & -> & Hi & Hl & Hr & _)]).
  - rewrite Hi. unfold forest_ok. rewrite Ek, Ec. auto.
  - destruct Hi as [q Hi]. rewrite Hi.
    assert (h1 !! ps = Some nd') as Hps1 by (eapply refit_lookup_ps; eauto).
    assert (kids h1 (acc ++ [ps]) = kids h acc ++ [S (length h); S (S (length h))]) as Ek'.
    { transitivity (kids h1 acc ++ kids h1 [ps]); [apply flat_map_app|].
      rewrite Ek. f_equal. unfold kids. simpl.
      rewrite Hps1. unfold nd'. simpl. rewrite Hl, Hr. reflexivity. }
    unfold forest_ok. rewrite Ek', Ec, app_assoc. split; [|exact F2'].
    apply NoDup_app. split; [exact F1|]. split.
    + intros x Hx Hx'.
      assert (x < length h)%nat as Hlt.
      { apply elem_of_app in Hx as [Hx|Hx].
        - rewrite Forall_forall in F2. apply F2, Hx.
        - rewrite Forall_forall in Hk. apply childless_lt, Hk. right.
          apply elem_of_app. right. exact Hx. }
      apply elem_of_cons in Hx' as [->|Hx']; [lia|].
      apply list_elem_of_singleton in Hx' as ->. lia.
    + apply NoDup_cons. split; [|apply NoDup_singleton].
      intros Hx. apply list_elem_of_singleton in Hx. lia.
Qed.

Lemma steady_refl s : unmoved s s.
Proof. split; reflexivity. Qed.

Lemma steady_trans s1 s2 s3 : unmoved s1 s2 -> unmoved s2 s3 -> unmoved s1 s3.
Proof. intros [H1 H2] [H3 H4]. split; congruence. Qed.

Create HintDb steady.

Ltac steady :=
  repeat first
    [ progress eauto with steady
    | apply (keeps_ret _ steady_refl)
    | apply (keeps_lift _ steady_refl)
    | apply (keeps_get _ steady_refl)
    | apply (keeps_raise _ _ steady_refl)
    | apply keeps_modify; intros ?; split; reflexivity
    | apply (keeps_bind _ steady_trans); [|intros]
    | apply (keeps_foldM _ steady_refl steady_trans); intros
    | match goal with
      | |- keeps _ (if ?b then _ else _) => destruct b
      | |- keeps _ (match ?x with _ => _ end) => destruct x
      | |- keeps _ (let _ := _ in _) => cbv zeta
      end ].

Lemma steady_attr {A} (o : option A) : keeps unmoved (attr o).
Proof. unfold attr. steady. Qed.
#[local] Hint Resolve steady_attr : steady.

Lemma steady_node r : keeps unmoved (node r).
Proof. intros s. unfold node. destruct (heap s !! r); apply steady_refl. Qed.
#[local] Hint Resolve steady_node : steady.

Lemma steady_sorted nodes : keeps unmoved (sorted nodes).
Proof. unfold sorted. steady. Qed.

Lemma steady_init_y y : keeps unmoved (_init_y y).
Proof. unfold _init_y, _flatten_y. steady. Qed.

Lemma relinks_refl s : relinks s s.
Proof. split; [apply same_links_refl|reflexivity]. Qed.

Lemma relinks_trans s1 s2 s3 : relinks s1 s2 -> relinks s2 s3 -> relinks s1 s3.
Proof.
  intros [H1 H2] [H3 H4]. split; [eapply same_links_trans; eauto|congruence].
Qed.

Lemma relinks_is_root r b : keeps relinks (setattrs r (with_is_root b)).
Proof.
  intros s. unfold setattrs, node. run.
  destruct (heap s !! r) as [nd|] eqn:Hr; simpl; [|apply relinks_refl].
  split; [|reflexivity]. simpl. eapply same_links_insert; eauto.
Qed.

Lemma sorted_perm nodes s s' pool :
  sorted nodes s = (s', Val pool) -> s' = s /\ pool ≡ₚ nodes.
Proof.
  unfold sorted. intros H.
  apply bind_inv in H as (s1 & keyed & Hk & H).
  pose proof (sorted_keyed nodes s []) as Hkeyed. rewrite Hk in Hkeyed.
  destruct Hkeyed as (-> & Hkeyed & _). simpl in Hkeyed.
  assert (map snd keyed = nodes) as Hsnd.
  { rewrite Hkeyed, map_map. simpl. apply map_id. }
  destruct keyed as [|k1 [|k2 keyed]];
    try (injection H as <- <-; split; reflexivity).
  apply bind_inv in H as (s2 & floats & Hf & H).
  apply lift_Val in Hf as [Hf ->]. injection H as <- <-. split; [reflexivity|].
  apply forM_Forall2 in Hf.
  destruct (fold_insert_sorted floats [] I) as [_ Hperm].
  rewrite Hperm, app_nil_r, <- Hsnd. clear -Hf.
  induction Hf as [|a f l fl Ha _ IH]; [reflexivity|].
  simpl in *. rewrite IH. destruct (a.1); [|discriminate]. injection Ha as <-.
  reflexivity.
Qed.

Lemma map_Some_snoc {A} (pool : list A) rest x :
  map Some pool = rest ++ [x] ->
  exists rest' r, pool = rest' ++ [r] /\ rest = map Some rest' /\ x = Some r.
Proof.
  intros H. destruct pool as [|a pool _] using rev_ind.
  - destruct rest; discriminate.
  - rewrite map_app in H. simpl in H. apply app_inj_tail in H as [<- <-]. eauto.
Qed.

Lemma insert_childless h (r : ref) m (x : ref) :
  x <> r -> childless h x -> childless (<[r:=m]> h) x.
Proof.
  intros Hne (nd & Hx & Hl). exists nd. split; [|exact Hl].
  rewrite list_lookup_insert_ne by auto. exact Hx.
Qed.

Section Splits.
Variable stump_fit : matrix -> matrix -> option (list Q) -> result stump_tree.
Variable recursion_limit : nat.

Local Opaque _compute_node_value.

(** Lines 123-172, when the call returns. *)
Lemma construct_built X y y_all mask tn sw s s' r :
  _construct_node_with_stump stump_fit X y y_all mask tn sw s = (s', Val r) ->
  exists new,
    s' = set_heap (heap s ++ new) s /\ r = length (heap s) /\
    built (length (heap s)) new.
Proof.
  assert (let out := _construct_node_with_stump stump_fit X y y_all mask tn sw s in
          forall r, out.2 = Val r ->
            exists new, out.1 = set_heap (heap s ++ new) s /\ r = length (heap s) /\
                        built (length (heap s)) new) as H.
  { unfold _construct_node_with_stump. run.
    destruct (match sw with Some w => _ | None => _ end) as [sw'| |]; simpl;
      try solve [intros ? ?; discriminate].
    destruct (mask_rows X mask) as [Xs| |]; simpl; try solve [intros ? ?; discriminate].
    destruct (mask_rows y mask) as [ys| |]; simpl; try solve [intros ? ?; discriminate].
    destruct (stump_fit Xs ys sw') as [stump| |]; simpl; try solve [intros ? ?; discriminate].
    destruct (compute_node_value_readonly y_all mask s) as [rv ->].
    destruct rv as [value| |]; simpl; try solve [intros ? ?; discriminate].
    destruct (length (tree_feature stump) =? 1)%nat.
    - destruct (np_get (tree_feature stump) 0) as [f| |]; simpl; try solve [intros ? ?; discriminate].
      destruct (np_get (tree_threshold stump) 0) as [t| |]; simpl; try solve [intros ? ?; discriminate].
      unfold new_node. simpl. intros ? [= <-]. eexists [_].
      split; [reflexivity|]. split; [reflexivity|].
      eexists _, _. split; [reflexivity|]. split; [reflexivity|].
      split; [reflexivity|]. left. auto.
    - repeat (match goal with
              | |- context [np_get ?l ?i] =>
                  destruct (np_get l i); simpl; try solve [intros ? ?; discriminate]
              end).
      match goal with
      | |- context [set_heap (heap s ++ [?nd]) s] => set (nsplit := nd)
      end.
      set (s1 := set_heap (heap s ++ [nsplit]) s).
      destruct (get_col X _) as [col| |]; simpl; try solve [intros ? ?; discriminate].
      match goal with
      | |- context [_compute_node_value y_all ?m s1] =>
          destruct (compute_node_value_readonly y_all m s1) as [rl ->]
      end.
      destruct rl as [vl| |]; simpl; try solve [intros ? ?; discriminate].
      match goal with
      | |- context [_compute_node_value y_all ?m s1] =>
          destruct (compute_node_value_readonly y_all m s1) as [rr ->]
      end.
      destruct rr as [vr| |]; simpl; try solve [intros ? ?; discriminate].
      unfold setattrs, node. run.
      rewrite <- !app_assoc. simpl.
      rewrite list_lookup_middle by reflexivity. simpl.
      rewrite insert_app_r_alt by lia. rewrite Nat.sub_diag. simpl.
      intros ? [= <-]. eexists [_; _; _].
      split; [reflexivity|]. split; [reflexivity|].
      eexists _, _. split; [reflexivity|]. split; [reflexivity|].
      split; [reflexivity|]. right.
      eexists _, _. split; [reflexivity|]. simpl. split; [eauto|].
      rewrite !length_app. simpl.
      replace (length (heap s) + 1)%nat with (S (length (heap s))) by lia.
      replace (length (heap s) + 2)%nat with (S (S (length (heap s)))) by lia.
      repeat split; reflexivity. }
  intros E. simpl in H. rewrite E in H. apply (H r eq_refl).
Qed.

(** Lines 270-297, when the call returns: the node of the pool takes
    the split of a stump that has just been built. *)
Lemma refit_effect X y sw keys resid acc (ps : ref) s s' acc' :
  refit stump_fit X y sw keys resid acc (Some ps) s = (s', Val acc') ->
  exists nd u rest,
    heap s !! ps = Some nd /\ built (length (heap s)) (u :: rest) /\
    s' = set_heap (<[ps:=with_split (feature u) (threshold u) (impurity_reduction u)
                          (left_temp u) (right_temp u) nd]> (heap s ++ u :: rest)) s /\
    acc' = match impurity_reduction u with Some _ => acc ++ [ps] | None => acc end.
Proof.
  unfold refit. intros H.
  apply bind_inv in H as (s1 & r & Hps & H). injection Hps as <- <-.
  apply bind_inv in H as (s1 & nd & Hn & H). apply node_inv in Hn as [-> Hnd].
  apply bind_inv in H as (s1 & tree_id & Hl & H). apply lift_Val in Hl as [_ ->].
  apply bind_inv in H as (s1 & res & Hres & H).
  assert (s1 = s) as ->.
  { destruct (resid !! tree_num nd); [injection Hres as <- _; reflexivity|discriminate]. }
  clear Hres.
  apply bind_inv in H as (s1 & y_target & Hfl & H).
  assert (s1 = s) as ->.
  { revert Hfl. unfold _flatten_y, attr. run. destruct (y_levels s); simpl; congruence. }
  clear Hfl.
  apply bind_inv in H as (s1 & updated & Hc & H).
  apply construct_built in Hc as (new & -> & -> & Hb).
  destruct Hb as (u & rest & -> & Hb').
  exists nd, u, rest. split; [exact Hnd|]. split.
  { exists u, rest. split; [reflexivity|exact Hb']. }
  revert H. unfold setattrs, node. run.
  rewrite list_lookup_middle by reflexivity. simpl.
  rewrite (lookup_app_l_Some _ _ _ _ Hnd). simpl.
  rewrite list_lookup_insert_eq
    by (rewrite length_app; apply lookup_lt_Some in Hnd; lia).
  simpl. destruct (impurity_reduction u); intros [= <- <-]; auto.
Qed.

(** Lines 123-172, when the call returns: the stump was fitted on the
    rows of the mask, and the new node has its root feature and
    threshold and, when the stump has a split, the impurity reduction
    computed from it. *)
Lemma construct_stump X y y_all mask tn sw s s' r :
  _construct_node_with_stump stump_fit X y y_all mask tn sw s = (s', Val r) ->
  exists w Xs ys stump u rest f t,
    match sw with
    | Some w0 => w' ← np_mask w0 mask; Val (Some w')
    | None => Val None
    end = Val w /\
    mask_rows X mask = Val Xs /\ mask_rows y mask = Val ys /\
    stump_fit Xs ys w = Val stump /\
    s' = set_heap (heap s ++ u :: rest) s /\ r = length (heap s) /\
    np_get (tree_feature stump) 0 = Val f /\
    np_get (tree_threshold stump) 0 = Val t /\
    feature u = Some f /\ threshold u = Some t /\
    if (length (tree_feature stump) =? 1)%nat then
      impurity_reduction u = None /\ left_temp u = None /\ right_temp u = None
    else
      exists i0 i1 i2 n0 n1 n2,
        np_get (tree_impurity stump) 0 = Val i0 /\
        np_get (tree_impurity stump) 1 = Val i1 /\
        np_get (tree_impurity stump) 2 = Val i2 /\
        np_get (tree_n_node_samples stump) 0 = Val n0 /\
        np_get (tree_n_node_samples stump) 1 = Val n1 /\
        np_get (tree_n_node_samples stump) 2 = Val n2 /\
        impurity_reduction u
        = Some ((i0 - i1 * inject_Z n1 / inject_Z n0 - i2 * inject_Z n2 / inject_Z n0)
                * inject_Z (mask_sum mask))%Q /\
        left_temp u = Some (S (length (heap s))) /\
        right_temp u = Some (S (S (length (heap s)))).
Proof.
  unfold _construct_node_with_stump. intros H.
  apply bind_inv in H as (s1 & w & Hw & H). apply lift_Val in Hw as [Hw ->].
  apply bind_inv in H as (s1 & Xs & HX & H). apply lift_Val in HX as [HX ->].
  apply bind_inv in H as (s1 & ys & Hy & H). apply lift_Val in Hy as [Hy ->].
  apply bind_inv in H as (s1 & stump & Hst & H). apply lift_Val in Hst as [Hst ->].
  apply bind_inv in H as (s1 & value & Hv & H).
  destruct (compute_node_value_readonly y_all mask s) as [rv Erv].
  rewrite Erv in Hv. injection Hv as <- ->.
  destruct (length (tree_feature stump) =? 1)%nat eqn:El.
  - apply bind_inv in H as (s1 & f & Hf & H). apply lift_Val in Hf as [Hf ->].
    apply bind_inv in H as (s1 & t & Ht & H). apply lift_Val in Ht as [Ht ->].
    unfold new_node in H. injection H as <- <-.
    eexists w, Xs, ys, stump, _, [], f, t.
    split; [exact Hw|]. split; [exact HX|]. split; [exact Hy|]. split; [exact Hst|].
    split; [reflexivity|]. split; [reflexivity|]. split; [exact Hf|].
    split; [exact Ht|]. simpl. rewrite El. auto 6.
  - apply bind_inv in H as (s1 & i0 & Hi0 & H). apply lift_Val in Hi0 as [Hi0 ->].
    apply bind_inv in H as (s1 & i1 & Hi1 & H). apply lift_Val in Hi1 as [Hi1 ->].
    apply bind_inv in H as (s1 & n1 & Hn1 & H). apply lift_Val in Hn1 as [Hn1 ->].
    apply bind_inv in H as (s1 & n0 & Hn0 & H). apply lift_Val in Hn0 as [Hn0 ->].
    apply bind_inv in H as (s1 & i2 & Hi2 & H). apply lift_Val in Hi2 as [Hi2 ->].
    apply bind_inv in H as (s1 & n2 & Hn2 & H). apply lift_Val in Hn2 as [Hn2 ->].
    apply bind_inv in H as (s1 & f & Hf & H). apply lift_Val in Hf as [Hf ->].
    apply bind_inv in H as (s1 & t & Ht & H). apply lift_Val in Ht as [Ht ->].
    apply bind_inv in H as (s1 & node_split & Hns & H).
    unfold new_node in Hns. injection Hns as <- <-.
    apply bind_inv in H as (s1 & col & Hcol & H). apply lift_Val in Hcol as [Hcol ->].
    apply bind_inv in H as (s1 & vl & Hvl & H).
    match type of Hvl with
    | _compute_node_value y_all ?m ?st = _ =>
        destruct (compute_node_value_readonly y_all m st) as [rl Erl]
    end.
    rewrite Erl in Hvl. injection Hvl as <- ->.
    apply bind_inv in H as (s1 & vr & Hvr & H).
    match type of Hvr with
    | _compute_node_value y_all ?m ?st = _ =>
        destruct (compute_node_value_readonly y_all m st) as [rr Err]
    end.
    rewrite Err in Hvr. injection Hvr as <- ->.
    apply bind_inv in H as (s1 & node_left & Hnl & H).
    unfold new_node in Hnl. injection Hnl as <- <-.
    apply bind_inv in H as (s1 & node_right & Hnr & H).
    unfold new_node in Hnr. injection Hnr as <- <-.
    apply bind_inv in H as (s1 & [] & Hset & H).
    revert Hset. unfold setattrs, node. run.
    rewrite <- !app_assoc. simpl.
    rewrite list_lookup_middle by reflexivity. simpl.
    rewrite insert_app_r_alt by lia. rewrite Nat.sub_diag. simpl.
    intros Hset. injection Hset as <-. injection H as <- <-.
    eexists w, Xs, ys, stump, _, [_; _], f, t.
    split; [exact Hw|]. split; [exact HX|]. split; [exact Hy|]. split; [exact Hst|].
    split; [reflexivity|]. split; [reflexivity|]. split; [exact Hf|].
    split; [exact Ht|]. simpl. split; [reflexivity|]. split; [reflexivity|].
    rewrite El. exists i0, i1, i2, n0, n1, n2.
    rewrite !length_app. simpl.
    replace (length (heap s) + 1)%nat with (S (length (heap s))) by lia.
    replace (length (heap s) + 2)%nat with (S (S (length (heap s)))) by lia.
    auto 12.
Qed.

(** X19.  Lines 270-297 for one candidate of the pool, when they go
    through: the stump is fitted again on the rows of the candidate and
    on the residual of its tree, flattened to the outputs of the tree;
    the candidate takes the root feature and threshold of that stump
    and keeps its value, mask, root flag and children; when the stump
    has no split the candidate has no impurity reduction and is left
    out of the new pool, and when it has one the candidate gets the
    impurity reduction computed from that stump and its two candidate
    children, and is appended to the new pool. *)
Theorem refit_keeps_splittable X y sw keys resid acc ps s s' acc' :
  refit stump_fit X y sw keys resid acc ps s = (s', Val acc') ->
  exists (r : ref) nd nd' tree_id res y_target w Xs ys stump f t,
    ps = Some r /\ heap s !! r = Some nd /\ heap s' !! r = Some nd' /\
    np_get keys (Z.of_nat (tree_num nd)) = Val tree_id /\
    resid !! tree_num nd = Some res /\
    _flatten_y res tree_id s = (s, Val y_target) /\
    match sw with
    | Some w0 => w' ← np_mask w0 (idxs nd); Val (Some w')
    | None => Val None
    end = Val w /\
    mask_rows X (idxs nd) = Val Xs /\ mask_rows y_target (idxs nd) = Val ys /\
    stump_fit Xs ys w = Val stump /\
    np_get (tree_feature stump) 0 = Val f /\
    np_get (tree_threshold stump) 0 = Val t /\
    feature nd' = Some f /\ threshold nd' = Some t /\
    value nd' = value nd /\ idxs nd' = idxs nd /\ is_root nd' = is_root nd /\
    tree_num nd' = tree_num nd /\ left nd' = left nd /\ right nd' = right nd /\
    if (length (tree_feature stump) =? 1)%nat then
      impurity_reduction nd' = None /\ left_temp nd' = None /\ right_temp nd' = None /\
      acc' = acc
    else
      exists i0 i1 i2 n0 n1 n2,
        np_get (tree_impurity stump) 0 = Val i0 /\
        np_get (tree_impurity stump) 1 = Val i1 /\
        np_get (tree_impurity stump) 2 = Val i2 /\
        np_get (tree_n_node_samples stump) 0 = Val n0 /\
        np_get (tree_n_node_samples stump) 1 = Val n1 /\
        np_get (tree_n_node_samples stump) 2 = Val n2 /\
        impurity_reduction nd'
        = Some ((i0 - i1 * inject_Z n1 / inject_Z n0 - i2 * inject_Z n2 / inject_Z n0)
                * inject_Z (mask_sum (idxs nd)))%Q /\
        left_temp nd' = Some (S (length (heap s))) /\
        right_temp nd' = Some (S (S (length (heap s)))) /\
        acc' = acc ++ [r].
Proof.
  unfold refit. intros H.
  apply bind_inv in H as (s1 & r & Hps & H).
  destruct ps as [r0|]; [|discriminate]. injection Hps as <- <-.
  apply bind_inv in H as (s1 & nd & Hn & H). apply node_inv in Hn as [-> Hnd].
  apply bind_inv in H as (s1 & tree_id & Hl & H). apply lift_Val in Hl as [Hid ->].
  apply bind_inv in H as (s1 & res & Hres & H).
  destruct (resid !! tree_num nd) as [res0|] eqn:Er; [|discriminate].
  injection Hres as <- <-.
  apply bind_inv in H as (s1 & y_target & Hfl & H).
  pose proof Hfl as Hfl'. apply flatten_y_Val in Hfl' as [-> _].
  apply bind_inv in H as (s1 & updated & Hc & H).
  apply construct_stump in Hc
    as (w & Xs & ys & stump & u & rest & f & t & Hw & HX & Hy & Hst & -> & -> &
        Hf & Ht & Huf & Hut & Hcase).
  revert H. unfold setattrs, node. run.
  rewrite list_lookup_middle by reflexivity. simpl.
  rewrite (lookup_app_l_Some _ _ _ _ Hnd). simpl.
  rewrite list_lookup_insert_eq
    by (rewrite length_app; apply lookup_lt_Some in Hnd; lia).
  simpl. intros H.
  exists r0, nd,
    (with_split (feature u) (threshold u) (impurity_reduction u)
       (left_temp u) (right_temp u) nd),
    tree_id, res0, y_target, w, Xs, ys, stump, f, t.
  assert (s' = set_heap (<[r0:=with_split (feature u) (threshold u)
                                   (impurity_reduction u) (left_temp u) (right_temp u)
                                   nd]> (heap s ++ u :: rest)) s) as Es'.
  { destruct (impurity_reduction u); injection H as <- _; reflexivity. }
  split; [reflexivity|]. split; [exact Hnd|]. split.
  { rewrite Es'. simpl. apply list_lookup_insert_eq.
    rewrite length_app. apply lookup_lt_Some in Hnd. lia. }
  split; [exact Hid|]. split; [exact Er|]. split; [exact Hfl|].
  split; [exact Hw|]. split; [exact HX|]. split; [exact Hy|]. split; [exact Hst|].
  split; [exact Hf|]. split; [exact Ht|]. simpl.
  split; [exact Huf|]. split; [exact Hut|].
  do 6 (split; [reflexivity|]).
  destruct (length (tree_feature stump) =? 1)%nat.
  - destruct Hcase as (Hir & Hlt & Hrt). rewrite Hir in H. injection H as _ <-. auto.
  - destruct Hcase as (i0 & i1 & i2 & n0 & n1 & n2 & H0 & H1 & H2 & H3 & H4 & H5 &
                       Hir & Hlt & Hrt).
    rewrite Hir in H. injection H as _ <-.
    exists i0, i1, i2, n0, n1, n2. auto 12.
Qed.

Lemma steady_update_predictions X preds :
  keeps unmoved (update_predictions recursion_limit X preds).
Proof. unfold update_predictions. steady. Qed.

Lemma same_trees_refl h : same_trees h h.
Proof. intros r nd H. exists nd. auto 10. Qed.

Lemma same_trees_trans h1 h2 h3 :
  same_trees h1 h2 -> same_trees h2 h3 -> same_trees h1 h3.
Proof.
  intros H12 H23 r nd H.
  destruct (H12 r nd H) as (nd2 & H2 & L2 & R2 & V2 & F2).
  destruct (H23 r nd2 H2) as (nd3 & H3 & L3 & R3 & V3 & F3).
  exists nd3. split; [exact H3|]. split; [congruence|]. split; [congruence|].
  split; [congruence|].
  destruct F2 as [[E1 E2]|[E1 E2]]; [left; auto|].
  destruct F3 as [[E3 E4]|[E3 E4]]; [left; split; congruence|right; split; congruence].
Qed.

(** Lines 286-292 change no tree: the node that is refitted has no
    children, and its value stays. *)
Lemma refit_same_trees h (ps : ref) nd nd' new :
  h !! ps = Some nd -> left nd = None -> right nd = None ->
  left nd' = None -> right nd' = None -> value nd' = value nd ->
  same_trees h (<[ps:=nd']> (h ++ new)).
Proof.
  intros Hps L R L' R' V r m Hr. destruct (decide (r = ps)) as [->|Hne].
  - exists nd'. rewrite Hps in Hr. injection Hr as <-.
    split; [eapply refit_lookup_ps; eauto|]. split; [congruence|].
    split; [congruence|]. split; [exact V|]. left. auto.
  - exists m. split; [apply refit_lookup_other; assumption|]. auto 10.
Qed.

Lemma predict_point_same_trees h h' :
  same_trees h h' -> forall depth root x v,
    _predict_tree_single_point depth h root x = Val v ->
    _predict_tree_single_point depth h' root x = Val v.
Proof.
  intros Hst. induction depth as [|depth IH]; intros root x v; simpl; [discriminate|].
  destruct (h !! root) as [nd|] eqn:Hnd; [|discriminate].
  destruct (Hst root nd Hnd) as (nd' & -> & L & R & V & F).
  rewrite L, R, V.
  destruct (left nd) as [l|] eqn:El, (right nd) as [r|] eqn:Er;
    try (destruct F as [[? ?]|[-> ->]]; [discriminate|]);
    try (intros H; exact H).
  - destruct (feature nd); simpl; [|discriminate].
    destruct (np_get x _); simpl; try discriminate.
    destruct (threshold nd); simpl; [|discriminate].
    destruct (Qle_bool _ _); apply IH.
  - destruct (feature nd); simpl; [|discriminate].
    destruct (np_get x _); simpl; try discriminate.
    destruct (threshold nd); simpl; [|discriminate].
    destruct (Qle_bool _ _); [apply IH|intros H; exact H].
  - destruct (feature nd); simpl; [|discriminate].
    destruct (np_get x _); simpl; try discriminate.
    destruct (threshold nd); simpl; [|discriminate].
    destruct (Qle_bool _ _); [intros H; exact H|apply IH].
Qed.

Lemma forM_mono {A B} (f g : A -> result B) l r :
  (forall x b, f x = Val b -> g x = Val b) -> forM l f = Val r -> forM l g = Val r.
Proof.
  intros Hfg. revert r. induction l as [|x l IH]; intros r; simpl; [auto|]. run.
  destruct (f x) as [b| |] eqn:E; try discriminate. rewrite (Hfg x b E). simpl.
  destruct (forM l f) as [bs| |]; try discriminate. rewrite (IH bs eq_refl). auto.
Qed.

Lemma predict_tree_same s s' root X p :
  same_trees (heap s) (heap s') -> y_levels s' = y_levels s ->
  _predict_tree recursion_limit s root X = Val p ->
  _predict_tree recursion_limit s' root X = Val p.
Proof.
  intros Hst Hl. unfold _predict_tree. rewrite Hl. run.
  destruct (y_levels s) as [levels|]; [|discriminate]. simpl.
  destruct (np_zeros_rows (shape0 X) levels); try discriminate. simpl.
  apply forM_mono. intros x b. run.
  destruct (_predict_tree_single_point recursion_limit (heap s) root x) as [v| |] eqn:E;
    try discriminate.
  rewrite (predict_point_same_trees _ _ Hst _ _ _ _ E). auto.
Qed.

Lemma tree_prediction_same s s' X u p :
  same_trees (heap s) (heap s') -> y_levels s' = y_levels s -> n s' = n s ->
  trees_ s' = trees_ s ->
  tree_prediction recursion_limit s X u = Val p ->
  tree_prediction recursion_limit s' X u = Val p.
Proof.
  intros Hst Hl Hn Ht. unfold tree_prediction. rewrite Hl, Hn, Ht. run.
  destruct (trees_ s) as [trees|]; [|discriminate]. simpl.
  destruct (trees !! u) as [[root|]|]; auto.
  apply predict_tree_same; assumption.
Qed.

(** Lines 250-254: every tree gets its prediction, and nothing else
    changes. *)
Lemma update_predictions_effect X preds0 s s1 preds :
  update_predictions recursion_limit X preds0 s = (s1, Val preds) ->
  s1 = s /\
  forall trees u, trees_ s = Some trees -> (u < length trees)%nat ->
    exists p, preds !! u = Some p /\ tree_prediction recursion_limit s X u = Val p.
Proof.
  unfold update_predictions. intros H.
  apply bind_inv in H as (s0 & s0' & Hget & H). injection Hget as <- <-.
  apply bind_inv in H as (s0 & trees & Ht & H). apply attr_inv in Ht as [-> Ht].
  assert (forall (l : list nat) (acc : gmap nat tensor) s1 (r : gmap nat tensor),
            NoDup l -> Forall (fun u => (u < length trees)%nat) l ->
            foldM (fun acc tree_num_ =>
                     match trees !! tree_num_ with
                     | Some (Some root) =>
                         s ← get;
                         p ← lift (_predict_tree recursion_limit s root X);
                         mret (<[tree_num_ := p]> acc)
                     | _ =>
                         s ← get;
                         p ← lift (match n s, y_levels s with
                                   | Some n, Some levels => np_zeros_rows n levels
                                   | _, _ => Exn TypeError
                                   end);
                         mret (<[tree_num_ := p]> acc)
                     end) l acc s = (s1, Val r) ->
            s1 = s /\
            (forall u, u ∈ l ->
               exists p, r !! u = Some p /\
                         tree_prediction recursion_limit s X u = Val p) /\
            (forall u, u ∉ l -> r !! u = acc !! u)) as Hgen.
  { induction l as [|u l IH]; intros acc s1' r Hnd Hall; simpl.
    - intros [= <- <-]. split; [reflexivity|]. split; [intros ? Hu; inversion Hu|auto].
    - apply NoDup_cons in Hnd as [Hu Hnd]. apply Forall_cons in Hall as [Hlt Hall].
      intros Hf. apply bind_inv in Hf as (s2 & acc2 & Hstep & Hf).
      assert (s2 = s /\ exists p, acc2 = <[u:=p]> acc /\
                                  tree_prediction recursion_limit s X u = Val p)
        as (-> & p & -> & Hp).
      { unfold tree_prediction. rewrite Ht. simpl.
        destruct (trees !! u) as [[root|]|] eqn:Eu.
        - apply bind_inv in Hstep as (s3 & s3' & Hget & Hstep). injection Hget as <- <-.
          apply bind_inv in Hstep as (s3 & p & Hp & Hstep).
          apply lift_Val in Hp as [Hp ->]. injection Hstep as <- <-. eauto.
        - apply bind_inv in Hstep as (s3 & s3' & Hget & Hstep). injection Hget as <- <-.
          apply bind_inv in Hstep as (s3 & p & Hp & Hstep).
          apply lift_Val in Hp as [Hp ->]. injection Hstep as <- <-. eauto.
        - apply lookup_ge_None in Eu. lia. }
      apply IH in Hf as (-> & H1 & H2); [|exact Hnd|exact Hall].
      split; [reflexivity|]. split.
      + intros u' Hin. apply elem_of_cons in Hin as [->|Hin].
        * exists p. rewrite (H2 _ Hu), lookup_insert_eq. auto.
        * apply H1. exact Hin.
      + intros u' Hnot. apply not_elem_of_cons in Hnot as [Hne Hnot].
        rewrite (H2 _ Hnot), lookup_insert_ne by auto. reflexivity. }
  apply Hgen in H as (-> & H1 & _).
  - split; [reflexivity|]. intros trees' u Ht' Hu. rewrite Ht in Ht'. injection Ht' as <-.
    apply H1. apply elem_of_seq. lia.
  - apply NoDup_seq.
  - apply Forall_forall. intros u Hu. apply elem_of_seq in Hu. lia.
Qed.

(** Lines 270-297 over the whole pool. *)
Lemma refit_fold X y sw keys resid : forall todo acc s s' acc',
  foldM (refit stump_fit X y sw keys resid) (map Some todo) acc s = (s', Val acc') ->
  refit_ok (heap s) acc todo ->
  pool_ok (heap s') acc' /\ splits (heap s') = splits (heap s) /\
  complexity_ s' = complexity_ s /\
  (forest_ok (heap s) acc -> forest_ok (heap s') acc') /\
  same_trees (heap s) (heap s') /\
  y_levels s' = y_levels s /\ n s' = n s /\ trees_ s' = trees_ s.
Proof.
  induction todo as [|ps todo IH]; intros acc s s' acc' H Hok; simpl in H.
  - injection H as <- <-. split; [exact Hok|]. split; [reflexivity|].
    split; [reflexivity|]. split; [auto|]. split; [apply same_trees_refl|auto].
  - apply bind_inv in H as (s1 & acc1 & Hr & H).
    apply refit_effect in Hr as (nd & u & rest & Hps & Hb & -> & ->).
    assert (left nd = None /\ right nd = None) as [Hl Hr].
    { destruct Hok as (_ & _ & Hk). apply Forall_inv in Hk as (m & Hm & Hl & Hr).
      split; congruence. }
    apply IH in H as (H1 & H2 & H3 & H4 & H5 & H6 & H7 & H8).
    + split; [exact H1|]. split; [|split; [exact H3|split; [|split; [|auto]]]].
      * rewrite H2. simpl. eapply refit_splits; eauto.
      * intros F. apply H4. simpl.
        apply (refit_step_forest _ _ _ _ _ _ todo); assumption.
      * eapply same_trees_trans; [|exact H5]. simpl.
        apply (refit_same_trees _ _ nd); auto.
    + simpl. apply refit_step; assumption.
Qed.

(** A pool with [None] in it makes line 271 raise. *)
Lemma refit_fold_Some X y sw keys resid : forall pool acc s s' acc',
  foldM (refit stump_fit X y sw keys resid) pool acc s = (s', Val acc') ->
  exists todo, pool = map Some todo.
Proof.
  induction pool as [|ps pool IH]; intros acc s s' acc' H; simpl in H.
  - exists []. reflexivity.
  - apply bind_inv in H as (s1 & acc1 & Hr & H).
    destruct ps as [ps|].
    + apply IH in H as [todo ->]. exists (ps :: todo). reflexivity.
    + unfold refit in Hr. apply bind_inv in Hr as (? & ? & Hr & _). discriminate.
Qed.

(** Lines 225-300: the popped node gets its children, and they take
    its place in the pool; every tree gets its prediction and its
    residual, and the refits that follow change no tree. *)
Lemma refresh_effect X y sw keys y_onehot rest (r : ref) loc s s' loc' :
  refresh stump_fit recursion_limit X y sw keys y_onehot (map Some rest) r loc s
  = (s', Val loc') ->
  pool_ok (heap s) (rest ++ [r]) ->
  exists pool',
    potential_splits loc' = map Some pool' /\ pool_ok (heap s') pool' /\
    splits (heap s') = S (splits (heap s)) /\ complexity_ s' = complexity_ s /\
    (forest_ok (heap s) (rest ++ [r]) -> forest_ok (heap s') pool') /\
    (exists resid0,
       update_residuals keys y_onehot (y_predictions_per_tree loc') resid0
       = Val (y_residuals_per_tree loc')) /\
    (forall trees, trees_ s = Some trees ->
       exists trees',
         trees_ s' = Some trees' /\ length trees' = length trees /\
         forall u, (u < length trees)%nat ->
           exists p, y_predictions_per_tree loc' !! u = Some p /\
                     tree_prediction recursion_limit s' X u = Val p).
Proof.
  intros H (Hnd & Hc & Hk).
  assert (exists nd, heap s !! r = Some nd /\ left nd = None /\ right nd = None)
    as (nd & Hr & Hleft & Hright).
  { apply Forall_app in Hc as [_ Hc].
    apply Forall_inv in Hc as (nd0 & Hr0 & Hl0 & Hrt0 & _). eauto. }
  unfold refresh in H.
  apply bind_inv in H as (s1 & nd0 & Hn & H). apply node_inv in Hn as [-> Hn].
  rewrite Hr in Hn. injection Hn as <-.
  apply bind_inv in H as (s1 & [] & Hstart & H).
  assert (unmoved s s1 /\ same_setup s s1) as [[Hh1 Hc1] Hsetup].
  { assert (keeps unmoved
              (if is_root nd then
                 s ← get;
                 trees ← attr (trees_ s);
                 trees' ← lift (np_set trees (Z.of_nat (tree_num nd)) (Some r));
                 modify (set_trees_ trees')
               else mret tt)) as K by steady.
    assert (keeps same_setup
              (if is_root nd then
                 s ← get;
                 trees ← attr (trees_ s);
                 trees' ← lift (np_set trees (Z.of_nat (tree_num nd)) (Some r));
                 modify (set_trees_ trees')
               else mret tt)) as K'.
    { destruct (is_root nd); [apply setup_start_tree|].
      apply keeps_ret. apply same_setup_refl. }
    specialize (K s). specialize (K' s). rewrite Hstart in K, K'. auto. }
  clear Hstart.
  apply bind_inv in H as (s2 & [] & Hset & H).
  rewrite (setattrs_run r _ s1 nd) in Hset by (rewrite Hh1; exact Hr).
  injection Hset as <-.
  apply bind_inv in H as (s3 & nd2 & Hn & H). apply node_inv in Hn as [-> Hn].
  simpl in Hn. rewrite list_lookup_insert_eq in Hn
    by (rewrite Hh1; eapply lookup_lt_Some; eauto).
  injection Hn as <-. simpl in H.
  apply bind_inv in H as (s3 & preds & Hp & H).
  apply update_predictions_effect in Hp as [-> Hpreds].
  apply bind_inv in H as (s4 & resid & Hres & H). apply lift_Val in Hres as [Hres ->].
  apply bind_inv in H as (s4 & pool1 & Hfold & H).
  apply bind_inv in H as (s5 & pool2 & Hsort & H).
  apply sorted_perm in Hsort as [-> Hperm]. injection H as <- <-.
  assert (exists l r', left_temp nd = Some l /\ right_temp nd = Some r')
    as (l & r' & Hl & Hr').
  { destruct (refit_fold_Some _ _ _ _ _ _ _ _ _ _ Hfold) as [todo Htodo].
    assert (forall o, o ∈ [left_temp nd; right_temp nd] -> is_Some o) as Hs.
    { intros o Ho.
      assert (o ∈ map Some todo) as Hin.
      { rewrite <- Htodo. apply elem_of_app. right. exact Ho. }
      apply list_elem_of_fmap in Hin as (x & -> & _). eauto. }
    destruct (Hs (left_temp nd)) as [l Hl]; [left|].
    destruct (Hs (right_temp nd)) as [r' Hr']; [right; left|]. eauto. }
  rewrite Hl, Hr' in *.
  assert (kids (heap s) (rest ++ [r]) = kids (heap s) rest ++ [l; r']) as Ek.
  { unfold kids. rewrite flat_map_app. simpl. rewrite Hr, Hl, Hr'. reflexivity. }
  rewrite Ek in Hnd, Hk.
  set (h2 := <[r:=with_children (Some l) (Some r') nd]> (heap s1)) in *.
  assert (map Some rest ++ [Some l] ++ [Some r'] = map Some (rest ++ [l; r'])) as Em
    by (rewrite map_app; reflexivity).
  simpl in Em. simpl in Hfold. rewrite Em in Hfold. clear Em.
  apply refit_fold in Hfold as (P1 & P2 & P3 & P4 & P5 & P6 & P7 & P8).
  - simpl in P2, P3, P5, P6, P7, P8.
    exists pool2. split; [reflexivity|]. split; [|split; [|split; [|split; [|split]]]].
    + eapply pool_ok_perm; [symmetry; exact Hperm|exact P1].
    + rewrite P2. unfold h2. rewrite Hh1.
      eapply splits_insert_new; eauto.
    + congruence.
    + intros [F1 F2]. eapply forest_ok_perm; [symmetry; exact Hperm|].
      apply P4. simpl. unfold h2. rewrite Hh1.
      pose proof (children_insert_new (heap s) r nd
                    (with_children (Some l) (Some r') nd) l r' Hr Hleft Hright
                    eq_refl eq_refl) as Ec.
      rewrite Ek in F1. unfold forest_ok, kids at 1. simpl.
      rewrite app_nil_r, Ec, length_insert. split.
      * assert (l :: r' :: children (heap s) ≡ₚ children (heap s) ++ [l; r']) as ->.
        { rewrite <- !Permutation_middle, app_nil_r. reflexivity. }
        apply NoDup_app in F1 as (G1 & Gdis & G2).
        apply NoDup_app in G2 as (_ & _ & G2).
        apply NoDup_app. split; [exact G1|]. split; [|exact G2].
        intros x Hx Hx'. apply (Gdis x Hx). apply elem_of_app. right. exact Hx'.
      * apply Forall_app in Hk as [_ Hk].
        apply Forall_cons. split; [apply childless_lt, (Forall_inv Hk)|].
        apply Forall_cons. split; [|exact F2].
        apply childless_lt, (Forall_inv (Forall_inv_tail Hk)).
    + exists (y_residuals_per_tree loc). exact Hres.
    + intros trees Ht.
      destruct Hsetup as (_ & _ & _ & _ & _ & _ & Hlen). rewrite Ht in Hlen.
      destruct (trees_ s1) as [trees1|] eqn:Et1; [|discriminate].
      simpl in Hlen. injection Hlen as Hlen.
      exists trees1. split; [congruence|]. split; [exact Hlen|].
      intros u Hu.
      destruct (Hpreds trees1 u Et1) as (p & Hp1 & Hp2); [lia|].
      exists p. split; [exact Hp1|].
      apply (tree_prediction_same (set_heap h2 s1) s4); simpl; congruence || assumption.
  - simpl. unfold h2. rewrite Hh1.
    apply NoDup_app in Hnd as (Hn1 & Hdis & Hn2).
    apply NoDup_app in Hn1 as (Hn1 & Hrr & _).
    apply NoDup_app in Hn2 as (_ & _ & Hn2).
    assert (forall x, x ∈ rest ++ [l; r'] -> x <> r /\ childless (heap s) x) as Hall.
    { intros x Hx. apply elem_of_app in Hx as [Hx|Hx].
      - split.
        + intros ->. apply (Hrr r Hx). left.
        + rewrite Forall_forall in Hc. apply pool_node_childless, Hc.
          apply elem_of_app. left. exact Hx.
      - split.
        + intros ->. apply (Hdis r).
          * apply elem_of_app. right. left.
          * apply elem_of_app. right. exact Hx.
        + rewrite Forall_forall in Hk. apply Hk. apply elem_of_app. right. exact Hx. }
    unfold refit_ok. simpl. rewrite app_nil_r. split; [|split; [constructor|]].
    + apply NoDup_app. split; [exact Hn1|]. split; [|exact Hn2].
      intros x Hx Hx'. apply (Hdis x).
      * apply elem_of_app. left. exact Hx.
      * apply elem_of_app. right. exact Hx'.
    + apply Forall_forall. intros x Hx. destruct (Hall x Hx) as [Hne Hch].
      apply insert_childless; assumption.
Qed.

(** Lines 213-305: one pass of the loop counts one split and gives one
    node its children, or stops without doing either. *)
Lemma grow_step_splits X y sw keys y_onehot rest (r : ref) loc s s' loc' fin k :
  grow_step stump_fit recursion_limit X y sw keys y_onehot (map Some rest) (Some r) loc s
  = (s', Val (loc', fin)) ->
  pool_ok (heap s) (rest ++ [r]) -> counted k s ->
  counted k s' /\
  (forest_ok (heap s) (rest ++ [r]) -> forest (heap s')) /\
  (fin = false ->
   exists pool',
     potential_splits loc' = map Some pool' /\ pool_ok (heap s') pool' /\
     (forest_ok (heap s) (rest ++ [r]) -> forest_ok (heap s') pool')).
Proof.
  unfold grow_step. intros H Hok (c & Hc & Hcount).
  apply bind_inv in H as (s1 & r0 & Hr0 & H). injection Hr0 as <- <-.
  apply bind_inv in H as (s1 & nd & Hn & H). apply node_inv in Hn as [-> Hnd].
  apply bind_inv in H as (s1 & ir & Hir & H). apply attr_inv in Hir as [-> Hir].
  apply bind_inv in H as (s1 & s0 & Hget & H). injection Hget as <- <-.
  destruct (Qlt_bool ir (min_impurity_decrease s)).
  { injection H as <- <- <-. split; [exists c; auto|].
    split; [apply forest_ok_forest|discriminate]. }
  unfold commit in H.
  apply bind_inv in H as (s1 & s0 & Hget & H). injection Hget as <- <-.
  apply bind_inv in H as (s1 & c0 & Hc0 & H). apply attr_inv in Hc0 as [-> Hc0].
  rewrite Hc in Hc0. injection Hc0 as <-.
  apply bind_inv in H as (s1 & [] & Hmod & H). injection Hmod as <-.
  apply bind_inv in H as (s2 & loc2 & Href & H).
  apply refresh_effect in Href as (pool' & Hp & Hok' & Hs & Hc' & Hf & _);
    [|exact Hok].
  simpl in Hs, Hc'.
  apply bind_inv in H as (s3 & s0 & Hget & H). injection Hget as <- <-.
  apply bind_inv in H as (s3 & c1 & Hc1 & H). apply attr_inv in Hc1 as [-> Hc1].
  injection H as <- <- <-. split; [|split].
  - exists (c + 1). split; [exact Hc'|]. rewrite Hs. lia.
  - intros F. eapply forest_ok_forest. apply Hf. exact F.
  - intros _. eauto.
Qed.





(** Lines 210-305. *)
Lemma grow_splits X y sw keys y_onehot k : forall fuel loc pool s s' loc',
  grow stump_fit recursion_limit fuel X y sw keys y_onehot loc s = (s', Val loc') ->
  potential_splits loc = map Some pool -> pool_ok (heap s) pool -> counted k s ->
  counted k s' /\ (forest_ok (heap s) pool -> forest (heap s')).
Proof.
  induction fuel as [|fuel IH]; intros loc pool s s' loc' H Hp Hok Hcount; simpl in H.
  - destruct (pop (potential_splits loc)) as [[rest split_node]|];
      [discriminate|]. injection H as <- <-.
    split; [exact Hcount|apply forest_ok_forest].
  - destruct (pop (potential_splits loc)) as [[rest split_node]|] eqn:Hpop;
      [|injection H as <- <-; split; [exact Hcount|apply forest_ok_forest]].
    apply pop_Some in Hpop. rewrite Hp in Hpop.
    apply map_Some_snoc in Hpop as (rest' & r & -> & -> & ->).
    apply bind_inv in H as (s1 & [loc1 fin] & Hstep & H).
    apply (grow_step_splits _ _ _ _ _ _ _ _ _ _ _ _ k) in Hstep
      as (Hcount1 & Hforest & Hpool); [|exact Hok|exact Hcount].
    simpl in H. destruct fin.
    + injection H as <- <-. split; assumption.
    + destruct (Hpool eq_refl) as (pool' & Hp' & Hok' & Hf').
      destruct (IH _ _ _ _ _ H Hp' Hok' Hcount1) as [C F].
      split; [exact C|]. intros F0. apply F, Hf', F0.
Qed.

Lemma app_childless h new (x : ref) : childless h x -> childless (h ++ new) x.
Proof.
  intros (nd & Hx & Hl). exists nd. split; [apply lookup_app_l_Some; exact Hx|exact Hl].
Qed.

Lemma app_pool_node h new (x : ref) : pool_node h x -> pool_node (h ++ new) x.
Proof.
  intros (nd & Hx & Hl). exists nd. split; [apply lookup_app_l_Some; exact Hx|exact Hl].
Qed.

Lemma app_kids h new acc : Forall (pool_node h) acc -> kids (h ++ new) acc = kids h acc.
Proof.
  unfold kids. induction 1 as [|x acc (m & Hx & _) _ IH]; simpl; [reflexivity|].
  rewrite (lookup_app_l_Some _ _ _ _ Hx), Hx, IH. reflexivity.
Qed.

(** Lines 199-203: a new root and its candidate children join the pool. *)
Lemma built_pool h new acc :
  built (length h) new -> pool_ok h acc ->
  pool_ok (h ++ new) (acc ++ [length h]) /\ splits (h ++ new) = splits h.
Proof.
  intros (u & rest & -> & Hb) (Hnd & Hc & Hk).
  pose proof (built_inv _ _ _ (ex_intro _ u (ex_intro _ rest (conj eq_refl Hb)))) as Hb'.
  clear Hb. destruct Hb' as (Hu & Hur & Hshape).
  assert (forall x, x ∈ acc ++ kids h acc -> (x < length h)%nat) as Hlt.
  { intros x Hx. apply elem_of_app in Hx as [Hx|Hx].
    - rewrite Forall_forall in Hc. apply childless_lt, pool_node_childless, Hc, Hx.
    - rewrite Forall_forall in Hk. apply childless_lt, Hk, Hx. }
  assert ((h ++ u :: rest) !! (length h : ref) = Some u) as Hlu
    by (apply list_lookup_middle; reflexivity).
  assert (Forall (pool_node (h ++ u :: rest)) acc) as Hc1.
  { eapply Forall_impl; [exact Hc|]. intros x. apply app_pool_node. }
  assert (Forall (childless (h ++ u :: rest)) (kids h acc)) as Hk1.
  { eapply Forall_impl; [exact Hk|]. intros x. apply app_childless. }
  split.
  - assert (kids (h ++ u :: rest) (acc ++ [length h])
            = kids h acc ++ kids (h ++ u :: rest) [length h]) as Ek.
    { transitivity (kids (h ++ u :: rest) acc ++ kids (h ++ u :: rest) [length h]);
        [apply flat_map_app|]. rewrite app_kids by exact Hc. reflexivity. }
    unfold pool_ok. rewrite Ek. unfold kids at 2 4. simpl. rewrite Hlu, app_nil_r.
    destruct Hshape as [(-> & Hi & Hl & Hr)
                       |(l & r & -> & Hi & Hl & Hr & Hll & Hll' & Hlr & Hlr')];
      rewrite Hl, Hr; simpl.
    + rewrite app_nil_r. split; [|split].
      * rewrite <- app_assoc.
        assert (acc ++ [length h] ++ kids h acc ≡ₚ length h :: acc ++ kids h acc) as ->
          by (simpl; rewrite Permutation_middle; reflexivity).
        apply NoDup_cons. split; [|exact Hnd]. intros Hx. apply Hlt in Hx. lia.
      * apply Forall_app. split; [exact Hc1|]. apply Forall_singleton.
        exists u. split; [exact Hlu|]. split; [exact Hu|]. split; [exact Hur|].
        rewrite Hi. intros [? [=]].
      * exact Hk1.
    + split; [|split].
      * assert ((acc ++ [length h]) ++ kids h acc ++ [S (length h); S (S (length h))]
                ≡ₚ (acc ++ kids h acc) ++ [length h; S (length h); S (S (length h))]) as ->.
        { rewrite <- !app_assoc. apply Permutation_app_head. simpl.
          apply Permutation_middle. }
        apply NoDup_app. split; [exact Hnd|]. split.
        -- intros x Hx Hx'. apply Hlt in Hx.
           repeat (apply elem_of_cons in Hx' as [->|Hx']; [lia|]). inversion Hx'.
        -- repeat (apply NoDup_cons; split;
                   [intros Hx; repeat (apply elem_of_cons in Hx as [Hx|Hx]; [lia|]);
                    inversion Hx|]).
           apply NoDup_nil. exact I.
      * apply Forall_app. split; [exact Hc1|]. apply Forall_singleton.
        exists u. split; [exact Hlu|]. split; [exact Hu|]. split; [exact Hur|].
        rewrite Hl, Hr. eauto.
      * apply Forall_app. split; [exact Hk1|].
        apply Forall_cons. split; [|apply Forall_singleton].
        -- exists l. split; [|split; assumption]. rewrite lookup_app_r by lia.
           replace (S (length h) - length h)%nat with 1%nat by lia. reflexivity.
        -- exists r. split; [|split; assumption]. rewrite lookup_app_r by lia.
           replace (S (S (length h)) - length h)%nat with 2%nat by lia. reflexivity.
  - rewrite splits_app.
    assert (splits (u :: rest) = 0%nat) as ->; [|lia].
    destruct Hshape as [(-> & _)|(l & r & -> & _ & _ & _ & Hl & _ & Hr & _)];
      unfold splits; rewrite !filter_cons, ?Hu, ?Hl, ?Hr, ?filter_nil;
      repeat (destruct (decide (is_Some None)) as [[? [=]]|]); reflexivity.
Qed.

(** The same for the children: the new candidate children are new
    nodes. *)
Lemma built_pool_forest h new acc :
  built (length h) new -> pool_ok h acc -> forest_ok h acc ->
  forest_ok (h ++ new) (acc ++ [length h]).
Proof.
  intros Hb (Hnd & Hc & Hk) (F1 & F2).
  assert (children (h ++ new) = children h) as Ec
    by (rewrite children_app, (children_built _ _ Hb), app_nil_r; reflexivity).
  destruct Hb as (u & rest & -> & Hu & Hur & Hshape).
  assert ((h ++ u :: rest) !! (length h : ref) = Some u) as Hlu
    by (apply list_lookup_middle; reflexivity).
  assert (kids (h ++ u :: rest) (acc ++ [length h])
          = kids h acc ++ kids (h ++ u :: rest) [length h]) as Ek.
  { transitivity (kids (h ++ u :: rest) acc ++ kids (h ++ u :: rest) [length h]);
      [apply flat_map_app|]. rewrite app_kids by exact Hc. reflexivity. }
  unfold forest_ok. rewrite Ek, Ec. split.
  - unfold kids at 2. simpl. rewrite Hlu, app_nil_r, app_assoc.
    apply NoDup_app. split; [exact F1|]. split.
    + intros x Hx Hx'.
      assert (x < length h)%nat as Hlt.
      { apply elem_of_app in Hx as [Hx|Hx].
        - rewrite Forall_forall in F2. apply F2, Hx.
        - rewrite Forall_forall in Hk. apply childless_lt, Hk, Hx. }
      destruct Hshape as [(_ & _ & Hl & Hr)|(l & r & _ & _ & Hl & Hr & _)];
        rewrite Hl, Hr in Hx'; simpl in Hx'.
      * inversion Hx'.
      * repeat (apply elem_of_cons in Hx' as [->|Hx']; [lia|]). inversion Hx'.
    + destruct Hshape as [(_ & _ & Hl & Hr)|(l & r & _ & _ & Hl & Hr & _)];
        rewrite Hl, Hr; simpl.
      * apply NoDup_nil. exact I.
      * apply NoDup_cons. split; [|apply NoDup_singleton].
        intros Hx. apply list_elem_of_singleton in Hx. lia.
  - eapply Forall_impl; [exact F2|]. intros x Hx. simpl in Hx.
    rewrite length_app. lia.
Qed.

Lemma initial_fold X y sw mask (l : list (nat * (list nat * matrix))) :
  forall acc s s' pool,
    foldM (fun acc t =>
             node_init ← _construct_node_with_stump stump_fit X t.2.2 y mask t.1 sw;
             mret (acc ++ [node_init])) l acc s = (s', Val pool) ->
    pool_ok (heap s) acc ->
    pool_ok (heap s') pool /\ splits (heap s') = splits (heap s) /\
    complexity_ s' = complexity_ s /\
    (forest_ok (heap s) acc -> forest_ok (heap s') pool).
Proof.
  induction l as [|t l IH]; intros acc s s' pool H Hok; simpl in H.
  - injection H as <- <-. auto.
  - apply bind_inv in H as (s1 & acc1 & Hstep & H).
    apply bind_inv in Hstep as (s2 & r & Hc & Hret). injection Hret as <- <-.
    apply construct_built in Hc as (new & -> & -> & Hb).
    destruct (built_pool _ _ _ Hb Hok) as [Hok1 Hs1].
    apply IH in H as (H1 & H2 & H3 & H4); [|exact Hok1].
    split; [exact H1|]. split; [|split; [exact H3|]].
    + rewrite H2. exact Hs1.
    + intros F. apply H4. simpl. apply built_pool_forest; assumption.
Qed.

Lemma relinks_mark_roots (pool : list ref) :
  keeps relinks (foldM (fun _ r => setattrs r (with_is_root true)) pool tt).
Proof.
  apply (keeps_foldM _ relinks_refl relinks_trans). intros. apply relinks_is_root.
Qed.

(** Lines 199-207. *)
Lemma initial_splits_pool X y sw y_dict s s' pool :
  initial_splits stump_fit X y sw y_dict s = (s', Val pool) ->
  pool_ok (heap s') pool /\ splits (heap s') = splits (heap s) /\
  complexity_ s' = complexity_ s /\
  (forest (heap s) -> forest_ok (heap s') pool).
Proof.
  unfold initial_splits. intros H.
  apply bind_inv in H as (s1 & s0 & Hget & H). injection Hget as <- <-.
  apply bind_inv in H as (s1 & m & Hm & H). apply attr_inv in Hm as [-> Hm].
  apply bind_inv in H as (s1 & pool1 & Hfold & H).
  apply initial_fold in Hfold as (P1 & P2 & P3 & P4).
  2:{ split; [apply NoDup_nil; exact I|]. split; constructor. }
  apply bind_inv in H as (s2 & [] & Hmark & H).
  pose proof (relinks_mark_roots pool1 s1) as [L1 L2]. rewrite Hmark in L1, L2.
  simpl in L1, L2.
  apply sorted_perm in H as [-> Hperm].
  split; [|split; [|split]].
  - eapply pool_ok_perm; [symmetry; exact Hperm|].
    eapply pool_ok_same_links; eauto.
  - rewrite (splits_same_links _ _ L1). exact P2.
  - congruence.
  - intros [F1 F2]. eapply forest_ok_perm; [symmetry; exact Hperm|].
    eapply forest_ok_same_links; [exact L1|apply P1|].
    apply P4. split; [|exact F2]. unfold kids. simpl. rewrite app_nil_r. exact F1.
Qed.

(** Lines 174-306 up to the loop's end. *)
Lemma fit_splits fuel X y sw s s' :
  fit stump_fit recursion_limit fuel X y sw s = (s', Val tt) ->
  counted (splits (heap s)) s' /\ (forest (heap s) -> forest (heap s')).
Proof.
  unfold fit, fit_locals. intros H.
  apply bind_inv in H as (s1 & loc & H & Hret). injection Hret as <-.
  apply bind_inv in H as (s1' & [] & Hmod & H). injection Hmod as <-.
  apply bind_inv in H as (s2 & yd & Hinit & H).
  pose proof (steady_init_y y (set_complexity_ 0 s)) as [Hh2 Hc2].
  rewrite Hinit in Hh2, Hc2. simpl in Hh2, Hc2. clear Hinit.
  apply bind_inv in H as (s3 & [] & Hmod & H). injection Hmod as <-.
  apply bind_inv in H as (s4 & pool & Hsplits & H).
  apply initial_splits_pool in Hsplits as (P1 & P2 & P3 & P4). simpl in P2, P3, P4.
  eapply (grow_splits _ _ _ _ _ (splits (heap s))) in H as [C F];
    [|reflexivity|exact P1|].
  - split; [exact C|]. intros F0. apply F, P4. rewrite Hh2. exact F0.
  - exists 0. split; [congruence|]. rewrite P2, Hh2. lia.
Qed.

(** X28.  Lines 174-306: when [fit] returns, [complexity_] is the
    number of nodes that it has given children. *)
Theorem complexity_counts_the_splits fuel X y sw s s' :
  fit stump_fit recursion_limit fuel X y sw s = (s', Val tt) ->
  exists c, complexity_ s' = Some c /\
            Z.of_nat (splits (heap s')) = Z.of_nat (splits (heap s)) + c.
Proof. intros H. apply fit_splits in H as [C _]. exact C. Qed.

(** X29.  Lines 174-306: when [fit] returns, no node is the child of two
    nodes or twice the child of one (and every child is a node), given
    that this held before. *)
Theorem fit_builds_a_forest fuel X y sw s s' :
  fit stump_fit recursion_limit fuel X y sw s = (s', Val tt) ->
  forest (heap s) -> forest (heap s').
Proof. intros H. apply fit_splits in H as [_ F]. exact F. Qed.

End Splits.


(** The root candidate of tree 0 of [fit(X2, y22)], fitted again on the
    one-hot target: the stump splits, and the candidate stays in the
    pool with the reduction of that stump. *)
Lemma refit_keeps_splittable_witness :
  let out := refit Stump.fit AFIGSExample.X2 AFIGSExample.y22 None AFIGSExample.keys22
               {[0%nat := AFIGSExample.onehot22]} [] (Some 0%nat) AFIGSExample.start22 in
  let s := AFIGSExample.start22 in
  exists (r : ref) nd nd' tree_id res y_target w Xs ys stump f t,
    Some 0%nat = Some r /\ heap s !! r = Some nd /\ heap out.1 !! r = Some nd' /\
    np_get AFIGSExample.keys22 (Z.of_nat (tree_num nd)) = Val tree_id /\
    ({[0%nat := AFIGSExample.onehot22]} : gmap nat tensor) !! tree_num nd = Some res /\
    _flatten_y res tree_id s = (s, Val y_target) /\
    Val None = Val w /\
    mask_rows AFIGSExample.X2 (idxs nd) = Val Xs /\
    mask_rows y_target (idxs nd) = Val ys /\
    Stump.fit Xs ys w = Val stump /\
    np_get (tree_feature stump) 0 = Val f /\
    np_get (tree_threshold stump) 0 = Val t /\
    feature nd' = Some f /\ threshold nd' = Some t /\
    value nd' = value nd /\ idxs nd' = idxs nd /\ is_root nd' = is_root nd /\
    tree_num nd' = tree_num nd /\ left nd' = left nd /\ right nd' = right nd /\
    if (length (tree_feature stump) =? 1)%nat then
      impurity_reduction nd' = None /\ left_temp nd' = None /\ right_temp nd' = None /\
      [0%nat] = []
    else
      exists i0 i1 i2 n0 n1 n2,
        np_get (tree_impurity stump) 0 = Val i0 /\
        np_get (tree_impurity stump) 1 = Val i1 /\
        np_get (tree_impurity stump) 2 = Val i2 /\
        np_get (tree_n_node_samples stump) 0 = Val n0 /\
        np_get (tree_n_node_samples stump) 1 = Val n1 /\
        np_get (tree_n_node_samples stump) 2 = Val n2 /\
        impurity_reduction nd'
        = Some ((i0 - i1 * inject_Z n1 / inject_Z n0 - i2 * inject_Z n2 / inject_Z n0)
                * inject_Z (mask_sum (idxs nd)))%Q /\
        left_temp nd' = Some (S (length (heap s))) /\
        right_temp nd' = Some (S (S (length (heap s)))) /\
        [0%nat] = [] ++ [r].
Proof.
  apply (refit_keeps_splittable Stump.fit AFIGSExample.X2 AFIGSExample.y22 None
           AFIGSExample.keys22 {[0%nat := AFIGSExample.onehot22]} [] (Some 0%nat)
           AFIGSExample.start22).
  vm_compute. reflexivity.
Defined.

(** The same candidate fitted on a residual that is 0 everywhere: the
    stump has no split, and the candidate leaves the pool. *)
Example refit22_both_ways :
  let kept := refit Stump.fit AFIGSExample.X2 AFIGSExample.y22 None AFIGSExample.keys22
                {[0%nat := AFIGSExample.onehot22]} [] (Some 0%nat)
                AFIGSExample.start22 in
  let left_out := refit Stump.fit AFIGSExample.X2 AFIGSExample.y22 None
                    AFIGSExample.keys22 {[0%nat := [[0; 0; 0; 0]; [0; 0; 0; 0]]%Q]} []
                    (Some 0%nat) AFIGSExample.start22 in
  kept.2 = Val [0%nat] /\
  match impurity_reduction <$> heap kept.1 !! 0%nat with
  | Some (Some q) => (q == 1 # 2)%Q
  | _ => False
  end /\
  left_out.2 = Val [] /\
  (impurity_reduction <$> heap left_out.1 !! 0%nat) = Some None.
Proof. vm_compute. repeat split. Qed.

Example commit22_predictions :
  trees_ AFIGSExample.commit22.1 = Some [None; Some 3%nat; None] /\
  tree_prediction 100 AFIGSExample.commit22.1 AFIGSExample.X2 0
  = Val [[0; 0; 0; 0]; [0; 0; 0; 0]]%Q /\
  tree_prediction 100 AFIGSExample.commit22.1 AFIGSExample.X2 1
  = Val AFIGSExample.onehot22 /\
  interfering AFIGSExample.keys22 2 [0; 1]%nat = [0; 1]%nat /\
  interfering AFIGSExample.keys22 0 [0]%nat = [2]%nat.
Proof. vm_compute. repeat split. Qed.


(** ** The theorems on a run: [fit(X2, y2)] *)

Lemma fit_builds_binary_trees_witness :
  well_formed (heap (__init__ None (Some 12) 0%Q)) /\
  well_formed (heap AFIGSExample.fitted2).
Proof.
  assert (well_formed (heap (__init__ None (Some 12) 0%Q))) as H0.
  { intros r nd H. vm_compute in H. destruct r; discriminate H. }
  split; [exact H0|].
  apply (fit_builds_binary_trees Stump.fit 100 5 AFIGSExample.X2 AFIGSExample.y2 None
           (__init__ None (Some 12) 0%Q)).
  exact H0.
Defined.

Lemma predicted_value_is_a_leaf_value_witness :
  exists r nd,
    heap AFIGSExample.fitted2 !! r = Some nd /\ left nd = None /\ right nd = None /\
    value nd = NdArray [2] [0; 1]%Q.
Proof.
  apply (predicted_value_is_a_leaf_value 100 (heap AFIGSExample.fitted2) 0%nat [1%Q]).
  - apply (tidy_fit Stump.fit 100 5 AFIGSExample.X2 AFIGSExample.y2 None
             (__init__ None (Some 12) 0%Q)).
    intros r nd H. vm_compute in H. destruct r; discriminate H.
  - vm_compute. reflexivity.
Defined.

Lemma prediction_descends_witness :
  (exists v, _predict_tree_single_point 100 (heap AFIGSExample.fitted2) 0%nat [1%Q]
             = Val v) \/
  _predict_tree_single_point 100 (heap AFIGSExample.fitted2) 0%nat [1%Q]
  = Exn IndexError.
Proof.
  apply (prediction_descends 100 (heap AFIGSExample.fitted2) 0%nat [1%Q]).
  - apply (tidy_fit Stump.fit 100 5 AFIGSExample.X2 AFIGSExample.y2 None
             (__init__ None (Some 12) 0%Q)).
    intros r nd H. vm_compute in H. destruct r; discriminate H.
  - vm_compute. lia.
  - vm_compute. lia.
Defined.

Lemma complexity_counts_the_splits_witness :
  exists c,
    complexity_ AFIGSExample.fitted2 = Some c /\
    Z.of_nat (splits (heap AFIGSExample.fitted2))
    = Z.of_nat (splits (heap (__init__ None (Some 12) 0%Q))) + c.
Proof.
  apply (complexity_counts_the_splits Stump.fit 100 5 AFIGSExample.X2 AFIGSExample.y2
           None (__init__ None (Some 12) 0%Q) AFIGSExample.fitted2).
  vm_compute. reflexivity.
Defined.

Lemma fit_builds_a_forest_witness :
  forest (heap (__init__ None (Some 12) 0%Q)) /\ forest (heap AFIGSExample.fitted2).
Proof.
  assert (forest (heap (__init__ None (Some 12) 0%Q))) as H0.
  { split; [apply NoDup_nil; exact I|constructor]. }
  split; [exact H0|].
  apply (fit_builds_a_forest Stump.fit 100 5 AFIGSExample.X2 AFIGSExample.y2 None
           (__init__ None (Some 12) 0%Q) AFIGSExample.fitted2).
  - vm_compute. reflexivity.
  - exact H0.
Defined.
